From stdpp Require Import list sorting.
From Stdlib Require Import ZArith Lia.

(** * Coordinates

    The Go source is generic in the coordinate type [N number] (any integer
    or floating type).  The code only uses [<], [>] (which is [<] with its
    arguments exchanged), [-], [*] and the constant [0]. *)

Class number (N : Type) := Number {
  nlt : N → N → bool;
  nsub : N → N → N;
  nmul : N → N → N;
  nzero : N }.

(** The order laws of every integer instantiation of [number]: [<] is a
    strict total order.  (Floating types fail them at NaN.) *)
Class number_order (N : Type) `{number N} : Prop := NumberOrder {
  nlt_irrefl : ∀ a, nlt a a = false;
  nlt_trans : ∀ a b c, nlt a b = true → nlt b c = true → nlt a c = true;
  nlt_connex : ∀ a b, nlt a b = false → nlt b a = false → a = b }.

(** Go's [int64] (and [int] on 64-bit targets): two's complement
    wrap-around on subtraction and multiplication. *)
Definition wrap64 (z : Z) : Z := ((z + 2 ^ 63) mod 2 ^ 64 - 2 ^ 63)%Z.

#[export] Instance int64_number : number Z :=
  {| nlt := Z.ltb;
     nsub := λ a b, wrap64 (a - b);
     nmul := λ a b, wrap64 (a * b);
     nzero := 0%Z |}.

#[export] Instance int64_order : number_order Z.
Proof.
  split; simpl; intros.
  - apply Z.ltb_irrefl.
  - apply Z.ltb_lt. apply Z.ltb_lt in H, H0. lia.
  - apply Z.ltb_ge in H, H0. lia.
Qed.

Section Rect.
Context {N : Type} {num : number N}.

(** [type rect struct { min [2]N; max [2]N }]: a [[2]N] array is a pair,
    indexed by [at2]. *)
Record rect := Rect { rmin : N * N; rmax : N * N }.

Definition at2 (p : N * N) (axis : nat) : N :=
  match axis with 0 => p.1 | _ => p.2 end.

Definition fmin (a b : N) : N := if nlt a b then a else b.
Definition fmax (a b : N) : N := if nlt b a then a else b.

(** [func (r *rect) expand(b *rect)], returning the updated [r]. *)
Definition expand (r b : rect) : rect :=
  let min0 := if nlt (rmin b).1 (rmin r).1 then (rmin b).1 else (rmin r).1 in
  let max0 := if nlt (rmax r).1 (rmax b).1 then (rmax b).1 else (rmax r).1 in
  let min1 := if nlt (rmin b).2 (rmin r).2 then (rmin b).2 else (rmin r).2 in
  let max1 := if nlt (rmax r).2 (rmax b).2 then (rmax b).2 else (rmax r).2 in
  Rect (min0, min1) (max0, max1).

Definition area (r : rect) : N :=
  nmul (nsub (rmax r).1 (rmin r).1) (nsub (rmax r).2 (rmin r).2).

(** [r.contains(b)]: b is fully contained inside of r. *)
Definition contains (r b : rect) : bool :=
  if nlt (rmin b).1 (rmin r).1 || nlt (rmax r).1 (rmax b).1 then false
  else if nlt (rmin b).2 (rmin r).2 || nlt (rmax r).2 (rmax b).2 then false
  else true.

Definition intersects (r b : rect) : bool :=
  if nlt (rmax r).1 (rmin b).1 || nlt (rmax b).1 (rmin r).1 then false
  else if nlt (rmax r).2 (rmin b).2 || nlt (rmax b).2 (rmin r).2 then false
  else true.

Definition unionedArea (r b : rect) : N :=
  nmul (nsub (fmax (rmax r).1 (rmax b).1) (fmin (rmin r).1 (rmin b).1))
       (nsub (fmax (rmax r).2 (rmax b).2) (fmin (rmin r).2 (rmin b).2)).

Definition largestAxis (r : rect) : nat :=
  if nlt (nsub (rmax r).1 (rmin r).1) (nsub (rmax r).2 (rmin r).2) then 1 else 0.

Definition equals (r b : rect) : bool :=
  negb (nlt (rmin r).1 (rmin b).1 || nlt (rmin b).1 (rmin r).1 ||
        nlt (rmin r).2 (rmin b).2 || nlt (rmin b).2 (rmin r).2 ||
        nlt (rmax r).1 (rmax b).1 || nlt (rmax b).1 (rmax r).1 ||
        nlt (rmax r).2 (rmax b).2 || nlt (rmax b).2 (rmax r).2).

(** [r.onedge(b)]: r is on the edge of b. *)
Definition onedge (r b : rect) : bool :=
  negb (nlt (rmin b).1 (rmin r).1 && nlt (rmin b).2 (rmin r).2 &&
        nlt (rmax r).1 (rmax b).1 && nlt (rmax r).2 (rmax b).2).

Definition zero_rect : rect := Rect (nzero, nzero) (nzero, nzero).

End Rect.
Arguments rect N : clear implicits.

(** * Node-local algorithms

    A node stores [count] entries in the parallel arrays [rects] and
    [items] (leaf) or [children] (branch), always updated in lockstep.  The
    active part [0..count) of both arrays is modelled as one list of pairs;
    its length is the node's [count].  The algorithms below only look at the
    rectangles, so they are written once, for any slot type [A]. *)

Definition maxEntries : nat := 64.
Definition minEntries : nat := maxEntries * 10 / 100.

Section NodeOps.
Context {N : Type} {num : number N} {A : Type}.

Local Abbreviation ents := (list (rect N * A)).

Definition min0 (e : rect N * A) : N := (rmin e.1).1.

(** [n.rect()]: [rects[0]] expanded by the other active rectangles.  When
    [count] is 0 the Go code returns whatever slot 0 holds, here [slot0]. *)
Definition nodeRectOr (slot0 : rect N) (es : ents) : rect N :=
  match es with
  | [] => slot0
  | e :: es' => foldl (λ acc x, expand acc x.1) e.1 es'
  end.

Definition nodeRect (es : ents) : rect N := nodeRectOr zero_rect es.

(** [n.swap(i, j)] *)
Definition swap (i j : nat) (l : ents) : ents :=
  match l !! i, l !! j with
  | Some a, Some b => <[i := b]> (<[j := a]> l)
  | _, _ => l
  end.

(** [n.orderToRight(idx)]; the loop runs at most [count] times. *)
Fixpoint orderToRight_loop (fuel : nat) (l : ents) (idx : nat) : ents * nat :=
  match fuel with
  | 0 => (l, idx)
  | S fuel =>
      match l !! idx, l !! (idx + 1) with
      | Some a, Some b =>
          if nlt (min0 b) (min0 a)
          then orderToRight_loop fuel (swap (idx + 1) idx l) (idx + 1)
          else (l, idx)
      | _, _ => (l, idx)
      end
  end.

Definition orderToRight (l : ents) (idx : nat) : ents * nat :=
  orderToRight_loop (length l) l idx.

(** [n.orderToLeft(idx)] *)
Fixpoint orderToLeft (l : ents) (idx : nat) : ents * nat :=
  match idx with
  | 0 => (l, 0)
  | S i =>
      match l !! idx, l !! i with
      | Some a, Some b =>
          if nlt (min0 a) (min0 b)
          then orderToLeft (swap idx i l) i
          else (l, idx)
      | _, _ => (l, idx)
      end
  end.

(** [n.rsearch(key)]: the first index whose [min[0]] is not below [key],
    or [count]. *)
Fixpoint rsearch (l : ents) (key : N) : nat :=
  match l with
  | [] => 0
  | e :: l' => if nlt (min0 e) key then S (rsearch l' key) else 0
  end.

(** [n.issorted()] *)
Fixpoint issorted (l : ents) : bool :=
  match l with
  | a :: (b :: _) as l' => if nlt (min0 b) (min0 a) then false else issorted l'
  | _ => true
  end.

(** The sort key of [qsort]: [min[axis]] or [max[axis]]. *)
Definition qkey (axis : nat) (max : bool) (e : rect N * A) : N :=
  if max then at2 (rmax e.1) axis else at2 (rmin e.1) axis.

(** The test that sends [rects[i]] to the left of the pivot [rects[right]]. *)
Definition qbefore (axis : nat) (rev max : bool) (a p : rect N * A) : bool :=
  if rev then nlt (qkey axis max p) (qkey axis max a)
  else nlt (qkey axis max a) (qkey axis max p).

(** The partition loop [for i := 0; i < len(rects); i++]; [n] counts the
    iterations left, [lo] and [hi] are the Go variables [left] and [right]. *)
Fixpoint partition_loop (axis : nat) (rev max : bool)
    (n i lo hi : nat) (l : ents) : ents * nat :=
  match n with
  | 0 => (l, lo)
  | S n =>
      match l !! i, l !! hi with
      | Some a, Some p =>
          if qbefore axis rev max a p
          then partition_loop axis rev max n (S i) (S lo) hi (swap i lo l)
          else partition_loop axis rev max n (S i) lo hi l
      | _, _ => (l, lo)
      end
  end.

(** [n.qsort(s, e, axis, rev, max)] on the segment [rects[s:e]], which is
    all the call reads and writes.  Every recursive call is on a strictly
    shorter segment, so [fuel = e - s] is enough. *)
Fixpoint qsort (fuel : nat) (axis : nat) (rev max : bool) (l : ents) : ents :=
  match fuel with
  | 0 => l
  | S fuel =>
      let nrects := length l in
      if nrects <? 2 then l
      else
        let hi := nrects - 1 in
        let pivot := nrects / 2 in
        let l1 := swap pivot hi l in
        let '(l2, lo) := partition_loop axis rev max nrects 0 0 hi l1 in
        let l3 := swap lo hi l2 in
        match l3 !! lo with
        | Some p =>
            qsort fuel axis rev max (take lo l3) ++
            p :: qsort fuel axis rev max (drop (S lo) l3)
        | None => l3
        end
  end.

Definition sortByAxis (axis : nat) (rev max : bool) (l : ents) : ents :=
  qsort (length l) axis rev max l.

(** [n.sort()] *)
Definition sort (l : ents) : ents := qsort (length l) 0 false false l.

(** [tr.moveRectAtIndexInto(from, index, into)]: the entry at [index]
    is appended to [into], the last entry of [from] takes its place and
    [from] shrinks by one.  [None] is the run-time panic of an index out of
    range ([from] empty, or [into] already holding [maxEntries]). *)
Definition moveRectAtIndexInto (from : ents) (index : nat) (into : ents)
    : option (ents * ents) :=
  if maxEntries <=? length into then None
  else
    match from !! index, last from with
    | Some e, Some lst =>
        Some (take (length from - 1) (<[index := lst]> from), into ++ [e])
    | _, _ => None
    end.

(** The distribution loop of the split:
    [for i := 0; i < int(left.count); i++ { ...; i-- }].  Each round either
    advances [i] or shortens [left], so [count] rounds are enough; [None]
    also stands for running out of them. *)
Fixpoint split_loop (fuel : nat) (r : rect N) (axis : nat) (i : nat)
    (lft rgt : ents) : option (ents * ents) :=
  match lft !! i with
  | None => Some (lft, rgt)
  | Some e =>
      match fuel with
      | 0 => None
      | S fuel =>
          let minDist := nsub (at2 (rmin e.1) axis) (at2 (rmin r) axis) in
          let maxDist := nsub (at2 (rmax r) axis) (at2 (rmax e.1) axis) in
          if nlt minDist maxDist
          then split_loop fuel r axis (S i) lft rgt
          else
            match moveRectAtIndexInto lft i rgt with
            | Some (lft', rgt') => split_loop fuel r axis i lft' rgt'
            | None => None
            end
      end
  end.

(** [for into.count < minEntries { moveRectAtIndexInto(from, from.count-1, into) }] *)
Fixpoint refill (fuel : nat) (from into : ents) : option (ents * ents) :=
  if length into <? minEntries then
    match fuel with
    | 0 => None
    | S fuel =>
        match moveRectAtIndexInto from (length from - 1) into with
        | Some (from', into') => refill fuel from' into'
        | None => None
        end
    end
  else Some (from, into).

(** [tr.splitNodeLargestAxisEdgeSnap(r, left)] on the entries of [left];
    [right] starts as a fresh node.  Returns the entries of (left, right).
    [orderBranches] and [orderLeaves] are both [true], so the final sort is
    always done. *)
Definition splitNodeLargestAxisEdgeSnap (r : rect N) (lft : ents)
    : option (ents * ents) :=
  let axis := largestAxis r in
  match split_loop (length lft) r axis 0 lft [] with
  | None => None
  | Some (lft, rgt) =>
      let repaired :=
        if length lft <? minEntries then
          match refill minEntries (sortByAxis axis true false rgt) lft with
          | Some (rgt', lft') => Some (lft', rgt')
          | None => None
          end
        else if length rgt <? minEntries then
          refill minEntries (sortByAxis axis true true lft) rgt
        else Some (lft, rgt) in
      match repaired with
      | None => None
      | Some (lft, rgt) =>
          let rgt := sort rgt in
          let lft := if issorted lft then lft else sort lft in
          Some (lft, rgt)
      end
  end.

Definition splitNode := splitNodeLargestAxisEdgeSnap.

(** The subtree choice of [nodeInsert] ([quickChooser] is [false]): the
    first loop keeps the containing child of least area, as (index, area). *)
Fixpoint chooseContaining (rs : list (rect N)) (ir : rect N) (i : nat)
    (cur : option (nat * N)) : option (nat * N) :=
  match rs with
  | [] => cur
  | r :: rs' =>
      let cur' :=
        if contains r ir then
          let a := area r in
          match cur with
          | None => Some (i, a)
          | Some (_, narea) => if nlt a narea then Some (i, a) else cur
          end
        else cur in
      chooseContaining rs' ir (S i) cur'
  end.

(** [n.chooseLeastEnlargement(ir)]; the state is (j, jenlargement, jarea),
    [None] for [j == -1]. *)
Fixpoint chooseLeastEnlargement_loop (rs : list (rect N)) (ir : rect N)
    (i : nat) (cur : option (nat * N * N)) : option (nat * N * N) :=
  match rs with
  | [] => cur
  | r :: rs' =>
      let uarea := unionedArea r ir in
      let a := area r in
      let enlargement := nsub uarea a in
      let cur' :=
        match cur with
        | None => Some (i, enlargement, a)
        | Some (_, jenlargement, jarea) =>
            if nlt enlargement jenlargement ||
               (negb (nlt jenlargement enlargement) && nlt a jarea)
            then Some (i, enlargement, a)
            else cur
        end in
      chooseLeastEnlargement_loop rs' ir (S i) cur'
  end.

Definition chooseLeastEnlargement (rs : list (rect N)) (ir : rect N) : option nat :=
  match chooseLeastEnlargement_loop rs ir 0 None with
  | Some (j, _, _) => Some j
  | None => None
  end.

(** The index [nodeInsert] descends into; [None] is [index == -1], which
    makes the following [n.rects[index]] panic. *)
Definition chooseSubtree (rs : list (rect N)) (ir : rect N) : option nat :=
  match chooseContaining rs ir 0 None with
  | Some (index, _) => Some index
  | None => chooseLeastEnlargement rs ir
  end.

(** Leaf insertion: [index = n.rsearch(ir.min[0])], shift the tail right,
    store the entry. *)
Definition leafInsert (es : ents) (ir : rect N) (data : A) : ents :=
  let index := rsearch es (rmin ir).1 in
  take index es ++ (ir, data) :: drop index es.

(** Branch, [if grown]: expand the child's rectangle and reorder. *)
Definition branchGrown (es : ents) (index : nat) (ir : rect N) : ents * nat :=
  orderToLeft (alter (λ e, (expand e.1 ir, e.2)) index es) index.

(** Branch, [if split]: the slot at [index] gets the left rectangle, the
    right sibling is inserted after it, the pair and then the right
    neighbour are put in order.  [None]: the branch is already full. *)
Definition branchSplit (es : ents) (index : nat) (lrect rrect : rect N)
    (rgt : A) : option ents :=
  if maxEntries <=? length es then None
  else
    match es !! index with
    | None => None
    | Some (_, lft) =>
        let es1 := <[index := (lrect, lft)]> es in
        let es2 := take (S index) es1 ++ (rrect, rgt) :: drop (S index) es1 in
        let es3 :=
          if nlt (rmin rrect).1 (rmin lrect).1 then swap (S index) index es2
          else es2 in
        Some (orderToRight es3 (S index)).1
    end.

End NodeOps.

(** * The tree as a value

    The contents of the nodes reachable from a root, as an inductive tree.
    The operations below are the ones of the Go code with the store (and so
    the versions [cow], which only decide whether a node is copied before it
    is written) abstracted away; the store-level operations are proved to
    compute them. *)

Section Pure.
Context {N : Type} {num : number N} {T : Type}.
Context (compare : T → T → option bool).

Inductive ptree : Type :=
  | PLeaf (es : list (rect N * T))
  | PBranch (es : list (rect N * ptree)).

Definition pcount (t : ptree) : nat :=
  match t with PLeaf es => length es | PBranch es => length es end.
Definition pleaf (t : ptree) : bool :=
  match t with PLeaf _ => true | PBranch _ => false end.
Definition prect (t : ptree) : rect N :=
  match t with PLeaf es => nodeRect es | PBranch es => nodeRect es end.
Definition psort (t : ptree) : ptree :=
  match t with PLeaf es => PLeaf (sort es) | PBranch es => PBranch (sort es) end.

(** All leaf entries, in scan order. *)
Fixpoint entries (t : ptree) : list (rect N * T) :=
  match t with
  | PLeaf es => es
  | PBranch es => concat (map (λ e, entries e.2) es)
  end.

Fixpoint pheight (t : ptree) : nat :=
  match t with
  | PLeaf _ => 0
  | PBranch es => S (foldr (λ e acc, Nat.max (pheight e.2) acc) 0 es)
  end.

Definition psplit (r : rect N) (t : ptree) : option (ptree * ptree) :=
  match t with
  | PLeaf es =>
      match splitNode r es with
      | None => None
      | Some (l', r') => Some (PLeaf l', PLeaf r')
      end
  | PBranch es =>
      match splitNode r es with
      | None => None
      | Some (l', r') => Some (PBranch l', PBranch r')
      end
  end.

(** What [nodeInsert] does in a branch once the call on the chosen child
    has returned [(child, grown)]. *)
Definition pinsert_branch (es : list (rect N * ptree)) (index : nat)
    (r : rect N) (child : ptree) (grown : bool) (nr ir : rect N)
    : option (ptree * bool) :=
  let es := <[index := (r, child)]> es in
  let split := pcount child =? maxEntries in
  let '(es, index, grown) :=
    if grown then
      let '(es, index) := branchGrown es index ir in
      (es, index, negb (contains nr ir))
    else (es, index, false) in
  if split then
    match es !! index with
    | None => None
    | Some (r, lft) =>
        match psplit r lft with
        | None => None
        | Some (lft, rgt) =>
            match branchSplit (<[index := (r, lft)]> es) index
                    (prect lft) (prect rgt) rgt with
            | None => None
            | Some es => Some (PBranch es, grown)
            end
        end
    end
  else Some (PBranch es, grown).

Fixpoint pinsert (t : ptree) (nr ir : rect N) (data : T)
    : option (ptree * bool) :=
  match t with
  | PLeaf es =>
      if maxEntries <=? length es then None
      else Some (PLeaf (leafInsert es ir data), negb (contains nr ir))
  | PBranch es =>
      match chooseSubtree es.*1 ir with
      | None => None
      | Some index =>
          match (fix sel (l : list (rect N * ptree)) (i : nat)
                  : option (rect N * option (ptree * bool)) :=
                   match l, i with
                   | [], _ => None
                   | (r, c) :: _, 0 => Some (r, pinsert c r ir data)
                   | _ :: l', S i' => sel l' i'
                   end) es index with
          | Some (r, Some (child, grown)) =>
              pinsert_branch es index r child grown nr ir
          | _ => None
          end
      end
  end.

(** A tree value: [count], [rect] and the root. *)
Record PTree := PT {
  ptcount : Z;
  ptrect : rect N;
  ptroot : option ptree }.

Definition PInsert (tr : PTree) (min max : N * N) (data : T) : option PTree :=
  let ir := Rect min max in
  let '(root, rect) :=
    match ptroot tr with
    | None => (PLeaf [], ir)
    | Some t => (t, ptrect tr)
    end in
  match pinsert root rect ir data with
  | None => None
  | Some (root, grown) =>
      let split := pcount root =? maxEntries in
      let rect := if grown : bool then expand rect ir else rect in
      let root' :=
        if split then
          match psplit rect root with
          | None => None
          | Some (lft, rgt) =>
              Some (PBranch [(prect lft, lft); (prect rgt, rgt)])
          end
        else Some root in
      match root' with
      | None => None
      | Some root =>
          let root :=
            if negb (pleaf root) && (grown || split) then psort root
            else root in
          Some (PT (ptcount tr + 1) rect (Some root))
      end
  end.

Fixpoint leafFind (es : list (rect N * T)) (ir : rect N) (data : T) (i : nat)
    : option (option nat) :=
  match es with
  | [] => Some None
  | (r, item) :: es' =>
      if contains ir r then
        match compare item data with
        | None => None
        | Some true => Some (Some i)
        | Some false => leafFind es' ir data (S i)
        end
      else leafFind es' ir data (S i)
  end.

(** What [nodeDelete] does in a leaf once the entry [i] is found. *)
Definition leafDelete (es : list (rect N * T)) (i : nat) (nr ir : rect N)
    : list (rect N * T) * rect N * bool :=
  let slot0 := default zero_rect (fst <$> es !! 0) in
  let es' := delete i es in
  let shrunk := onedge ir nr in
  (es', (if shrunk then nodeRectOr slot0 es' else nr), shrunk).

(** What [nodeDelete] does in a branch once the call on child [i] has
    removed an entry; [es] already holds the child's new rectangle [r]. *)
Definition branchDelete {A} (es : list (rect N * A)) (i : nat)
    (r crect : rect N) (underflow shrunk : bool) (nr : rect N)
    : list (rect N * A) * rect N * bool :=
  if underflow then
    let slot0 := default zero_rect (fst <$> es !! 0) in
    let es := delete i es in
    (es, nodeRectOr slot0 es, true)
  else if shrunk then
    let shrunk := negb (equals r crect) in
    ((orderToRight es i).1, (if shrunk then nodeRect es else nr), shrunk)
  else (es, nr, false).

Fixpoint pdelete (t : ptree) (nr ir : rect N) (data : T)
    (reinsert : list ptree)
    : option (ptree * rect N * bool * bool * list ptree) :=
  match t with
  | PLeaf es =>
      match leafFind es ir data 0 with
      | None => None
      | Some None => Some (t, nr, false, false, reinsert)
      | Some (Some i) =>
          let '(es', nr, shrunk) := leafDelete es i nr ir in
          Some (PLeaf es', nr, true, shrunk, reinsert)
      end
  | PBranch es =>
      (fix loop (rest : list (rect N * ptree)) (i : nat)
           (es : list (rect N * ptree)) (reinsert : list ptree)
           {struct rest}
           : option (ptree * rect N * bool * bool * list ptree) :=
         match rest with
         | [] => Some (PBranch es, nr, false, false, reinsert)
         | (crect, child) :: rest =>
             if negb (contains crect ir) then loop rest (S i) es reinsert
             else
               match pdelete child crect ir data reinsert with
               | None => None
               | Some (child, r, removed, shrunk, reinsert) =>
                   let es := <[i := (r, child)]> es in
                   if negb removed then loop rest (S i) es reinsert
                   else
                     let underflow := pcount child <? minEntries in
                     let '(es', nr, shrunk) :=
                       branchDelete es i r crect underflow shrunk nr in
                     Some (PBranch es', nr, true, shrunk,
                           if underflow then reinsert ++ [child] else reinsert)
               end
         end) es 0 es reinsert
  end.

Fixpoint pcollapse (t : ptree) : ptree :=
  match t with
  | PBranch [(_, child)] => pcollapse child
  | _ => t
  end.

Fixpoint preinsert (n : ptree) (tr : PTree) : option PTree :=
  match n with
  | PLeaf es =>
      foldl (λ acc e, match acc with
                      | Some tr => PInsert tr (rmin e.1) (rmax e.1) e.2
                      | None => None
                      end) (Some tr) es
  | PBranch es =>
      foldl (λ acc e, match acc with
                      | Some tr => preinsert e.2 tr
                      | None => None
                      end) (Some tr) es
  end.

Definition PDelete (tr : PTree) (min max : N * N) (data : T)
    : option (PTree * bool) :=
  let ir := Rect min max in
  match ptroot tr with
  | None => Some (tr, false)
  | Some root =>
      if negb (contains (ptrect tr) ir) then Some (tr, false)
      else
        match pdelete root (ptrect tr) ir data [] with
        | None => None
        | Some (root, rect, removed, _, reinsert) =>
            if negb removed
            then Some (PT (ptcount tr) rect (Some root), false)
            else
              let count :=
                foldl (λ acc n, acc - Z.of_nat (length (entries n)))%Z
                      (ptcount tr - 1)%Z reinsert in
              let tr :=
                if (count =? 0)%Z then PT count zero_rect None
                else PT count rect (Some (pcollapse root)) in
              match foldl (λ acc n, match acc with
                                    | Some tr => preinsert n tr
                                    | None => None
                                    end) (Some tr) reinsert with
              | None => None
              | Some tr => Some (tr, true)
              end
        end
  end.

Definition PReplace (tr : PTree) (oldMin oldMax : N * N) (oldData : T)
    (newMin newMax : N * N) (newData : T) : option PTree :=
  match PDelete tr oldMin oldMax oldData with
  | None => None
  | Some (tr, removed) =>
      if removed then PInsert tr newMin newMax newData else Some tr
  end.

End Pure.
Arguments ptree N T : clear implicits.
Arguments PTree N T : clear implicits.

(** * The tree on a store of nodes

    Nodes are heap objects shared between a tree and its copies, so the
    tree operations are modelled on an explicit store: a list of nodes
    addressed by position.  Allocation appends; nothing is ever freed (Go is
    garbage collected). *)

Abbreviation ptr := nat (only parsing).

(** The outcome of running Go code: a result, a run-time panic, or the
    recursion bound of the model exhausted. *)
Inductive res (X : Type) : Type :=
  | Ok (x : X)
  | Panic
  | OutOfFuel.
Arguments Ok {X} x.
Arguments Panic {X}.
Arguments OutOfFuel {X}.

Section Store.
Context {N : Type} {num : number N} {T : Type}.

(** [leafNode] and [branchNode] with their common header: the version
    [cow], the kind (the constructor), and the active entries. *)
Inductive node : Type :=
  | Leaf (cow : Z) (es : list (rect N * T))
  | Branch (cow : Z) (es : list (rect N * ptr)).

Definition ncow (n : node) : Z :=
  match n with Leaf c _ | Branch c _ => c end.
Definition ncount (n : node) : nat :=
  match n with Leaf _ es => length es | Branch _ es => length es end.
Definition nleaf (n : node) : bool :=
  match n with Leaf _ _ => true | Branch _ _ => false end.
Definition nrect (n : node) : rect N :=
  match n with Leaf _ es => nodeRect es | Branch _ es => nodeRect es end.
Definition nsort (n : node) : node :=
  match n with Leaf c es => Leaf c (sort es) | Branch c es => Branch c (sort es) end.

Local Abbreviation store := (list node).

(** State-and-error monad over the store. *)
Definition M (X : Type) : Type := store → res (X * store).

Definition ret {X} (x : X) : M X := λ h, Ok (x, h).
Definition bind {X Y} (m : M X) (k : X → M Y) : M Y :=
  λ h, match m h with
       | Ok (x, h') => k x h'
       | Panic => Panic
       | OutOfFuel => OutOfFuel
       end.
Definition panic {X} : M X := λ _, Panic.
Definition out_of_fuel {X} : M X := λ _, OutOfFuel.

(** Dereferencing; a dangling pointer is a nil dereference. *)
Definition load (p : ptr) : M node :=
  λ h, match h !! p with Some n => Ok (n, h) | None => Panic end.
Definition put (p : ptr) (n : node) : M unit :=
  λ h, if p <? length h then Ok (tt, <[p := n]> h) else Panic.
Definition alloc (n : node) : M ptr :=
  λ h, Ok (length h, h ++ [n]).

(** The recursive functions below take their recursion depth as an
    argument.  A chain of distinct nodes is no longer than the store, which
    bounds the depth any call needs. *)
Definition depth (h : store) : nat := S (length h).
Definition bounded {X} (f : nat → M X) : M X := λ h, f (depth h) h.

End Store.
Arguments node N T : clear implicits.
Abbreviation store N T := (list (node N T)).
Arguments M N T X : clear implicits.

Notation "'let*' x ':=' m 'in' k" := (bind m (λ x, k))
  (at level 10, x pattern, m at level 100, k at level 200).

Section Tree.
Context {N : Type} {num : number N} {T : Type}.
(** [compare(a, b)]: [interface{}(a) == interface{}(b)]; [None] when the
    comparison panics. *)
Context (compare : T → T → option bool).

Local Abbreviation node := (node N T).
Local Abbreviation M := (M N T).

(** [type RTreeG2 struct]; the field [empty] (the zero value of [T], used to
    clear vacated slots) has no counterpart, the slots past [count] not
    being modelled.  [count] is a Go [int]; it cannot overflow, every counted
    entry occupying memory. *)
Record RTreeG2 := Tree {
  tcow : Z;
  tcount : Z;
  trect : rect N;
  troot : option ptr }.

(** [tr.newNode(isleaf)] *)
Definition newNode (tr_cow : Z) (isleaf : bool) : node :=
  if isleaf then Leaf tr_cow [] else Branch tr_cow [].

(** [tr.copy(n)]: [n2 := tr.newNode(n.leaf()); *n2 = *n] overwrites the
    whole header of the new node, its [cow] included, with that of [n];
    then the active items or children are copied. *)
Definition copyNode (tr_cow : Z) (n : node) : node :=
  match newNode tr_cow (nleaf n), n with
  | Leaf _ _, Leaf c es => Leaf c es
  | Branch _ _, Branch c es => Branch c es
  | n2, _ => n2
  end.

(** [tr.cowLoad(cn)] returns the pointer now stored in [*cn] with the node
    it points to. *)
Definition cowLoad (tr_cow : Z) (cn : ptr) : M (ptr * node) :=
  let* n := load cn in
  if bool_decide (ncow n ≠ tr_cow)
  then (let n2 := copyNode tr_cow n in let* p := alloc n2 in ret (p, n2))
  else ret (cn, n).

(** [tr.splitNode(r, left)] on the store: [left] is rewritten in place,
    the new right sibling is returned. *)
Definition splitNodeAt (tr_cow : Z) (r : rect N) (lp : ptr) : M ptr :=
  let* ln := load lp in
  match ln with
  | Leaf c es =>
      match splitNode r es with
      | None => panic
      | Some (l', r') => let* _ := put lp (Leaf c l') in alloc (Leaf tr_cow r')
      end
  | Branch c es =>
      match splitNode r es with
      | None => panic
      | Some (l', r') => let* _ := put lp (Branch c l') in alloc (Branch tr_cow r')
      end
  end.

(** What [nodeInsert] does in the branch [cn] (of version [c], with the
    children [es]) once the call on the child [index] has returned
    [(child, grown)]. *)
Definition branchInsert (tr_cow : Z) (nr : rect N) (cn : ptr) (c : Z)
    (es : list (rect N * ptr)) (index : nat) (r : rect N) (child : ptr)
    (grown : bool) (ir : rect N) : M (ptr * bool) :=
  let es := <[index := (r, child)]> es in
  let* cnd := load child in
  let split := ncount cnd =? maxEntries in
  let '(es, index, grown) :=
    if grown then
      let '(es, index) := branchGrown es index ir in
      (es, index, negb (contains nr ir))
    else (es, index, false) in
  if split then
    match es !! index with
    | None => panic
    | Some (r, lft) =>
        let* rgt := splitNodeAt tr_cow r lft in
        let* lnd := load lft in
        let* rnd := load rgt in
        match branchSplit es index (nrect lnd) (nrect rnd) rgt with
        | None => panic
        | Some es => let* _ := put cn (Branch c es) in ret (cn, grown)
        end
    end
  else let* _ := put cn (Branch c es) in ret (cn, grown).

(** [tr.nodeInsert(nr, cn, ir, data)]; returns the pointer left in [*cn]
    and [grown]. *)
Fixpoint nodeInsert (fuel : nat) (tr_cow : Z) (nr : rect N) (cn : ptr)
    (ir : rect N) (data : T) : M (ptr * bool) :=
  match fuel with
  | 0 => out_of_fuel
  | S fuel =>
      let* (cn, n) := cowLoad tr_cow cn in
      match n with
      | Leaf c es =>
          if maxEntries <=? length es then panic
          else let* _ := put cn (Leaf c (leafInsert es ir data)) in
               ret (cn, negb (contains nr ir))
      | Branch c es =>
          match chooseSubtree es.*1 ir with
          | None => panic
          | Some index =>
              match es !! index with
              | None => panic
              | Some (r, child) =>
                  let* (child, grown) := nodeInsert fuel tr_cow r child ir data in
                  branchInsert tr_cow nr cn c es index r child grown ir
              end
          end
      end
  end.

(** [tr.Insert(min, max, data)] *)
Definition Insert (tr : RTreeG2) (min max : N * N) (data : T) : M RTreeG2 :=
  let ir := Rect min max in
  let* (root, rect) := match troot tr with
                  | None => let* p := alloc (newNode (tcow tr) true) in ret (p, ir)
                  | Some p => ret (p, trect tr)
                  end in
  let* (root, grown) :=
    bounded (λ fuel, nodeInsert fuel (tcow tr) rect root ir data) in
  let* rnd := load root in
  let split := ncount rnd =? maxEntries in
  let rect := if grown : bool then expand rect ir else rect in
  let* root := (if split then
            let* rgt := splitNodeAt (tcow tr) rect root in
            let* lnd := load root in
            let* rnd := load rgt in
            alloc (Branch (tcow tr) [(nrect lnd, root); (nrect rnd, rgt)])
          else ret root) in
  let* rnd := load root in
  let* _ := (if negb (nleaf rnd) && (grown || split) then put root (nsort rnd)
             else ret tt) in
  ret (Tree (tcow tr) (tcount tr + 1) rect (Some root)).

(** The loop of [nodeDelete] over the children of the branch [cn] (of
    version [c]): [rest] are the children still to visit, from index [i] on,
    [es] the children as they are now; [rec] is the recursive call. *)
Definition nodeDelete_loop
    (rec : rect N → ptr → list ptr →
           M (rect N * ptr * bool * bool * list ptr))
    (nr ir : rect N) (cn : ptr) (c : Z)
    : list (rect N * ptr) → nat → list (rect N * ptr) → list ptr →
      M (rect N * ptr * bool * bool * list ptr) :=
  fix loop rest i es reinsert :=
    match rest with
    | [] =>
        let* _ := put cn (Branch c es) in
        ret (nr, cn, false, false, reinsert)
    | (crect, child) :: rest =>
        if negb (contains crect ir) then loop rest (S i) es reinsert
        else
          let* (r, child, removed, shrunk, reinsert) := rec crect child reinsert in
          let es := <[i := (r, child)]> es in
          if negb removed then loop rest (S i) es reinsert
          else
            let* cnd := load child in
            let underflow := ncount cnd <? minEntries in
            let '(es', nr, shrunk) :=
              branchDelete es i r crect underflow shrunk nr in
            let* _ := put cn (Branch c es') in
            ret (nr, cn, true, shrunk,
                 if underflow then reinsert ++ [child] else reinsert)
    end.

(** [tr.nodeDelete(nr, cn, ir, data, reinsert)]; returns the rectangle left
    in [*nr], the pointer left in [*cn], [removed], [shrunk] and the list
    [*reinsert]. *)
Fixpoint nodeDelete (fuel : nat) (tr_cow : Z) (nr : rect N) (cn : ptr)
    (ir : rect N) (data : T) (reinsert : list ptr)
    : M (rect N * ptr * bool * bool * list ptr) :=
  match fuel with
  | 0 => out_of_fuel
  | S fuel =>
      let* (cn, n) := cowLoad tr_cow cn in
      match n with
      | Leaf c es =>
          match leafFind compare es ir data 0 with
          | None => panic
          | Some None => ret (nr, cn, false, false, reinsert)
          | Some (Some i) =>
              let '(es', nr, shrunk) := leafDelete es i nr ir in
              let* _ := put cn (Leaf c es') in
              ret (nr, cn, true, shrunk, reinsert)
          end
      | Branch c es =>
          nodeDelete_loop (λ r p ri, nodeDelete fuel tr_cow r p ir data ri)
            nr ir cn c es 0 es reinsert
      end
  end.

(** [n.deepCount()] *)
Fixpoint deepCount (fuel : nat) (h : store N T) (p : ptr) : res nat :=
  match fuel with
  | 0 => OutOfFuel
  | S fuel =>
      match h !! p with
      | None => Panic
      | Some (Leaf _ es) => Ok (length es)
      | Some (Branch _ es) =>
          foldl (λ acc e,
                   match acc, deepCount fuel h e.2 with
                   | Ok a, Ok b => Ok (a + b)
                   | Ok _, x => x
                   | x, _ => x
                   end) (Ok 0) es
      end
  end.

(** [for !tr.root.leaf() && tr.root.count == 1 { tr.root = tr.root.children()[0] }] *)
Fixpoint collapseRoot (fuel : nat) (h : store N T) (root : ptr) : res ptr :=
  match fuel with
  | 0 => OutOfFuel
  | S fuel =>
      match h !! root with
      | None => Panic
      | Some (Branch _ [(_, child)]) => collapseRoot fuel h child
      | Some _ => Ok root
      end
  end.

(** The loops of [nodeReinsert] index the arrays of the node [p] afresh in
    every round ([n] rounds left, at index [i]); an index past the
    active entries does not arise. *)
Fixpoint reinsertItems (p : ptr) (n i : nat) (tr : RTreeG2) : M RTreeG2 :=
  match n with
  | 0 => ret tr
  | S n =>
      let* nd := load p in
      match nd with
      | Leaf _ es =>
          match es !! i with
          | Some (r, item) =>
              let* tr := Insert tr (rmin r) (rmax r) item in
              reinsertItems p n (S i) tr
          | None => panic
          end
      | Branch _ _ => panic
      end
  end.

(** The loop of [nodeReinsert] over the children of the branch [p]; [rec]
    is the recursive call. *)
Definition reinsertChildren (rec : ptr → RTreeG2 → M RTreeG2) (p : ptr)
    : nat → nat → RTreeG2 → M RTreeG2 :=
  fix loop n i tr :=
    match n with
    | 0 => ret tr
    | S n =>
        let* nd := load p in
        match nd with
        | Branch _ es =>
            match es !! i with
            | Some (_, child) =>
                let* tr := rec child tr in
                loop n (S i) tr
            | None => panic
            end
        | Leaf _ _ => panic
        end
    end.

(** [tr.nodeReinsert(n)] *)
Fixpoint nodeReinsert (fuel : nat) (p : ptr) (tr : RTreeG2) : M RTreeG2 :=
  match fuel with
  | 0 => out_of_fuel
  | S fuel =>
      let* nd := load p in
      match nd with
      | Leaf _ es => reinsertItems p (length es) 0 tr
      | Branch _ es => reinsertChildren (nodeReinsert fuel) p (length es) 0 tr
      end
  end.

Definition subtractCounts (fuel : nat) (h : store N T) (reinsert : list ptr)
    (count : Z) : res Z :=
  foldl (λ acc p,
           match acc, deepCount fuel h p with
           | Ok a, Ok b => Ok (a - Z.of_nat b)%Z
           | Ok _, Panic => Panic
           | Ok _, OutOfFuel => OutOfFuel
           | x, _ => x
           end) (Ok count) reinsert.

Definition lift {X} (f : store N T → res X) : M X :=
  λ h, match f h with
       | Ok x => Ok (x, h)
       | Panic => Panic
       | OutOfFuel => OutOfFuel
       end.

(** [tr.delete(min, max, data)] *)
Definition treeDelete (tr : RTreeG2) (min max : N * N) (data : T)
    : M (RTreeG2 * bool) :=
  let ir := Rect min max in
  match troot tr with
  | None => ret (tr, false)
  | Some root =>
      if negb (contains (trect tr) ir) then ret (tr, false)
      else
        let* (rect, root, removed, _, reinsert) :=
          bounded (λ fuel, nodeDelete fuel (tcow tr) (trect tr) root ir data []) in
        if negb removed
        then ret (Tree (tcow tr) (tcount tr) rect (Some root), false)
        else
          let* count :=
            lift (λ h, subtractCounts (depth h) h reinsert (tcount tr - 1)) in
          let* tr := (if (count =? 0)%Z
                      then ret (Tree (tcow tr) count zero_rect None)
                      else let* root := lift (λ h, collapseRoot (depth h) h root) in
                           ret (Tree (tcow tr) count rect (Some root))) in
          let* tr :=
            foldl (λ acc p,
                     let* tr := acc in
                     bounded (λ fuel, nodeReinsert fuel p tr))
                  (ret tr) reinsert in
          ret (tr, true)
  end.

(** [tr.Delete], [tr.Replace], [tr.Len], [tr.Bounds] *)
Definition Delete (tr : RTreeG2) (min max : N * N) (data : T) : M RTreeG2 :=
  let* (tr, _) := treeDelete tr min max data in ret tr.

Definition Replace (tr : RTreeG2)
    (oldMin oldMax : N * N) (oldData : T)
    (newMin newMax : N * N) (newData : T) : M RTreeG2 :=
  let* (tr, removed) := treeDelete tr oldMin oldMax oldData in
  if removed : bool then Insert tr newMin newMax newData else ret tr.

Definition Len (tr : RTreeG2) : Z := tcount tr.

Definition Bounds (tr : RTreeG2) : (N * N) * (N * N) :=
  (rmin (trect tr), rmax (trect tr)).

(** ** Queries

    The visitor [iter] is a Go closure; its captured variables are the
    state [St] it transforms, its result the continue-flag.  The visitor
    does not write to the tree it is called from. *)
Section Visitor.
Context {St : Type} (iter : St → N * N → N * N → T → St * bool).

(** The loop of [scan] over the items of a leaf: the visitor's state after
    the loop, and whether the traversal goes on. *)
Fixpoint visitItems (es : list (rect N * T)) (s : St) : St * bool :=
  match es with
  | [] => (s, true)
  | (r, item) :: es' =>
      let '(s, go) := iter s (rmin r) (rmax r) item in
      if go then visitItems es' s else (s, false)
  end.

(** The loop of [scan] over the children of a branch; [rec] is the
    recursive call. *)
Definition scanChildren (rec : ptr → St → res (St * bool))
    : list (rect N * ptr) → St → res (St * bool) :=
  fix loop es s :=
    match es with
    | [] => Ok (s, true)
    | (_, child) :: es' =>
        match rec child s with
        | Ok (s, true) => loop es' s
        | x => x
        end
    end.

(** [n.scan(iter)] *)
Fixpoint nodeScan (fuel : nat) (h : store N T) (p : ptr) (s : St)
    : res (St * bool) :=
  match fuel with
  | 0 => OutOfFuel
  | S fuel =>
      match h !! p with
      | None => Panic
      | Some (Leaf _ es) => Ok (visitItems es s)
      | Some (Branch _ es) => scanChildren (nodeScan fuel h) es s
      end
  end.

(** The loop of [search] over the items of a leaf. *)
Fixpoint searchItems (target : rect N) (es : list (rect N * T)) (s : St)
    : St * bool :=
  match es with
  | [] => (s, true)
  | (r, item) :: es' =>
      if intersects r target then
        let '(s, go) := iter s (rmin r) (rmax r) item in
        if go then searchItems target es' s else (s, false)
      else searchItems target es' s
  end.

(** The loop of [search] over the children of a branch. *)
Definition searchChildren (rec : ptr → St → res (St * bool)) (target : rect N)
    : list (rect N * ptr) → St → res (St * bool) :=
  fix loop es s :=
    match es with
    | [] => Ok (s, true)
    | (r, child) :: es' =>
        if intersects target r then
          match rec child s with
          | Ok (s, true) => loop es' s
          | x => x
          end
        else loop es' s
    end.

(** [n.search(target, iter)] *)
Fixpoint nodeSearch (fuel : nat) (h : store N T) (p : ptr) (target : rect N)
    (s : St) : res (St * bool) :=
  match fuel with
  | 0 => OutOfFuel
  | S fuel =>
      match h !! p with
      | None => Panic
      | Some (Leaf _ es) => Ok (searchItems target es s)
      | Some (Branch _ es) =>
          searchChildren (λ p s, nodeSearch fuel h p target s) target es s
      end
  end.

(** [tr.Scan(iter)] and [tr.Search(min, max, iter)]; the result is the
    visitor's final state. *)
Definition Scan (h : store N T) (tr : RTreeG2) (s : St) : res St :=
  match troot tr with
  | None => Ok s
  | Some root =>
      match nodeScan (depth h) h root s with
      | Ok (s, _) => Ok s
      | Panic => Panic
      | OutOfFuel => OutOfFuel
      end
  end.

Definition Search (h : store N T) (tr : RTreeG2)
    (min max : N * N) (s : St) : res St :=
  let target := Rect min max in
  match troot tr with
  | None => Ok s
  | Some root =>
      if intersects target (trect tr) then
        match nodeSearch (depth h) h root target s with
        | Ok (s, _) => Ok s
        | Panic => Panic
        | OutOfFuel => OutOfFuel
        end
      else Ok s
  end.

End Visitor.

End Tree.

(** * Programs over several trees

    The nodes are shared between a tree and its copies, and the version
    counter [cow] is a package-level variable.  A world is the state all
    trees of a program live in: the store, the counter, and the tree
    variables. *)

Section World.
Context {N : Type} {num : number N} {T : Type}.
Context (compare : T → T → option bool).

Local Abbreviation RTree := (@RTreeG2 N).

(** [atomic.AddUint64(&cow, 1)]: the new value of the counter. *)
Definition addUint64 (cow : Z) : Z := ((cow + 1) mod 2 ^ 64)%Z.

(** [tr.Copy()]: returns [tr] and [tr2] with their new versions, and
    the counter. *)
Definition Copy (tr : RTree) (cow : Z) : RTree * RTree * Z :=
  let tr2 := tr in
  let cow := addUint64 cow in
  let tr := Tree cow (tcount tr) (trect tr) (troot tr) in
  let cow := addUint64 cow in
  let tr2 := Tree cow (tcount tr2) (trect tr2) (troot tr2) in
  (tr, tr2, cow).

Record world := World {
  wheap : store N T;
  wcow : Z;
  wtrees : list RTree }.

(** No node, the counter at its initial value, no tree variable. *)
Definition init : world := World [] 0 [].

(** The calls of a program: a new tree variable ([var tr RTreeG2], the zero
    value), and the methods on the tree variable [i]. *)
Inductive op : Type :=
  | OpNew
  | OpInsert (i : nat) (min max : N * N) (data : T)
  | OpDelete (i : nat) (min max : N * N) (data : T)
  | OpReplace (i : nat) (oldMin oldMax : N * N) (oldData : T)
      (newMin newMax : N * N) (newData : T)
  | OpCopy (i : nat).

Definition update (w : world) (i : nat) (m : M N T RTree) : res world :=
  match m (wheap w) with
  | Ok (tr', h') => Ok (World h' (wcow w) (<[i := tr']> (wtrees w)))
  | Panic => Panic
  | OutOfFuel => OutOfFuel
  end.

(** A call on a tree variable that does not exist is not a program; it is
    given the result [Panic]. *)
Definition exec (w : world) (o : op) : res world :=
  match o with
  | OpNew => Ok (World (wheap w) (wcow w) (wtrees w ++ [Tree 0 0 zero_rect None]))
  | OpInsert i min max data =>
      match wtrees w !! i with
      | Some tr => update w i (Insert tr min max data)
      | None => Panic
      end
  | OpDelete i min max data =>
      match wtrees w !! i with
      | Some tr => update w i (Delete compare tr min max data)
      | None => Panic
      end
  | OpReplace i oldMin oldMax oldData newMin newMax newData =>
      match wtrees w !! i with
      | Some tr =>
          update w i
            (Replace compare tr oldMin oldMax oldData newMin newMax newData)
      | None => Panic
      end
  | OpCopy i =>
      match wtrees w !! i with
      | Some tr =>
          let '(tr, tr2, cow) := Copy tr (wcow w) in
          Ok (World (wheap w) cow (<[i := tr]> (wtrees w) ++ [tr2]))
      | None => Panic
      end
  end.

(** The counter has 64 bits; the programs considered stop copying before it
    wraps around. *)
Definition no_wrap (w : world) (o : op) : Prop :=
  match o with
  | OpCopy _ => (wcow w + 2 < 2 ^ 64)%Z
  | _ => True
  end.

(** [steps w ops w']: the calls [ops], run in order from [w], all return
    and leave the world [w']. *)
Inductive steps : world → list op → world → Prop :=
  | steps_nil w : steps w [] w
  | steps_cons w o w1 ops w' :
      no_wrap w o → exec w o = Ok w1 → steps w1 ops w' →
      steps w (o :: ops) w'.

Definition reachable (w : world) : Prop := ∃ ops, steps init ops w.

(** The tree variable [j] is not the receiver of an insertion, deletion or
    replacement. *)
Definition mutates (o : op) (j : nat) : Prop :=
  match o with
  | OpInsert i _ _ _ | OpDelete i _ _ _ | OpReplace i _ _ _ _ _ _ => i = j
  | OpNew | OpCopy _ => False
  end.

Definition mutatesb (o : op) (j : nat) : bool :=
  match o with
  | OpInsert i _ _ _ | OpDelete i _ _ _ | OpReplace i _ _ _ _ _ _ => i =? j
  | OpNew | OpCopy _ => false
  end.

(** ** Observations *)

(** The visitor that records what it is given and always continues. *)
Definition collect (s : list (rect N * T)) (min max : N * N) (data : T)
    : list (rect N * T) * bool :=
  (s ++ [(Rect min max, data)], true).

(** The entries [Scan] delivers, in order. *)
Definition scan_all (h : store N T) (tr : RTree) : res (list (rect N * T)) :=
  Scan collect h tr [].

(** The entries [Search] delivers for a target, in order. *)
Definition search_all (h : store N T) (tr : RTree) (min max : N * N)
    : res (list (rect N * T)) :=
  Search collect h tr min max [].

(** The value of a tree: the contents of the nodes reachable from its
    root. *)
Definition decodeChildren (rec : ptr → res (ptree N T))
    : list (rect N * ptr) → res (list (rect N * ptree N T)) :=
  fix loop es :=
    match es with
    | [] => Ok []
    | (r, p) :: es' =>
        match rec p with
        | Ok t =>
            match loop es' with
            | Ok ts => Ok ((r, t) :: ts)
            | Panic => Panic
            | OutOfFuel => OutOfFuel
            end
        | Panic => Panic
        | OutOfFuel => OutOfFuel
        end
    end.

Fixpoint decode (fuel : nat) (h : store N T) (p : ptr) : res (ptree N T) :=
  match fuel with
  | 0 => OutOfFuel
  | S fuel =>
      match h !! p with
      | None => Panic
      | Some (Leaf _ es) => Ok (PLeaf es)
      | Some (Branch _ es) =>
          match decodeChildren (decode fuel h) es with
          | Ok ts => Ok (PBranch ts)
          | Panic => Panic
          | OutOfFuel => OutOfFuel
          end
      end
  end.

Definition tree_value (h : store N T) (tr : RTree) : res (PTree N T) :=
  match troot tr with
  | None => Ok (PT (tcount tr) (trect tr) None)
  | Some p =>
      match decode (depth h) h p with
      | Ok t => Ok (PT (tcount tr) (trect tr) (Some t))
      | Panic => Panic
      | OutOfFuel => OutOfFuel
      end
  end.

(** The rectangle arrays [rects[0..count)] of all nodes of a subtree. *)
Fixpoint node_rects (t : ptree N T) : list (list (rect N)) :=
  match t with
  | PLeaf es => [es.*1]
  | PBranch es => es.*1 :: concat (map (λ e, node_rects e.2) es)
  end.

(** [rs[i].min[0] <= rs[j].min[0]] for all [i <= j]. *)
Definition nondecreasing (rs : list (rect N)) : Prop :=
  ∀ i j a b, i ≤ j → rs !! i = Some a → rs !! j = Some b →
    nlt (rmin b).1 (rmin a).1 = false.

(** ** Running a program *)

Definition no_wrapb (w : world) (o : op) : bool :=
  match o with
  | OpCopy _ => (wcow w + 2 <? 2 ^ 64)%Z
  | _ => true
  end.

Fixpoint run (w : world) (ops : list op) : res world :=
  match ops with
  | [] => Ok w
  | o :: ops =>
      if no_wrapb w o then
        match exec w o with
        | Ok w1 => run w1 ops
        | Panic => Panic
        | OutOfFuel => OutOfFuel
        end
      else Panic
  end.

(** The world a run ends in ([init] when it does not end). *)
Definition final (r : res world) : world :=
  match r with Ok w => w | _ => init end.

(** The entries of a scan that ends. *)
Definition scanned (r : res (list (rect N * T))) : list (rect N * T) :=
  match r with Ok es => es | _ => [] end.

(** The value of a tree that has one. *)
Definition valued (r : res (PTree N T)) : PTree N T :=
  match r with Ok pt => pt | _ => PT 0 zero_rect None end.

(** None of the entries [l] has a rectangle contained by [ir] and a payload
    that [compare] does not tell from [data]. *)
Definition all_differ (l : list (rect N * T)) (ir : rect N) (data : T) : bool :=
  forallb (λ e, negb (contains ir e.1) ||
                match compare e.2 data with Some false => true | _ => false end) l.

(** The tree variable [i] of a world (the zero value when there is none). *)
Definition tree (w : world) (i : nat) : RTree :=
  default (Tree 0 0 zero_rect None) (wtrees w !! i).

End World.
Arguments world N T : clear implicits.
Arguments op N T : clear implicits.

(** * Payloads behind an interface

    [compare] converts both payloads to [interface{}] and applies [==].  For
    a payload type [T] that is itself an interface type ([any]), the values
    stored carry their own dynamic types.  [dyn] is such a payload: an
    integer, a boolean, a string (comparable dynamic types) or a slice, a
    map, a function (not comparable; slices by their elements, maps by their
    bindings and functions by a code address, which [==] never looks
    at). *)

Inductive dyn : Type :=
  | DInt (n : Z)
  | DBool (b : bool)
  | DString (s : list Z)
  | DSlice (l : list Z)
  | DMap (m : list (Z * Z))
  | DFunc (f : nat).

Inductive dtype : Type := TInt | TBool | TString | TSlice | TMap | TFunc.

Definition dyn_type (d : dyn) : dtype :=
  match d with
  | DInt _ => TInt
  | DBool _ => TBool
  | DString _ => TString
  | DSlice _ => TSlice
  | DMap _ => TMap
  | DFunc _ => TFunc
  end.

Definition comparable (t : dtype) : bool :=
  match t with
  | TInt | TBool | TString => true
  | TSlice | TMap | TFunc => false
  end.

#[export] Instance dtype_eq_dec : EqDecision dtype.
Proof. solve_decision. Defined.

#[export] Instance dyn_eq_dec : EqDecision dyn.
Proof. solve_decision. Defined.

(** [func compare[T any](a, b T) bool]: [==] on two interface values is
    false when the dynamic types differ, panics (here [None]) when they are
    identical and not comparable, and compares the values otherwise. *)
Definition compare (a b : dyn) : option bool :=
  if decide (dyn_type a = dyn_type b) then
    if comparable (dyn_type a) then Some (bool_decide (a = b)) else None
  else Some false.

(** [compare] at a payload type that is comparable and no interface, here
    [int64]. *)
Definition compare_int (a b : Z) : option bool := Some (a =? b)%Z.

(** * Sample programs

    Coordinates [int64]; payloads [int64] or behind an interface. *)

Definition point (x : nat) : Z * Z := (Z.of_nat x, Z.of_nat (x * 7 mod 11)).

Definition insert_point (i x : nat) : op Z Z :=
  OpInsert i (point x) (point x) (Z.of_nat x).

Definition delete_point (i x : nat) : op Z Z :=
  OpDelete i (point x) (point x) (Z.of_nat x).

Definition after (ops : list (op Z Z)) : world Z Z :=
  final (run compare_int init ops).


Definition entry (x : nat) : rect Z * Z :=
  (Rect (point x) (point x), Z.of_nat x).

(** A node with [maxEntries] entries. *)
Definition full_node : list (rect Z * Z) := map entry (seq 0 64).

(** The rectangles of three children. *)
Definition three_rects : list (rect Z) :=
  [Rect (0, 0) (10, 10); Rect (0, 0) (2, 2); Rect (5, 5) (6, 6)]%Z.

(** 65 points: the root leaf fills up and is split. *)
Definition prog_grow : list (op Z Z) :=
  OpNew :: map (insert_point 0) (seq 0 65).

(** Then 27 points of one leaf are deleted: the leaf falls below
    [minEntries] and its entries are inserted again. *)
Definition prog_shrink : list (op Z Z) :=
  prog_grow ++ map (delete_point 0) (seq 0 27).

(** Mutations of the tree 0 only. *)
Definition prog_edit : list (op Z Z) :=
  map (insert_point 0) (seq 65 10) ++ map (delete_point 0) (seq 30 10).

(** Four boxes; the second lies inside the first and has its payload. *)
Definition prog_boxes : list (op Z Z) :=
  [OpNew;
   OpInsert 0 (0, 0) (3, 3) 7;
   OpInsert 0 (0, 1) (1, 2) 7;
   OpInsert 0 (5, 5) (6, 6) 8;
   OpInsert 0 (7, 7) (8, 8) 9]%Z.

(** Two boxes, one inside the other, with the same payload. *)
Definition prog_nested : list (op Z Z) :=
  [OpNew; OpInsert 0 (0, 0) (3, 3) 7; OpInsert 0 (0, 1) (1, 2) 7]%Z.

(** Two boxes, one inside the other, with different payloads. *)
Definition prog_nested' : list (op Z Z) :=
  [OpNew; OpInsert 0 (0, 0) (3, 3) 9; OpInsert 0 (0, 1) (1, 2) 7]%Z.



(** * More of the code: binary search, and the nodes of a tree *)

Section More.
Context {N : Type} {num : number N} {T : Type}.

(** [n.bsearch(key)] on a node whose active rectangles [rects[0..count)]
    are [l]: [h := int(uint(low+high) >> 1)] is computed on 64-bit machine
    integers; [fuel] bounds the number of rounds of the loop.  The result
    is [None] when the loop reads [rects[h]] outside the active part (a
    stale slot of the array, or past it) or runs out of fuel. *)
Fixpoint bsearch_loop {A} (fuel : nat) (l : list (rect N * A)) (key : N)
    (low high : Z) : option Z :=
  if (low <? high)%Z then
    match fuel with
    | 0 => None
    | S fuel =>
        let h := Z.shiftr ((low + high) mod 2 ^ 64) 1 in
        match l !! Z.to_nat h with
        | None => None
        | Some e =>
            if negb (nlt key (min0 e))
            then bsearch_loop fuel l key (h + 1) high
            else bsearch_loop fuel l key low h
        end
    end
  else Some low.

Definition bsearch {A} (l : list (rect N * A)) (key : N) : option Z :=
  bsearch_loop (length l) l key 0 (Z.of_nat (length l)).

(** All child slots of a subtree: the rectangle a branch keeps for a child,
    with the child. *)
Fixpoint slots (t : ptree N T) : list (rect N * ptree N T) :=
  match t with
  | PLeaf _ => []
  | PBranch es => es ++ concat (map (λ e, slots e.2) es)
  end.

(** The nodes reachable from a node: their addresses, with their
    versions. *)
Definition nodesChildren (rec : ptr → res (list (ptr * Z)))
    : list (rect N * ptr) → res (list (ptr * Z)) :=
  fix loop es :=
    match es with
    | [] => Ok []
    | (_, p) :: es' =>
        match rec p with
        | Ok l =>
            match loop es' with
            | Ok l' => Ok (l ++ l')
            | Panic => Panic
            | OutOfFuel => OutOfFuel
            end
        | Panic => Panic
        | OutOfFuel => OutOfFuel
        end
    end.

Fixpoint nodes_of (fuel : nat) (h : store N T) (p : ptr)
    : res (list (ptr * Z)) :=
  match fuel with
  | 0 => OutOfFuel
  | S fuel =>
      match h !! p with
      | None => Panic
      | Some (Leaf c _) => Ok [(p, c)]
      | Some (Branch c es) =>
          match nodesChildren (nodes_of fuel h) es with
          | Ok l => Ok ((p, c) :: l)
          | Panic => Panic
          | OutOfFuel => OutOfFuel
          end
      end
  end.

Definition tree_nodes (h : store N T) (tr : @RTreeG2 N)
    : res (list (ptr * Z)) :=
  match troot tr with
  | None => Ok []
  | Some p => nodes_of (depth h) h p
  end.

(** The depths of the leaves of a subtree, from left to right. *)
Fixpoint leaf_depths (t : ptree N T) : list nat :=
  match t with
  | PLeaf _ => [0]
  | PBranch es => concat (map (λ e, S <$> leaf_depths e.2) es)
  end.

(** [uniform n t]: every leaf of the subtree [t] is [n] levels below its
    root. *)
Inductive uniform : nat → ptree N T → Prop :=
  | uniform_leaf l : uniform 0 (PLeaf l)
  | uniform_branch n es :
      Forall (λ e, uniform n e.2) es → uniform (S n) (PBranch es).

Definition balanced (pt : PTree N T) : Prop :=
  ∀ t, ptroot pt = Some t → ∃ n, uniform n t.

(** The pure operation a call is on the value of its tree. *)
Definition pure_step (compare : T → T → option bool) (o : op N T)
    (pt : PTree N T) : option (PTree N T) :=
  match o with
  | OpInsert _ min max data => PInsert pt min max data
  | OpDelete _ min max data => fst <$> PDelete compare pt min max data
  | OpReplace _ oldMin oldMax oldData newMin newMax newData =>
      PReplace compare pt oldMin oldMax oldData newMin newMax newData
  | OpNew | OpCopy _ => Some pt
  end.

End More.

(** Three entries out of order. *)
Definition three_boxes : list (rect Z * Z) :=
  [(Rect (5, 5) (6, 6), 1); (Rect (0, 0) (2, 2), 2); (Rect (3, 1) (4, 9), 3)]%Z.

(** * The order on coordinates and the rectangle lattice *)

Section Order.
Context {N : Type} {num : number N} {ord : number_order N}.

(** [a <= b], as the code tests it: [!(b < a)]. *)
Definition nle (a b : N) : Prop := nlt b a = false.

Lemma nlt_asym a b : nlt a b = true → nlt b a = false.
Proof.
  intros H. destruct (nlt b a) eqn:E; [|done].
  pose proof (nlt_trans _ _ _ H E) as F. by rewrite nlt_irrefl in F.
Qed.

Lemma nlt_false_cases a b : nlt a b = false → a = b ∨ nlt b a = true.
Proof.
  intros H. destruct (nlt b a) eqn:E; [by right|left]. by apply nlt_connex.
Qed.

Lemma nlt_le_trans a b c : nlt a b = true → nlt c b = false → nlt a c = true.
Proof.
  intros H1 H2. apply nlt_false_cases in H2 as [->|H2]; [done|].
  by eapply nlt_trans.
Qed.

Lemma nle_lt_trans a b c : nlt b a = false → nlt b c = true → nlt a c = true.
Proof.
  intros H1 H2. apply nlt_false_cases in H1 as [->|H1]; [done|].
  by eapply nlt_trans.
Qed.

Lemma nle_refl a : nle a a.
Proof. apply nlt_irrefl. Qed.

Lemma nle_trans a b c : nle a b → nle b c → nle a c.
Proof.
  unfold nle. intros H1 H2. destruct (nlt c a) eqn:E; [|done].
  pose proof (nlt_le_trans _ _ _ E H1) as F. congruence.
Qed.

Lemma nle_antisym a b : nle a b → nle b a → a = b.
Proof. unfold nle. intros. by apply nlt_connex. Qed.

Lemma nle_total a b : nle a b ∨ nle b a.
Proof.
  unfold nle. destruct (nlt b a) eqn:E; [right|by left]. by apply nlt_asym.
Qed.

Lemma nlt_nle a b : nlt a b = true → nle a b.
Proof. apply nlt_asym. Qed.

#[export] Instance nle_preorder : PreOrder nle.
Proof. split; [intros ?; apply nle_refl | intros ???; apply nle_trans]. Qed.

Definition nmin (a b : N) : N := if nlt b a then b else a.
Definition nmax (a b : N) : N := if nlt a b then b else a.

Lemma nmin_le_l a b : nle (nmin a b) a.
Proof. unfold nmin, nle. destruct (nlt b a) eqn:E; [by apply nlt_asym|apply nlt_irrefl]. Qed.
Lemma nmin_le_r a b : nle (nmin a b) b.
Proof. unfold nmin, nle. destruct (nlt b a) eqn:E; [apply nlt_irrefl|done]. Qed.
Lemma nmin_glb x a b : nle x a → nle x b → nle x (nmin a b).
Proof. unfold nmin. by destruct (nlt b a). Qed.
Lemma nmax_le_l a b : nle a (nmax a b).
Proof. unfold nmax, nle. destruct (nlt a b) eqn:E; [by apply nlt_asym|apply nlt_irrefl]. Qed.
Lemma nmax_le_r a b : nle b (nmax a b).
Proof. unfold nmax, nle. destruct (nlt a b) eqn:E; [apply nlt_irrefl|done]. Qed.
Lemma nmax_lub x a b : nle a x → nle b x → nle (nmax a b) x.
Proof. unfold nmax. by destruct (nlt a b). Qed.

Lemma nmin_comm a b : nmin a b = nmin b a.
Proof. apply nle_antisym; apply nmin_glb; auto using nmin_le_l, nmin_le_r. Qed.
Lemma nmax_comm a b : nmax a b = nmax b a.
Proof. apply nle_antisym; apply nmax_lub; auto using nmax_le_l, nmax_le_r. Qed.
Lemma nmin_assoc a b c : nmin (nmin a b) c = nmin a (nmin b c).
Proof.
  apply nle_antisym; repeat apply nmin_glb;
    eauto using nmin_le_l, nmin_le_r, nle_trans.
Qed.
Lemma nmax_assoc a b c : nmax (nmax a b) c = nmax a (nmax b c).
Proof.
  apply nle_antisym; repeat apply nmax_lub;
    eauto using nmax_le_l, nmax_le_r, nle_trans.
Qed.
Lemma nmin_l a b : nle a b → nmin a b = a.
Proof. unfold nmin, nle. by intros ->. Qed.
Lemma nmax_l a b : nle b a → nmax a b = a.
Proof. unfold nmax, nle. by intros ->. Qed.
Lemma nmin_idem a : nmin a a = a.
Proof. apply nmin_l, nle_refl. Qed.
Lemma nmax_idem a : nmax a a = a.
Proof. apply nmax_l, nle_refl. Qed.

(** ** Rectangles *)

Lemma expand_eq (r b : rect N) :
  expand r b = Rect (nmin (rmin r).1 (rmin b).1, nmin (rmin r).2 (rmin b).2)
                    (nmax (rmax r).1 (rmax b).1, nmax (rmax r).2 (rmax b).2).
Proof. reflexivity. Qed.

Lemma contains_spec (r b : rect N) :
  contains r b = true ↔
  nle (rmin r).1 (rmin b).1 ∧ nle (rmax b).1 (rmax r).1 ∧
  nle (rmin r).2 (rmin b).2 ∧ nle (rmax b).2 (rmax r).2.
Proof.
  unfold contains, nle.
  destruct (nlt (rmin b).1 (rmin r).1), (nlt (rmax r).1 (rmax b).1),
    (nlt (rmin b).2 (rmin r).2), (nlt (rmax r).2 (rmax b).2); simpl; naive_solver.
Qed.

Lemma intersects_spec (r b : rect N) :
  intersects r b = true ↔
  nle (rmin b).1 (rmax r).1 ∧ nle (rmin r).1 (rmax b).1 ∧
  nle (rmin b).2 (rmax r).2 ∧ nle (rmin r).2 (rmax b).2.
Proof.
  unfold intersects, nle.
  destruct (nlt (rmax r).1 (rmin b).1), (nlt (rmax b).1 (rmin r).1),
    (nlt (rmax r).2 (rmin b).2), (nlt (rmax b).2 (rmin r).2); simpl; naive_solver.
Qed.

Lemma rect_eq (a b : rect N) :
  (rmin a).1 = (rmin b).1 → (rmin a).2 = (rmin b).2 →
  (rmax a).1 = (rmax b).1 → (rmax a).2 = (rmax b).2 → a = b.
Proof. destruct a as [[??][??]], b as [[??][??]]; simpl; congruence. Qed.

Lemma contains_refl r : contains r r = true.
Proof. apply contains_spec; repeat split; apply nle_refl. Qed.

Lemma contains_trans a b c :
  contains a b = true → contains b c = true → contains a c = true.
Proof.
  rewrite !contains_spec. intros (?&?&?&?) (?&?&?&?).
  repeat split; eapply nle_trans; eauto.
Qed.

Lemma contains_antisym a b :
  contains a b = true → contains b a = true → a = b.
Proof.
  rewrite !contains_spec. intros (?&?&?&?) (?&?&?&?).
  apply rect_eq; by apply nle_antisym.
Qed.

Lemma expand_contains_l r b : contains (expand r b) r = true.
Proof.
  apply contains_spec; rewrite expand_eq; simpl;
    repeat split; auto using nmin_le_l, nmax_le_l.
Qed.

Lemma expand_contains_r r b : contains (expand r b) b = true.
Proof.
  apply contains_spec; rewrite expand_eq; simpl;
    repeat split; auto using nmin_le_r, nmax_le_r.
Qed.

Lemma expand_lub x a b :
  contains x a = true → contains x b = true → contains x (expand a b) = true.
Proof.
  rewrite !contains_spec, expand_eq. simpl. intros (?&?&?&?) (?&?&?&?).
  repeat split; auto using nmin_glb, nmax_lub.
Qed.

Lemma expand_comm a b : expand a b = expand b a.
Proof.
  rewrite !expand_eq. f_equal; f_equal; auto using nmin_comm, nmax_comm.
Qed.

Lemma expand_assoc a b c : expand (expand a b) c = expand a (expand b c).
Proof.
  rewrite !expand_eq. simpl. f_equal; f_equal; auto using nmin_assoc, nmax_assoc.
Qed.

Lemma expand_idem a : expand a a = a.
Proof.
  rewrite expand_eq. destruct a as [[??][??]]; simpl.
  by rewrite !nmin_idem, !nmax_idem.
Qed.

Lemma expand_absorb r b : contains r b = true → expand r b = r.
Proof.
  rewrite contains_spec, expand_eq. intros (?&?&?&?).
  destruct r as [[??][??]]; simpl in *.
  by rewrite !nmin_l, !nmax_l.
Qed.

Lemma contains_expand_absorb r b : expand r b = r → contains r b = true.
Proof. intros <-. apply expand_contains_r. Qed.

Lemma intersects_sym a b : intersects a b = intersects b a.
Proof.
  apply eq_true_iff_eq. rewrite !intersects_spec. naive_solver.
Qed.

(** A query that meets a rectangle meets every rectangle containing it. *)
Lemma intersects_mono p e q :
  contains p e = true → intersects e q = true → intersects p q = true.
Proof.
  rewrite contains_spec, !intersects_spec. intros (?&?&?&?) (?&?&?&?).
  repeat split; eapply nle_trans; eauto.
Qed.

Lemma equals_spec a b : equals a b = true ↔ a = b.
Proof.
  unfold equals. split.
  - intros H. apply negb_true_iff in H.
    repeat (apply orb_false_iff in H as [H ?]).
    apply rect_eq; by apply nlt_connex.
  - intros ->. by rewrite !nlt_irrefl.
Qed.

(** [onedge r b = false]: r is strictly inside b. *)
Lemma onedge_false r b :
  onedge r b = false ↔
  nlt (rmin b).1 (rmin r).1 = true ∧ nlt (rmin b).2 (rmin r).2 = true ∧
  nlt (rmax r).1 (rmax b).1 = true ∧ nlt (rmax r).2 (rmax b).2 = true.
Proof.
  unfold onedge. rewrite negb_false_iff, !andb_true_iff. naive_solver.
Qed.

Lemma nmin_strict e m x : nmin e m = x → nlt x e = true → m = x.
Proof.
  unfold nmin. destruct (nlt m e) eqn:E; [done|].
  intros -> H. by rewrite nlt_irrefl in H.
Qed.

Lemma nmax_strict e m x : nmax e m = x → nlt e x = true → m = x.
Proof.
  unfold nmax. destruct (nlt e m) eqn:E; [done|].
  intros -> H. by rewrite nlt_irrefl in H.
Qed.

(** Removing a rectangle that lies strictly inside the cover leaves the
    cover of the others unchanged. *)
Lemma expand_strict e m ir x :
  expand e m = x → contains ir e = true → onedge ir x = false → m = x.
Proof.
  rewrite expand_eq, contains_spec, onedge_false.
  intros <- (C1&C2&C3&C4) (H1&H2&H3&H4). simpl in *.
  apply rect_eq; simpl; symmetry.
  - symmetry. eapply nmin_strict; [done|]. eapply nlt_le_trans; [exact H1|done].
  - symmetry. eapply nmin_strict; [done|]. eapply nlt_le_trans; [exact H2|done].
  - symmetry. eapply nmax_strict; [done|]. eapply nle_lt_trans; [|exact H3]. done.
  - symmetry. eapply nmax_strict; [done|]. eapply nle_lt_trans; [|exact H4]. done.
Qed.

Lemma onedge_self_strict e ir : contains ir e = true → onedge ir e = true.
Proof.
  rewrite contains_spec. intros (H&_).
  destruct (onedge ir e) eqn:E; [done|].
  apply onedge_false in E as (E&_). unfold nle in H. congruence.
Qed.

End Order.

(** * Properties of the node-local algorithms *)

Section NodeLemmas.
Context {N : Type} {num : number N} {A : Type}.
Implicit Types l pre post : list (rect N * A).
Implicit Types e : rect N * A.

(** ** swap *)

Lemma swap_length i j l : length (swap i j l) = length l.
Proof.
  unfold swap. destruct (l !! i), (l !! j); try done.
  by rewrite !length_insert.
Qed.

Lemma swap_same i l : swap i i l = l.
Proof.
  unfold swap. destruct (l !! i) eqn:E; [|done].
  rewrite list_insert_insert_eq. by apply list_insert_id.
Qed.

Lemma swap_sym i j l : swap i j l = swap j i l.
Proof.
  unfold swap. destruct (l !! i) eqn:Ei, (l !! j) eqn:Ej; try done.
  destruct (decide (i = j)) as [->|Hne]; [congruence|].
  by rewrite list_insert_insert_ne.
Qed.

(** Exchanging the entries at [|pre|] and [|pre| + 1 + |mid|]. *)
Lemma swap_app pre x mid y post :
  swap (length pre) (length pre + S (length mid)) (pre ++ x :: mid ++ y :: post)
  = pre ++ y :: mid ++ x :: post.
Proof.
  unfold swap.
  rewrite lookup_app_r, Nat.sub_diag by lia. simpl.
  rewrite lookup_app_r by lia.
  replace (length pre + S (length mid) - length pre) with (S (length mid)) by lia.
  simpl. rewrite lookup_app_r, Nat.sub_diag by lia. simpl.
  rewrite insert_app_r_alt by lia.
  replace (length pre + S (length mid) - length pre) with (S (length mid)) by lia.
  simpl. rewrite insert_app_r_alt, Nat.sub_diag by lia. simpl.
  rewrite insert_app_r_alt, Nat.sub_diag by lia. done.
Qed.

Lemma swap_adjacent pre x y post :
  swap (S (length pre)) (length pre) (pre ++ x :: y :: post)
  = pre ++ y :: x :: post.
Proof.
  rewrite swap_sym.
  pose proof (swap_app pre x [] y post) as H. simpl in H.
  by replace (length pre + 1) with (S (length pre)) in H by lia.
Qed.

Lemma insert_head_perm l j a b :
  l !! j = Some b → b :: <[j := a]> l ≡ₚ a :: l.
Proof.
  revert j. induction l as [|x l IH]; intros [|j] H; simplify_eq/=.
  - apply perm_swap.
  - rewrite (perm_swap x b). rewrite (IH _ H). apply perm_swap.
Qed.

Lemma swap_perm i j l : swap i j l ≡ₚ l.
Proof.
  unfold swap. destruct (l !! i) as [a|] eqn:Ei, (l !! j) as [b|] eqn:Ej; try done.
  revert i j Ei Ej. induction l as [|x l IH]; intros [|i] [|j] Ei Ej; simplify_eq/=.
  - done.
  - by apply insert_head_perm.
  - by apply insert_head_perm.
  - f_equiv. by apply IH.
Qed.

(** ** orderToLeft and orderToRight *)

Lemma orderToLeft_spec pre e post :
  ∃ pre1 pre2,
    pre = pre1 ++ pre2 ∧
    orderToLeft (pre ++ e :: post) (length pre)
      = (pre1 ++ e :: pre2 ++ post, length pre1) ∧
    Forall (λ b, nlt (min0 e) (min0 b) = true) pre2 ∧
    (∀ p b, pre1 = p ++ [b] → nlt (min0 e) (min0 b) = false).
Proof.
  revert post. induction pre as [|b pre IH] using rev_ind; intros post.
  - exists [], []. repeat split; [done|]. by intros [|??] ?.
  - rewrite length_app. simpl.
    replace (length pre + 1) with (S (length pre)) by lia. simpl.
    rewrite <- (assoc_L (++)). simpl.
    rewrite (lookup_app_r pre) by lia.
    replace (S (length pre) - length pre) with 1 by lia. simpl.
    rewrite (lookup_app_r pre), Nat.sub_diag by lia. simpl.
    destruct (nlt (min0 e) (min0 b)) eqn:E.
    + rewrite swap_adjacent.
      destruct (IH (b :: post)) as (p1 & p2 & -> & Heq & HF & Hl).
      exists p1, (p2 ++ [b]). rewrite Heq. repeat split.
      * by rewrite (assoc_L (++)).
      * by rewrite <- !(assoc_L (++)).
      * apply Forall_app. split; [done|]. by constructor.
      * done.
    + exists (pre ++ [b]), []. split_and!.
      * by rewrite (right_id_L [] (++)).
      * rewrite <- (assoc_L (++)). simpl. rewrite length_app. simpl.
        f_equal. lia.
      * constructor.
      * intros p b' Hp. apply app_inj_tail in Hp as [_ <-]. done.
Qed.

Lemma orderToRight_loop_spec fuel pre e post :
  length post ≤ fuel →
  ∃ post1 post2,
    post = post1 ++ post2 ∧
    orderToRight_loop fuel (pre ++ e :: post) (length pre)
      = (pre ++ post1 ++ e :: post2, length pre + length post1) ∧
    Forall (λ b, nlt (min0 b) (min0 e) = true) post1 ∧
    (∀ b p, post2 = b :: p → nlt (min0 b) (min0 e) = false).
Proof.
  revert pre post. induction fuel as [|fuel IH]; intros pre post Hf.
  - destruct post; [|simpl in Hf; lia].
    exists [], []. simpl. repeat split; [f_equal; lia|done..].
  - simpl. rewrite (lookup_app_r pre), Nat.sub_diag by lia. simpl.
    rewrite (lookup_app_r pre) by lia.
    replace (length pre + 1 - length pre) with 1 by lia. simpl.
    destruct post as [|b post]; simpl.
    { exists [], []. simpl. repeat split; [f_equal; lia|done..]. }
    destruct (nlt (min0 b) (min0 e)) eqn:E.
    + replace (length pre + 1) with (S (length pre)) by lia.
      rewrite swap_adjacent.
      replace (pre ++ b :: e :: post) with ((pre ++ [b]) ++ e :: post)
        by (by rewrite <- (assoc_L (++))).
      replace (S (length pre)) with (length (pre ++ [b]))
        by (rewrite length_app; simpl; lia).
      destruct (IH (pre ++ [b]) post) as (p1 & p2 & -> & Heq & HF & Hl).
      { simpl in Hf. lia. }
      exists (b :: p1), p2. rewrite Heq. repeat split.
      * rewrite <- !(assoc_L (++)). simpl. f_equal.
        rewrite length_app. simpl. lia.
      * by constructor.
      * done.
    + exists [], (b :: post). simpl. repeat split; [f_equal; lia|done|].
      by intros ?? [= <- <-].
Qed.

Lemma orderToRight_spec pre e post :
  ∃ post1 post2,
    post = post1 ++ post2 ∧
    orderToRight (pre ++ e :: post) (length pre)
      = (pre ++ post1 ++ e :: post2, length pre + length post1) ∧
    Forall (λ b, nlt (min0 b) (min0 e) = true) post1 ∧
    (∀ b p, post2 = b :: p → nlt (min0 b) (min0 e) = false).
Proof.
  apply orderToRight_loop_spec. rewrite length_app. simpl. lia.
Qed.

Lemma orderToRight_out l idx : length l ≤ idx → orderToRight l idx = (l, idx).
Proof.
  unfold orderToRight. intros H. destruct (length l) eqn:E; [done|]. simpl.
  rewrite (lookup_ge_None_2 l idx) by lia. done.
Qed.

Lemma orderToLeft_perm l idx : (orderToLeft l idx).1 ≡ₚ l.
Proof.
  revert l. induction idx as [|i IH]; intros l; simpl; [done|].
  destruct (l !! S i), (l !! i); try done.
  case_match; [|done]. rewrite IH. apply swap_perm.
Qed.

Lemma orderToRight_loop_perm fuel l idx : (orderToRight_loop fuel l idx).1 ≡ₚ l.
Proof.
  revert l idx. induction fuel as [|f IH]; intros l idx; simpl; [done|].
  destruct (l !! idx), (l !! (idx + 1)); try done.
  case_match; [|done]. rewrite IH. apply swap_perm.
Qed.

Lemma orderToRight_perm l idx : (orderToRight l idx).1 ≡ₚ l.
Proof. apply orderToRight_loop_perm. Qed.

(** ** rsearch *)

Lemma rsearch_spec l key :
  ∃ l1 l2, l = l1 ++ l2 ∧ rsearch l key = length l1 ∧
    Forall (λ b, nlt (min0 b) key = true) l1 ∧
    (∀ b p, l2 = b :: p → nlt (min0 b) key = false).
Proof.
  induction l as [|x l (l1 & l2 & -> & Hr & HF & Hl)]; simpl.
  - exists [], []. by repeat split.
  - destruct (nlt (min0 x) key) eqn:E.
    + exists (x :: l1), l2. rewrite Hr. repeat split; [by constructor|done].
    + exists [], (x :: l1 ++ l2). repeat split; [done|]. by intros ?? [= <- <-].
Qed.

Lemma leafInsert_spec l (ir : rect N) (data : A) :
  ∃ l1 l2, l = l1 ++ l2 ∧ leafInsert l ir data = l1 ++ (ir, data) :: l2 ∧
    Forall (λ b, nlt (min0 b) (rmin ir).1 = true) l1 ∧
    (∀ b p, l2 = b :: p → nlt (min0 b) (rmin ir).1 = false).
Proof.
  destruct (rsearch_spec l (rmin ir).1) as (l1 & l2 & -> & Hr & HF & Hl).
  exists l1, l2. repeat split; [|done..].
  unfold leafInsert. rewrite Hr.
  by rewrite take_app_length, drop_app_length.
Qed.

Lemma leafInsert_perm l ir (data : A) : leafInsert l ir data ≡ₚ (ir, data) :: l.
Proof.
  destruct (leafInsert_spec l ir data) as (l1 & l2 & -> & -> & _).
  by rewrite Permutation_middle.
Qed.

Lemma leafInsert_length l ir (data : A) :
  length (leafInsert l ir data) = S (length l).
Proof. by rewrite leafInsert_perm. Qed.

End NodeLemmas.

(** ** Sortedness by [min[0]] *)

Section Sorted.
Context {N : Type} {num : number N} {ord : number_order N} {A : Type}.
Implicit Types l pre post : list (rect N * A).
Implicit Types e : rect N * A.

Definition le0 (a b : rect N * A) : Prop := nle (min0 a) (min0 b).

(** P5 for one node: [rects[0..count).min[0]] is non-decreasing. *)
Definition sorted0 (l : list (rect N * A)) : Prop := StronglySorted le0 l.

#[export] Instance le0_trans : Transitive le0.
Proof. intros a b c. apply nle_trans. Qed.

#[export] Instance le0_refl : Reflexive le0.
Proof. intros a. apply nle_refl. Qed.

Lemma sorted0_adjacent l :
  sorted0 l ↔ ∀ i a b, l !! i = Some a → l !! S i = Some b → le0 a b.
Proof.
  unfold sorted0. split.
  - intros H. induction H as [|x l Hs IH HF]; intros [|i] a b Ha Hb; simplify_eq/=.
    + eapply Forall_forall in HF; [done|]. by eapply list_elem_of_lookup_2.
    + eauto.
  - intros H. apply Sorted_StronglySorted; [apply _|].
    induction l as [|x l IH]; constructor.
    + apply IH. intros i a b Ha Hb. by apply (H (S i)).
    + destruct l as [|y l]; constructor. by apply (H 0).
Qed.

Lemma issorted_spec l : issorted l = true ↔ sorted0 l.
Proof.
  rewrite sorted0_adjacent. induction l as [|a [|b l] IH]; simpl.
  - split; [|done]. by intros _ [|?] ??.
  - split; [|done]. by intros _ [|[|?]] ??.
  - destruct (nlt (min0 b) (min0 a)) eqn:E.
    + split; [done|]. intros H. specialize (H 0 a b eq_refl eq_refl).
      unfold le0, nle in H. congruence.
    + rewrite IH. split.
      * intros H [|i] x y Hx Hy; simplify_eq/=; [done|]. by apply (H i).
      * intros H i x y Hx Hy. by apply (H (S i)).
Qed.

Lemma sorted0_insert l1 e l2 :
  sorted0 (l1 ++ l2) → Forall (λ b, le0 b e) l1 → Forall (le0 e) l2 →
  sorted0 (l1 ++ e :: l2).
Proof.
  unfold sorted0. rewrite !StronglySorted_app. intros (H3 & H1 & H2) F1 F2.
  split_and!; [|done|].
  - intros x1 x2 Hx1 Hx2. apply elem_of_cons in Hx2 as [->|Hx2].
    + by eapply Forall_forall in F1.
    + by apply H3.
  - constructor; done.
Qed.

Lemma sorted0_delete l1 e l2 : sorted0 (l1 ++ e :: l2) → sorted0 (l1 ++ l2).
Proof.
  unfold sorted0. rewrite !StronglySorted_app. intros (H3 & H1 & H2).
  apply StronglySorted_inv in H2 as [H2 _].
  split_and!; [|done..]. intros x1 x2 Hx1 Hx2. apply H3; [done|].
  by apply elem_of_cons; right.
Qed.

Lemma sorted0_last_Forall p b e :
  sorted0 (p ++ [b]) → le0 b e → Forall (λ x, le0 x e) (p ++ [b]).
Proof.
  unfold sorted0. rewrite StronglySorted_app. intros (H & _ & _) Hbe.
  apply Forall_app. split; [|by constructor].
  apply Forall_forall. intros x Hx. etrans; [|done].
  apply H; [done|]. by apply list_elem_of_singleton.
Qed.

Lemma sorted0_head_Forall b p e :
  sorted0 (b :: p) → le0 e b → Forall (le0 e) (b :: p).
Proof.
  unfold sorted0. intros [H1 H2]%StronglySorted_inv Heb.
  constructor; [done|]. eapply Forall_impl; [done|]. intros x Hx. by etrans.
Qed.

Lemma Forall_le_of_all_before_last (l : list (rect N * A)) e :
  sorted0 l → (∀ p b, l = p ++ [b] → le0 b e) → Forall (λ x, le0 x e) l.
Proof.
  intros Hs Hl. destruct l as [|x l'] using rev_ind; [done|].
  apply sorted0_last_Forall; [done|]. by eapply Hl.
Qed.

Lemma Forall_ge_of_head (l : list (rect N * A)) e :
  sorted0 l → (∀ b p, l = b :: p → le0 e b) → Forall (le0 e) l.
Proof.
  intros Hs Hl. destruct l as [|x l']; [done|].
  apply sorted0_head_Forall; [done|]. by eapply Hl.
Qed.

(** [orderToLeft] repairs a list that is sorted but for the entry at
    [|pre|], which may be too small. *)
Lemma orderToLeft_sorted pre e post :
  sorted0 (pre ++ post) → Forall (le0 e) post →
  sorted0 (orderToLeft (pre ++ e :: post) (length pre)).1.
Proof.
  intros Hs Hpost.
  destruct (orderToLeft_spec pre e post) as (p1 & p2 & -> & -> & HF & Hl).
  simpl. rewrite <- (assoc_L (++)) in Hs.
  apply sorted0_insert; [done| |].
  - apply Forall_le_of_all_before_last.
    + unfold sorted0 in *. by apply StronglySorted_app in Hs as (_ & ? & _).
    + intros p b ->. by apply (Hl p b).
  - apply Forall_app. split; [|done].
    eapply Forall_impl; [done|]. intros x Hx. by apply nlt_nle.
Qed.

(** [orderToRight] repairs a list that is sorted but for the entry at
    [|pre|], which may be too large. *)
Lemma orderToRight_sorted pre e post :
  sorted0 (pre ++ post) → Forall (λ b, le0 b e) pre →
  sorted0 (orderToRight (pre ++ e :: post) (length pre)).1.
Proof.
  intros Hs Hpre.
  destruct (orderToRight_spec pre e post) as (p1 & p2 & -> & -> & HF & Hl).
  simpl. rewrite (assoc_L (++)). rewrite (assoc_L (++)) in Hs.
  apply sorted0_insert; [done| |].
  - apply Forall_app. split; [done|].
    eapply Forall_impl; [done|]. intros x Hx. by apply nlt_nle.
  - apply Forall_ge_of_head.
    + unfold sorted0 in *. by apply StronglySorted_app in Hs as (_ & _ & ?).
    + intros b p ->. by apply (Hl b p).
Qed.

Lemma leafInsert_sorted l ir (data : A) :
  sorted0 l → sorted0 (leafInsert l ir data).
Proof.
  intros Hs.
  destruct (leafInsert_spec l ir data) as (l1 & l2 & -> & -> & HF & Hl).
  apply sorted0_insert; [done| |].
  - eapply Forall_impl; [done|]. intros x Hx. by apply nlt_nle.
  - apply Forall_ge_of_head.
    + unfold sorted0 in *. by apply StronglySorted_app in Hs as (_ & _ & ?).
    + intros b p ->. by apply (Hl b p).
Qed.

Lemma sorted0_delete_at l i : sorted0 l → sorted0 (delete i l).
Proof.
  intros Hs. destruct (l !! i) as [e|] eqn:E.
  - rewrite <- (take_drop_middle l i e E) in Hs.
    rewrite delete_take_drop. by eapply sorted0_delete.
  - rewrite delete_take_drop, take_ge, drop_ge, (right_id_L [] (++));
      [done|apply lookup_ge_None in E; lia..].
Qed.

End Sorted.

(** * Quicksort and the split *)

Lemma maxEntries_eq : maxEntries = 64.
Proof. reflexivity. Qed.
Lemma minEntries_eq : minEntries = 6.
Proof. reflexivity. Qed.

#[global] Opaque maxEntries minEntries.

Ltac cap := rewrite ?minEntries_eq, ?maxEntries_eq in *; lia.

Section Qsort.
Context {N : Type} {num : number N} {A : Type}.
Implicit Types l from into lft rgt : list (rect N * A).

Lemma partition_loop_perm axis rev max n i lo hi l :
  (partition_loop axis rev max n i lo hi l).1 ≡ₚ l.
Proof.
  revert i lo l. induction n as [|n IH]; intros i lo l; simpl; [done|].
  destruct (l !! i), (l !! hi); try done.
  case_match; rewrite IH; [apply swap_perm|done].
Qed.

Lemma qsort_S fuel axis rev max l :
  qsort (S fuel) axis rev max l =
  if length l <? 2 then l
  else
    let hi := length l - 1 in
    let l1 := swap (length l / 2) hi l in
    let '(l2, lo) := partition_loop axis rev max (length l) 0 0 hi l1 in
    let l3 := swap lo hi l2 in
    match l3 !! lo with
    | Some p => qsort fuel axis rev max (take lo l3) ++
                p :: qsort fuel axis rev max (drop (S lo) l3)
    | None => l3
    end.
Proof. reflexivity. Qed.

Lemma qsort_perm fuel axis rev max l : qsort fuel axis rev max l ≡ₚ l.
Proof.
  revert l. induction fuel as [|fuel IH]; intros l; [done|].
  rewrite qsort_S. case_match; [done|]. cbv zeta.
  destruct (partition_loop _ _ _ _ _ _ _ _) as [l2 lo] eqn:E.
  assert (swap lo (length l - 1) l2 ≡ₚ l) as Hp.
  { rewrite swap_perm.
    pose proof (partition_loop_perm axis rev max (length l) 0 0 (length l - 1)
                  (swap (length l `div` 2) (length l - 1) l)) as HPP.
    rewrite E in HPP. simpl in HPP. rewrite HPP. apply swap_perm. }
  destruct (swap lo (length l - 1) l2 !! lo) as [p|] eqn:Ep; [|done].
  rewrite !IH. rewrite <- Hp at 3.
  by rewrite (take_drop_middle _ _ _ Ep).
Qed.

Lemma sort_perm l : sort l ≡ₚ l.
Proof. apply qsort_perm. Qed.
Lemma sortByAxis_perm axis rev max l : sortByAxis axis rev max l ≡ₚ l.
Proof. apply qsort_perm. Qed.
Lemma sort_if_perm l : (if issorted l then l else sort l) ≡ₚ l.
Proof. case_match; [done|apply sort_perm]. Qed.
Lemma sort_length l : length (sort l) = length l.
Proof. by rewrite sort_perm. Qed.
Lemma sortByAxis_length axis rev max l :
  length (sortByAxis axis rev max l) = length l.
Proof. by rewrite sortByAxis_perm. Qed.

(** ** moveRectAtIndexInto, the distribution loop, the refill loop *)

Lemma moveRectAtIndexInto_Some from index into :
  index < length from → length into < maxEntries →
  ∃ from' into', moveRectAtIndexInto from index into = Some (from', into').
Proof.
  intros H1 H2. unfold moveRectAtIndexInto.
  destruct (maxEntries <=? length into) eqn:E; [apply Nat.leb_le in E; lia|].
  destruct (lookup_lt_is_Some_2 from index H1) as [e ->].
  destruct (last from) eqn:El; [eauto|].
  apply last_None in El. subst. simpl in H1. lia.
Qed.

Lemma moveRectAtIndexInto_spec from index into from' into' :
  moveRectAtIndexInto from index into = Some (from', into') →
  S (length from') = length from ∧ length into' = S (length into) ∧
  length into < maxEntries ∧
  from' ++ into' ≡ₚ from ++ into.
Proof.
  unfold moveRectAtIndexInto.
  destruct (maxEntries <=? length into) eqn:E; [done|]. apply Nat.leb_gt in E.
  destruct (from !! index) as [e|] eqn:Ee; [|done].
  destruct (last from) as [lst|] eqn:El; [|done].
  intros [= <- <-]. apply last_Some in El as [f' ->].
  rewrite length_app, length_take, length_insert, !length_app. simpl.
  split_and!; [lia|lia|done|].
  replace (length f' + 1 - 1) with (length f') by lia.
  destruct (decide (index = length f')) as [->|Hne].
  - rewrite lookup_app_r, Nat.sub_diag in Ee by lia. simplify_eq/=.
    rewrite insert_app_r_alt, Nat.sub_diag by lia. simpl.
    rewrite take_app_length. solve_Permutation.
  - assert (index < length f') as Hlt.
    { apply lookup_lt_Some in Ee. rewrite length_app in Ee. simpl in Ee. lia. }
    rewrite lookup_app_l in Ee by done.
    rewrite insert_app_l by done.
    rewrite take_app_le by (rewrite length_insert; lia).
    rewrite take_ge by (rewrite length_insert; lia).
    rewrite <- (take_drop_middle _ _ _ Ee) at 2.
    rewrite insert_take_drop by done.
    solve_Permutation.
Qed.

Lemma split_loop_spec fuel (r : rect N) axis i lft rgt lft' rgt' :
  split_loop fuel r axis i lft rgt = Some (lft', rgt') →
  lft' ++ rgt' ≡ₚ lft ++ rgt.
Proof.
  revert i lft rgt. induction fuel as [|fuel IH]; intros i lft rgt; simpl.
  - destruct (lft !! i); [done|]. by intros [= <- <-].
  - destruct (lft !! i) as [e|] eqn:Ee; [|by intros [= <- <-]].
    case_match; [by apply IH|].
    destruct (moveRectAtIndexInto lft i rgt) as [[l1 r1]|] eqn:Em; [|done].
    intros HH. apply IH in HH. rewrite HH.
    by apply moveRectAtIndexInto_spec in Em as (_ & _ & _ & ?).
Qed.

Lemma split_loop_Some fuel (r : rect N) axis i lft rgt :
  length lft - i ≤ fuel → length lft + length rgt ≤ maxEntries →
  is_Some (split_loop fuel r axis i lft rgt).
Proof.
  revert i lft rgt. induction fuel as [|fuel IH]; intros i lft rgt Hf Hc; simpl.
  - destruct (lft !! i) eqn:E; [|done].
    apply lookup_lt_Some in E. lia.
  - destruct (lft !! i) as [e|] eqn:Ee; [|done].
    pose proof (lookup_lt_Some _ _ _ Ee) as Hi.
    case_match; [apply IH; lia|].
    destruct (moveRectAtIndexInto_Some lft i rgt) as (l1 & r1 & Hm); [lia..|].
    rewrite Hm. apply moveRectAtIndexInto_spec in Hm as (? & ? & ? & _).
    apply IH; lia.
Qed.

Lemma refill_done fuel from into :
  minEntries ≤ length into → refill fuel from into = Some (from, into).
Proof.
  intros Hl. apply Nat.ltb_ge in Hl. destruct fuel; simpl; by rewrite Hl.
Qed.

Lemma refill_spec fuel from into from' into' :
  refill fuel from into = Some (from', into') →
  from' ++ into' ≡ₚ from ++ into ∧ minEntries ≤ length into' ∧
  (length into < minEntries → length into' = minEntries).
Proof.
  revert from into. induction fuel as [|fuel IH]; intros from into; simpl.
  - destruct (length into <? minEntries) eqn:E; [done|].
    apply Nat.ltb_ge in E. intros [= <- <-]. split_and!; [done|done|lia].
  - destruct (length into <? minEntries) eqn:E.
    + apply Nat.ltb_lt in E.
      destruct (moveRectAtIndexInto _ _ _) as [[f1 i1]|] eqn:Em; [|done].
      intros HH. pose proof (IH _ _ HH) as (Hp & Hl & Hm).
      apply moveRectAtIndexInto_spec in Em as (? & Hi & ? & Hp').
      split_and!; [by rewrite Hp|done|]. intros _.
      destruct (decide (length i1 < minEntries)) as [|Hge]; [auto|].
      apply Nat.nlt_ge in Hge.
      rewrite refill_done in HH by done. simplify_eq. lia.
    + apply Nat.ltb_ge in E. intros [= <- <-]. split_and!; [done|done|lia].
Qed.

Lemma refill_Some fuel from into :
  minEntries - length into ≤ fuel → minEntries - length into ≤ length from →
  is_Some (refill fuel from into).
Proof.
  revert from into. induction fuel as [|fuel IH]; intros from into Hf Hc; simpl.
  - destruct (length into <? minEntries) eqn:E; [|done].
    apply Nat.ltb_lt in E. lia.
  - destruct (length into <? minEntries) eqn:E; [|done].
    apply Nat.ltb_lt in E.
    destruct (moveRectAtIndexInto_Some from (length from - 1) into)
      as (f1 & i1 & Hm); [lia|cap|].
    rewrite Hm. apply moveRectAtIndexInto_spec in Hm as (? & ? & ? & _).
    apply IH; lia.
Qed.

(** The split of a full node: both halves get between [minEntries] and
    [maxEntries - minEntries] entries, and together exactly the entries of
    the node. *)
Lemma splitNode_full (r : rect N) l :
  length l = maxEntries →
  ∃ l' r', splitNode r l = Some (l', r') ∧
    l' ++ r' ≡ₚ l ∧
    minEntries ≤ length l' ≤ maxEntries - minEntries ∧
    minEntries ≤ length r' ≤ maxEntries - minEntries.
Proof.
  intros Hlen. unfold splitNode, splitNodeLargestAxisEdgeSnap.
  destruct (split_loop_Some (length l) r (largestAxis r) 0 l [])
    as [[l1 r1] Hs]; [lia|simpl; lia|].
  rewrite Hs. apply split_loop_spec in Hs. rewrite (right_id_L [] (++)) in Hs.
  assert (length l1 + length r1 = maxEntries) as Hsum.
  { by rewrite <- length_app, Hs. }
  destruct (length l1 <? minEntries) eqn:E1.
  - apply Nat.ltb_lt in E1.
    destruct (refill_Some minEntries (sortByAxis (largestAxis r) true false r1) l1)
      as [[r2 l2] Hr]; [lia|rewrite sortByAxis_length;
        cap|].
    rewrite Hr. apply refill_spec in Hr as (Hp & Hl & Hm).
    rewrite sortByAxis_perm in Hp. specialize (Hm E1).
    eexists _, _. split; [done|].
    assert (length r2 + length l2 = maxEntries) as Hsum2.
    { rewrite <- length_app, Hp, length_app. lia. }
    assert (length (if issorted l2 then l2 else sort l2) = length l2) as Hl2.
    { case_match; [done|apply sort_length]. }
    rewrite Hl2, sort_length. split_and!;
      try cap.
    rewrite (sort_perm r2), sort_if_perm.
    rewrite <- Hs, (Permutation_app_comm l2), Hp. apply Permutation_app_comm.
  - apply Nat.ltb_ge in E1.
    destruct (length r1 <? minEntries) eqn:E2.
    + apply Nat.ltb_lt in E2.
      destruct (refill_Some minEntries (sortByAxis (largestAxis r) true true l1) r1)
        as [[l2 r2] Hr]; [lia|rewrite sortByAxis_length;
          cap|].
      rewrite Hr. apply refill_spec in Hr as (Hp & Hl & Hm).
      rewrite sortByAxis_perm in Hp. specialize (Hm E2).
      eexists _, _. split; [done|].
      assert (length l2 + length r2 = maxEntries) as Hsum2.
      { rewrite <- length_app, Hp, length_app. lia. }
      assert (length (if issorted l2 then l2 else sort l2) = length l2) as Hl2.
      { case_match; [done|apply sort_length]. }
      rewrite Hl2, sort_length. split_and!;
        try cap.
      by rewrite (sort_perm r2), sort_if_perm, Hp.
    + apply Nat.ltb_ge in E2.
      eexists _, _. split; [done|].
      assert (length (if issorted l1 then l1 else sort l1) = length l1) as Hl2.
      { case_match; [done|apply sort_length]. }
      rewrite Hl2, sort_length. split_and!;
        try cap.
      by rewrite (sort_perm r1), sort_if_perm.
Qed.

(** Whatever the node, a split that returns keeps the entries. *)
Lemma splitNode_perm (r : rect N) l l' r' :
  splitNode r l = Some (l', r') → l' ++ r' ≡ₚ l.
Proof.
  unfold splitNode, splitNodeLargestAxisEdgeSnap.
  destruct (split_loop _ _ _ _ _ _) as [[l1 r1]|] eqn:Hs; [|done].
  apply split_loop_spec in Hs. rewrite (right_id_L [] (++)) in Hs.
  assert (∀ l2 r2, l2 ++ r2 ≡ₚ l →
    (if issorted l2 then l2 else sort l2) ++ sort r2 ≡ₚ l) as Hfin.
  { intros l2 r2 <-. by rewrite (sort_perm r2), sort_if_perm. }
  destruct (length l1 <? minEntries).
  - destruct (refill _ _ _) as [[r2 l2]|] eqn:Hr; [|done].
    intros [= <- <-]. apply Hfin.
    apply refill_spec in Hr as (Hp & _). rewrite sortByAxis_perm in Hp.
    rewrite <- Hs, (Permutation_app_comm l2), Hp. apply Permutation_app_comm.
  - destruct (length r1 <? minEntries).
    + destruct (refill _ _ _) as [[l2 r2]|] eqn:Hr; [|done].
      intros [= <- <-]. apply Hfin.
      apply refill_spec in Hr as (Hp & _). rewrite sortByAxis_perm in Hp.
      by rewrite Hp.
    + intros [= <- <-]. by apply Hfin.
Qed.

End Qsort.

Section QsortSorted.
Context {N : Type} {num : number N} {ord : number_order N} {A : Type}.
Implicit Types l : list (rect N * A).

Lemma partition_loop_S axis rev max n i lo hi l :
  partition_loop axis rev max (S n) i lo hi l =
  match l !! i, l !! hi with
  | Some a, Some p =>
      if qbefore axis rev max a p
      then partition_loop axis rev max n (S i) (S lo) hi (swap i lo l)
      else partition_loop axis rev max n (S i) lo hi l
  | _, _ => (l, lo)
  end.
Proof. reflexivity. Qed.

#[local] Arguments partition_loop : simpl never.

Lemma partition_loop_spec (p : rect N * A) R L G :
  Forall (λ x, nlt (min0 x) (min0 p) = true) L →
  Forall (λ x, nlt (min0 x) (min0 p) = false) G →
  ∃ L' G',
    partition_loop 0 false false (S (length R)) (length L + length G)
      (length L) (length L + length G + length R) (L ++ G ++ R ++ [p])
    = (L' ++ G' ++ [p], length L') ∧
    L' ++ G' ≡ₚ L ++ G ++ R ∧
    Forall (λ x, nlt (min0 x) (min0 p) = true) L' ∧
    Forall (λ x, nlt (min0 x) (min0 p) = false) G'.
Proof.
  revert L G. induction R as [|a R IH]; intros L G HL HG.
  - exists L, G. rewrite partition_loop_S. simpl. rewrite Nat.add_0_r.
    rewrite (assoc_L (++) L G), lookup_app_r by (rewrite length_app; lia).
    rewrite length_app, Nat.sub_diag. simpl.
    unfold qbefore, qkey. simpl. fold (min0 p). rewrite nlt_irrefl.
    split_and!; [by rewrite <- (assoc_L (++))|by rewrite (right_id_L [] (++))|done..].
  - rewrite partition_loop_S.
    assert ((L ++ G ++ (a :: R) ++ [p]) !! (length L + length G) = Some a) as ->.
    { rewrite (assoc_L (++) L G), lookup_app_r by (rewrite length_app; lia).
      by rewrite length_app, Nat.sub_diag. }
    assert ((L ++ G ++ (a :: R) ++ [p]) !! (length L + length G + length (a :: R))
            = Some p) as ->.
    { rewrite (assoc_L (++) L G), (assoc_L (++) _ (a :: R)).
      rewrite lookup_app_r by (rewrite !length_app; lia).
      rewrite !length_app. by rewrite Nat.sub_diag. }
    unfold qbefore, qkey. simpl. fold (min0 a) (min0 p).
    destruct (nlt (min0 a) (min0 p)) eqn:E.
    + assert (∃ G1, swap (length L + length G) (length L) (L ++ G ++ a :: R ++ [p])
                = (L ++ [a]) ++ G1 ++ R ++ [p] ∧ G1 ≡ₚ G ∧ length G1 = length G)
        as (G1 & -> & HG1 & HlG1).
      { destruct G as [|g G].
        - exists []. simpl. rewrite Nat.add_0_r, swap_same.
          by rewrite <- (assoc_L (++)).
        - exists (G ++ [g]). rewrite swap_sym. simpl.
          pose proof (swap_app L g G a (R ++ [p])) as Hsw.
          rewrite Hsw. rewrite <- !(assoc_L (++)). simpl.
          split_and!; [done| |rewrite length_app; simpl; lia].
          symmetry. apply Permutation_cons_append. }
      destruct (IH (L ++ [a]) G1) as (L' & G' & Heq & Hp & HL' & HG').
      { apply Forall_app. split; [done|by constructor]. }
      { by rewrite HG1. }
      exists L', G'. split_and!; [|rewrite Hp, HG1|done..].
      * rewrite <- Heq. rewrite !length_app, HlG1. simpl. f_equal; lia.
      * rewrite <- (assoc_L (++)). simpl. f_equiv.
        by rewrite <- Permutation_middle.
    + destruct (IH L (G ++ [a])) as (L' & G' & Heq & Hp & HL' & HG').
      { done. }
      { apply Forall_app. split; [done|by constructor]. }
      exists L', G'. split_and!; [|rewrite Hp|done..].
      * rewrite <- Heq. rewrite !length_app. simpl.
        rewrite <- !(assoc_L (++)). simpl. f_equal; lia.
      * by rewrite <- !(assoc_L (++)).
Qed.

Lemma qsort_sorted fuel l :
  length l ≤ fuel → sorted0 (qsort fuel 0 false false l).
Proof.
  revert l. induction fuel as [|fuel IH]; intros l Hf.
  { destruct l; [constructor|simpl in Hf; lia]. }
  rewrite qsort_S. destruct (length l <? 2) eqn:E2.
  { apply Nat.ltb_lt in E2. destruct l as [|a [|b l]]; simpl in *; try lia.
    - constructor.
    - repeat constructor. }
  apply Nat.ltb_ge in E2. cbv zeta.
  pose proof (swap_perm (length l `div` 2) (length l - 1) l) as Hp1.
  pose proof (swap_length (length l `div` 2) (length l - 1) l) as Hl1.
  destruct (swap (length l `div` 2) (length l - 1) l) as [|p R _] eqn:El1
    using rev_ind; [simpl in Hl1; lia|].
  rewrite length_app in Hl1. simpl in Hl1.
  destruct (partition_loop_spec p R [] []) as (L' & G' & Heq & Hp & HL' & HG');
    [done..|]. simpl in Heq.
  replace (length l) with (S (length R)) by lia.
  replace (S (length R) - 1) with (length R) by lia.
  rewrite Heq. simpl in Hp.
  assert (length L' + length G' = length R) as Hlen.
  { by rewrite <- length_app, Hp. }
  assert (∃ G1, swap (length L') (length R) (L' ++ G' ++ [p]) = L' ++ p :: G1 ∧
                G1 ≡ₚ G') as (G1 & -> & HG1).
  { destruct G' as [|g G'].
    - exists []. simpl in *. rewrite Nat.add_0_r in Hlen. rewrite <- Hlen.
      by rewrite swap_same.
    - exists (G' ++ [g]). simpl in Hlen.
      replace (length R) with (length L' + S (length G')) by lia.
      pose proof (swap_app L' g G' p []) as Hsw. simpl in Hsw.
      rewrite <- Hsw. split; [done|]. symmetry. apply Permutation_cons_append. }
  rewrite lookup_app_r, Nat.sub_diag by lia. simpl.
  rewrite take_app_length.
  replace (drop (S (length L')) (L' ++ p :: G1)) with G1
    by (by rewrite (cons_middle p), (assoc_L (++)), drop_app_length'
          by (rewrite length_app; simpl; lia)).
  apply sorted0_insert.
  - unfold sorted0. apply StronglySorted_app. split_and!.
    + intros x1 x2 Hx1 Hx2.
      rewrite qsort_perm in Hx1. rewrite qsort_perm, HG1 in Hx2.
      eapply Forall_forall in HL'; [|done].
      eapply Forall_forall in HG'; [|done]. simpl in *.
      unfold le0, nle. apply nlt_asym. by eapply nlt_le_trans.
    + apply IH. lia.
    + apply IH. rewrite HG1. lia.
  - apply Forall_forall. intros x Hx. rewrite qsort_perm in Hx.
    eapply Forall_forall in HL'; [|done]. by apply nlt_nle.
  - apply Forall_forall. intros x Hx. rewrite qsort_perm, HG1 in Hx.
    eapply Forall_forall in HG'; [|done]. done.
Qed.

Lemma sort_sorted l : sorted0 (sort l).
Proof. by apply qsort_sorted. Qed.

Lemma splitNode_sorted (r : rect N) l l' r' :
  splitNode r l = Some (l', r') → sorted0 l' ∧ sorted0 r'.
Proof.
  unfold splitNode, splitNodeLargestAxisEdgeSnap.
  destruct (split_loop _ _ _ _ _ _) as [[l1 r1]|]; [|done].
  assert (∀ l2 r2 : list (rect N * A),
    sorted0 (if issorted l2 then l2 else sort l2) ∧ sorted0 (sort r2)) as Hfin.
  { intros l2 r2. split; [|apply sort_sorted].
    destruct (issorted l2) eqn:E; [by apply issorted_spec|apply sort_sorted]. }
  destruct (length l1 <? minEntries).
  - destruct (refill _ _ _) as [[r2 l2]|]; [|done]. intros [= <- <-]. apply Hfin.
  - destruct (length r1 <? minEntries).
    + destruct (refill _ _ _) as [[l2 r2]|]; [|done]. intros [= <- <-]. apply Hfin.
    + intros [= <- <-]. apply Hfin.
Qed.

End QsortSorted.

(** * Bounding rectangles and the subtree choice *)

Section NodeRect.
Context {N : Type} {num : number N} {ord : number_order N} {A : Type}.
Implicit Types l : list (rect N * A).
Implicit Types e : rect N * A.

#[local] Arguments nodeRect : simpl never.

Lemma foldl_expand_assoc (a b : rect N) l :
  foldl (λ acc x, expand acc x.1) (expand a b) l
  = expand a (foldl (λ acc x, expand acc x.1) b l).
Proof.
  revert b. induction l as [|x l IH]; intros b; simpl; [done|].
  by rewrite expand_assoc, IH.
Qed.

Lemma nodeRect_singleton e : nodeRect [e] = e.1.
Proof. done. Qed.

Lemma nodeRect_cons e e' l :
  nodeRect (e :: e' :: l) = expand e.1 (nodeRect (e' :: l)).
Proof. unfold nodeRect. simpl. apply foldl_expand_assoc. Qed.


Lemma nodeRectOr_nonempty s l : l ≠ [] → nodeRectOr s l = nodeRect l.
Proof. by destruct l. Qed.

Lemma nodeRect_app l1 l2 :
  l1 ≠ [] → l2 ≠ [] → nodeRect (l1 ++ l2) = expand (nodeRect l1) (nodeRect l2).
Proof.
  intros H1 H2. induction l1 as [|e [|e' l1] IH]; [done| |].
  - destruct l2 as [|e2 l2]; [done|]. simpl. by rewrite nodeRect_cons.
  - change ((e :: e' :: l1) ++ l2) with (e :: e' :: (l1 ++ l2)).
    rewrite !nodeRect_cons, expand_assoc. f_equal. by apply IH.
Qed.

Lemma nodeRect_cons' e l :
  l ≠ [] → nodeRect (e :: l) = expand e.1 (nodeRect l).
Proof. destruct l; [done|]. intros _. apply nodeRect_cons. Qed.

Lemma nodeRect_perm l l' : l ≡ₚ l' → nodeRect l = nodeRect l'.
Proof.
  induction 1 as [|x l l' Hp IH|x y l|l l' l'' H1 IH1 H2 IH2].
  - done.
  - destruct l as [|a l].
    + apply Permutation_nil_l in Hp. by subst.
    + assert (l' ≠ []) by (intros ->; by apply Permutation_nil_r in Hp).
      assert (a :: l ≠ []) by done.
      rewrite (nodeRect_cons' x (a :: l)), (nodeRect_cons' x l') by done.
      by rewrite IH.
  - destruct l as [|a l].
    + unfold nodeRect. simpl. apply expand_comm.
    + rewrite !nodeRect_cons.
      by rewrite <- !expand_assoc, (expand_comm y.1).
  - congruence.
Qed.

Lemma nodeRect_contains l e : e ∈ l → contains (nodeRect l) e.1 = true.
Proof.
  intros [k Hk]%elem_of_Permutation. rewrite (nodeRect_perm _ _ Hk).
  destruct k; [apply contains_refl|].
  rewrite nodeRect_cons. apply expand_contains_l.
Qed.

Lemma nodeRect_lub l x :
  l ≠ [] → (∀ e, e ∈ l → contains x e.1 = true) → contains x (nodeRect l) = true.
Proof.
  induction l as [|e [|e' l] IH]; [done| |]; intros _ H.
  - apply H. by left.
  - rewrite nodeRect_cons. apply expand_lub; [apply H; by left|].
    apply IH; [done|]. intros. apply H. by right.
Qed.

(** The bounding rectangle after one more entry. *)
Lemma nodeRect_add l e l' :
  l ≠ [] → l' ≡ₚ e :: l → nodeRect l' = expand (nodeRect l) e.1.
Proof.
  intros Hne Hp. rewrite (nodeRect_perm _ _ Hp), nodeRect_cons' by done.
  apply expand_comm.
Qed.

(** Removing an entry contained in [ir], when [ir] is strictly inside the
    bounding rectangle, leaves the rectangle as it is (and leaves entries). *)
Lemma nodeRect_remove_inner l i e ir :
  l !! i = Some e → contains ir e.1 = true → onedge ir (nodeRect l) = false →
  delete i l ≠ [] ∧ nodeRect (delete i l) = nodeRect l.
Proof.
  intros Hi Hc Ho.
  pose proof (delete_Permutation _ _ _ Hi) as Hp.
  destruct (delete i l) as [|a k] eqn:Ed.
  - rewrite (nodeRect_perm _ _ Hp), nodeRect_singleton in Ho.
    by rewrite onedge_self_strict in Ho.
  - split; [done|].
    rewrite (nodeRect_perm _ _ Hp) in Ho |- *.
    rewrite (nodeRect_cons' e (a :: k)) in Ho |- * by done.
    eapply expand_strict; [done|done|]. done.
Qed.

Lemma min0_expand (a b : rect N) :
  (rmin (expand a b)).1 = nmin (rmin a).1 (rmin b).1.
Proof. done. Qed.

End NodeRect.

Section Choose.
Context {N : Type} {num : number N} {ord : number_order N}.
Implicit Types rs pre : list (rect N).

Definition enlargement (r ir : rect N) : N := nsub (unionedArea r ir) (area r).

(** What the first loop of the subtree choice has found after the
    rectangles [pre]. *)
Definition containing_best pre (ir : rect N) (cur : option (nat * N)) : Prop :=
  match cur with
  | None => ∀ k r, pre !! k = Some r → contains r ir = false
  | Some (j, a) =>
      ∃ r, pre !! j = Some r ∧ contains r ir = true ∧ a = area r ∧
        ∀ k r', pre !! k = Some r' → contains r' ir = true →
          nle a (area r') ∧ (k < j → nlt a (area r') = true)
  end.

Lemma chooseContaining_inv rs pre ir cur :
  containing_best pre ir cur →
  containing_best (pre ++ rs) ir (chooseContaining rs ir (length pre) cur).
Proof.
  revert pre cur. induction rs as [|r rs IH]; intros pre cur Hinv; simpl.
  { by rewrite (right_id_L [] (++)). }
  replace (S (length pre)) with (length (pre ++ [r]))
    by (rewrite length_app; simpl; lia).
  rewrite (cons_middle r), (assoc_L (++)). apply IH.
  destruct (contains r ir) eqn:Ec.
  - destruct cur as [[j na]|]; simpl in *.
    + destruct Hinv as (rj & Hj & Hcj & -> & Hall).
      pose proof (lookup_lt_Some _ _ _ Hj) as Hlt.
      destruct (nlt (area r) (area rj)) eqn:El.
      * exists r. split_and!; [by rewrite lookup_app_r, Nat.sub_diag by lia|done..|].
        intros k r' Hk Hck. apply lookup_app_Some in Hk as [Hk|[Hge Hk]].
        -- destruct (Hall _ _ Hk Hck) as [Hle _].
           assert (nlt (area r) (area r') = true) by (by eapply nlt_le_trans).
           split; [by apply nlt_nle|done].
        -- apply list_lookup_singleton_Some in Hk as [Hk ->].
           split; [apply nle_refl|lia].
      * exists rj. split_and!; [by apply lookup_app_l_Some|done..|].
        intros k r' Hk Hck. apply lookup_app_Some in Hk as [Hk|[Hge Hk]].
        -- by apply Hall.
        -- apply list_lookup_singleton_Some in Hk as [Hk ->].
           split; [done|lia].
    + exists r. split_and!; [by rewrite lookup_app_r, Nat.sub_diag by lia|done..|].
      intros k r' Hk Hck. apply lookup_app_Some in Hk as [Hk|[Hge Hk]].
      * rewrite (Hinv _ _ Hk) in Hck. done.
      * apply list_lookup_singleton_Some in Hk as [Hk ->].
        split; [apply nle_refl|lia].
  - destruct cur as [[j na]|]; simpl in *.
    + destruct Hinv as (rj & Hj & Hcj & -> & Hall).
      exists rj. split_and!; [by apply lookup_app_l_Some|done..|].
      intros k r' Hk Hck. apply lookup_app_Some in Hk as [Hk|[Hge Hk]].
      * by apply Hall.
      * apply list_lookup_singleton_Some in Hk as [Hk ->]. congruence.
    + intros k r' Hk. apply lookup_app_Some in Hk as [Hk|[Hge Hk]].
      * by eapply Hinv.
      * by apply list_lookup_singleton_Some in Hk as [Hk ->].
Qed.

(** [(e, a)] is at most [(e', a')] in the lexicographic order. *)
Definition lex_le (e a e' a' : N) : Prop :=
  nlt e e' = true ∨ (e = e' ∧ nle a a').
Definition lex_lt (e a e' a' : N) : Prop :=
  nlt e e' = true ∨ (e = e' ∧ nlt a a' = true).

Definition enlargement_best pre (ir : rect N) (cur : option (nat * N * N))
    : Prop :=
  match cur with
  | None => pre = []
  | Some (j, je, ja) =>
      ∃ r, pre !! j = Some r ∧ je = enlargement r ir ∧ ja = area r ∧
        ∀ k r', pre !! k = Some r' →
          lex_le je ja (enlargement r' ir) (area r') ∧
          (k < j → lex_lt je ja (enlargement r' ir) (area r'))
  end.

Lemma lex_cases (e a e' a' : N) :
  (nlt e e' || (negb (nlt e' e) && nlt a a') = true → lex_lt e a e' a') ∧
  (nlt e e' || (negb (nlt e' e) && nlt a a') = false → lex_le e' a' e a).
Proof.
  unfold lex_lt, lex_le. split.
  - intros [H|[H1 H2]%andb_true_iff]%orb_true_iff; [by left|].
    apply negb_true_iff in H1.
    destruct (nlt e e') eqn:E; [by left|right].
    split; [by apply nlt_connex|done].
  - intros [H1 H2]%orb_false_iff.
    apply andb_false_iff in H2 as [H2|H2].
    + apply negb_false_iff in H2. by left.
    + destruct (nlt e' e) eqn:E; [by left|right].
      split; [by apply nlt_connex|done].
Qed.

Lemma lex_le_lt_trans e1 a1 e2 a2 e3 a3 :
  lex_lt e1 a1 e2 a2 → lex_le e2 a2 e3 a3 → lex_lt e1 a1 e3 a3.
Proof.
  unfold lex_lt, lex_le. intros [H1|[-> H1]] [H2|[-> H2]].
  - left. by eapply nlt_trans.
  - by left.
  - by left.
  - right. split; [done|]. by eapply nlt_le_trans.
Qed.

Lemma lex_lt_le e a e' a' : lex_lt e a e' a' → lex_le e a e' a'.
Proof.
  unfold lex_lt, lex_le. intros [H|[-> H]]; [by left|right].
  split; [done|by apply nlt_nle].
Qed.

Lemma lex_le_trans e1 a1 e2 a2 e3 a3 :
  lex_le e1 a1 e2 a2 → lex_le e2 a2 e3 a3 → lex_le e1 a1 e3 a3.
Proof.
  unfold lex_le. intros [H1|[-> H1]] [H2|[-> H2]].
  - left. by eapply nlt_trans.
  - by left.
  - by left.
  - right. split; [done|]. by eapply nle_trans.
Qed.

Lemma lex_le_refl e a : lex_le e a e a.
Proof. right. split; [done|apply nle_refl]. Qed.

Lemma chooseLeastEnlargement_inv rs pre ir cur :
  enlargement_best pre ir cur →
  enlargement_best (pre ++ rs) ir
    (chooseLeastEnlargement_loop rs ir (length pre) cur).
Proof.
  revert pre cur. induction rs as [|r rs IH]; intros pre cur Hinv.
  { by rewrite (right_id_L [] (++)). }
  simpl.
  replace (S (length pre)) with (length (pre ++ [r]))
    by (rewrite length_app; simpl; lia).
  rewrite (cons_middle r), (assoc_L (++)). apply IH.
  fold (enlargement r ir).
  destruct cur as [[[j je] ja]|]; simpl in *.
  - destruct Hinv as (rj & Hj & -> & -> & Hall).
    pose proof (lookup_lt_Some _ _ _ Hj) as Hlt.
    pose proof (lex_cases (enlargement r ir) (area r) (enlargement rj ir) (area rj))
      as [Ht Hf].
    destruct (nlt (enlargement r ir) (enlargement rj ir)
              || negb (nlt (enlargement rj ir) (enlargement r ir))
                 && nlt (area r) (area rj)) eqn:E.
    + specialize (Ht eq_refl).
      exists r. split_and!; [by rewrite lookup_app_r, Nat.sub_diag by lia|done..|].
      intros k r' Hk. apply lookup_app_Some in Hk as [Hk|[Hge Hk]].
      * destruct (Hall _ _ Hk) as [Hle _].
        assert (lex_lt (enlargement r ir) (area r) (enlargement r' ir) (area r'))
          by (by eapply lex_le_lt_trans).
        split; [by apply lex_lt_le|done].
      * apply list_lookup_singleton_Some in Hk as [Hk ->].
        split; [apply lex_le_refl|lia].
    + specialize (Hf eq_refl).
      exists rj. split_and!; [by apply lookup_app_l_Some|done..|].
      intros k r' Hk. apply lookup_app_Some in Hk as [Hk|[Hge Hk]].
      * by apply Hall.
      * apply list_lookup_singleton_Some in Hk as [Hk ->]. split; [done|lia].
  - subst. exists r. split_and!; [done..|].
    intros k r' Hk. apply list_lookup_singleton_Some in Hk as [-> ->].
    split; [apply lex_le_refl|simpl; lia].
Qed.

(** The subtree choice, as the specification words it. *)
Definition chosen_subtree rs (ir : rect N) (j : nat) : Prop :=
  ∃ r, rs !! j = Some r ∧
    ((contains r ir = true ∧
      ∀ k r', rs !! k = Some r' → contains r' ir = true →
        nle (area r) (area r') ∧ (k < j → nlt (area r) (area r') = true))
     ∨
     ((∀ k r', rs !! k = Some r' → contains r' ir = false) ∧
      ∀ k r', rs !! k = Some r' →
        nle (enlargement r ir) (enlargement r' ir) ∧
        (enlargement r' ir = enlargement r ir → nle (area r) (area r')) ∧
        (k < j → enlargement r' ir = enlargement r ir →
                 nlt (area r) (area r') = true))).

Lemma chooseSubtree_spec rs ir j :
  chooseSubtree rs ir = Some j → chosen_subtree rs ir j.
Proof.
  unfold chooseSubtree.
  pose proof (chooseContaining_inv rs [] ir None) as Hc. simpl in Hc.
  destruct (chooseContaining rs ir 0 None) as [[i a]|].
  - intros [= ->]. destruct Hc as (r & Hr & Hcr & -> & Hall); [done|].
    exists r. split; [done|]. left. done.
  - unfold chooseLeastEnlargement.
    pose proof (chooseLeastEnlargement_inv rs [] ir None eq_refl) as Hb.
    simpl in *.
    destruct (chooseLeastEnlargement_loop rs ir 0 None) as [[[j' je] ja]|]; [|done].
    intros [= ->]. destruct Hb as (r & Hr & -> & -> & Hall).
    exists r. split; [done|]. right. split; [by apply Hc|].
    intros k r' Hk. destruct (Hall _ _ Hk) as [Hle Hlt]. split_and!.
    + destruct Hle as [?|[-> _]]; [by apply nlt_nle|apply nle_refl].
    + intros Heq'. destruct Hle as [Hl|[_ ?]]; [|done].
      rewrite Heq', nlt_irrefl in Hl. done.
    + intros Hkj Heq'. destruct (Hlt Hkj) as [Hl|[_ ?]]; [|done].
      rewrite Heq', nlt_irrefl in Hl. done.
Qed.

End Choose.

Section ChooseSome.
Context {N : Type} {num : number N}.

Lemma chooseContaining_lt rs (ir : rect N) i cur j a :
  chooseContaining rs ir i cur = Some (j, a) →
  (∀ j' a', cur = Some (j', a') → j' < i) → j < i + length rs.
Proof.
  revert i cur. induction rs as [|r rs IH]; intros i cur; simpl.
  - intros -> H. specialize (H _ _ eq_refl). lia.
  - intros Heq H. apply IH in Heq; [lia|].
    intros j' a'. destruct (contains r ir).
    + destruct cur as [[j0 a0]|].
      * case_match; intros [= <- <-]; [lia|]. specialize (H _ _ eq_refl). lia.
      * intros [= <- <-]. lia.
    + intros ->. specialize (H _ _ eq_refl). lia.
Qed.

Lemma chooseLeastEnlargement_loop_lt rs (ir : rect N) i cur j e a :
  chooseLeastEnlargement_loop rs ir i cur = Some (j, e, a) →
  (∀ j' e' a', cur = Some (j', e', a') → j' < i) → j < i + length rs.
Proof.
  revert i cur. induction rs as [|r rs IH]; intros i cur; simpl.
  - intros -> H. specialize (H _ _ _ eq_refl). lia.
  - intros Heq H. apply IH in Heq; [lia|].
    intros j' e' a'. destruct cur as [[[j0 e0] a0]|].
    + case_match; intros [= <- <- <-]; [lia|]. specialize (H _ _ _ eq_refl). lia.
    + intros [= <- <- <-]. lia.
Qed.

Lemma chooseLeastEnlargement_loop_Some rs (ir : rect N) i cur :
  rs ≠ [] ∨ is_Some cur → is_Some (chooseLeastEnlargement_loop rs ir i cur).
Proof.
  revert i cur. induction rs as [|r rs IH]; intros i cur; simpl.
  - by intros [?|?].
  - intros _. apply IH. right. destruct cur as [[[??]?]|]; [case_match|]; done.
Qed.

(** On a branch with at least one child the choice is an index below
    [count]. *)
Lemma chooseSubtree_Some rs (ir : rect N) :
  rs ≠ [] → ∃ j, chooseSubtree rs ir = Some j ∧ j < length rs.
Proof.
  intros Hne. unfold chooseSubtree.
  destruct (chooseContaining rs ir 0 None) as [[j a]|] eqn:E.
  - exists j. split; [done|]. apply chooseContaining_lt in E; [lia|done].
  - unfold chooseLeastEnlargement.
    destruct (chooseLeastEnlargement_loop_Some rs ir 0 None) as [[[j e] a] Hj];
      [by left|].
    rewrite Hj. exists j. split; [done|].
    apply chooseLeastEnlargement_loop_lt in Hj; [lia|done].
Qed.

Lemma chooseSubtree_lt rs (ir : rect N) j :
  chooseSubtree rs ir = Some j → j < length rs.
Proof.
  unfold chooseSubtree.
  destruct (chooseContaining rs ir 0 None) as [[i a]|] eqn:E.
  - intros [= <-]. apply chooseContaining_lt in E; [lia|done].
  - unfold chooseLeastEnlargement.
    destruct (chooseLeastEnlargement_loop rs ir 0 None) as [[[i e] a]|] eqn:E';
      [|done].
    intros [= <-]. apply chooseLeastEnlargement_loop_lt in E'; [lia|done].
Qed.

End ChooseSome.

(** * Invariants of the tree value *)

#[global] Arguments nodeRect : simpl never.

Section BranchSteps.
Context {N : Type} {num : number N} {ord : number_order N} {A : Type}.
Implicit Types es pre post : list (rect N * A).

Lemma sorted0_fmap es : sorted0 es ↔ StronglySorted nle (min0 <$> es).
Proof.
  unfold sorted0. induction es as [|e es IH]; csimpl.
  - split; constructor.
  - split; intros [H1 H2]%StronglySorted_inv; constructor.
    + by apply IH.
    + apply Forall_fmap. exact H2.
    + by apply IH.
    + rewrite Forall_fmap in H2. exact H2.
Qed.

Lemma sorted0_keys es es' :
  min0 <$> es = min0 <$> es' → sorted0 es → sorted0 es'.
Proof. rewrite !sorted0_fmap. by intros ->. Qed.

Lemma sorted0_app_inv pre e post :
  sorted0 (pre ++ e :: post) →
  Forall (λ b, le0 b e) pre ∧ Forall (le0 e) post ∧ sorted0 (pre ++ post).
Proof.
  intros Hs. split_and!; [| |by eapply sorted0_delete].
  - unfold sorted0 in Hs. apply StronglySorted_app in Hs as (Hc & _ & _).
    apply Forall_forall. intros x Hx. apply Hc; [done|by left].
  - unfold sorted0 in Hs. apply StronglySorted_app in Hs as (_ & _ & Hs).
    by apply StronglySorted_inv in Hs as [_ ?].
Qed.

(** [if grown]: the slot at [|pre|] gets the expanded rectangle and moves
    left to its place. *)
Lemma branchGrown_spec pre (r : rect N) (c : A) post ir :
  ∃ pre1 pre2,
    pre = pre1 ++ pre2 ∧
    branchGrown (pre ++ (r, c) :: post) (length pre) ir
      = (pre1 ++ (expand r ir, c) :: pre2 ++ post, length pre1) ∧
    (sorted0 (pre ++ (r, c) :: post) →
     sorted0 (pre1 ++ (expand r ir, c) :: pre2 ++ post)).
Proof.
  unfold branchGrown.
  assert (alter (λ e, (expand e.1 ir, e.2)) (length pre) (pre ++ (r, c) :: post)
          = pre ++ (expand r ir, c) :: post) as ->.
  { rewrite alter_app_r_alt, Nat.sub_diag by lia. done. }
  destruct (orderToLeft_spec pre (expand r ir, c) post)
    as (p1 & p2 & -> & Heq & HF & Hl).
  exists p1, p2. split_and!; [done..|].
  intros Hs. apply sorted0_app_inv in Hs as (Hpre & Hpost & Hs).
  pose proof (orderToLeft_sorted (p1 ++ p2) (expand r ir, c) post Hs) as Hso.
  rewrite Heq in Hso. apply Hso.
  eapply Forall_impl; [done|]. intros x Hx. unfold le0 in *.
  etrans; [|done]. unfold min0. simpl. apply nmin_le_l.
Qed.

(** [if split]: the two halves replace the slot at [|pre|]. *)
Lemma branchSplit_spec pre (r0 : rect N) (lft : A) post lrect rrect (rgt : A) :
  length (pre ++ (r0, lft) :: post) < maxEntries →
  ∃ es', branchSplit (pre ++ (r0, lft) :: post) (length pre) lrect rrect rgt
           = Some es' ∧
    es' ≡ₚ (lrect, lft) :: (rrect, rgt) :: pre ++ post ∧
    (sorted0 (pre ++ (r0, lft) :: post) →
     nmin (rmin lrect).1 (rmin rrect).1 = (rmin r0).1 →
     sorted0 es').
Proof.
  intros Hlen. unfold branchSplit.
  destruct (maxEntries <=? _) eqn:E; [apply Nat.leb_le in E; lia|].
  rewrite lookup_app_r, Nat.sub_diag by lia. simpl.
  rewrite insert_app_r_alt, Nat.sub_diag by lia. simpl.
  assert (take (S (length pre)) (pre ++ (lrect, lft) :: post)
          = pre ++ [(lrect, lft)]) as ->.
  { rewrite (cons_middle (lrect, lft)), (assoc_L (++)).
    apply take_app_length'. rewrite length_app; simpl; lia. }
  assert (drop (S (length pre)) (pre ++ (lrect, lft) :: post) = post) as ->.
  { rewrite (cons_middle (lrect, lft)), (assoc_L (++)).
    apply drop_app_length'. rewrite length_app; simpl; lia. }
  set (x := if nlt (rmin rrect).1 (rmin lrect).1 then (rrect, rgt) else (lrect, lft)).
  set (y := if nlt (rmin rrect).1 (rmin lrect).1 then (lrect, lft) else (rrect, rgt)).
  assert ((if nlt (rmin rrect).1 (rmin lrect).1
           then swap (S (length pre)) (length pre)
                  ((pre ++ [(lrect, lft)]) ++ (rrect, rgt) :: post)
           else (pre ++ [(lrect, lft)]) ++ (rrect, rgt) :: post)
          = (pre ++ [x]) ++ y :: post) as ->.
  { unfold x, y. destruct (nlt (rmin rrect).1 (rmin lrect).1); [|done].
    rewrite <- !(assoc_L (++)). simpl. apply swap_adjacent. }
  replace (S (length pre)) with (length (pre ++ [x]))
    by (rewrite !length_app; simpl; lia).
  eexists. split; [done|]. split.
  - rewrite orderToRight_perm. unfold x, y.
    destruct (nlt (rmin rrect).1 (rmin lrect).1); solve_Permutation.
  - intros Hs Hmin. apply sorted0_app_inv in Hs as (Hpre & Hpost & Hs).
    assert (min0 x = (rmin r0).1 ∧ le0 x y) as [Hx Hxy].
    { unfold x, y, le0, nle, min0. rewrite <- Hmin. unfold nmin.
      destruct (nlt (rmin rrect).1 (rmin lrect).1) eqn:E'; simpl.
      - split; [done|]. by apply nlt_asym.
      - done. }
    apply orderToRight_sorted.
    + rewrite <- (assoc_L (++)). simpl.
      eapply (sorted0_keys (pre ++ (r0, lft) :: post)).
      * rewrite !fmap_app, !fmap_cons. by rewrite Hx.
      * apply sorted0_insert; done.
    + apply Forall_app. split; [|by constructor].
      eapply Forall_impl; [done|]. intros b Hb. unfold le0 in *.
      etrans; [done|]. etrans; [|done]. unfold min0 at 1. simpl.
      rewrite Hx. apply nle_refl.
Qed.

Lemma nodeRect_replace pre (r : rect N) (c : A) post es' (r' : rect N) (c' : A) ir :
  r' = expand r ir → es' ≡ₚ (r', c') :: pre ++ post →
  nodeRect es' = expand (nodeRect (pre ++ (r, c) :: post)) ir.
Proof.
  intros -> Hp. rewrite (nodeRect_perm _ _ Hp).
  rewrite (nodeRect_perm (pre ++ (r, c) :: post) ((r, c) :: pre ++ post))
    by (by rewrite Permutation_middle).
  destruct (pre ++ post) as [|a k]; [done|].
  rewrite !nodeRect_cons. simpl.
  by rewrite (expand_comm r ir), expand_assoc, (expand_comm _ ir), <- expand_assoc.
Qed.

End BranchSteps.

Section PureInv.
Context {N : Type} {num : number N} {ord : number_order N} {T : Type}.
Implicit Types t c : ptree N T.
Implicit Types es : list (rect N * ptree N T).

Lemma nodeRect_merge {A} (a b : rect N) (x y z : A) rest :
  nodeRect ((a, x) :: (b, y) :: rest) = nodeRect ((expand a b, z) :: rest).
Proof.
  destruct rest as [|k rest]; [done|].
  rewrite !nodeRect_cons. simpl. by rewrite expand_assoc.
Qed.

Lemma ptree_ind' (P : ptree N T → Prop) :
  (∀ l : list (rect N * T), P (PLeaf l)) →
  (∀ es, Forall (λ e, P e.2) es → P (PBranch es)) →
  ∀ t, P t.
Proof.
  intros Hl Hb. fix IH 1. intros [l|es]; [apply Hl|].
  apply Hb. induction es as [|[r c] es IHes]; constructor; [apply IH|apply IHes].
Qed.

Lemma concat_map_perm {X Y} (f : X → list Y) (l l' : list X) :
  l ≡ₚ l' → concat (map f l) ≡ₚ concat (map f l').
Proof.
  induction 1; simpl; [done|by f_equiv|solve_Permutation|by etrans].
Qed.

Lemma entries_branch es :
  entries (PBranch es) = concat (map (λ e, entries e.2) es).
Proof. done. Qed.

Lemma entries_leaf (l : list (rect N * T)) : entries (PLeaf l) = l.
Proof. done. Qed.

#[local] Arguments entries : simpl never.

(** ** Well-formed subtrees

    P5 (sibling order) in every node; for every child slot of a branch, P1
    locally (the slot's rectangle is the child's [rect()]) and P3 (the
    child holds between [minEntries] and [maxEntries - 1] entries). *)
Fixpoint wf (t : ptree N T) : Prop :=
  match t with
  | PLeaf es => sorted0 es
  | PBranch es =>
      sorted0 es ∧
      (fix all (l : list (rect N * ptree N T)) : Prop :=
         match l with
         | [] => True
         | e :: l =>
             (e.1 = prect e.2 ∧ minEntries ≤ pcount e.2 < maxEntries ∧ wf e.2)
             ∧ all l
         end) es
  end.

Definition child_ok (e : rect N * ptree N T) : Prop :=
  e.1 = prect e.2 ∧ minEntries ≤ pcount e.2 < maxEntries ∧ wf e.2.

Lemma wf_branch es : wf (PBranch es) ↔ sorted0 es ∧ Forall child_ok es.
Proof.
  simpl. f_equiv. induction es as [|e es IH]; [by split|].
  rewrite Forall_cons, IH. done.
Qed.

Lemma wf_leaf (es : list (rect N * T)) : wf (PLeaf es) ↔ sorted0 es.
Proof. done. Qed.

#[local] Opaque wf.

(** ** The split of a full node *)

Lemma psplit_full (r : rect N) t :
  pcount t = maxEntries → wf t →
  ∃ lft rgt, psplit r t = Some (lft, rgt) ∧
    wf lft ∧ wf rgt ∧ pleaf lft = pleaf t ∧ pleaf rgt = pleaf t ∧
    minEntries ≤ pcount lft ≤ maxEntries - minEntries ∧
    minEntries ≤ pcount rgt ≤ maxEntries - minEntries ∧
    expand (prect lft) (prect rgt) = prect t ∧
    entries lft ++ entries rgt ≡ₚ entries t.
Proof.
  intros Hc Hwf. destruct t as [es'|es]; simpl in *.
  - destruct (splitNode_full r es' Hc) as (l' & r' & Hs & Hp & Hl & Hr).
    pose proof (splitNode_sorted _ _ _ _ Hs) as [Hsl Hsr].
    rewrite Hs. eexists _, _. split; [done|]. simpl.
    rewrite !entries_leaf.
    split_and!; try done; try cap.
    rewrite <- (nodeRect_perm _ _ Hp). symmetry. apply nodeRect_app.
    + intros ->. simpl in Hl. cap.
    + intros ->. simpl in Hr. cap.
  - destruct (splitNode_full r es Hc) as (l' & r' & Hs & Hp & Hl & Hr).
    pose proof (splitNode_sorted _ _ _ _ Hs) as [Hsl Hsr].
    apply wf_branch in Hwf as [_ Hch]. rewrite <- Hp in Hch.
    apply Forall_app in Hch as [Hchl Hchr].
    rewrite Hs. eexists _, _. split; [done|]. simpl.
    split_and!; try done; try cap.
    + by apply wf_branch.
    + by apply wf_branch.
    + rewrite <- (nodeRect_perm _ _ Hp). symmetry. apply nodeRect_app.
      * intros ->. simpl in Hl. cap.
      * intros ->. simpl in Hr. cap.
    + rewrite !entries_branch, <- concat_app, <- map_app.
      by apply concat_map_perm.
Qed.

(** ** Insertion below the root *)

Lemma pinsert_branch_eq es nr ir (data : T) :
  pinsert (PBranch es) nr ir data =
  match chooseSubtree es.*1 ir with
  | None => None
  | Some index =>
      match es !! index with
      | Some (r, c) =>
          match pinsert c r ir data with
          | Some (child, grown) => pinsert_branch es index r child grown nr ir
          | None => None
          end
      | None => None
      end
  end.
Proof.
  simpl. destruct (chooseSubtree es.*1 ir) as [index|]; [|done].
  set (sel := fix sel (l : list (rect N * ptree N T)) (i : nat) := _).
  assert (∀ l i, sel l i = (λ e, (e.1, pinsert e.2 e.1 ir data)) <$> l !! i) as ->.
  { induction l as [|[r c] l IH]; intros [|i]; simpl; done. }
  destruct (es !! index) as [[r c]|]; simpl; [|done].
  by destruct (pinsert c r ir data) as [[??]|].
Qed.

Definition insert_post (t : ptree N T) (nr ir : rect N) (data : T)
    (t' : ptree N T) (grown : bool) : Prop :=
  wf t' ∧ pleaf t' = pleaf t ∧
  pcount t ≤ pcount t' ≤ S (pcount t) ∧
  (pleaf t = true → pcount t' = S (pcount t)) ∧
  (1 ≤ pcount t → prect t' = expand nr ir ∧ grown = negb (contains nr ir)) ∧
  (pcount t = 0 → prect t' = ir) ∧
  entries t' ≡ₚ (ir, data) :: entries t.

Lemma pinsert_leaf_post (l : list (rect N * T)) nr ir data :
  sorted0 l → (1 ≤ length l → nr = nodeRect l) →
  insert_post (PLeaf l) nr ir data (PLeaf (leafInsert l ir data))
    (negb (contains nr ir)).
Proof.
  intros Hs Hnr. unfold insert_post. simpl. rewrite !entries_leaf.
  rewrite leafInsert_length.
  split_and!; [by apply wf_leaf, leafInsert_sorted|done|lia|lia|done| | |
               apply leafInsert_perm].
  - intros Hl. split; [|done]. rewrite Hnr by done.
    apply (nodeRect_add l (ir, data)); [|apply leafInsert_perm].
    intros ->. simpl in Hl. lia.
  - intros Hl. destruct l; [|done]. done.
Qed.

Lemma pinsert_branch_post es pre r c post c' grown_c nr ir data :
  es = pre ++ (r, c) :: post →
  wf (PBranch es) → length es < maxEntries →
  nr = nodeRect es →
  insert_post c r ir data c' grown_c →
  ∃ t' grown,
    pinsert_branch es (length pre) r c' grown_c nr ir = Some (t', grown) ∧
    insert_post (PBranch es) nr ir data t' grown.
Proof.
  intros -> [Hs Hch]%wf_branch Hlen -> (Hwf' & Hleaf' & Hcnt' & _ & Hrect' & _ & Hent').
  apply Forall_app in Hch as [Hchpre Hch]. apply Forall_cons in Hch as [Hc Hchpost].
  destruct Hc as (Hr & Hcc & Hwfc). simpl in Hr, Hcc, Hwfc.
  destruct Hrect' as [Hrect' Hgrown']; [cap|].
  unfold pinsert_branch.
  rewrite insert_app_r_alt, Nat.sub_diag by lia. simpl.
  (* after the [if grown] step *)
  assert (∃ pre' post',
    (if grown_c
     then let '(es0, index0) := branchGrown (pre ++ (r, c') :: post) (length pre) ir in
          (es0, index0, negb (contains (nodeRect (pre ++ (r, c) :: post)) ir))
     else (pre ++ (r, c') :: post, length pre, false))
    = (pre' ++ (expand r ir, c') :: post', length pre',
       negb (contains (nodeRect (pre ++ (r, c) :: post)) ir)) ∧
    pre' ++ post' ≡ₚ pre ++ post ∧
    sorted0 (pre' ++ (expand r ir, c') :: post'))
    as (pre' & post' & -> & Hperm & Hsorted).
  { destruct grown_c.
    - destruct (branchGrown_spec pre r c' post ir) as (p1 & p2 & -> & -> & Hso).
      exists p1, (p2 ++ post). split_and!; [done|by rewrite (assoc_L (++))|].
      apply Hso. eapply sorted0_keys; [|done]. by rewrite !fmap_app.
    - symmetry in Hgrown'. apply negb_false_iff in Hgrown'.
      rewrite (expand_absorb _ _ Hgrown').
      exists pre, post. split_and!; [|done|].
      + f_equal. symmetry. apply negb_false_iff.
        eapply contains_trans; [|done].
        apply (nodeRect_contains _ (r, c)). apply elem_of_app. right. by left.
      + eapply sorted0_keys; [|done]. by rewrite !fmap_app. }
  assert (length (pre' ++ (expand r ir, c') :: post')
          = length (pre ++ (r, c) :: post)) as Hlen'.
  { rewrite !length_app. simpl.
    apply Permutation_length in Hperm. rewrite !length_app in Hperm. lia. }
  assert (nodeRect (pre' ++ (expand r ir, c') :: post')
          = expand (nodeRect (pre ++ (r, c) :: post)) ir) as Hnr.
  { apply (nodeRect_replace pre r c post _ (expand r ir) c' ir eq_refl).
    by rewrite <- Permutation_middle, Hperm. }
  assert (Forall child_ok (pre' ++ post')) as Hchrest.
  { rewrite Hperm. by apply Forall_app. }
  destruct (pcount c' =? maxEntries) eqn:Esplit.
  - apply Nat.eqb_eq in Esplit.
    rewrite lookup_app_r, Nat.sub_diag by lia. simpl.
    destruct (psplit_full (expand r ir) c' Esplit Hwf')
      as (lft & rgt & -> & Hwl & Hwr & Hll & Hlr & Hcl & Hcr & Hex & Hen).
    rewrite insert_app_r_alt, Nat.sub_diag by lia. simpl.
    destruct (branchSplit_spec pre' (expand r ir) lft post' (prect lft) (prect rgt) rgt)
      as (es' & -> & Hp' & Hso').
    { rewrite !length_app in *. simpl in *. lia. }
    eexists _, _. split; [done|]. unfold insert_post. simpl.
    assert (length es' = S (length (pre ++ (r, c) :: post))) as Hl'.
    { rewrite Hp'. simpl. rewrite <- Hlen', !length_app. simpl. lia. }
    split_and!.
    + apply wf_branch. split.
      * apply Hso'.
        -- eapply sorted0_keys; [|done]. by rewrite !fmap_app.
        -- rewrite <- min0_expand, Hex, <- Hrect'. done.
      * rewrite Hp'. repeat constructor; simpl; try done; try cap.
    + done.
    + lia.
    + lia.
    + done.
    + intros _. split; [|done].
      rewrite <- Hnr.
      rewrite (nodeRect_perm (pre' ++ _ :: post') ((expand r ir, c') :: pre' ++ post'))
        by (by rewrite Permutation_middle).
      rewrite (nodeRect_perm _ _ Hp').
      rewrite (nodeRect_merge _ _ _ _ c'). by rewrite Hex, Hrect'.
    + intros Hz. rewrite length_app in Hz. simpl in Hz. lia.
    + rewrite entries_branch, (concat_map_perm _ _ _ Hp'). simpl.
      rewrite (assoc_L (++)), Hen, Hent'. simpl. f_equiv.
      rewrite entries_branch.
      rewrite (concat_map_perm _ (pre ++ (r, c) :: post) ((r, c) :: pre ++ post))
        by (by rewrite Permutation_middle).
      simpl. f_equiv. by apply concat_map_perm.
  - apply Nat.eqb_neq in Esplit.
    eexists _, _. split; [done|]. unfold insert_post. simpl.
    split_and!.
    + apply wf_branch. split; [done|].
      rewrite <- Permutation_middle. constructor; [|done].
      split_and!; simpl; [done|lia|lia|done].
    + done.
    + lia.
    + lia.
    + done.
    + done.
    + intros Hz. rewrite length_app in Hz. simpl in Hz. lia.
    + rewrite !entries_branch.
      rewrite (concat_map_perm _ (pre' ++ _ :: post') ((expand r ir, c') :: pre' ++ post'))
        by (by rewrite Permutation_middle).
      rewrite (concat_map_perm _ (pre ++ (r, c) :: post) ((r, c) :: pre ++ post))
        by (by rewrite Permutation_middle).
      simpl. rewrite Hent'. simpl. f_equiv. f_equiv. by apply concat_map_perm.
Qed.

Lemma pinsert_ok t : ∀ nr ir (data : T),
  wf t → pcount t < maxEntries → (pleaf t = false → 1 ≤ pcount t) →
  (1 ≤ pcount t → nr = prect t) →
  ∃ t' grown, pinsert t nr ir data = Some (t', grown) ∧
              insert_post t nr ir data t' grown.
Proof.
  induction t as [l|es IH] using ptree_ind'; intros nr ir data Hwf Hc Hne Hnr.
  - simpl in *. destruct (maxEntries <=? length l) eqn:E;
      [apply Nat.leb_le in E; lia|].
    eexists _, _. split; [done|]. apply pinsert_leaf_post; [by apply wf_leaf|done].
  - rewrite pinsert_branch_eq. simpl in *. specialize (Hne eq_refl).
    destruct (chooseSubtree_Some es.*1 ir) as (index & -> & Hlt).
    { destruct es; [simpl in Hne; lia|done]. }
    rewrite length_fmap in Hlt.
    destruct (lookup_lt_is_Some_2 es index Hlt) as [[r c] Hi].
    rewrite Hi.
    pose proof (take_drop_middle _ _ _ Hi) as Hes.
    pose proof (Forall_lookup_1 _ _ _ _ IH Hi) as IHc. simpl in IHc.
    pose proof Hwf as [_ Hch]%wf_branch.
    pose proof (Forall_lookup_1 _ _ _ _ Hch Hi) as (Hr & Hcc & Hwc).
    simpl in Hr, Hcc, Hwc.
    destruct (IHc r ir data) as (c' & grown_c & -> & Hpost); [done|lia|cap|done|].
    destruct (pinsert_branch_post es (take index es) r c (drop (S index) es)
                c' grown_c nr ir data) as (t' & grown & Heq & Hpost');
      [done|done|done|by apply Hnr|done|].
    rewrite length_take_le in Heq by lia. eauto.
Qed.

(** ** The tree value *)

Definition tree_entries (tr : PTree N T) : list (rect N * T) :=
  match ptroot tr with None => [] | Some t => entries t end.

(** The root holds between 1 and [maxEntries - 1] entries, a branch root at
    least two; [rect] is the root's [rect()] and [count] the number of
    entries. *)
Definition root_ok (t : ptree N T) : Prop :=
  wf t ∧ 1 ≤ pcount t < maxEntries ∧ (pleaf t = false → 2 ≤ pcount t).

Definition wf_tree (tr : PTree N T) : Prop :=
  match ptroot tr with
  | None => ptcount tr = 0%Z ∧ ptrect tr = zero_rect
  | Some t =>
      root_ok t ∧ ptrect tr = prect t ∧
      ptcount tr = Z.of_nat (length (entries t))
  end.

Lemma psort_wf t : wf t → wf (psort t).
Proof.
  destruct t as [l|es]; simpl.
  - intros _. apply wf_leaf, sort_sorted.
  - intros [_ Hch]%wf_branch. apply wf_branch. split; [apply sort_sorted|].
    by rewrite sort_perm.
Qed.

Lemma psort_props t :
  pcount (psort t) = pcount t ∧ pleaf (psort t) = pleaf t ∧
  prect (psort t) = prect t ∧ entries (psort t) ≡ₚ entries t.
Proof.
  destruct t as [l|es]; simpl.
  - rewrite !entries_leaf, sort_length. split_and!; [done..| |apply sort_perm].
    apply nodeRect_perm, sort_perm.
  - rewrite !entries_branch, sort_length. split_and!; [done..| |].
    + apply nodeRect_perm, sort_perm.
    + apply concat_map_perm, sort_perm.
Qed.

Lemma PInsert_ok (tr : PTree N T) min max data :
  wf_tree tr →
  ∃ tr', PInsert tr min max data = Some tr' ∧ wf_tree tr' ∧
    tree_entries tr' ≡ₚ (Rect min max, data) :: tree_entries tr.
Proof.
  intros Hwf. unfold PInsert.
  set (ir := Rect min max).
  assert (∃ t rect,
    match ptroot tr with
    | Some t => (t, ptrect tr)
    | None => (PLeaf [], ir)
    end = (t, rect) ∧ wf t ∧ pcount t < maxEntries ∧
    (pleaf t = false → 2 ≤ pcount t) ∧ (1 ≤ pcount t → rect = prect t) ∧
    (pcount t = 0 → rect = ir) ∧
    entries t = tree_entries tr ∧
    ptcount tr = Z.of_nat (length (entries t)))
    as (t & rect & -> & Hwt & Hct & Hbr & Hrect & Hrect0 & Hent & Hcount).
  { unfold wf_tree, tree_entries in *. destruct (ptroot tr) as [t|].
    - destruct Hwf as ((? & ? & ?) & ? & ?).
      exists t, (ptrect tr). split_and!; try done; try lia.
    - destruct Hwf as [? ?]. exists (PLeaf []), ir. simpl.
      split_and!; try done; try cap; try (simpl; lia).
      apply wf_leaf. constructor. }
  destruct (pinsert_ok t rect ir data) as (t' & grown & -> & Hpost);
    [done|done|intros ?; specialize (Hbr ltac:(done)); lia|done|].
  destruct Hpost as (Hwf' & Hleaf' & Hcnt' & Hcntl' & Hrect' & Hrect0' & Hent').
  assert ((if grown then expand rect ir else rect) = prect t') as Hnewrect.
  { destruct (decide (pcount t = 0)) as [Hz|Hnz].
    - rewrite Hrect0' by done. rewrite (Hrect0 Hz).
      destruct grown; [apply expand_idem|done].
    - destruct Hrect' as [-> ->]; [lia|].
      destruct (contains rect ir) eqn:Ec; simpl; [|done].
      by rewrite expand_absorb. }
  rewrite Hnewrect.
  destruct (pcount t' =? maxEntries) eqn:Esplit.
  - apply Nat.eqb_eq in Esplit.
    destruct (psplit_full (prect t') t' Esplit Hwf')
      as (lft & rgt & -> & Hwl & Hwr & Hll & Hlr & Hcl & Hcr & Hex & Hen).
    rewrite orb_true_r. simpl.
    eexists. split; [done|]. unfold wf_tree, tree_entries. simpl.
    rewrite entries_branch.
    rewrite (concat_map_perm _ _ _ (sort_perm _)). simpl.
    rewrite (right_id_L [] (++)), Hen, Hent', Hent.
    split_and!; [| | |done].
    + split_and!.
      * apply wf_branch. split; [apply sort_sorted|].
        rewrite sort_perm. repeat constructor; simpl; try done; cap.
      * simpl. rewrite sort_length. simpl. lia.
      * simpl. rewrite sort_length. simpl. cap.
      * simpl. rewrite sort_length. simpl. lia.
    + rewrite (nodeRect_perm _ _ (sort_perm _)). done.
    + rewrite <- Hent. simpl. lia.
  - apply Nat.eqb_neq in Esplit. rewrite orb_false_r.
    pose proof (psort_props t') as (Hsc & Hsl & Hsr & Hse).
    eexists. split; [done|]. unfold wf_tree, tree_entries. simpl.
    assert (root_ok t') as Hroot.
    { split_and!; [done| |lia|].
      - destruct (pleaf t) eqn:El; [rewrite Hcntl' by done; lia|].
        specialize (Hbr eq_refl). lia.
      - rewrite Hleaf'. intros Hb. specialize (Hbr Hb). lia. }
    destruct (negb (pleaf t') && grown).
    + rewrite Hsr, Hse, Hent', Hent. split_and!; [| |rewrite <- Hent; simpl; lia|done].
      * destruct Hroot as (? & ? & ?).
        split_and!; [by apply psort_wf|lia|lia|by rewrite Hsc, Hsl].
      * done.
    + rewrite Hent', Hent. split_and!; [done|done|rewrite <- Hent; simpl; lia|done].
Qed.

End PureInv.

#[global] Arguments entries : simpl never.
#[global] Opaque wf.
#[global] Arguments leafDelete : simpl never.
#[global] Arguments branchDelete : simpl never.

Section PureDelete.
Context {N : Type} {num : number N} {ord : number_order N} {T : Type}.
Context (compare : T → T → option bool).
Implicit Types t c : ptree N T.
Implicit Types es : list (rect N * ptree N T).

(** The leaf entries [nodeDelete] looks at, in the order it looks at them:
    the descent enters only the children whose rectangle contains the
    target. *)
Fixpoint candidates (t : ptree N T) (ir : rect N) : list (rect N * T) :=
  match t with
  | PLeaf l => l
  | PBranch es =>
      concat (map (λ e, if contains e.1 ir then candidates e.2 ir else []) es)
  end.

(** The first of the entries [l] whose rectangle is contained by [ir] and
    whose item compares equal to [data]; outer [None] when a comparison
    panics before one is found. *)
Fixpoint findEntry (l : list (rect N * T)) (ir : rect N) (data : T)
    : option (option (rect N * T)) :=
  match l with
  | [] => Some None
  | (r, item) :: l' =>
      if contains ir r then
        match compare item data with
        | None => None
        | Some true => Some (Some (r, item))
        | Some false => findEntry l' ir data
        end
      else findEntry l' ir data
  end.

Lemma findEntry_app l1 l2 ir data :
  findEntry (l1 ++ l2) ir data =
  match findEntry l1 ir data with
  | Some None => findEntry l2 ir data
  | x => x
  end.
Proof.
  induction l1 as [|[r item] l1 IH]; simpl; [done|].
  destruct (contains ir r); [|done].
  by destruct (compare item data) as [[]|].
Qed.

Lemma leafFind_findEntry l ir data i :
  match leafFind compare l ir data i with
  | None => findEntry l ir data = None
  | Some None => findEntry l ir data = Some None
  | Some (Some k) =>
      ∃ e, i ≤ k ∧ l !! (k - i) = Some e ∧ findEntry l ir data = Some (Some e) ∧
           contains ir e.1 = true
  end.
Proof.
  revert i. induction l as [|[r item] l IH]; intros i; simpl; [done|].
  destruct (contains ir r) eqn:Ec.
  - destruct (compare item data) as [[]|]; [| |done].
    + exists (r, item). rewrite Nat.sub_diag. done.
    + specialize (IH (S i)). destruct (leafFind _ _ _ _ _) as [[k|]|]; [|done..].
      destruct IH as (e & Hle & Hk & Hf & Hc). exists e. split_and!; [lia| |done..].
      replace (k - i) with (S (k - S i)) by lia. done.
  - specialize (IH (S i)). destruct (leafFind _ _ _ _ _) as [[k|]|]; [|done..].
    destruct IH as (e & Hle & Hk & Hf & Hc). exists e. split_and!; [lia| |done..].
    replace (k - i) with (S (k - S i)) by lia. done.
Qed.

(** What [nodeDelete] leaves behind when it has removed the entry [e]:
    the subtree [t'] with its rectangle [nr'], and the subtrees [new]
    scheduled for reinsertion. *)
Definition delete_post (t : ptree N T) (nr : rect N) (t' : ptree N T)
    (nr' : rect N) (shrunk : bool) (new : list (ptree N T))
    (e : rect N * T) : Prop :=
  wf t' ∧ pleaf t' = pleaf t ∧
  pcount t' ≤ pcount t ≤ S (pcount t') ∧
  (1 ≤ pcount t' → nr' = prect t' ∧ contains nr nr' = true) ∧
  (shrunk = false → nr' = nr) ∧
  entries t ≡ₚ e :: entries t' ++ concat (map entries new).

Lemma nodeRect_via_fst {A} (l : list (rect N * A)) :
  nodeRect l = match l.*1 with [] => zero_rect | r :: rs => foldl expand r rs end.
Proof.
  unfold nodeRect, nodeRectOr. destruct l as [|a l]; [done|]. csimpl.
  generalize a.1. induction l as [|x l IH]; intros acc; [done|]. csimpl. apply IH.
Qed.

Lemma nodeRect_fst {A B} (l : list (rect N * A)) (l' : list (rect N * B)) :
  l.*1 = l'.*1 → nodeRect l = nodeRect l'.
Proof. rewrite !nodeRect_via_fst. by intros ->. Qed.

Lemma nodeRect_sub {A} (l l' : list (rect N * A)) :
  l' ≠ [] → (∀ e', e' ∈ l' → ∃ e, e ∈ l ∧ contains e.1 e'.1 = true) →
  contains (nodeRect l) (nodeRect l') = true.
Proof.
  intros Hne H. apply nodeRect_lub; [done|].
  intros e' [e [He Hc]]%H. eapply contains_trans; [|done].
  by apply nodeRect_contains.
Qed.

Lemma pdelete_leaf_post (l : list (rect N * T)) i e nr ir :
  l !! i = Some e → contains ir e.1 = true →
  sorted0 l → nr = nodeRect l →
  ∃ l' nr' shrunk,
    leafDelete l i nr ir = (l', nr', shrunk) ∧
    delete_post (PLeaf l) nr (PLeaf l') nr' shrunk [] e.
Proof.
  intros Hi Hc Hs ->. unfold leafDelete. eexists _, _, _. split; [done|].
  unfold delete_post. simpl. rewrite !entries_leaf, (right_id_L [] (++)).
  pose proof (lookup_lt_Some _ _ _ Hi) as Hlt.
  rewrite length_delete by done.
  split_and!; [by apply wf_leaf, sorted0_delete_at|done|lia|lia| | |
               by apply delete_Permutation].
  - intros Hl.
    assert (delete i l ≠ []) as Hne.
    { intros Heq. apply (f_equal length) in Heq.
      rewrite length_delete in Heq by done. simpl in Heq. lia. }
    destruct (onedge ir (nodeRect l)) eqn:Eo.
    + rewrite nodeRectOr_nonempty by done. split; [done|].
      apply nodeRect_sub; [done|]. intros e' He'. exists e'. split; [|apply contains_refl].
      eapply elem_of_submseteq; [done|]. apply submseteq_delete.
    + destruct (nodeRect_remove_inner l i e ir Hi Hc Eo) as [_ Heq].
      split; [done|apply contains_refl].
  - by intros ->.
Qed.

Lemma pdelete_branch_post es pre crect c post c' r' shrunk_c new_c e nr :
  es = pre ++ (crect, c) :: post →
  wf (PBranch es) → nr = nodeRect es →
  delete_post c crect c' r' shrunk_c new_c e →
  ∃ es' nr' shrunk,
    branchDelete (pre ++ (r', c') :: post) (length pre) r' crect
      (pcount c' <? minEntries) shrunk_c nr = (es', nr', shrunk) ∧
    delete_post (PBranch es) nr (PBranch es') nr' shrunk
      (if pcount c' <? minEntries then new_c ++ [c'] else new_c) e.
Proof.
  intros -> [Hs Hch]%wf_branch -> (Hwf' & Hleaf' & Hcnt' & Hrect' & Hshr' & Hent').
  apply Forall_app in Hch as [Hchpre Hch]. apply Forall_cons in Hch as [Hc Hchpost].
  destruct Hc as (Hr & Hcc & Hwfc). simpl in Hr, Hcc, Hwfc.
  apply sorted0_app_inv in Hs as (Hspre & Hspost & Hs).
  assert (entries (PBranch (pre ++ (crect, c) :: post))
          ≡ₚ entries c ++ entries (PBranch (pre ++ post))) as Hentb.
  { rewrite !entries_branch.
    rewrite (concat_map_perm _ (pre ++ (crect, c) :: post) ((crect, c) :: pre ++ post))
      by (by rewrite Permutation_middle). done. }
  unfold branchDelete.
  destruct (pcount c' <? minEntries) eqn:Eu.
  - apply Nat.ltb_lt in Eu.
    assert (delete (length pre) (pre ++ (r', c') :: post) = pre ++ post) as ->.
    { rewrite delete_take_drop, take_app_length.
      rewrite (cons_middle (r', c')), (assoc_L (++)).
      rewrite drop_app_length'; [done|]. rewrite length_app. simpl. lia. }
    eexists _, _, _. split; [done|]. unfold delete_post. simpl.
    rewrite !length_app. simpl.
    split_and!; [by apply wf_branch, conj, Forall_app|done|lia|lia| |done|].
    + intros Hl. rewrite <- length_app in Hl.
      assert (pre ++ post ≠ []) by (intros Heq; rewrite Heq in Hl; simpl in Hl; lia).
      rewrite nodeRectOr_nonempty by done. split; [done|].
      apply nodeRect_sub; [done|]. intros e' He'. exists e'.
      split; [|apply contains_refl].
      apply elem_of_app. apply elem_of_app in He' as [?|?]; [by left|right; by right].
    + rewrite Hentb, Hent', map_app, concat_app. simpl.
      rewrite (right_id_L [] (++)). solve_Permutation.
  - apply Nat.ltb_ge in Eu.
    destruct Hrect' as [Hr' Hcr']; [cap|].
    assert (child_ok (r', c')) as Hok.
    { split_and!; simpl; [done|done|lia|done]. }
    assert (∀ l, l.*1 = (pre ++ (r', c') :: post).*1 ∨ l ≡ₚ pre ++ (r', c') :: post →
                 contains (nodeRect (pre ++ (crect, c) :: post)) (nodeRect l) = true)
      as Hcont.
    { intros l Hl.
      assert (nodeRect l = nodeRect (pre ++ (r', c') :: post)) as ->.
      { destruct Hl; [by apply nodeRect_fst|by apply nodeRect_perm]. }
      apply nodeRect_sub; [by destruct pre|].
      intros e' [He'|He']%elem_of_app.
      - exists e'. split; [|apply contains_refl]. apply elem_of_app. by left.
      - apply elem_of_cons in He' as [->|He'].
        + exists (crect, c). split; [|done]. apply elem_of_app. right. by left.
        + exists e'. split; [|apply contains_refl].
          apply elem_of_app. right. by right. }
    assert (entries (PBranch (pre ++ (r', c') :: post))
            ≡ₚ entries c' ++ entries (PBranch (pre ++ post))) as Hentb'.
    { rewrite !entries_branch.
      rewrite (concat_map_perm _ (pre ++ (r', c') :: post) ((r', c') :: pre ++ post))
        by (by rewrite Permutation_middle). done. }
    destruct shrunk_c.
    + eexists _, _, _. split; [done|]. unfold delete_post. simpl.
      pose proof (orderToRight_perm (pre ++ (r', c') :: post) (length pre)) as Hp.
      pose proof (Permutation_length Hp) as Hplen.
      rewrite !length_app in Hplen |- *. simpl in Hplen |- *.
      split_and!; [|done|lia|lia| | |].
      * apply wf_branch. split.
        -- apply orderToRight_sorted; [done|].
           eapply Forall_impl; [exact Hspre|]. intros x Hx. unfold le0 in *.
           etrans; [exact Hx|]. apply contains_spec in Hcr' as (? & _). done.
        -- rewrite Hp. apply Forall_app. split; [done|]. by constructor.
      * intros _. split; [|].
        -- destruct (equals r' crect) eqn:Ee; simpl.
           ++ apply equals_spec in Ee as ->.
              rewrite (nodeRect_perm _ _ Hp). apply nodeRect_fst.
              by rewrite !fmap_app.
           ++ by rewrite (nodeRect_perm _ _ Hp).
        -- destruct (equals r' crect) eqn:Ee; simpl; [apply contains_refl|].
           apply Hcont. by left.
      * by intros ->%negb_false_iff.
      * rewrite Hentb, Hent'.
        rewrite (entries_branch (orderToRight _ _).1), (concat_map_perm _ _ _ Hp).
        rewrite <- entries_branch, Hentb'. solve_Permutation.
    + rewrite (Hshr' eq_refl) in *.
      eexists _, _, _. split; [done|]. unfold delete_post. simpl.
      rewrite !length_app. simpl.
      split_and!; [|done|lia|lia| |done|].
      * apply wf_branch. split.
        -- apply sorted0_insert; done.
        -- apply Forall_app. split; [done|]. by constructor.
      * intros _. split; [|apply contains_refl].
        apply nodeRect_fst. by rewrite !fmap_app.
      * rewrite Hentb, Hent', Hentb'. solve_Permutation.
Qed.

(** The loop of [nodeDelete] over the children of a branch, with the
    recursive call as a parameter. *)
Definition pdelete_loop
    (rec : ptree N T → rect N → list (ptree N T) →
           option (ptree N T * rect N * bool * bool * list (ptree N T)))
    (nr ir : rect N) :=
  fix loop (rest : list (rect N * ptree N T)) (i : nat)
      (es : list (rect N * ptree N T)) (reinsert : list (ptree N T))
      {struct rest}
      : option (ptree N T * rect N * bool * bool * list (ptree N T)) :=
    match rest with
    | [] => Some (PBranch es, nr, false, false, reinsert)
    | (crect, child) :: rest =>
        if negb (contains crect ir) then loop rest (S i) es reinsert
        else
          match rec child crect reinsert with
          | None => None
          | Some (child, r, removed, shrunk, reinsert) =>
              let es := <[i := (r, child)]> es in
              if negb removed then loop rest (S i) es reinsert
              else
                let underflow := pcount child <? minEntries in
                let '(es', nr, shrunk) :=
                  branchDelete es i r crect underflow shrunk nr in
                Some (PBranch es', nr, true, shrunk,
                      if underflow then reinsert ++ [child] else reinsert)
          end
    end.

Lemma pdelete_branch_eq es nr ir data reinsert :
  pdelete compare (PBranch es) nr ir data reinsert =
  pdelete_loop (λ c r ri, pdelete compare c r ir data ri) nr ir es 0 es reinsert.
Proof. reflexivity. Qed.

Lemma pdelete_leaf_eq (l : list (rect N * T)) nr ir data reinsert :
  pdelete compare (PLeaf l) nr ir data reinsert =
  match leafFind compare l ir data 0 with
  | None => None
  | Some None => Some (PLeaf l, nr, false, false, reinsert)
  | Some (Some i) =>
      let '(es', nr, shrunk) := leafDelete l i nr ir in
      Some (PLeaf es', nr, true, shrunk, reinsert)
  end.
Proof. reflexivity. Qed.

Definition delete_result (t : ptree N T) (nr ir : rect N) (data : T)
    (reinsert : list (ptree N T)) (l : list (rect N * T))
    (res : option (ptree N T * rect N * bool * bool * list (ptree N T)))
    : Prop :=
  match findEntry l ir data with
  | None => res = None
  | Some None => res = Some (t, nr, false, false, reinsert)
  | Some (Some e) =>
      ∃ t' nr' shrunk new,
        res = Some (t', nr', true, shrunk, reinsert ++ new) ∧
        delete_post t nr t' nr' shrunk new e ∧ contains ir e.1 = true
  end.

Lemma findEntry_contains l ir data e :
  findEntry l ir data = Some (Some e) → contains ir e.1 = true.
Proof.
  induction l as [|[r item] l IH]; simpl; [done|].
  destruct (contains ir r) eqn:Ec; [|done].
  destruct (compare item data) as [[]|]; [|done..]. by intros [= <-].
Qed.

Lemma pdelete_ok t : ∀ nr ir data reinsert,
  wf t → (1 ≤ pcount t → nr = prect t) →
  delete_result t nr ir data reinsert (candidates t ir)
    (pdelete compare t nr ir data reinsert).
Proof.
  induction t as [l|es IH] using ptree_ind'; intros nr ir data reinsert Hwf Hnr.
  - unfold delete_result. rewrite pdelete_leaf_eq. cbn [candidates].
    pose proof (leafFind_findEntry l ir data 0) as Hf.
    destruct (leafFind compare l ir data 0) as [[k|]|].
    + destruct Hf as (e & _ & Hk & -> & Hc). rewrite Nat.sub_0_r in Hk.
      destruct (pdelete_leaf_post l k e nr ir) as (l' & nr' & shrunk & -> & Hpost);
        [done|done|by apply wf_leaf| |].
      { apply Hnr. simpl. apply lookup_lt_Some in Hk. lia. }
      exists (PLeaf l'), nr', shrunk, []. by rewrite (right_id_L [] (++)).
    + by rewrite Hf.
    + by rewrite Hf.
  - rewrite pdelete_branch_eq.
    pose proof Hwf as [Hs Hch]%wf_branch.
    assert (∀ rest pre reinsert, es = pre ++ rest →
      delete_result (PBranch es) nr ir data reinsert
        (concat (map (λ e, if contains e.1 ir then candidates e.2 ir else []) rest))
        (pdelete_loop (λ c r ri, pdelete compare c r ir data ri) nr ir
           rest (length pre) es reinsert)) as Hloop.
    { clear reinsert. induction rest as [|[crect child] rest IHrest];
        intros pre reinsert Hes.
      { done. }
      simpl.
      assert (es = (pre ++ [(crect, child)]) ++ rest) as Hes'
        by (by rewrite <- (assoc_L (++))).
      specialize (IHrest (pre ++ [(crect, child)]) reinsert Hes').
      rewrite length_app in IHrest. simpl in IHrest.
      replace (length pre + 1) with (S (length pre)) in IHrest by lia.
      destruct (contains crect ir) eqn:Ec; simpl.
      2:{ done. }
      assert ((crect, child) ∈ es) as Hin.
      { rewrite Hes. apply elem_of_app. right. by left. }
      pose proof (proj1 (Forall_forall _ _) IH _ Hin) as IHc. simpl in IHc.
      pose proof (proj1 (Forall_forall _ _) Hch _ Hin) as (Hr & Hcc & Hwc).
      simpl in Hr, Hcc, Hwc.
      specialize (IHc crect ir data reinsert Hwc (λ _, Hr)).
      unfold delete_result in *. rewrite findEntry_app.
      destruct (findEntry (candidates child ir) ir data) as [[e|]|].
      - destruct IHc as (c' & r' & shrunk_c & new_c & -> & Hpost & Hce).
        simpl.
        assert (<[length pre := (r', c')]> es = pre ++ (r', c') :: rest) as ->.
        { rewrite Hes, insert_app_r_alt, Nat.sub_diag by lia. done. }
        destruct (pdelete_branch_post es pre crect child rest c' r' shrunk_c
                    new_c e nr) as (es' & nr' & shrunk & -> & Hpost');
          [done|done| |done|].
        { apply Hnr. simpl. rewrite Hes, length_app. simpl. lia. }
        eexists _, _, _, _. split_and!; [|done|done].
        do 2 f_equal. destruct (pcount c' <? minEntries); [|done].
        by rewrite (assoc_L (++)).
      - rewrite IHc. simpl.
        assert (<[length pre := (crect, child)]> es = es) as ->.
        { apply list_insert_id. rewrite Hes.
          by rewrite lookup_app_r, Nat.sub_diag by lia. }
        done.
      - by rewrite IHc. }
    apply (Hloop es [] reinsert eq_refl).
Qed.

(** ** Reinsertion *)

Lemma preinsert_ok (n : ptree N T) : ∀ tr,
  wf_tree tr →
  ∃ tr', preinsert n tr = Some tr' ∧ wf_tree tr' ∧
    tree_entries tr' ≡ₚ entries n ++ tree_entries tr.
Proof.
  induction n as [l|es IH] using ptree_ind'; intros tr Hwf.
  - simpl. rewrite entries_leaf. revert tr Hwf.
    induction l as [|[r item] l IHl]; intros tr Hwf; simpl.
    + by exists tr.
    + destruct (PInsert_ok tr (rmin r) (rmax r) item Hwf) as (tr1 & -> & Hwf1 & He1).
      destruct (IHl tr1 Hwf1) as (tr' & -> & Hwf' & He').
      exists tr'. split_and!; [done..|].
      rewrite He', He1. destruct r. simpl. solve_Permutation.
  - simpl. rewrite entries_branch. revert tr Hwf.
    induction es as [|[r c] es IHes]; intros tr Hwf; simpl.
    + by exists tr.
    + apply Forall_cons in IH as [IHc IH]. simpl in IHc.
      destruct (IHc tr Hwf) as (tr1 & -> & Hwf1 & He1).
      destruct (IHes IH tr1 Hwf1) as (tr' & -> & Hwf' & He').
      exists tr'. split_and!; [done..|].
      rewrite He', He1. solve_Permutation.
Qed.

Lemma preinsert_list_ok (new : list (ptree N T)) : ∀ tr,
  wf_tree tr →
  ∃ tr', foldl (λ acc n, match acc with
                         | Some tr => preinsert n tr
                         | None => None
                         end) (Some tr) new = Some tr' ∧ wf_tree tr' ∧
    tree_entries tr' ≡ₚ concat (map entries new) ++ tree_entries tr.
Proof.
  induction new as [|n new IH]; intros tr Hwf; simpl.
  - by exists tr.
  - destruct (preinsert_ok n tr Hwf) as (tr1 & -> & Hwf1 & He1).
    destruct (IH tr1 Hwf1) as (tr' & -> & Hwf' & He').
    exists tr'. split_and!; [done..|].
    rewrite He', He1. solve_Permutation.
Qed.

Lemma subtract_counts (new : list (ptree N T)) (c0 : Z) :
  foldl (λ acc n, acc - Z.of_nat (length (entries n)))%Z c0 new
  = (c0 - Z.of_nat (length (concat (map entries new))))%Z.
Proof.
  revert c0. induction new as [|n new IH]; intros c0; simpl; [lia|].
  rewrite IH, length_app. lia.
Qed.

(** ** Root collapse *)

Lemma pcollapse_ok t :
  wf t → 1 ≤ pcount t < maxEntries →
  root_ok (pcollapse t) ∧ prect (pcollapse t) = prect t ∧
  entries (pcollapse t) = entries t.
Proof.
  intros Hwf Hc. destruct t as [l|es].
  - simpl. split_and!; try done.
  - destruct es as [|[r c] [|e2 es]]; simpl in Hc; [lia| |].
    + apply wf_branch in Hwf as [_ Hch]. apply Forall_cons in Hch as [Hok _].
      destruct Hok as (Hr & Hcc & Hwc). simpl in Hr, Hcc, Hwc.
      assert (pcollapse c = c) as Hcol.
      { destruct c as [l|[|[r1 c1] [|e3 es1]]]; try done. simpl in Hcc. cap. }
      cbn [pcollapse]. rewrite Hcol. split_and!.
      * unfold root_ok. split_and!; [done|cap|cap|intros; cap].
      * done.
      * rewrite entries_branch. simpl. by rewrite (right_id_L [] (++)).
    + split_and!; try done. unfold root_ok. simpl. split_and!; done || lia.
Qed.

Definition tree_candidates (tr : PTree N T) (ir : rect N) : list (rect N * T) :=
  match ptroot tr with
  | Some root => if contains (ptrect tr) ir then candidates root ir else []
  | None => []
  end.

Lemma pcount_entries t : pleaf t = true → pcount t = length (entries t).
Proof. by destruct t. Qed.

Lemma PDelete_ok (tr : PTree N T) min max data :
  wf_tree tr →
  match findEntry (tree_candidates tr (Rect min max)) (Rect min max) data with
  | None => PDelete compare tr min max data = None
  | Some None => PDelete compare tr min max data = Some (tr, false)
  | Some (Some e) =>
      ∃ tr', PDelete compare tr min max data = Some (tr', true) ∧
        wf_tree tr' ∧ tree_entries tr ≡ₚ e :: tree_entries tr' ∧
        contains (Rect min max) e.1 = true
  end.
Proof.
  intros Hwf. unfold PDelete, tree_candidates.
  set (ir := Rect min max).
  destruct tr as [count rect [root|]]; simpl in *; [|done].
  destruct Hwf as ((Hwr & Hcr & Hbr) & Hrect & Hcount). simpl in *.
  destruct (contains rect ir) eqn:Ec; simpl; [|done].
  pose proof (pdelete_ok root rect ir data [] Hwr (λ _, Hrect)) as Hd.
  unfold delete_result in Hd.
  destruct (findEntry (candidates root ir) ir data) as [[e|]|];
    [|by rewrite Hd..].
  destruct Hd as (t' & nr' & shrunk & new & -> & Hpost & Hce). simpl.
  destruct Hpost as (Hwf' & Hleaf' & Hcnt' & Hrect' & _ & Hent').
  rewrite subtract_counts.
  pose proof (Permutation_length Hent') as Hlen. simpl in Hlen.
  rewrite length_app in Hlen.
  set (count' := (count - 1 - Z.of_nat (length (concat (map entries new))))%Z).
  assert (count' = Z.of_nat (length (entries t'))) as Hcount' by (unfold count'; lia).
  assert (∃ mid,
    (if (count' =? 0)%Z then PT count' zero_rect None
     else PT count' nr' (Some (pcollapse t'))) = mid ∧
    wf_tree mid ∧ tree_entries mid = entries t') as (mid & -> & Hwm & Hem).
  { destruct (count' =? 0)%Z eqn:Ez.
    - apply Z.eqb_eq in Ez. eexists. split; [done|].
      unfold wf_tree, tree_entries. simpl. split; [done|].
      destruct (entries t'); [done|]. simpl in *. lia.
    - apply Z.eqb_neq in Ez. eexists. split; [done|].
      assert (1 ≤ pcount t') as Hc1.
      { destruct (pleaf t') eqn:El.
        - rewrite pcount_entries by done. lia.
        - specialize (Hbr (eq_sym Hleaf')). lia. }
      destruct (pcollapse_ok t' Hwf') as (Hro & Hpr & Hpe); [lia|].
      unfold wf_tree, tree_entries. simpl. rewrite Hpr, Hpe.
      split_and!; [done| |done|done]. by apply Hrect'. }
  destruct (preinsert_list_ok new mid Hwm) as (tr' & -> & Hwf'' & He'').
  exists tr'. split_and!; [done..| |done].
  unfold tree_entries at 1. simpl. rewrite Hent', He'', Hem. solve_Permutation.
Qed.

Lemma PReplace_ok (tr : PTree N T) oldMin oldMax oldData newMin newMax newData :
  wf_tree tr →
  match findEntry (tree_candidates tr (Rect oldMin oldMax))
          (Rect oldMin oldMax) oldData with
  | None => PReplace compare tr oldMin oldMax oldData newMin newMax newData = None
  | Some None =>
      PReplace compare tr oldMin oldMax oldData newMin newMax newData = Some tr
  | Some (Some e) =>
      ∃ tr', PReplace compare tr oldMin oldMax oldData newMin newMax newData
               = Some tr' ∧
        wf_tree tr' ∧
        (Rect newMin newMax, newData) :: tree_entries tr
          ≡ₚ e :: tree_entries tr' ∧
        contains (Rect oldMin oldMax) e.1 = true
  end.
Proof.
  intros Hwf. unfold PReplace.
  pose proof (PDelete_ok tr oldMin oldMax oldData Hwf) as Hd.
  destruct (findEntry _ _ _) as [[e|]|]; [|by rewrite Hd..].
  destruct Hd as (tr1 & -> & Hwf1 & He1 & Hc).
  destruct (PInsert_ok tr1 newMin newMax newData Hwf1) as (tr' & -> & Hwf' & He').
  exists tr'. split_and!; [done..| |done].
  rewrite He1, He'. solve_Permutation.
Qed.

End PureDelete.

(** * The node-local algorithms do not look at the slots

    Every algorithm of a node reads the rectangles only, so it commutes
    with any renaming of the slots. *)

Section Natural.
Context {N : Type} {num : number N} {A B : Type} (f : A → B).
Implicit Types l es : list (rect N * A).

Definition emap (l : list (rect N * A)) : list (rect N * B) :=
  (λ e, (e.1, f e.2)) <$> l.

Lemma emap_fst l : (emap l).*1 = l.*1.
Proof. unfold emap. rewrite <- list_fmap_compose. done. Qed.

Lemma emap_snd l : (emap l).*2 = f <$> l.*2.
Proof. unfold emap. rewrite <- !list_fmap_compose. done. Qed.

Lemma emap_length l : length (emap l) = length l.
Proof. apply length_fmap. Qed.

Lemma emap_lookup l i : emap l !! i = (λ e, (e.1, f e.2)) <$> l !! i.
Proof. apply list_lookup_fmap. Qed.

Lemma emap_app l1 l2 : emap (l1 ++ l2) = emap l1 ++ emap l2.
Proof. apply fmap_app. Qed.

Lemma emap_insert l i (e : rect N * A) :
  emap (<[i := e]> l) = <[i := (e.1, f e.2)]> (emap l).
Proof. unfold emap. by rewrite list_fmap_insert. Qed.

Lemma swap_emap i j l : swap i j (emap l) = emap (swap i j l).
Proof.
  unfold swap. rewrite !emap_lookup.
  destruct (l !! i), (l !! j); simpl; try done.
  by rewrite !emap_insert.
Qed.

Lemma orderToLeft_emap l idx :
  orderToLeft (emap l) idx = ((emap (orderToLeft l idx).1), (orderToLeft l idx).2).
Proof.
  revert l. induction idx as [|i IH]; intros l; simpl; [done|].
  rewrite !emap_lookup.
  destruct (l !! S i) as [a|], (l !! i) as [b|]; simpl; try done.
  unfold min0 at 1 2. simpl. fold (min0 a) (min0 b).
  destruct (nlt (min0 a) (min0 b)); [|done].
  by rewrite swap_emap, IH.
Qed.

Lemma orderToRight_loop_emap fuel l idx :
  orderToRight_loop fuel (emap l) idx
  = ((emap (orderToRight_loop fuel l idx).1), (orderToRight_loop fuel l idx).2).
Proof.
  revert l idx. induction fuel as [|fuel IH]; intros l idx; simpl; [done|].
  rewrite !emap_lookup.
  destruct (l !! idx) as [a|], (l !! (idx + 1)) as [b|]; simpl; try done.
  unfold min0 at 1 2. simpl. fold (min0 a) (min0 b).
  destruct (nlt (min0 b) (min0 a)); [|done].
  by rewrite swap_emap, IH.
Qed.

Lemma orderToRight_emap l idx :
  orderToRight (emap l) idx = ((emap (orderToRight l idx).1), (orderToRight l idx).2).
Proof. unfold orderToRight. rewrite emap_length. apply orderToRight_loop_emap. Qed.

Lemma issorted_emap l : issorted (emap l) = issorted l.
Proof.
  induction l as [|a [|b l] IH]; try done.
  change (emap (a :: b :: l)) with ((a.1, f a.2) :: emap (b :: l)).
  change (emap (b :: l)) with ((b.1, f b.2) :: emap l) in *.
  cbn [issorted]. unfold min0 at 1 2. simpl. fold (min0 a) (min0 b).
  destruct (nlt (min0 b) (min0 a)); [done|]. apply IH.
Qed.

Lemma partition_loop_emap axis rev max n i lo hi l :
  partition_loop axis rev max n i lo hi (emap l)
  = (emap (partition_loop axis rev max n i lo hi l).1,
     (partition_loop axis rev max n i lo hi l).2).
Proof.
  revert i lo l. induction n as [|n IH]; intros i lo l; simpl; [done|].
  rewrite !emap_lookup.
  destruct (l !! i) as [a|], (l !! hi) as [p|]; simpl; try done.
  change (qbefore axis rev max (a.1, f a.2) (p.1, f p.2))
    with (qbefore axis rev max a p).
  destruct (qbefore axis rev max a p); [|apply IH].
  by rewrite swap_emap, IH.
Qed.

Lemma emap_take n l : emap (take n l) = take n (emap l).
Proof. apply fmap_take. Qed.
Lemma emap_drop n l : emap (drop n l) = drop n (emap l).
Proof. apply fmap_drop. Qed.

Lemma qsort_emap fuel axis rev max l :
  qsort fuel axis rev max (emap l) = emap (qsort fuel axis rev max l).
Proof.
  revert l. induction fuel as [|fuel IH]; intros l; [done|].
  rewrite !qsort_S, emap_length. destruct (length l <? 2); [done|]. cbv zeta.
  rewrite swap_emap, partition_loop_emap.
  destruct (partition_loop _ _ _ _ _ _ _ _) as [l2 lo]. simpl.
  rewrite swap_emap, emap_lookup.
  destruct (swap lo (length l - 1) l2 !! lo) as [p|]; simpl; [|done].
  by rewrite emap_app, <- emap_take, <- emap_drop, !IH.
Qed.

Lemma sort_emap l : sort (emap l) = emap (sort l).
Proof. unfold sort. rewrite emap_length. apply qsort_emap. Qed.

Lemma sortByAxis_emap axis rev max l :
  sortByAxis axis rev max (emap l) = emap (sortByAxis axis rev max l).
Proof. unfold sortByAxis. rewrite emap_length. apply qsort_emap. Qed.

Definition emap2 (p : list (rect N * A) * list (rect N * A))
    : list (rect N * B) * list (rect N * B) :=
  (emap p.1, emap p.2).

Lemma moveRectAtIndexInto_emap from index into :
  moveRectAtIndexInto (emap from) index (emap into)
  = emap2 <$> moveRectAtIndexInto from index into.
Proof.
  unfold moveRectAtIndexInto. rewrite !emap_length.
  destruct (maxEntries <=? length into); [done|].
  rewrite emap_lookup. unfold emap at 1. rewrite fmap_last.
  destruct (from !! index) as [e|], (last from) as [lst|]; simpl; try done.
  unfold emap2. simpl. f_equal. f_equal.
  - by rewrite emap_take, emap_insert.
  - by rewrite emap_app.
Qed.

Lemma split_loop_emap fuel (r : rect N) axis i lft rgt :
  split_loop fuel r axis i (emap lft) (emap rgt)
  = emap2 <$> split_loop fuel r axis i lft rgt.
Proof.
  revert i lft rgt. induction fuel as [|fuel IH]; intros i lft rgt; simpl.
  - rewrite emap_lookup. by destruct (lft !! i).
  - rewrite emap_lookup. destruct (lft !! i) as [e|]; simpl; [|done].
    case_match; [apply IH|].
    rewrite moveRectAtIndexInto_emap.
    destruct (moveRectAtIndexInto lft i rgt) as [[l1 r1]|]; simpl; [|done].
    apply IH.
Qed.

Lemma refill_emap fuel from into :
  refill fuel (emap from) (emap into) = emap2 <$> refill fuel from into.
Proof.
  revert from into. induction fuel as [|fuel IH]; intros from into; simpl.
  - rewrite emap_length. by case_match.
  - rewrite !emap_length. case_match; [|done].
    rewrite moveRectAtIndexInto_emap.
    destruct (moveRectAtIndexInto _ _ _) as [[l1 r1]|]; simpl; [|done].
    apply IH.
Qed.

Lemma splitNode_emap (r : rect N) l :
  splitNode r (emap l) = emap2 <$> splitNode r l.
Proof.
  unfold splitNode, splitNodeLargestAxisEdgeSnap.
  rewrite emap_length.
  change (@nil (rect N * B)) with (emap []).
  rewrite split_loop_emap.
  destruct (split_loop _ _ _ _ _ _) as [[l1 r1]|]; simpl; [|done].
  rewrite !emap_length.
  destruct (length l1 <? minEntries).
  - rewrite sortByAxis_emap, refill_emap.
    destruct (refill _ _ _) as [[r2 l2]|]; simpl; [|done].
    unfold emap2. simpl. rewrite issorted_emap, !sort_emap; by destruct (issorted _).
  - destruct (length r1 <? minEntries).
    + rewrite sortByAxis_emap, refill_emap.
      destruct (refill _ _ _) as [[l2 r2]|]; simpl; [|done].
      unfold emap2. simpl. rewrite issorted_emap, !sort_emap; by destruct (issorted _).
    + unfold emap2. simpl. rewrite issorted_emap, !sort_emap; by destruct (issorted _).
Qed.

Lemma nodeRect_emap l : nodeRect (emap l) = nodeRect l.
Proof. destruct l as [|a l]; [done|]. unfold nodeRect, nodeRectOr, emap. csimpl.
  generalize a.1. induction l as [|x l IH]; intros acc; [done|]. csimpl. apply IH.
Qed.

Lemma nodeRectOr_emap s l : nodeRectOr s (emap l) = nodeRectOr s l.
Proof.
  destruct l as [|a l]; [done|]. apply (nodeRect_emap (a :: l)).
Qed.

Lemma branchGrown_emap l index ir :
  branchGrown (emap l) index ir
  = (emap (branchGrown l index ir).1, (branchGrown l index ir).2).
Proof.
  unfold branchGrown. rewrite <- orderToLeft_emap. f_equal.
  unfold emap. symmetry.
  apply (list_fmap_alter (λ e : rect N * A, (e.1, f e.2))
           (λ e, (expand e.1 ir, e.2)) (λ e, (expand e.1 ir, e.2))).
  by apply Forall_forall.
Qed.

Lemma branchSplit_emap l index lrect rrect (rgt : A) :
  branchSplit (emap l) index lrect rrect (f rgt)
  = emap <$> branchSplit l index lrect rrect rgt.
Proof.
  unfold branchSplit. rewrite emap_length.
  destruct (maxEntries <=? length l); [done|].
  rewrite emap_lookup. destruct (l !! index) as [[r0 lft]|]; simpl; [|done].
  f_equal.
  change (<[index := (lrect, f lft)]> (emap l))
    with (<[index := ((lrect, lft).1, f (lrect, lft).2)]> (emap l)).
  rewrite <- (emap_insert l index (lrect, lft)).
  rewrite <- emap_take, <- emap_drop.
  change ((rrect, f rgt) :: emap ?x) with (emap ((rrect, rgt) :: x)).
  rewrite <- emap_app.
  destruct (nlt (rmin rrect).1 (rmin lrect).1).
  - by rewrite swap_emap, orderToRight_emap.
  - by rewrite orderToRight_emap.
Qed.

Lemma emap_delete i l : emap (delete i l) = delete i (emap l).
Proof. apply list_fmap_delete. Qed.

Lemma branchDelete_emap l i r crect underflow shrunk nr :
  branchDelete (emap l) i r crect underflow shrunk nr
  = (emap (branchDelete l i r crect underflow shrunk nr).1.1,
     (branchDelete l i r crect underflow shrunk nr).1.2,
     (branchDelete l i r crect underflow shrunk nr).2).
Proof.
  unfold branchDelete. destruct underflow; simpl.
  - rewrite <- emap_delete, nodeRectOr_emap, emap_lookup.
    by destruct (l !! 0).
  - destruct shrunk; simpl; [|done].
    by rewrite orderToRight_emap, nodeRect_emap.
Qed.

End Natural.

Section NaturalMore.
Context {N : Type} {num : number N}.

Lemma emap_emap {A B C} (f : A → B) (g : B → C) (l : list (rect N * A)) :
  emap g (emap f l) = emap (g ∘ f) l.
Proof. unfold emap. rewrite <- list_fmap_compose. done. Qed.

Lemma emap_ext_in {A B} (f g : A → B) (l : list (rect N * A)) :
  (∀ e, e ∈ l → f e.2 = g e.2) → emap f l = emap g l.
Proof.
  intros H. unfold emap. apply list_eq. intros i. rewrite !list_lookup_fmap.
  destruct (l !! i) as [e|] eqn:E; simpl; [|done].
  rewrite (H e); [done|]. by eapply list_elem_of_lookup_2.
Qed.

(** The children of a branch are permuted, never duplicated or lost. *)
Lemma branchGrown_snd {A} (l : list (rect N * A)) index ir :
  (branchGrown l index ir).1.*2 ≡ₚ l.*2.
Proof.
  unfold branchGrown. rewrite orderToLeft_perm.
  apply reflexive_eq.
  apply list_eq. intros i. rewrite !list_lookup_fmap.
  destruct (decide (i = index)) as [->|Hne].
  - rewrite list_lookup_alter_eq. by destruct (l !! index).
  - by rewrite list_lookup_alter_ne.
Qed.

Lemma branchSplit_snd {A} (l : list (rect N * A)) index lrect rrect rgt l' :
  branchSplit l index lrect rrect rgt = Some l' → l'.*2 ≡ₚ rgt :: l.*2.
Proof.
  unfold branchSplit. destruct (maxEntries <=? length l); [done|].
  destruct (l !! index) as [[r0 lft]|] eqn:E; [|done].
  intros [= <-]. rewrite orderToRight_perm.
  assert ((<[index := (lrect, lft)]> l).*2 = l.*2) as Hins.
  { rewrite list_fmap_insert. simpl. apply list_insert_id.
    rewrite list_lookup_fmap, E. done. }
  set (l2 := take (S index) _ ++ _ :: drop (S index) _).
  assert (l2.*2 ≡ₚ rgt :: l.*2) as Hl2.
  { unfold l2. rewrite fmap_app, fmap_cons, <- Permutation_middle. simpl.
    f_equiv. rewrite <- fmap_app, take_drop. by rewrite Hins. }
  destruct (nlt (rmin rrect).1 (rmin lrect).1); [|done].
  by rewrite swap_perm.
Qed.

Lemma branchDelete_snd {A} (l : list (rect N * A)) i r crect underflow shrunk nr :
  (branchDelete l i r crect underflow shrunk nr).1.1.*2
  ≡ₚ (if underflow then delete i l else l).*2.
Proof.
  unfold branchDelete. destruct underflow; simpl; [done|].
  destruct shrunk; simpl; [|done]. by rewrite orderToRight_perm.
Qed.

End NaturalMore.

(** * The store represents tree values

    A ghost tree records, for the nodes reachable from a pointer, their
    addresses and versions together with their contents.  [repr h g] says
    that the store [h] holds exactly these nodes; [erase g] is the tree
    value they stand for. *)

Section Ghost.
Context {N : Type} {num : number N} {T : Type}.

Inductive gtree : Type :=
  | GLeaf (a : ptr) (c : Z) (l : list (rect N * T))
  | GBranch (a : ptr) (c : Z) (es : list (rect N * gtree)).

Definition gaddr (g : gtree) : ptr :=
  match g with GLeaf a _ _ | GBranch a _ _ => a end.
Definition gcow (g : gtree) : Z :=
  match g with GLeaf _ c _ | GBranch _ c _ => c end.

Fixpoint erase (g : gtree) : ptree N T :=
  match g with
  | GLeaf _ _ l => PLeaf l
  | GBranch _ _ es => PBranch ((λ e, (e.1, erase e.2)) <$> es)
  end.

Definition gnode (g : gtree) : node N T :=
  match g with
  | GLeaf _ c l => Leaf c l
  | GBranch _ c es => Branch c (emap gaddr es)
  end.

(** The nodes of the tree, each with its address and its version; the
    nodes of version [c] are the ones a tree of version [c] writes in
    place. *)
Fixpoint gnodes (g : gtree) : list (ptr * Z) :=
  match g with
  | GLeaf a c _ => [(a, c)]
  | GBranch a c es => (a, c) :: concat (map (λ e, gnodes e.2) es)
  end.

Definition addrs (g : gtree) : list ptr := (gnodes g).*1.

Definition owned_of (c : Z) (ns : list (ptr * Z)) : list ptr :=
  (filter (λ p, p.2 = c) ns).*1.

Definition owned (c : Z) (g : gtree) : list ptr := owned_of c (gnodes g).

Fixpoint repr (h : store N T) (g : gtree) : Prop :=
  match g with
  | GLeaf a c l => h !! a = Some (Leaf c l)
  | GBranch a c es =>
      h !! a = Some (Branch c (emap gaddr es)) ∧
      (fix all (l : list (rect N * gtree)) : Prop :=
         match l with
         | [] => True
         | e :: l => repr h e.2 ∧ all l
         end) es
  end.

Lemma gtree_ind' (P : gtree → Prop) :
  (∀ a c l, P (GLeaf a c l)) →
  (∀ a c es, Forall (λ e, P e.2) es → P (GBranch a c es)) →
  ∀ g, P g.
Proof.
  intros Hl Hb. fix IH 1. intros [a c l|a c es]; [apply Hl|].
  apply Hb. induction es as [|[r g] es IHes]; constructor; [apply IH|apply IHes].
Qed.

Definition knodes (es : list (rect N * gtree)) : list (ptr * Z) :=
  concat (map (λ e, gnodes e.2) es).
Definition kaddrs (es : list (rect N * gtree)) : list ptr := (knodes es).*1.

Lemma elem_of_concat_map {X Y} (f : X → list Y) (l : list X) (y : Y) :
  y ∈ concat (map f l) ↔ ∃ x, x ∈ l ∧ y ∈ f x.
Proof.
  induction l as [|x l IH]; simpl.
  - split; [by intros ?%elem_of_nil|]. by intros (? & ?%elem_of_nil & _).
  - rewrite elem_of_app, IH. split.
    + intros [?|(x' & ? & ?)]; [exists x; split; [by left|done]|].
      exists x'. split; [by right|done].
    + intros (x' & [->|?]%elem_of_cons & ?); [by left|right; eauto].
Qed.

Lemma concat_map_snd {X Y Z'} (f : Y → list Z') (l : list (X * Y)) :
  concat (map (λ e, f e.2) l) = concat (map f l.*2).
Proof. induction l as [|x l IH]; simpl; [done|]. by rewrite IH. Qed.

Lemma gnodes_branch a c es : gnodes (GBranch a c es) = (a, c) :: knodes es.
Proof. done. Qed.
Lemma addrs_branch a c es : addrs (GBranch a c es) = a :: kaddrs es.
Proof. done. Qed.
Lemma addrs_leaf a c l : addrs (GLeaf a c l) = [a].
Proof. done. Qed.
Lemma erase_branch a c es : erase (GBranch a c es) = PBranch (emap erase es).
Proof. done. Qed.

Lemma repr_branch h a c es :
  repr h (GBranch a c es) ↔
  h !! a = Some (Branch c (emap gaddr es)) ∧ Forall (λ e, repr h e.2) es.
Proof.
  simpl. f_equiv. induction es as [|e es IH]; [by split|].
  rewrite Forall_cons, IH. done.
Qed.

Lemma repr_lookup h g : repr h g → h !! gaddr g = Some (gnode g).
Proof. destruct g; [done|]. by intros [? _]%repr_branch. Qed.

#[local] Opaque repr.

Lemma repr_leaf h a c l : repr h (GLeaf a c l) ↔ h !! a = Some (Leaf c l).
Proof. done. Qed.

Lemma elem_of_knodes p es :
  p ∈ knodes es ↔ ∃ e, e ∈ es ∧ p ∈ gnodes e.2.
Proof. apply elem_of_concat_map. Qed.

Lemma elem_of_kaddrs a es :
  a ∈ kaddrs es ↔ ∃ e, e ∈ es ∧ a ∈ addrs e.2.
Proof.
  unfold kaddrs, addrs. rewrite list_elem_of_fmap. split.
  - intros (p & -> & (e & He & Hp)%elem_of_knodes). exists e. split; [done|].
    apply list_elem_of_fmap. eauto.
  - intros (e & He & (p & -> & Hp)%list_elem_of_fmap). exists p. split; [done|].
    apply elem_of_knodes. eauto.
Qed.

Lemma elem_of_owned_of c a ns : a ∈ owned_of c ns ↔ (a, c) ∈ ns.
Proof.
  unfold owned_of. rewrite list_elem_of_fmap. split.
  - intros ([a' c'] & -> & [Hc Hin]%list_elem_of_filter). simpl in *. by subst.
  - intros Hin. exists (a, c). split; [done|]. by apply list_elem_of_filter.
Qed.

Lemma elem_of_owned c a g : a ∈ owned c g ↔ (a, c) ∈ gnodes g.
Proof. apply elem_of_owned_of. Qed.

Lemma owned_addrs c g a : a ∈ owned c g → a ∈ addrs g.
Proof.
  intros Ha%elem_of_owned. apply list_elem_of_fmap. by exists (a, c).
Qed.

Lemma gnodes_root g : (gaddr g, gcow g) ∈ gnodes g.
Proof. destruct g; by left. Qed.

Lemma gaddr_addrs g : gaddr g ∈ addrs g.
Proof. destruct g; by left. Qed.

Lemma repr_addrs_lt h g a : repr h g → a ∈ addrs g → a < length h.
Proof.
  revert a. induction g as [a' c' l|a' c' es IH] using gtree_ind'; intros a.
  - intros Hr%repr_leaf Ha. apply list_elem_of_singleton in Ha as ->.
    by eapply lookup_lt_Some.
  - intros [Hr Hk]%repr_branch Ha. rewrite addrs_branch in Ha.
    apply elem_of_cons in Ha as [->|Ha]; [by eapply lookup_lt_Some|].
    apply elem_of_kaddrs in Ha as (e & He & Ha).
    apply (proj1 (Forall_forall _ _) IH e He); [|done].
    by apply (proj1 (Forall_forall _ _) Hk).
Qed.

(** A tree is still represented when none of its nodes was touched. *)
Lemma repr_frame h h' g :
  repr h g → (∀ a, a ∈ addrs g → h' !! a = h !! a) → repr h' g.
Proof.
  induction g as [a' c' l|a' c' es IH] using gtree_ind'.
  - intros Hr%repr_leaf Hf. apply repr_leaf. rewrite Hf; [done|by left].
  - intros [Hr Hk]%repr_branch Hf. apply repr_branch. split.
    + rewrite Hf; [done|by left].
    + apply Forall_forall. intros e He.
      apply (proj1 (Forall_forall _ _) IH e He).
      * by apply (proj1 (Forall_forall _ _) Hk).
      * intros a Ha. apply Hf. rewrite addrs_branch. right.
        apply elem_of_kaddrs. eauto.
Qed.

Lemma ncount_gnode g : ncount (gnode g) = pcount (erase g).
Proof. destruct g; simpl; [done|]. unfold emap. by rewrite !length_fmap. Qed.
Lemma nleaf_gnode g : nleaf (gnode g) = pleaf (erase g).
Proof. by destruct g. Qed.
Lemma nrect_gnode g : nrect (gnode g) = prect (erase g).
Proof.
  destruct g; simpl; [done|]. rewrite nodeRect_emap.
  symmetry. apply (nodeRect_emap erase).
Qed.
Lemma ncow_gnode g : ncow (gnode g) = gcow g.
Proof. by destruct g. Qed.

Lemma knodes_perm (es es' : list (rect N * gtree)) :
  es.*2 ≡ₚ es'.*2 → knodes es ≡ₚ knodes es'.
Proof.
  intros Hp. unfold knodes. rewrite !concat_map_snd. by apply concat_map_perm.
Qed.

Lemma kaddrs_perm (es es' : list (rect N * gtree)) :
  es.*2 ≡ₚ es'.*2 → kaddrs es ≡ₚ kaddrs es'.
Proof. intros Hp. unfold kaddrs. by rewrite (knodes_perm es es'). Qed.

Lemma knodes_app (es es' : list (rect N * gtree)) :
  knodes (es ++ es') = knodes es ++ knodes es'.
Proof. unfold knodes. by rewrite map_app, concat_app. Qed.

Lemma knodes_cons e (es : list (rect N * gtree)) :
  knodes (e :: es) = gnodes e.2 ++ knodes es.
Proof. done. Qed.

Lemma kids_repr_perm h (es es' : list (rect N * gtree)) :
  es.*2 ≡ₚ es'.*2 → Forall (λ e, repr h e.2) es → Forall (λ e, repr h e.2) es'.
Proof.
  intros Hp H. rewrite <- (Forall_fmap snd (repr h)) in H |- *. by rewrite <- Hp.
Qed.

Lemma copyNode_id c (n : node N T) : copyNode c n = n.
Proof. by destruct n. Qed.

(** ** Running the store monad *)

Lemma bind_Ok {X Y} (m : M N T X) (k : X → M N T Y) h x h' :
  m h = Ok (x, h') → bind m k h = k x h'.
Proof. unfold bind. by intros ->. Qed.

Lemma bind_Panic {X Y} (m : M N T X) (k : X → M N T Y) h :
  m h = Panic → bind m k h = Panic.
Proof. unfold bind. by intros ->. Qed.

Lemma bounded_eq {X} (f : nat → M N T X) h : bounded f h = f (depth h) h.
Proof. done. Qed.

Lemma load_Ok (h : store N T) p n : h !! p = Some n → load p h = Ok (n, h).
Proof. unfold load. by intros ->. Qed.

Lemma put_Ok (h : store N T) p n :
  p < length h → put p n h = Ok (tt, <[p := n]> h).
Proof.
  unfold put. intros Hp. by apply Nat.ltb_lt in Hp as ->.
Qed.

(** ** Frames *)

(** [h'] extends [h] and differs from it at most at the addresses [W]. *)
Definition frame (W : list ptr) (h h' : store N T) : Prop :=
  length h ≤ length h' ∧
  ∀ a, a < length h → a ∉ W → h' !! a = h !! a.

Lemma frame_refl W h : frame W h h.
Proof. by split. Qed.

Lemma frame_trans W W' h h' h'' :
  frame W h h' → frame W' h' h'' →
  (∀ a, a ∈ W' → a < length h → a ∈ W) →
  frame W h h''.
Proof.
  intros [Hl Hf] [Hl' Hf'] Hsub. split; [lia|].
  intros a Ha Hn. rewrite Hf'; [by apply Hf|lia|].
  intros Hin. apply Hn, Hsub; done.
Qed.

Lemma frame_weaken W W' h h' :
  frame W h h' → (∀ a, a ∈ W → a < length h → a ∈ W') → frame W' h h'.
Proof.
  intros [Hl Hf] Hsub. split; [done|]. intros a Ha Hn. apply Hf; [done|].
  intros Hin. by apply Hn, Hsub.
Qed.

Lemma frame_alloc W h n : frame W h (h ++ [n]).
Proof.
  split; [rewrite length_app; lia|]. intros a Ha _. by apply lookup_app_l.
Qed.

Lemma frame_put W h p n : (p < length h → p ∈ W) → frame W h (<[p := n]> h).
Proof.
  intros Hp. split; [by rewrite length_insert|]. intros a Ha Hn.
  apply list_lookup_insert_ne. intros ->. by apply Hn, Hp.
Qed.

Lemma repr_frame' W h h' g :
  repr h g → frame W h h' → (∀ a, a ∈ addrs g → a ∉ W) → repr h' g.
Proof.
  intros Hr [Hl Hf] Hd. apply (repr_frame h); [done|].
  intros a Ha. apply Hf; [by eapply repr_addrs_lt|by apply Hd].
Qed.

Lemma kids_frame W h h' (es : list (rect N * gtree)) :
  Forall (λ e, repr h e.2) es → frame W h h' →
  (∀ a, a ∈ kaddrs es → a ∉ W) → Forall (λ e, repr h' e.2) es.
Proof.
  intros Hk Hf Hd. apply Forall_forall. intros e He.
  apply (repr_frame' W h); [by apply (proj1 (Forall_forall _ _) Hk)|done|].
  intros a Ha. apply Hd, elem_of_kaddrs. eauto.
Qed.

End Ghost.
Arguments gtree N T : clear implicits.
#[global] Opaque repr.

(** * What a mutation does to the store

    A mutation of a tree of version [c] starts in a store [h0] where the
    tree occupies the nodes [ns0] (addresses with versions).  At any later
    point the store [h] and the nodes [ns] then in use satisfy [post]:
    only nodes of version [c] of the tree were overwritten, the nodes in
    use are distinct, and each is an old node or was allocated since, with
    version [c] or the version of an old node. *)

Section Post.
Context {N : Type} {num : number N} {T : Type}.
Implicit Types h : store N T.
Implicit Types ns : list (ptr * Z).

Definition evolves (c : Z) h0 ns0 ns : Prop :=
  ∀ a x, (a, x) ∈ ns →
    (a, x) ∈ ns0 ∨ (length h0 ≤ a ∧ (x = c ∨ x ∈ ns0.*2)).

Definition below h ns : Prop := ∀ a x, (a, x) ∈ ns → a < length h.

Definition writable (c : Z) h0 ns0 (a : ptr) : Prop :=
  (a, c) ∈ ns0 ∨ length h0 ≤ a.

Record post (c : Z) h0 ns0 h ns : Prop := Post {
  post_frame : frame (owned_of c ns0) h0 h;
  post_nodup : NoDup ns.*1;
  post_evolves : evolves c h0 ns0 ns;
  post_below : below h ns }.

Lemma NoDup_submseteq_inv {X} (l k : list X) : l ⊆+ k → NoDup k → NoDup l.
Proof.
  intros [k' Hp]%submseteq_Permutation. rewrite Hp.
  by intros (? & _ & _)%NoDup_app.
Qed.

Lemma below_addrs h (g : gtree N T) : repr h g → below h (gnodes g).
Proof.
  intros Hr a x Hin. apply (repr_addrs_lt h g); [done|].
  apply list_elem_of_fmap. by exists (a, x).
Qed.

Lemma post_refl c h ns : NoDup ns.*1 → below h ns → post c h ns h ns.
Proof.
  intros Hn Hb. split; [apply frame_refl|done| |done]. intros a x Hin. by left.
Qed.

Lemma post_len c h0 ns0 h ns : post c h0 ns0 h ns → length h0 ≤ length h.
Proof. by intros [[? _] _ _ _]. Qed.

Lemma post_alloc c h0 ns0 h ns x n :
  post c h0 ns0 h ns → x = c ∨ x ∈ ns0.*2 →
  post c h0 ns0 (h ++ [n]) ((length h, x) :: ns).
Proof.
  intros [Hf Hn He Hb] Hx. split.
  - eapply frame_trans; [done|apply (frame_alloc [])|].
    by intros a ?%elem_of_nil.
  - csimpl. constructor; [|done]. intros (p & Hp & Hin)%list_elem_of_fmap.
    destruct p as [a y]. simpl in Hp. subst a. apply Hb in Hin. lia.
  - intros a y [Hin|Hin]%elem_of_cons.
    + injection Hin as -> ->. right. split; [|done]. by destruct Hf.
    + by apply He.
  - intros a y [Hin|Hin]%elem_of_cons.
    + injection Hin as -> ->. rewrite length_app. simpl. lia.
    + apply Hb in Hin. rewrite length_app. simpl. lia.
Qed.

Lemma post_put c h0 ns0 h ns a n :
  post c h0 ns0 h ns → writable c h0 ns0 a →
  post c h0 ns0 (<[a := n]> h) ns.
Proof.
  intros [Hf Hn He Hb] Hw. split; [|done|done|].
  - eapply frame_trans; [done|apply (frame_put [a])|].
    + intros _. by left.
    + intros a' Ha'%list_elem_of_singleton Hlt. subst a'.
      apply elem_of_owned_of. destruct Hw; [done|lia].
  - intros a' x Hin. rewrite length_insert. by eapply Hb.
Qed.

Lemma post_sub c h0 ns0 h ns ns' :
  post c h0 ns0 h ns → ns' ⊆+ ns → post c h0 ns0 h ns'.
Proof.
  intros [Hf Hn He Hb] Hs. split; [done| | |].
  - eapply NoDup_submseteq_inv; [|done]. by apply fmap_submseteq.
  - intros a x Hin. apply He. by eapply elem_of_submseteq.
  - intros a x Hin. eapply Hb. by eapply elem_of_submseteq.
Qed.

Lemma post_perm c h0 ns0 h ns ns' :
  post c h0 ns0 h ns → ns' ≡ₚ ns → post c h0 ns0 h ns'.
Proof. intros Hp Hs. eapply post_sub; [done|]. by rewrite Hs. Qed.

(** A mutation of the part [ns1] of the nodes in use. *)
Lemma post_call c h0 ns0 h ns1 rest h' ns1' :
  post c h0 ns0 h (ns1 ++ rest) → post c h ns1 h' ns1' →
  post c h0 ns0 h' (ns1' ++ rest).
Proof.
  intros [Hf Hn He Hb] [Hf' Hn' He' Hb']. split.
  - eapply frame_trans; [done..|].
    intros a Ha%elem_of_owned_of Hlt. apply elem_of_owned_of.
    destruct (He a c) as [?|[? _]]; [|done|lia].
    apply elem_of_app. by left.
  - rewrite fmap_app in *. apply NoDup_app in Hn as (_ & Hd & Hr).
    apply NoDup_app. split_and!; [done| |done].
    intros a (p & -> & Hin)%list_elem_of_fmap Hin'. destruct p as [a x].
    destruct (He' _ _ Hin) as [Hold|[Hfresh _]].
    + apply (Hd a); [|done]. apply list_elem_of_fmap. by exists (a, x).
    + apply list_elem_of_fmap in Hin' as ([a' y] & Heq & Hin'). simpl in *.
      subst a'. assert (a < length h); [|lia].
      apply (Hb a y), elem_of_app. by right.
  - intros a x [Hin|Hin]%elem_of_app.
    + destruct (He' _ _ Hin) as [Hold|[Hfresh Hx]].
      * apply He, elem_of_app. by left.
      * right. split; [destruct Hf; lia|].
        destruct Hx as [->|Hx]; [by left|].
        apply list_elem_of_fmap in Hx as ([a' y] & -> & Hx). simpl.
        destruct (He a' y) as [?|[_ ?]]; [apply elem_of_app; by left| |done].
        right. apply list_elem_of_fmap. by exists (a', y).
    + apply He, elem_of_app. by right.
  - intros a x [Hin|Hin]%elem_of_app; [by eapply Hb'|].
    destruct Hf'. assert (a < length h); [|lia].
    apply (Hb a x), elem_of_app. by right.
Qed.

Lemma post_trans c h0 ns0 h ns h' ns' :
  post c h0 ns0 h ns → post c h ns h' ns' → post c h0 ns0 h' ns'.
Proof.
  intros H1 H2. rewrite <- (right_id_L [] (++) ns').
  eapply post_call; [|done]. by rewrite (right_id_L [] (++)).
Qed.

Lemma writable_post c h0 ns0 h ns a :
  post c h0 ns0 h ns → writable c h ns a → writable c h0 ns0 a.
Proof.
  intros [Hf Hn He Hb] [Hin|Hfresh].
  - destruct (He _ _ Hin) as [?|[? _]]; [by left|by right].
  - right. destruct Hf. lia.
Qed.

Lemma writable_weaken c h0 ns0 ns0' a :
  writable c h0 ns0 a → ns0 ⊆ ns0' → writable c h0 ns0' a.
Proof. intros [?|?] Hs; [left; by apply Hs|by right]. Qed.

(** The parts of the store a mutation leaves alone. *)
Lemma post_repr c h0 ns0 h ns (g : gtree N T) :
  post c h0 ns0 h ns → repr h0 g →
  (∀ a, a ∈ addrs g → (a, c) ∉ ns0) → repr h g.
Proof.
  intros [Hf _ _ _] Hr Hd. eapply repr_frame'; [done..|].
  intros a Ha Hin%elem_of_owned_of. by eapply Hd.
Qed.

End Post.

(** * Insertion on the store computes insertion on the tree value *)

#[global] Arguments branchGrown : simpl never.
#[global] Arguments branchSplit : simpl never.
#[global] Arguments splitNode : simpl never.
#[global] Arguments chooseSubtree : simpl never.
#[global] Arguments leafInsert : simpl never.

Section NodeSteps.
Context {N : Type} {num : number N} {ord : number_order N} {T : Type}.
Implicit Types h : store N T.
Implicit Types g : gtree N T.
Implicit Types ges : list (rect N * gtree N T).

(** The same node at another address. *)
Definition gmove (a : ptr) g : gtree N T :=
  match g with
  | GLeaf _ c l => GLeaf a c l
  | GBranch _ c es => GBranch a c es
  end.

Definition kids g : list (rect N * gtree N T) :=
  match g with GLeaf _ _ _ => [] | GBranch _ _ es => es end.

Lemma gnodes_unfold g : gnodes g = (gaddr g, gcow g) :: knodes (kids g).
Proof. by destruct g. Qed.
Lemma kids_gmove a g : kids (gmove a g) = kids g.
Proof. by destruct g. Qed.
Lemma gcow_gmove a g : gcow (gmove a g) = gcow g.
Proof. by destruct g. Qed.
Lemma erase_gmove a g : erase (gmove a g) = erase g.
Proof. by destruct g. Qed.
Lemma gaddr_gmove a g : gaddr (gmove a g) = a.
Proof. by destruct g. Qed.
Lemma gnode_gmove a g : gnode (gmove a g) = gnode g.
Proof. by destruct g. Qed.
Lemma gmove_id g : gmove (gaddr g) g = g.
Proof. by destruct g. Qed.

Lemma repr_node h g :
  repr h g ↔
  h !! gaddr g = Some (gnode g) ∧ Forall (λ e, repr h e.2) (kids g).
Proof.
  destruct g as [a c l|a c es]; simpl.
  - rewrite repr_leaf. split; [by intros ?|by intros [? _]].
  - apply repr_branch.
Qed.

Lemma kaddrs_not_root (a : ptr) (c : Z) ges :
  NoDup ((a, c) :: knodes ges).*1 → ∀ a', a' ∈ kaddrs ges → a' ∉ [a].
Proof.
  csimpl. intros [Hn _]%NoDup_cons a' Ha' ->%list_elem_of_singleton. done.
Qed.

(** [cowLoad]: the node is used where it is if it has the version of the
    tree, and copied to a new address otherwise; the copy keeps the version
    of the original. *)
Lemma cowLoad_spec c h g :
  repr h g → NoDup (addrs g) →
  ∃ a1 h1, cowLoad c (gaddr g) h = Ok ((a1, gnode g), h1) ∧
    repr h1 (gmove a1 g) ∧
    post c h (gnodes g) h1 (gnodes (gmove a1 g)) ∧
    writable c h (gnodes g) a1.
Proof.
  intros Hr Hn. unfold cowLoad.
  rewrite (bind_Ok _ _ _ _ _ (load_Ok _ _ _ (repr_lookup _ _ Hr))).
  rewrite ncow_gnode, copyNode_id.
  pose proof (post_refl c h (gnodes g) Hn (below_addrs h g Hr)) as Hp.
  case_bool_decide as Hc.
  - exists (length h), (h ++ [gnode g]). split_and!; [done| | |by right].
    + apply repr_node. rewrite gaddr_gmove, gnode_gmove, kids_gmove. split.
      * by rewrite lookup_app_r, Nat.sub_diag by lia.
      * apply repr_node in Hr as [_ Hk].
        eapply (kids_frame []); [done|apply frame_alloc|].
        by intros a _ ?%elem_of_nil.
    + eapply post_sub.
      * apply (post_alloc c h (gnodes g) h (gnodes g) (gcow g) (gnode g) Hp).
        right. apply list_elem_of_fmap. exists (gaddr g, gcow g).
        split; [done|apply gnodes_root].
      * rewrite (gnodes_unfold (gmove _ _)), (gnodes_unfold g).
        rewrite gaddr_gmove, gcow_gmove, kids_gmove.
        apply submseteq_skip, submseteq_cons. done.
  - exists (gaddr g), h. rewrite gmove_id. split_and!; [done..|].
    left. rewrite <- Hc. apply gnodes_root.
Qed.

(** Writing back a node whose children are in place. *)
Lemma put_node c h0 ns0 h g :
  post c h0 ns0 h (gnodes g) → writable c h0 ns0 (gaddr g) →
  Forall (λ e, repr h e.2) (kids g) →
  put (gaddr g) (gnode g) h = Ok (tt, <[gaddr g := gnode g]> h) ∧
  repr (<[gaddr g := gnode g]> h) g ∧
  post c h0 ns0 (<[gaddr g := gnode g]> h) (gnodes g).
Proof.
  intros Hp Hw Hk.
  assert (gaddr g < length h) as Hlt.
  { eapply (post_below _ _ _ _ _ Hp). apply gnodes_root. }
  split_and!.
  - by apply put_Ok.
  - apply repr_node. split; [by apply list_lookup_insert_eq|].
    eapply (kids_frame [gaddr g]); [done|apply frame_put; by left|].
    apply (kaddrs_not_root _ (gcow g)). rewrite <- gnodes_unfold.
    by destruct Hp.
  - by apply post_put.
Qed.

Lemma put_node_rest c h0 ns0 h g rest :
  post c h0 ns0 h (gnodes g ++ rest) → writable c h0 ns0 (gaddr g) →
  Forall (λ e, repr h e.2) (kids g) →
  put (gaddr g) (gnode g) h = Ok (tt, <[gaddr g := gnode g]> h) ∧
  repr (<[gaddr g := gnode g]> h) g ∧
  post c h0 ns0 (<[gaddr g := gnode g]> h) (gnodes g ++ rest) ∧
  ∀ g2, repr h g2 → (∀ a, a ∈ addrs g2 → a ∈ rest.*1) →
        repr (<[gaddr g := gnode g]> h) g2.
Proof.
  intros Hp Hw Hk.
  assert (post c h0 ns0 h (gnodes g)) as Hp1.
  { eapply post_sub; [done|]. by apply submseteq_inserts_r. }
  destruct (put_node c h0 ns0 h g Hp1 Hw Hk) as (Hput & Hr & _).
  split_and!; [done|done|by apply post_put|].
  intros g2 Hr2 Hin. eapply (repr_frame' [gaddr g]); [done|apply frame_put; by left|].
  intros a Ha ->%list_elem_of_singleton.
  pose proof (post_nodup _ _ _ _ _ Hp) as Hn.
  rewrite fmap_app in Hn. apply NoDup_app in Hn as (_ & Hd & _).
  apply (Hd (gaddr g)); [apply gaddr_addrs|by apply Hin].
Qed.

(** [splitNode] on the store: the node keeps the left half, a new node of
    the tree's version gets the right half. *)
Definition gsplit (c : Z) (a' : ptr) (r : rect N) g
    : option (gtree N T * gtree N T) :=
  match g with
  | GLeaf a c0 l =>
      match splitNode r l with
      | Some (l', r') => Some (GLeaf a c0 l', GLeaf a' c r')
      | None => None
      end
  | GBranch a c0 es =>
      match splitNode r es with
      | Some (l', r') => Some (GBranch a c0 l', GBranch a' c r')
      | None => None
      end
  end.

Lemma gsplit_erase c a' r g :
  psplit r (erase g) =
  (λ p, (erase p.1, erase p.2)) <$> gsplit c a' r g.
Proof.
  destruct g as [a c0 l|a c0 es]; simpl.
  - by destruct (splitNode r l) as [[l' r']|].
  - fold (emap erase es). rewrite splitNode_emap.
    by destruct (splitNode r es) as [[l' r']|].
Qed.

Lemma gsplit_nodes c a' r g gl gr :
  gsplit c a' r g = Some (gl, gr) →
  gaddr gl = gaddr g ∧ gcow gl = gcow g ∧ gaddr gr = a' ∧ gcow gr = c ∧
  kids gl ++ kids gr ≡ₚ kids g ∧
  gnodes gl ++ gnodes gr ≡ₚ (a', c) :: gnodes g.
Proof.
  destruct g as [a c0 l|a c0 es]; simpl.
  - destruct (splitNode r l) as [[l' r']|]; [|done]. intros [= <- <-].
    simpl. split_and!; try done. apply Permutation_swap.
  - destruct (splitNode r es) as [[l' r']|] eqn:Hs; [|done]. intros [= <- <-].
    apply splitNode_perm in Hs. simpl. split_and!; try done.
    fold (knodes l') (knodes r') (knodes es).
    rewrite <- (knodes_perm (l' ++ r') es) by (by rewrite Hs).
    rewrite knodes_app. solve_Permutation.
Qed.

Lemma splitNodeAt_spec c h r g gl gr :
  gsplit c (length h) r g = Some (gl, gr) →
  repr h g → NoDup (addrs g) →
  let h' := <[gaddr g := gnode gl]> h ++ [gnode gr] in
  splitNodeAt c r (gaddr g) h = Ok (length h, h') ∧
  repr h' gl ∧ repr h' gr.
Proof.
  intros Hs Hr Hn h'.
  pose proof (gsplit_nodes _ _ _ _ _ _ Hs) as (Hal & Hcl & Har & Hcr & Hk & _).
  assert (gaddr g < length h) as Hlt.
  { eapply repr_addrs_lt; [done|apply gaddr_addrs]. }
  assert (Forall (λ e, repr h' e.2) (kids g)) as Hkids.
  { apply repr_node in Hr as [_ Hkr].
    eapply (kids_frame [gaddr g]); [done| |].
    - eapply frame_trans; [apply frame_put; by left|apply (frame_alloc [])|].
      by intros ? ?%elem_of_nil.
    - apply (kaddrs_not_root _ (gcow g)). rewrite <- gnodes_unfold. done. }
  assert (Forall (λ e, repr h' e.2) (kids gl) ∧
          Forall (λ e, repr h' e.2) (kids gr)) as [Hkl Hkr].
  { apply Forall_app. by rewrite Hk. }
  split_and!.
  - unfold splitNodeAt.
    rewrite (bind_Ok _ _ _ _ _ (load_Ok _ _ _ (repr_lookup _ _ Hr))).
    destruct g as [a c0 l|a c0 es]; simpl in Hs |- *.
    + destruct (splitNode r l) as [[l' r']|]; [|done].
      injection Hs as <- <-.
      rewrite (bind_Ok _ _ _ _ _ (put_Ok _ _ _ Hlt)).
      unfold alloc. by rewrite length_insert.
    + rewrite splitNode_emap.
      destruct (splitNode r es) as [[l' r']|]; [|done].
      injection Hs as <- <-. simpl.
      rewrite (bind_Ok _ _ _ _ _ (put_Ok _ _ _ Hlt)).
      unfold alloc. by rewrite length_insert.
  - apply repr_node. split; [|done]. unfold h'. rewrite Hal.
    rewrite lookup_app_l by (by rewrite length_insert).
    by apply list_lookup_insert_eq.
  - apply repr_node. split; [|done]. unfold h'. rewrite Har.
    rewrite lookup_app_r by (rewrite length_insert; lia).
    by rewrite length_insert, Nat.sub_diag.
Qed.

Lemma splitNodeAt_post c h0 ns0 h r g gl gr rest :
  gsplit c (length h) r g = Some (gl, gr) →
  post c h0 ns0 h (gnodes g ++ rest) → writable c h0 ns0 (gaddr g) →
  post c h0 ns0 (<[gaddr g := gnode gl]> h ++ [gnode gr])
    (gnodes gl ++ gnodes gr ++ rest).
Proof.
  intros Hs Hp Hw.
  pose proof (gsplit_nodes _ _ _ _ _ _ Hs) as (_ & _ & _ & _ & _ & Hns).
  eapply post_perm.
  - eapply (post_alloc _ _ _ _ _ c).
    + eapply post_put; [exact Hp|done].
    + by left.
  - rewrite length_insert, (assoc_L (++)), Hns. done.
Qed.

End NodeSteps.

Section InsertRefine.
Context {N : Type} {num : number N} {ord : number_order N} {T : Type}.
Implicit Types h : store N T.
Implicit Types g : gtree N T.
Implicit Types ges pre pst : list (rect N * gtree N T).

Lemma knodes_mid pre (r : rect N) g pst :
  knodes (pre ++ (r, g) :: pst) ≡ₚ gnodes g ++ knodes (pre ++ pst).
Proof. rewrite !knodes_app, knodes_cons. simpl. solve_Permutation. Qed.

Lemma emap_insert_mid {B} (f : gtree N T → B) pre (r0 r : rect N) g0 g pst :
  <[length pre := (r, f g)]> (emap f (pre ++ (r0, g0) :: pst))
  = emap f (pre ++ (r, g) :: pst).
Proof.
  rewrite !emap_app. rewrite insert_app_r_alt by (by rewrite emap_length).
  by rewrite emap_length, Nat.sub_diag.
Qed.

Lemma emap_lookup_mid {B} (f : gtree N T → B) pre (r : rect N) g pst :
  emap f (pre ++ (r, g) :: pst) !! length pre = Some (r, f g).
Proof.
  rewrite emap_lookup, lookup_app_r, Nat.sub_diag by lia. done.
Qed.

Lemma kids_mid_repr h pre (r : rect N) g pst :
  Forall (λ e, repr h e.2) (pre ++ (r, g) :: pst) ↔
  repr h g ∧ Forall (λ e, repr h e.2) (pre ++ pst).
Proof. rewrite !Forall_app, Forall_cons. simpl. tauto. Qed.

(** The nodes in use below a branch, one child singled out. *)
Lemma branch_nodes_mid (a : ptr) (c0 : Z) pre (r : rect N) g pst :
  (a, c0) :: knodes (pre ++ (r, g) :: pst)
  ≡ₚ gnodes g ++ (a, c0) :: knodes (pre ++ pst).
Proof. rewrite knodes_mid. solve_Permutation. Qed.

Lemma nodup_app_disjoint (ns1 ns2 : list (ptr * Z)) :
  NoDup (ns1 ++ ns2).*1 →
  NoDup ns1.*1 ∧ ∀ a, a ∈ ns2.*1 → a ∉ ns1.*1.
Proof.
  rewrite fmap_app. intros (Hn & Hd & _)%NoDup_app. split; [done|].
  intros a H2 H1. by eapply Hd.
Qed.

Lemma branchInsert_spec c h0 ns0 h a1 c0 pre r g0 g pst grown_c nr ir t' grown :
  Forall (λ e, repr h e.2) (pre ++ (r, g) :: pst) →
  post c h0 ns0 h ((a1, c0) :: knodes (pre ++ (r, g) :: pst)) →
  writable c h0 ns0 a1 → writable c h0 ns0 (gaddr g) →
  pinsert_branch (emap erase (pre ++ (r, g0) :: pst)) (length pre) r
    (erase g) grown_c nr ir = Some (t', grown) →
  ∃ g' h',
    branchInsert c nr a1 c0 (emap gaddr (pre ++ (r, g0) :: pst)) (length pre)
      r (gaddr g) grown_c ir h = Ok ((a1, grown), h') ∧
    gaddr g' = a1 ∧ erase g' = t' ∧ repr h' g' ∧
    post c h0 ns0 h' (gnodes g').
Proof.
  intros Hk Hp Hw1 Hwg. unfold branchInsert, pinsert_branch.
  rewrite !emap_insert_mid.
  pose proof Hk as [Hrg _]%kids_mid_repr.
  rewrite (bind_Ok _ _ _ _ _ (load_Ok _ _ _ (repr_lookup _ _ Hrg))).
  rewrite ncount_gnode.
  (* the slot after [if grown] *)
  assert (∃ p1 p2 r2 grown2,
    (if grown_c
     then let '(es, index) :=
            branchGrown (emap gaddr (pre ++ (r, g) :: pst)) (length pre) ir in
          (es, index, negb (contains nr ir))
     else (emap gaddr (pre ++ (r, g) :: pst), length pre, false))
    = (emap gaddr (p1 ++ (r2, g) :: p2), length p1, grown2) ∧
    (if grown_c
     then let '(es, index) :=
            branchGrown (emap erase (pre ++ (r, g) :: pst)) (length pre) ir in
          (es, index, negb (contains nr ir))
     else (emap erase (pre ++ (r, g) :: pst), length pre, false))
    = (emap erase (p1 ++ (r2, g) :: p2), length p1, grown2) ∧
    p1 ++ p2 = pre ++ pst) as (p1 & p2 & r2 & grown2 & -> & -> & Hpp).
  { destruct grown_c.
    - rewrite !branchGrown_emap.
      destruct (branchGrown_spec pre r g pst ir) as (q1 & q2 & -> & -> & _).
      exists q1, (q2 ++ pst), (expand r ir), (negb (contains nr ir)).
      simpl. by rewrite (assoc_L (++)).
    - by exists pre, pst, r, false. }
  assert (Forall (λ e, repr h e.2) (p1 ++ p2)) as Hsib.
  { rewrite Hpp. by apply kids_mid_repr in Hk as [_ ?]. }
  assert (post c h0 ns0 h (gnodes g ++ (a1, c0) :: knodes (p1 ++ p2))) as Hp'.
  { eapply post_perm; [exact Hp|]. by rewrite Hpp, branch_nodes_mid. }
  clear Hp Hk Hpp pre pst g0.
  destruct (pcount (erase g) =? maxEntries) eqn:Esplit.
  - (* the child is split *)
    rewrite !emap_lookup_mid.
    rewrite (gsplit_erase c (length h)).
    destruct (gsplit c (length h) r2 g) as [[gl gr]|] eqn:Hs; [|done]. simpl.
    rewrite emap_insert_mid.
    pose proof (nodup_app_disjoint _ _ (post_nodup _ _ _ _ _ Hp')) as [Hng Hdis].
    destruct (splitNodeAt_spec c h r2 g gl gr Hs Hrg Hng) as (Hsp & Hrl & Hrr).
    pose proof (gsplit_nodes _ _ _ _ _ _ Hs) as (Hal & Hcl & Har & Hcr & _ & _).
    pose proof (splitNodeAt_post c h0 ns0 h r2 g gl gr _ Hs Hp' Hwg) as Hp3.
    set (h3 := <[gaddr g := gnode gl]> h ++ [gnode gr]) in *.
    rewrite (bind_Ok _ _ _ _ _ Hsp).
    rewrite <- Hal.
    rewrite (bind_Ok _ _ _ _ _ (load_Ok _ _ _ (repr_lookup _ _ Hrl))).
    rewrite <- Har.
    rewrite (bind_Ok _ _ _ _ _ (load_Ok _ _ _ (repr_lookup _ _ Hrr))).
    rewrite !nrect_gnode.
    assert (emap gaddr (p1 ++ (r2, g) :: p2) = emap gaddr (p1 ++ (r2, gl) :: p2))
      as ->.
    { rewrite !emap_app. simpl. by rewrite Hal. }
    rewrite !branchSplit_emap.
    destruct (branchSplit (p1 ++ (r2, gl) :: p2) (length p1) (prect (erase gl))
                (prect (erase gr)) gr) as [ges3|] eqn:Hbs; [|done].
    simpl. intros [= <- <-].
    pose proof (branchSplit_snd _ _ _ _ _ _ Hbs) as Hsnd.
    assert (Forall (λ e, repr h3 e.2) ges3) as Hk3.
    { apply (kids_repr_perm h3 ((r2, gr) :: p1 ++ (r2, gl) :: p2)); [done|].
      constructor; [done|]. apply kids_mid_repr. split; [done|].
      eapply (kids_frame [gaddr g]); [exact Hsib| |].
      - eapply frame_trans; [apply frame_put; by left|apply (frame_alloc [])|].
        by intros ? ?%elem_of_nil.
      - intros a Ha ->%list_elem_of_singleton. apply (Hdis (gaddr g)).
        + csimpl. by right.
        + apply gaddr_addrs. }
    assert (post c h0 ns0 h3 (gnodes (GBranch a1 c0 ges3))) as Hp4.
    { eapply post_perm; [exact Hp3|]. rewrite gnodes_branch.
      rewrite (knodes_perm ges3 ((r2, gr) :: p1 ++ (r2, gl) :: p2)) by done.
      rewrite knodes_cons, knodes_mid. simpl. solve_Permutation. }
    destruct (put_node c h0 ns0 h3 (GBranch a1 c0 ges3) Hp4 Hw1 Hk3)
      as (Hput & Hr4 & Hp5).
    simpl in Hput. rewrite (bind_Ok _ _ _ _ _ Hput).
    eexists (GBranch a1 c0 ges3), _. split_and!; done.
  - (* no split *)
    intros [= <- <-].
    assert (Forall (λ e, repr h e.2) (p1 ++ (r2, g) :: p2)) as Hk2.
    { by apply kids_mid_repr. }
    assert (post c h0 ns0 h (gnodes (GBranch a1 c0 (p1 ++ (r2, g) :: p2))))
      as Hp2.
    { eapply post_perm; [exact Hp'|]. by rewrite gnodes_branch, branch_nodes_mid. }
    destruct (put_node c h0 ns0 h _ Hp2 Hw1 Hk2) as (Hput & Hr4 & Hp5).
    simpl in Hput. rewrite (bind_Ok _ _ _ _ _ Hput).
    eexists (GBranch a1 c0 _), _. split_and!; done.
Qed.

Lemma pheight_child (es : list (rect N * ptree N T)) e :
  e ∈ es → pheight e.2 < pheight (PBranch es).
Proof.
  simpl. induction es as [|x es IH]; [by intros ?%elem_of_nil|].
  intros [->|Hin]%elem_of_cons; simpl; [lia|]. specialize (IH Hin). lia.
Qed.

Lemma nodeInsert_S fuel c nr cn ir (data : T) :
  nodeInsert (S fuel) c nr cn ir data =
  let* (cn, n) := cowLoad c cn in
  match n with
  | Leaf c0 es =>
      if maxEntries <=? length es then panic
      else let* _ := put cn (Leaf c0 (leafInsert es ir data)) in
           ret (cn, negb (contains nr ir))
  | Branch c0 es =>
      match chooseSubtree es.*1 ir with
      | None => panic
      | Some index =>
          match es !! index with
          | None => panic
          | Some (r, child) =>
              let* (child, grown) := nodeInsert fuel c r child ir data in
              branchInsert c nr cn c0 es index r child grown ir
          end
      end
  end.
Proof. done. Qed.

(** [nodeInsert] computes [pinsert]. *)
Lemma nodeInsert_refine fuel : ∀ g h c nr ir data t' grown,
  repr h g → NoDup (addrs g) → pheight (erase g) < fuel →
  pinsert (erase g) nr ir data = Some (t', grown) →
  ∃ g' h',
    nodeInsert fuel c nr (gaddr g) ir data h = Ok ((gaddr g', grown), h') ∧
    erase g' = t' ∧ repr h' g' ∧
    post c h (gnodes g) h' (gnodes g') ∧
    writable c h (gnodes g) (gaddr g').
Proof.
  induction fuel as [|fuel IH]; intros g h c nr ir data t' grown Hr Hn Hfuel;
    [lia|].
  destruct (cowLoad_spec c h g Hr Hn) as (a1 & h1 & Hcl & Hr1 & Hp1 & Hw1).
  rewrite nodeInsert_S, (bind_Ok _ _ _ _ _ Hcl).
  destruct g as [a c0 l|a c0 ges].
  - (* leaf *)
    simpl. destruct (maxEntries <=? length l); [done|]. intros [= <- <-].
    destruct (put_node c h (gnodes (GLeaf a c0 l)) h1
                (GLeaf a1 c0 (leafInsert l ir data)) Hp1 Hw1)
      as (Hput & Hr' & Hp'); [by constructor|].
    simpl in Hput. rewrite (bind_Ok _ _ _ _ _ Hput).
    by eexists (GLeaf a1 c0 _), _.
  - (* branch *)
    rewrite erase_branch, pinsert_branch_eq.
    cbn [gnode]. rewrite !emap_fst.
    destruct (chooseSubtree ges.*1 ir) as [index|]; [|done].
    rewrite !emap_lookup.
    destruct (ges !! index) as [[r gc]|] eqn:El; [|done]. simpl.
    destruct (pinsert (erase gc) r ir data) as [[child' grown_c]|] eqn:Hpi;
      [|done].
    pose proof (take_drop_middle _ _ _ El) as Hges.
    set (pre := take index ges) in *. set (pst := drop (S index) ges) in *.
    assert (index = length pre) as Hidx.
    { unfold pre. rewrite length_take. apply lookup_lt_Some in El. lia. }
    clearbody pre pst. subst ges index. clear El.
    apply repr_node in Hr1 as [_ Hk1]. simpl in Hk1.
    pose proof Hk1 as [Hrc Hsib]%kids_mid_repr.
    assert (post c h (gnodes (GBranch a c0 (pre ++ (r, gc) :: pst))) h1
              (gnodes gc ++ (a1, c0) :: knodes (pre ++ pst))) as Hp1'.
    { eapply post_perm; [exact Hp1|]. simpl.
      fold (knodes (pre ++ (r, gc) :: pst)). by rewrite branch_nodes_mid. }
    pose proof (nodup_app_disjoint _ _ (post_nodup _ _ _ _ _ Hp1'))
      as [Hnc Hdis].
    destruct (IH gc h1 c r ir data child' grown_c Hrc Hnc)
      as (gc' & h2 & Hni & He & Hr2 & Hp2 & Hw2); [|done|].
    { rewrite erase_branch in Hfuel.
      assert ((r, erase gc) ∈ emap erase (pre ++ (r, gc) :: pst)) as Hh.
      { rewrite emap_app. apply elem_of_app. right. by left. }
      apply pheight_child in Hh. cbn [snd] in Hh. lia. }
    rewrite (bind_Ok _ _ _ _ _ Hni). subst child'.
    intros Hpb.
    destruct (branchInsert_spec c h (gnodes (GBranch a c0 (pre ++ (r, gc) :: pst)))
                h2 a1 c0 pre r gc gc' pst grown_c nr ir t' grown)
      as (g' & h' & Hbi & Ha & He' & Hr' & Hp'); [| | | |exact Hpb|].
    + apply kids_mid_repr. split; [done|].
      eapply kids_frame; [exact Hsib|exact (post_frame _ _ _ _ _ Hp2)|].
      intros a' Ha' Hin%owned_addrs. apply (Hdis a'); [|done].
      csimpl. by right.
    + eapply post_perm; [exact (post_call _ _ _ _ _ _ _ _ Hp1' Hp2)|].
      by rewrite branch_nodes_mid.
    + done.
    + eapply writable_post; [exact Hp1'|].
      eapply writable_weaken; [exact Hw2|]. intros p Hin.
      apply elem_of_app. by left.
    + exists g', h'. rewrite Ha. split_and!; [done..|].
      done.
Qed.

End InsertRefine.

(** * [Insert] on the store computes [PInsert] *)

Section TreeRepr.
Context {N : Type} {num : number N} {ord : number_order N} {T : Type}.
Implicit Types h : store N T.
Implicit Types g : gtree N T.
Implicit Types og : option (gtree N T).
Implicit Types tr : @RTreeG2 N.

Definition onodes og : list (ptr * Z) :=
  match og with Some g => gnodes g | None => [] end.

(** The tree [tr] in the store [h] is laid out as [og]. *)
Definition tree_repr h tr og : Prop :=
  troot tr = gaddr <$> og ∧
  match og with
  | Some g => repr h g ∧ NoDup (addrs g)
  | None => True
  end.

(** The value of the tree. *)
Definition abstract tr og : PTree N T :=
  PT (tcount tr) (trect tr) (erase <$> og).

Lemma pheight_size g : pheight (erase g) ≤ length (gnodes g).
Proof.
  induction g as [a c l|a c es IH] using gtree_ind'; simpl; [lia|].
  apply le_n_S. fold (knodes es).
  induction es as [|[r k] es IHes]; csimpl; [lia|].
  apply Forall_cons in IH as [Hk IH]. specialize (IHes IH). simpl in Hk.
  rewrite knodes_cons, length_app. csimpl. lia.
Qed.

Lemma nodup_below_length (l : list nat) n :
  NoDup l → (∀ a, a ∈ l → a < n) → length l ≤ n.
Proof.
  intros Hn Hb. rewrite <- (length_seq n 0). apply submseteq_length.
  apply NoDup_submseteq; [done|]. intros a Ha. apply elem_of_seq.
  specialize (Hb a Ha). lia.
Qed.

Lemma height_depth h g :
  repr h g → NoDup (addrs g) → pheight (erase g) < depth h.
Proof.
  intros Hr Hn. unfold depth.
  pose proof (pheight_size g) as H1.
  assert (length (addrs g) ≤ length h) as H2.
  { apply nodup_below_length; [done|]. intros a Ha. by eapply repr_addrs_lt. }
  unfold addrs in H2. rewrite length_fmap in H2. lia.
Qed.

Definition gsort g : gtree N T :=
  match g with
  | GLeaf a c l => GLeaf a c (sort l)
  | GBranch a c es => GBranch a c (sort es)
  end.

Lemma gsort_props g :
  gaddr (gsort g) = gaddr g ∧ gnode (gsort g) = nsort (gnode g) ∧
  erase (gsort g) = psort (erase g) ∧ gnodes (gsort g) ≡ₚ gnodes g ∧
  kids (gsort g) ≡ₚ kids g.
Proof.
  destruct g as [a c l|a c es]; simpl; [done|].
  fold (emap gaddr es) (emap erase es) (emap gaddr (sort es))
    (emap erase (sort es)) (knodes es) (knodes (sort es)).
  rewrite !sort_emap. split_and!; try done.
  - f_equiv. apply knodes_perm. by rewrite sort_perm.
  - apply sort_perm.
Qed.

Lemma Insert_refine h tr og min max (data : T) pt' :
  tree_repr h tr og →
  PInsert (abstract tr og) min max data = Some pt' →
  ∃ tr' g' h',
    Insert tr min max data h = Ok (tr', h') ∧
    tcow tr' = tcow tr ∧ tree_repr h' tr' (Some g') ∧
    abstract tr' (Some g') = pt' ∧
    post (tcow tr) h (onodes og) h' (gnodes g').
Proof.
  intros [Hroot Hog]. unfold Insert, PInsert.
  set (c := tcow tr). set (ir := Rect min max).
  (* the root to insert into *)
  assert (∃ g0 h0,
    (match troot tr with
     | None => let* p := alloc (newNode c true) in ret (p, ir)
     | Some p => ret (p, trect tr)
     end) h
    = Ok ((gaddr g0,
           match og with None => ir | Some _ => trect tr end), h0) ∧
    (match ptroot (abstract tr og) with
     | None => (PLeaf [], ir)
     | Some t => (t, ptrect (abstract tr og))
     end) = (erase g0, match og with None => ir | Some _ => trect tr end) ∧
    repr h0 g0 ∧ post c h (onodes og) h0 (gnodes g0))
    as (g0 & h0 & Hstart & -> & Hr0 & Hp0).
  { rewrite Hroot. destruct og as [g|]; simpl.
    - destruct Hog as [Hr Hn]. exists g, h. split_and!; [done..|].
      apply post_refl; [done|by apply below_addrs].
    - exists (GLeaf (length h) c []), (h ++ [Leaf c []]).
      split_and!; [done..| |].
      + apply repr_leaf. by rewrite lookup_app_r, Nat.sub_diag by lia.
      + apply (post_alloc c h [] h [] c); [|by left].
        apply post_refl; [constructor|]. by intros ? ? ?%elem_of_nil. }
  rewrite (bind_Ok _ _ _ _ _ Hstart). clear Hstart.
  set (rect := match og with None => ir | Some _ => trect tr end).
  destruct (pinsert (erase g0) rect ir data) as [[root1 grown]|] eqn:Hpi;
    [|done].
  destruct (nodeInsert_refine (depth h0) g0 h0 c rect ir data root1 grown)
    as (g1 & h1 & Hni & He1 & Hr1 & Hp1 & Hw1); [done|exact (post_nodup _ _ _ _ _ Hp0)| |done|].
  { apply height_depth; [done|exact (post_nodup _ _ _ _ _ Hp0)]. }
  rewrite (bind_Ok (bounded (λ fuel, nodeInsert fuel c rect (gaddr g0) ir data))
             _ h0 _ _ Hni).
  clear Hni. subst root1.
  rewrite (bind_Ok _ _ _ _ _ (load_Ok _ _ _ (repr_lookup _ _ Hr1))).
  rewrite ncount_gnode.
  pose proof (post_trans _ _ _ _ _ _ _ Hp0 Hp1) as Hp01.
  pose proof (writable_post _ _ _ _ _ _ Hp0 Hw1) as Hw01.
  clear Hp0 Hp1 Hw1 Hr0.
  (* the root after [if split] *)
  assert (∀ root2,
    (if pcount (erase g1) =? maxEntries
     then match psplit (if grown then expand rect ir else rect) (erase g1) with
          | None => None
          | Some (lft, rgt) => Some (PBranch [(prect lft, lft); (prect rgt, rgt)])
          end
     else Some (erase g1)) = Some root2 →
    ∃ g2 h2,
      (if pcount (erase g1) =? maxEntries
       then let* rgt := splitNodeAt c (if grown then expand rect ir else rect)
                          (gaddr g1) in
            let* lnd := load (gaddr g1) in
            let* rnd := load rgt in
            alloc (Branch c [(nrect lnd, gaddr g1); (nrect rnd, rgt)])
       else ret (gaddr g1)) h1 = Ok (gaddr g2, h2) ∧
      erase g2 = root2 ∧ repr h2 g2 ∧
      post c h (onodes og) h2 (gnodes g2) ∧
      writable c h (onodes og) (gaddr g2)) as Hsplit.
  { intros root2. destruct (pcount (erase g1) =? maxEntries).
    - rewrite (gsplit_erase c (length h1)).
      destruct (gsplit c (length h1) _ g1) as [[gl gr]|] eqn:Hs; [|done].
      simpl. intros [= <-].
      destruct (splitNodeAt_spec c h1 _ g1 gl gr Hs Hr1
                  (post_nodup _ _ _ _ _ Hp01)) as (Hsp & Hrl & Hrr).
      pose proof (gsplit_nodes _ _ _ _ _ _ Hs) as (Hal & Hcl & Har & Hcr & _ & _).
      pose proof (splitNodeAt_post c h (onodes og) h1 _ g1 gl gr [] Hs) as Hp3.
      rewrite !(right_id_L [] (++)) in Hp3. specialize (Hp3 Hp01 Hw01).
      set (h3 := <[gaddr g1 := gnode gl]> h1 ++ [gnode gr]) in *.
      rewrite (bind_Ok _ _ _ _ _ Hsp). rewrite <- Hal.
      rewrite (bind_Ok _ _ _ _ _ (load_Ok _ _ _ (repr_lookup _ _ Hrl))).
      rewrite <- Har.
      rewrite (bind_Ok _ _ _ _ _ (load_Ok _ _ _ (repr_lookup _ _ Hrr))).
      rewrite !nrect_gnode.
      set (g2 := GBranch (length h3) c
                   [(prect (erase gl), gl); (prect (erase gr), gr)]).
      exists g2, (h3 ++ [gnode g2]). split_and!; [done..| | |].
      + apply repr_branch. split.
        * by rewrite lookup_app_r, Nat.sub_diag by lia.
        * eapply (kids_frame []); [|apply frame_alloc|by intros ? _ ?%elem_of_nil].
          by repeat constructor.
      + unfold g2. rewrite gnodes_branch, !knodes_cons. simpl.
        change (knodes []) with (@nil (ptr * Z)).
        rewrite (right_id_L [] (++)).
        by apply (post_alloc c h (onodes og) h3 _ c); [|left].
      + right. simpl. pose proof (post_len _ _ _ _ _ Hp3). lia.
    - intros [= <-]. by exists g1, h1. }
  destruct (if pcount (erase g1) =? maxEntries then _ else Some (erase g1))
    as [root2|] eqn:Hroot2; [|done].
  destruct (Hsplit root2 eq_refl) as (g2 & h2 & Hs2 & He2 & Hr2 & Hp2 & Hw2).
  clear Hsplit. rewrite (bind_Ok _ _ _ _ _ Hs2). clear Hs2. subst root2.
  rewrite (bind_Ok _ _ _ _ _ (load_Ok _ _ _ (repr_lookup _ _ Hr2))).
  rewrite nleaf_gnode. intros [= <-].
  (* the final sort of the root *)
  destruct (negb (pleaf (erase g2)) &&
            (grown || (pcount (erase g1) =? maxEntries))) eqn:Esort.
  - pose proof (gsort_props g2) as (Ha & Hnode & Her & Hns & Hks).
    destruct (put_node c h (onodes og) h2 (gsort g2)) as (Hput & Hr3 & Hp3).
    + by eapply post_perm.
    + by rewrite Ha.
    + apply repr_node in Hr2 as [_ Hk2].
      eapply Forall_forall. intros e He.
      apply (proj1 (Forall_forall _ _) Hk2). by rewrite <- Hks.
    + pose proof (post_nodup _ _ _ _ _ Hp3) as Hn3.
      rewrite Ha, Hnode in Hput, Hr3, Hp3. rewrite (bind_Ok _ _ _ _ _ Hput).
      eexists _, (gsort g2), _. split_and!; [done|done| | |done].
      * split; [simpl; by rewrite Ha|]. done.
      * unfold abstract. simpl. by rewrite Her.
  - eexists _, g2, _. split_and!; [done|done| |done|done].
    split; [done|]. split; [done|]. exact (post_nodup _ _ _ _ _ Hp2).
Qed.

End TreeRepr.

(** * Deletion on the store computes deletion on the tree value *)

Section DeleteRefine.
Context {N : Type} {num : number N} {ord : number_order N} {T : Type}.
Context (compare : T → T → option bool).
Implicit Types h : store N T.
Implicit Types g : gtree N T.
Implicit Types ges pre pst : list (rect N * gtree N T).
Implicit Types gold gnew : list (gtree N T).

(** The nodes of a list of subtrees. *)
Definition lnodes (gs : list (gtree N T)) : list (ptr * Z) :=
  concat (map gnodes gs).

Lemma lnodes_app gs gs' : lnodes (gs ++ gs') = lnodes gs ++ lnodes gs'.
Proof. unfold lnodes. by rewrite map_app, concat_app. Qed.
Lemma lnodes_cons g gs : lnodes (g :: gs) = gnodes g ++ lnodes gs.
Proof. done. Qed.
Lemma lnodes_nil : lnodes [] = [].
Proof. done. Qed.

Lemma elem_of_lnodes p gs : p ∈ lnodes gs ↔ ∃ g, g ∈ gs ∧ p ∈ gnodes g.
Proof. apply elem_of_concat_map. Qed.

Lemma lnodes_addrs a gs g : g ∈ gs → a ∈ addrs g → a ∈ (lnodes gs).*1.
Proof.
  intros Hg (p & -> & Hp)%list_elem_of_fmap. apply list_elem_of_fmap.
  exists p. split; [done|]. apply elem_of_lnodes. eauto.
Qed.

Lemma knodes_addrs a ges : a ∈ kaddrs ges → a ∈ (knodes ges).*1.
Proof. done. Qed.

(** Subtrees a mutation of the nodes [ns1] leaves alone. *)
Lemma post_list_repr c h ns1 h' ns1' gs :
  post c h ns1 h' ns1' → Forall (repr h) gs →
  (∀ a, a ∈ (lnodes gs).*1 → a ∉ ns1.*1) → Forall (repr h') gs.
Proof.
  intros Hp Hr Hd. apply Forall_forall. intros g Hg.
  eapply post_repr; [done|by apply (proj1 (Forall_forall _ _) Hr)|].
  intros a Ha Hin. apply (Hd a); [by eapply lnodes_addrs|].
  apply list_elem_of_fmap. by exists (a, c).
Qed.

Lemma post_kids_repr c h ns1 h' ns1' ges :
  post c h ns1 h' ns1' → Forall (λ e, repr h e.2) ges →
  (∀ a, a ∈ (knodes ges).*1 → a ∉ ns1.*1) → Forall (λ e, repr h' e.2) ges.
Proof.
  intros Hp Hr Hd.
  eapply kids_frame; [done|exact (post_frame _ _ _ _ _ Hp)|].
  intros a Ha Hin%elem_of_owned_of. apply (Hd a); [done|].
  apply list_elem_of_fmap. by exists (a, c).
Qed.

Definition delete_refines (fuel : nat) (c : Z) g h (nr ir : rect N) (data : T)
    (rein_p : list (ptree N T)) (rein_h : list ptr) : Prop :=
  match pdelete compare (erase g) nr ir data rein_p with
  | None => nodeDelete compare fuel c nr (gaddr g) ir data rein_h h = Panic
  | Some (t', nr', removed, shrunk, rein_p') =>
      ∃ g' h' gnew,
        nodeDelete compare fuel c nr (gaddr g) ir data rein_h h
        = Ok ((nr', gaddr g', removed, shrunk, rein_h ++ (gaddr <$> gnew)), h') ∧
        rein_p' = rein_p ++ (erase <$> gnew) ∧ erase g' = t' ∧
        repr h' g' ∧ Forall (repr h') gnew ∧
        post c h (gnodes g) h' (gnodes g' ++ lnodes gnew) ∧
        writable c h (gnodes g) (gaddr g')
  end.

Lemma nodeDelete_S fuel c nr cn ir data reinsert :
  nodeDelete compare (S fuel) c nr cn ir data reinsert =
  let* (cn, n) := cowLoad c cn in
  match n with
  | Leaf c0 es =>
      match leafFind compare es ir data 0 with
      | None => panic
      | Some None => ret (nr, cn, false, false, reinsert)
      | Some (Some i) =>
          let '(es', nr, shrunk) := leafDelete es i nr ir in
          let* _ := put cn (Leaf c0 es') in
          ret (nr, cn, true, shrunk, reinsert)
      end
  | Branch c0 es =>
      nodeDelete_loop (λ r p ri, nodeDelete compare fuel c r p ir data ri)
        nr ir cn c0 es 0 es reinsert
  end.
Proof. done. Qed.

Lemma emap_cons {A B} (f : A → B) (r : rect N) (x : A) l :
  emap f ((r, x) :: l) = (r, f x) :: emap f l.
Proof. done. Qed.

Lemma app_cons_assoc {X} (l : list X) x l' : l ++ x :: l' = (l ++ [x]) ++ l'.
Proof. by rewrite <- (assoc_L (++)). Qed.

Lemma length_snoc {X} (l : list X) x : length (l ++ [x]) = S (length l).
Proof. rewrite length_app. simpl. lia. Qed.

Lemma pdelete_loop_cons
    (rec : ptree N T → rect N → list (ptree N T) →
           option (ptree N T * rect N * bool * bool * list (ptree N T)))
    (nr ir crect : rect N) child rest i es reinsert :
  pdelete_loop rec nr ir ((crect, child) :: rest) i es reinsert =
  if negb (contains crect ir) then pdelete_loop rec nr ir rest (S i) es reinsert
  else
    match rec child crect reinsert with
    | None => None
    | Some (child, r, removed, shrunk, reinsert) =>
        let es := <[i := (r, child)]> es in
        if negb removed then pdelete_loop rec nr ir rest (S i) es reinsert
        else
          let underflow := pcount child <? minEntries in
          let '(es', nr, shrunk) :=
            branchDelete es i r crect underflow shrunk nr in
          Some (PBranch es', nr, true, shrunk,
                if underflow then reinsert ++ [child] else reinsert)
    end.
Proof. done. Qed.

Lemma nodeDelete_loop_cons
    (rec : rect N → ptr → list ptr →
           M N T (rect N * ptr * bool * bool * list ptr))
    (nr ir crect : rect N) cn c child rest i es reinsert :
  nodeDelete_loop rec nr ir cn c ((crect, child) :: rest) i es reinsert =
  if negb (contains crect ir)
  then nodeDelete_loop rec nr ir cn c rest (S i) es reinsert
  else
    let* (r, child, removed, shrunk, reinsert) := rec crect child reinsert in
    let es := <[i := (r, child)]> es in
    if negb removed then nodeDelete_loop rec nr ir cn c rest (S i) es reinsert
    else
      let* cnd := load child in
      let underflow := ncount cnd <? minEntries in
      let '(es', nr, shrunk) :=
        branchDelete es i r crect underflow shrunk nr in
      let* _ := put cn (Branch c es') in
      ret (nr, cn, true, shrunk,
           if underflow then reinsert ++ [child] else reinsert).
Proof. done. Qed.

Section Loop.
Variables (fuel : nat) (c : Z) (ir : rect N) (data : T).
Variables (h0 : store N T) (ns0 : list (ptr * Z)) (a1 : ptr) (c0 : Z).
Variable (nr : rect N).
Hypothesis IH : ∀ g h nr rein_p rein_h,
  repr h g → NoDup (addrs g) → pheight (erase g) < fuel →
  delete_refines fuel c g h nr ir data rein_p rein_h.
Hypothesis Hw1 : writable c h0 ns0 a1.

Lemma nodeDelete_loop_refine pst : ∀ pre h gold rein_p rein_h,
  Forall (λ e, repr h e.2) (pre ++ pst) → Forall (repr h) gold →
  post c h0 ns0 h (((a1, c0) :: knodes (pre ++ pst)) ++ lnodes gold) →
  Forall (λ e, pheight (erase e.2) < fuel) pst →
  match pdelete_loop (λ t r ri, pdelete compare t r ir data ri) nr ir
          (emap erase pst) (length pre) (emap erase (pre ++ pst)) rein_p with
  | None =>
      nodeDelete_loop (λ r p ri, nodeDelete compare fuel c r p ir data ri)
        nr ir a1 c0 (emap gaddr pst) (length pre) (emap gaddr (pre ++ pst))
        rein_h h = Panic
  | Some (t', nr', removed, shrunk, rein_p') =>
      ∃ g' h' gnew,
        nodeDelete_loop (λ r p ri, nodeDelete compare fuel c r p ir data ri)
          nr ir a1 c0 (emap gaddr pst) (length pre) (emap gaddr (pre ++ pst))
          rein_h h
        = Ok ((nr', a1, removed, shrunk, rein_h ++ (gaddr <$> gnew)), h') ∧
        gaddr g' = a1 ∧
        rein_p' = rein_p ++ (erase <$> gnew) ∧ erase g' = t' ∧
        repr h' g' ∧ Forall (repr h') (gold ++ gnew) ∧
        post c h0 ns0 h' (gnodes g' ++ lnodes (gold ++ gnew))
  end.
Proof.
  induction pst as [|[crect gc] pst IHp];
    intros pre h gold rein_p rein_h Hk Hgold Hp Hfuel.
  - (* all children visited *)
    rewrite (right_id_L [] (++)) in *. simpl.
    destruct (put_node_rest c h0 ns0 h (GBranch a1 c0 pre) (lnodes gold) Hp Hw1 Hk)
      as (Hput & Hr' & Hp' & Hrest).
    simpl in Hput. rewrite (bind_Ok _ _ _ _ _ Hput).
    exists (GBranch a1 c0 pre), (<[a1 := Branch c0 (emap gaddr pre)]> h), [].
    rewrite !fmap_nil, !(right_id_L [] (++)). split_and!; try done.
    apply Forall_forall. intros g2 Hg2. apply Hrest.
    + by apply (proj1 (Forall_forall _ _) Hgold).
    + intros a Ha. by eapply lnodes_addrs.
  - rewrite !emap_cons, pdelete_loop_cons, nodeDelete_loop_cons. cbv beta.
    apply Forall_cons in Hfuel as [Hfc Hfuel]. simpl in Hfc.
    destruct (contains crect ir) eqn:Ec; cbn [negb]; cbv iota.
    2: { (* the child is skipped *)
      specialize (IHp (pre ++ [(crect, gc)]) h gold rein_p rein_h).
      rewrite <- !app_cons_assoc, length_snoc in IHp. by apply IHp. }
    pose proof Hk as [Hrc Hsib]%kids_mid_repr.
    set (rest1 := ((a1, c0) :: knodes (pre ++ pst)) ++ lnodes gold).
    assert (post c h0 ns0 h (gnodes gc ++ rest1)) as Hp'.
    { eapply post_perm; [exact Hp|]. unfold rest1.
      rewrite branch_nodes_mid. by rewrite <- (assoc_L (++)). }
    pose proof (nodup_app_disjoint _ _ (post_nodup _ _ _ _ _ Hp')) as [Hnc Hdis].
    pose proof (IH gc h crect rein_p rein_h Hrc Hnc Hfc) as Hc.
    unfold delete_refines in Hc.
    destruct (pdelete compare (erase gc) crect ir data rein_p)
      as [[[[[tc r] removed_c] shrunk_c] rein_p1]|];
      [|by rewrite (bind_Panic _ _ _ Hc)].
    destruct Hc as (gc' & h1 & gnew_c & Hnd & -> & <- & Hr1 & Hnew1 & Hp1 & Hwc).
    rewrite (bind_Ok _ _ _ _ _ Hnd). cbv beta iota zeta.
    rewrite !emap_insert_mid.
    pose proof (post_call _ _ _ _ _ _ _ _ Hp' Hp1) as Hp2.
    assert (Forall (λ e, repr h1 e.2) (pre ++ pst)) as Hsib1.
    { eapply post_kids_repr; [exact Hp1|done|].
      intros a Ha. apply Hdis. unfold rest1. rewrite fmap_app, fmap_cons.
      apply elem_of_app. left. by right. }
    assert (Forall (repr h1) gold) as Hgold1.
    { eapply post_list_repr; [exact Hp1|done|].
      intros a Ha. apply Hdis. unfold rest1. rewrite fmap_app.
      apply elem_of_app. by right. }
    assert (Forall (λ e, repr h1 e.2) (pre ++ (r, gc') :: pst)) as Hk1.
    { by apply kids_mid_repr. }
    destruct removed_c; cbn [negb]; cbv iota.
    + (* an entry was removed below the child *)
      rewrite (bind_Ok _ _ _ _ _ (load_Ok _ _ _ (repr_lookup _ _ Hr1))).
      rewrite ncount_gnode, !branchDelete_emap.
      pose proof (branchDelete_snd (pre ++ (r, gc') :: pst) (length pre) r crect
                    (pcount (erase gc') <? minEntries) shrunk_c nr) as Hsnd.
      destruct (branchDelete (pre ++ (r, gc') :: pst) (length pre) r crect
                  (pcount (erase gc') <? minEntries) shrunk_c nr)
        as [[ges' nr'] shrunk'].
      simpl in Hsnd. cbv beta iota zeta. simpl fst. simpl snd.
      set (gnew := gnew_c ++
             (if pcount (erase gc') <? minEntries then [gc'] else [])).
      assert (Forall (repr h1) (gold ++ gnew)) as Hall.
      { unfold gnew. rewrite !Forall_app. split_and!; [done..|].
        destruct (_ <? _); by repeat constructor. }
      assert (Forall (λ e, repr h1 e.2) ges' ∧
              knodes ges' ++ lnodes gnew
              ≡ₚ gnodes gc' ++ lnodes gnew_c ++ knodes (pre ++ pst))
        as [Hk' Hns'].
      { unfold gnew. destruct (pcount (erase gc') <? minEntries).
        - rewrite delete_middle in Hsnd. split.
          + by apply (kids_repr_perm h1 (pre ++ pst)).
          + rewrite (knodes_perm ges' (pre ++ pst)) by done.
            rewrite lnodes_app, lnodes_cons, lnodes_nil. solve_Permutation.
        - split.
          + by apply (kids_repr_perm h1 (pre ++ (r, gc') :: pst)).
          + rewrite (knodes_perm ges' (pre ++ (r, gc') :: pst)) by done.
            rewrite knodes_mid, (right_id_L [] (++)). solve_Permutation. }
      assert (post c h0 ns0 h1
                (gnodes (GBranch a1 c0 ges') ++ lnodes (gold ++ gnew))) as Hp3.
      { eapply post_perm; [exact Hp2|]. rewrite gnodes_branch, lnodes_app.
        unfold rest1. simpl.
        rewrite (assoc_L (++) (knodes ges')), (Permutation_app_comm (knodes ges')),
          <- (assoc_L (++)), Hns'.
        solve_Permutation. }
      destruct (put_node_rest c h0 ns0 h1 (GBranch a1 c0 ges') _ Hp3 Hw1 Hk')
        as (Hput & Hr' & Hp6 & Hrest).
      simpl in Hput. rewrite (bind_Ok _ _ _ _ _ Hput).
      exists (GBranch a1 c0 ges'), (<[a1 := Branch c0 (emap gaddr ges')]> h1), gnew.
      split_and!; try done.
      * unfold ret, gnew. do 3 f_equal. rewrite fmap_app, (assoc_L (++)).
        by destruct (_ <? _); simpl; rewrite ?(right_id_L [] (++)).
      * unfold gnew. rewrite fmap_app, (assoc_L (++)).
        by destruct (_ <? _); simpl; rewrite ?(right_id_L [] (++)).
      * apply Forall_forall. intros g2 Hg2. apply Hrest.
        -- by apply (proj1 (Forall_forall _ _) Hall).
        -- intros a Ha. by eapply lnodes_addrs.
    + (* nothing removed below the child: on to the next one *)
      specialize (IHp (pre ++ [(r, gc')]) h1 (gold ++ gnew_c)
                    (rein_p ++ (erase <$> gnew_c))
                    (rein_h ++ (gaddr <$> gnew_c))).
      rewrite <- !app_cons_assoc, length_snoc in IHp.
      assert (Forall (repr h1) (gold ++ gnew_c)) as Hall by (by apply Forall_app).
      specialize (IHp Hk1 Hall).
      destruct (pdelete_loop _ nr ir (emap erase pst) (S (length pre)) _ _)
        as [[[[[t' nr'] removed] shrunk] rein_p']|].
      * destruct IHp as (g' & h' & gnew_r & Hloop & Ha & -> & <- & Hr' & Hall' & Hp4);
          [|done|].
        { eapply post_perm; [exact Hp2|]. unfold rest1.
          rewrite lnodes_app. simpl. rewrite knodes_mid. solve_Permutation. }
        exists g', h', (gnew_c ++ gnew_r). rewrite Hloop.
        rewrite !fmap_app, !(assoc_L (++)). split_and!; done.
      * apply IHp; [|done].
        eapply post_perm; [exact Hp2|]. unfold rest1.
        rewrite lnodes_app. simpl. rewrite knodes_mid. solve_Permutation.
Qed.

End Loop.

(** [nodeDelete] computes [pdelete], a panic of the comparison included. *)
Lemma nodeDelete_refine fuel : ∀ g h c nr ir data rein_p rein_h,
  repr h g → NoDup (addrs g) → pheight (erase g) < fuel →
  delete_refines fuel c g h nr ir data rein_p rein_h.
Proof.
  induction fuel as [|fuel IH]; intros g h c nr ir data rein_p rein_h Hr Hn Hfuel;
    [lia|].
  unfold delete_refines.
  destruct (cowLoad_spec c h g Hr Hn) as (a1 & h1 & Hcl & Hr1 & Hp1 & Hw1).
  rewrite nodeDelete_S, (bind_Ok _ _ _ _ _ Hcl).
  destruct g as [a c0 l|a c0 ges].
  - (* leaf *)
    cbn [erase gnode]. rewrite pdelete_leaf_eq.
    destruct (leafFind compare l ir data 0) as [[i|]|]; [| |done].
    + destruct (leafDelete l i nr ir) as [[es' nr'] shrunk].
      destruct (put_node c h (gnodes (GLeaf a c0 l)) h1 (GLeaf a1 c0 es') Hp1 Hw1)
        as (Hput & Hr' & Hp'); [by constructor|].
      simpl in Hput. rewrite (bind_Ok _ _ _ _ _ Hput).
      eexists (GLeaf a1 c0 es'), _, [].
      rewrite !fmap_nil, lnodes_nil, !(right_id_L [] (++)).
      split_and!; done.
    + exists (GLeaf a1 c0 l), h1, [].
      rewrite !fmap_nil, lnodes_nil, !(right_id_L [] (++)).
      split_and!; done.
  - (* branch *)
    rewrite erase_branch, pdelete_branch_eq. cbn [gnode].
    apply repr_node in Hr1 as [_ Hk1]. simpl in Hk1.
    assert (Forall (λ e, pheight (erase e.2) < fuel) ges) as Hh.
    { apply Forall_forall. intros e He. rewrite erase_branch in Hfuel.
      assert ((e.1, erase e.2) ∈ emap erase ges) as Hin.
      { apply list_elem_of_fmap. by exists e. }
      apply pheight_child in Hin. cbn [snd] in Hin. lia. }
    pose proof (nodeDelete_loop_refine fuel c ir data h
                  (gnodes (GBranch a c0 ges)) a1 c0 nr
                  (λ g h nr rp rh, IH g h c nr ir data rp rh) Hw1
                  ges [] h1 [] rein_p rein_h Hk1 (Forall_nil_2 _)) as Hl.
    cbn [app length] in Hl.
    change (lnodes []) with (@nil (ptr * Z)) in Hl.
    rewrite (right_id_L [] (++)) in Hl.
    specialize (Hl Hp1 Hh).
    destruct (pdelete_loop _ nr ir (emap erase ges) 0 (emap erase ges) rein_p)
      as [[[[[t' nr'] removed] shrunk] rein_p']|]; [|done].
    destruct Hl as (g' & h' & gnew & Hloop & Ha & -> & <- & Hr' & Hall & Hp').
    exists g', h', gnew. rewrite Ha. split_and!; done.
Qed.

End DeleteRefine.

(** * [delete] on the store computes [PDelete] *)

Section Reinsert.
Context {N : Type} {num : number N} {ord : number_order N} {T : Type}.
Implicit Types h : store N T.
Implicit Types g q : gtree N T.
Implicit Types og : option (gtree N T).
Implicit Types tr : @RTreeG2 N.

(** ** Counting *)

Lemma deepCount_spec fuel : ∀ g h,
  repr h g → pheight (erase g) < fuel →
  deepCount fuel h (gaddr g) = Ok (length (entries (erase g))).
Proof.
  induction fuel as [|fuel IH]; intros g h Hr Hfuel; [lia|].
  simpl. rewrite (repr_lookup _ _ Hr).
  destruct g as [a c l|a c es]; [done|].
  cbn [gnode]. rewrite erase_branch, entries_branch.
  apply repr_branch in Hr as [_ Hk].
  assert (Forall (λ e, pheight (erase e.2) < fuel) es) as Hh.
  { apply Forall_forall. intros e He. rewrite erase_branch in Hfuel.
    assert ((e.1, erase e.2) ∈ emap erase es) as Hin.
    { apply list_elem_of_fmap. by exists e. }
    apply pheight_child in Hin. cbn [snd] in Hin. lia. }
  clear Hfuel.
  enough (∀ acc,
    foldl (λ acc e,
             match acc, deepCount fuel h e.2 with
             | Ok a, Ok b => Ok (a + b)
             | Ok _, x => x
             | x, _ => x
             end) (Ok acc) (emap gaddr es)
    = Ok (acc + length (concat (map (λ e, entries e.2) (emap erase es)))))
    as H by apply (H 0).
  induction es as [|[r k] es IHes]; intros acc; simpl; [f_equal; lia|].
  apply Forall_cons in Hk as [Hk1 Hk]. apply Forall_cons in Hh as [Hh1 Hh].
  simpl in Hk1, Hh1. rewrite (IH k h Hk1 Hh1).
  rewrite (IHes Hk Hh), length_app. f_equal. unfold emap. lia.
Qed.

Lemma subtractCounts_spec fuel h (gs : list (gtree N T)) : ∀ count,
  Forall (repr h) gs → Forall (λ g, pheight (erase g) < fuel) gs →
  subtractCounts fuel h (gaddr <$> gs) count
  = Ok (foldl (λ acc n, acc - Z.of_nat (length (entries n)))%Z count
          (erase <$> gs)).
Proof.
  unfold subtractCounts.
  induction gs as [|g gs IH]; intros count Hr Hh; csimpl; [done|].
  apply Forall_cons in Hr as [Hr1 Hr]. apply Forall_cons in Hh as [Hh1 Hh].
  rewrite (deepCount_spec fuel g h Hr1 Hh1). by apply IH.
Qed.

(** ** Root collapse *)

Fixpoint gcollapse g : gtree N T :=
  match g with
  | GBranch _ _ [(_, child)] => gcollapse child
  | _ => g
  end.

Lemma collapseRoot_spec fuel : ∀ g h,
  repr h g → pheight (erase g) < fuel →
  collapseRoot fuel h (gaddr g) = Ok (gaddr (gcollapse g)) ∧
  erase (gcollapse g) = pcollapse (erase g) ∧
  repr h (gcollapse g) ∧ gnodes (gcollapse g) ⊆+ gnodes g.
Proof.
  induction fuel as [|fuel IH]; intros g h Hr Hfuel; [lia|].
  simpl. rewrite (repr_lookup _ _ Hr).
  destruct g as [a c l|a c [|[r k] [|e2 es]]]; try done.
  cbn [gnode emap fmap list_fmap snd fst].
  apply repr_branch in Hr as [_ Hk]. apply Forall_cons in Hk as [Hk _].
  simpl in Hk.
  destruct (IH k h Hk) as (Hc & He & Hrc & Hs).
  { simpl in Hfuel. simpl. lia. }
  split_and!; [done..|].
  cbn [gcollapse]. etrans; [exact Hs|]. rewrite gnodes_branch, knodes_cons.
  change (knodes []) with (@nil (ptr * Z)).
  rewrite (right_id_L [] (++)). by apply submseteq_cons.
Qed.

(** ** Reinsertion *)

(** The subtree [q] shares no node with the nodes [ns]. *)
Definition apart q (ns : list (ptr * Z)) : Prop :=
  ∀ a, a ∈ addrs q → a ∉ ns.*1.

Lemma post_apart c h ns h' ns' q :
  post c h ns h' ns' → repr h q → apart q ns → repr h' q ∧ apart q ns'.
Proof.
  intros Hp Hr Ha. split.
  - eapply post_repr; [done..|]. intros a Hin Hns. apply (Ha a Hin).
    apply list_elem_of_fmap. by exists (a, c).
  - intros a Hin ([a' x] & -> & Hns)%list_elem_of_fmap. simpl in *.
    destruct (post_evolves _ _ _ _ _ Hp _ _ Hns) as [Hold|[Hfresh _]].
    + apply (Ha a' Hin). apply list_elem_of_fmap. by exists (a', x).
    + pose proof (repr_addrs_lt _ _ _ Hr Hin). lia.
Qed.

Lemma tree_repr_post c h tr og :
  tree_repr h tr og → post c h (onodes og) h (onodes og).
Proof.
  intros [_ Hog]. apply post_refl.
  - destruct og as [g|]; [by destruct Hog|constructor].
  - destruct og as [g|]; [apply below_addrs; by destruct Hog|].
    by intros ? ? ?%elem_of_nil.
Qed.

Lemma foldl_option_None {X Y} (f : X → Y → option X) (l : list Y) :
  foldl (λ acc y, match acc with Some x => f x y | None => None end) None l
  = None.
Proof. by induction l. Qed.

Lemma reinsertItems_refine p cq (l : list (rect N * T)) : ∀ rest i tr og h pt',
  drop i l = rest →
  tree_repr h tr og → repr h (GLeaf p cq l) → apart (GLeaf p cq l) (onodes og) →
  foldl (λ acc e, match acc with
                  | Some tr => PInsert tr (rmin e.1) (rmax e.1) e.2
                  | None => None
                  end) (Some (abstract tr og)) rest = Some pt' →
  ∃ tr' og' h',
    reinsertItems p (length rest) i tr h = Ok (tr', h') ∧
    tcow tr' = tcow tr ∧ tree_repr h' tr' og' ∧ abstract tr' og' = pt' ∧
    post (tcow tr) h (onodes og) h' (onodes og').
Proof.
  induction rest as [|[r item] rest IH]; intros i tr og h pt' Hd Htr Hq Hap.
  - simpl. intros [= <-]. exists tr, og, h. split_and!; try done.
    by eapply tree_repr_post.
  - assert (l !! i = Some (r, item)) as Hi.
    { rewrite <- (Nat.add_0_r i), <- lookup_drop, Hd. done. }
    assert (drop (S i) l = rest) as Hd'.
    { apply drop_S in Hi. rewrite Hd in Hi. by injection Hi. }
    cbn [foldl fst snd].
    destruct (PInsert (abstract tr og) (rmin r) (rmax r) item) as [pt1|] eqn:Hpi;
      [|by rewrite foldl_option_None].
    intros Hfold.
    destruct (Insert_refine h tr og (rmin r) (rmax r) item pt1 Htr Hpi)
      as (tr1 & g1 & h1 & Hins & Hc1 & Htr1 & Hab1 & Hp1).
    destruct (post_apart _ _ _ _ _ _ Hp1 Hq Hap) as [Hq1 Hap1].
    rewrite <- Hab1 in Hfold.
    destruct (IH (S i) tr1 (Some g1) h1 pt' Hd' Htr1 Hq1 Hap1 Hfold)
      as (tr' & og' & h' & Hrest & Hc' & Htr' & Hab' & Hp').
    exists tr', og', h'. split_and!; [|congruence|done|done|].
    + cbn [length reinsertItems].
      rewrite (bind_Ok _ _ _ _ _ (load_Ok _ _ _ (repr_lookup _ _ Hq))).
      cbn [gnode]. rewrite Hi. by rewrite (bind_Ok _ _ _ _ _ Hins).
    + rewrite Hc1 in Hp'. by eapply post_trans.
Qed.

Lemma reinsertChildren_refine fuel p cq (kids : list (rect N * gtree N T))
    (IH : ∀ q h tr og pt',
       tree_repr h tr og → repr h q → apart q (onodes og) →
       pheight (erase q) < fuel →
       preinsert (erase q) (abstract tr og) = Some pt' →
       ∃ tr' og' h',
         nodeReinsert fuel (gaddr q) tr h = Ok (tr', h') ∧
         tcow tr' = tcow tr ∧ tree_repr h' tr' og' ∧ abstract tr' og' = pt' ∧
         post (tcow tr) h (onodes og) h' (onodes og')) :
  Forall (λ e, pheight (erase e.2) < fuel) kids →
  ∀ rest i tr og h pt',
  drop i kids = rest →
  tree_repr h tr og → repr h (GBranch p cq kids) →
  apart (GBranch p cq kids) (onodes og) →
  foldl (λ acc e, match acc with
                  | Some tr => preinsert e.2 tr
                  | None => None
                  end) (Some (abstract tr og)) (emap erase rest) = Some pt' →
  ∃ tr' og' h',
    reinsertChildren (nodeReinsert fuel) p (length rest) i tr h = Ok (tr', h') ∧
    tcow tr' = tcow tr ∧ tree_repr h' tr' og' ∧ abstract tr' og' = pt' ∧
    post (tcow tr) h (onodes og) h' (onodes og').
Proof.
  intros Hh.
  induction rest as [|[r k] rest IHr]; intros i tr og h pt' Hd Htr Hq Hap.
  - simpl. intros [= <-]. exists tr, og, h. split_and!; try done.
    by eapply tree_repr_post.
  - assert (kids !! i = Some (r, k)) as Hi.
    { rewrite <- (Nat.add_0_r i), <- lookup_drop, Hd. done. }
    assert (drop (S i) kids = rest) as Hd'.
    { apply drop_S in Hi. rewrite Hd in Hi. by injection Hi. }
    rewrite emap_cons. cbn [foldl fst snd].
    destruct (preinsert (erase k) (abstract tr og)) as [pt1|] eqn:Hpi;
      [|by rewrite foldl_option_None].
    intros Hfold.
    assert ((r, k) ∈ kids) as Hin by (by eapply list_elem_of_lookup_2).
    destruct (IH k h tr og pt1 Htr) as (tr1 & og1 & h1 & Hre & Hc1 & Htr1 & Hab1 & Hp1);
      [| | |done|].
    { apply repr_branch in Hq as [_ Hk].
      by apply (proj1 (Forall_forall _ _) Hk (r, k)). }
    { intros a Ha. apply Hap. rewrite addrs_branch. right.
      apply elem_of_kaddrs. by exists (r, k). }
    { by apply (proj1 (Forall_forall _ _) Hh (r, k)). }
    destruct (post_apart _ _ _ _ _ _ Hp1 Hq Hap) as [Hq1 Hap1].
    rewrite <- Hab1 in Hfold.
    destruct (IHr (S i) tr1 og1 h1 pt' Hd' Htr1 Hq1 Hap1 Hfold)
      as (tr' & og' & h' & Hrest & Hc' & Htr' & Hab' & Hp').
    exists tr', og', h'. split_and!; [|congruence|done|done|].
    + cbn [length reinsertChildren].
      rewrite (bind_Ok _ _ _ _ _ (load_Ok _ _ _ (repr_lookup _ _ Hq))).
      cbn [gnode]. rewrite emap_lookup, Hi. simpl.
      by rewrite (bind_Ok _ _ _ _ _ Hre).
    + rewrite Hc1 in Hp'. by eapply post_trans.
Qed.

(** [nodeReinsert] computes [preinsert]. *)
Lemma nodeReinsert_refine fuel : ∀ q h tr og pt',
  tree_repr h tr og → repr h q → apart q (onodes og) →
  pheight (erase q) < fuel →
  preinsert (erase q) (abstract tr og) = Some pt' →
  ∃ tr' og' h',
    nodeReinsert fuel (gaddr q) tr h = Ok (tr', h') ∧
    tcow tr' = tcow tr ∧ tree_repr h' tr' og' ∧ abstract tr' og' = pt' ∧
    post (tcow tr) h (onodes og) h' (onodes og').
Proof.
  induction fuel as [|fuel IH]; intros q h tr og pt' Htr Hq Hap Hfuel; [lia|].
  cbn [nodeReinsert].
  rewrite (bind_Ok _ _ _ _ _ (load_Ok _ _ _ (repr_lookup _ _ Hq))).
  destruct q as [p cq l|p cq kids]; cbn [gnode gaddr].
  - intros Hpre.
    destruct (reinsertItems_refine p cq l l 0 tr og h pt') as (tr' & og' & h' & H);
      [done..|]. by exists tr', og', h'.
  - intros Hpre. rewrite emap_length.
    destruct (reinsertChildren_refine fuel p cq kids IH) with
      (rest := kids) (i := 0) (tr := tr) (og := og) (h := h) (pt' := pt')
      as (tr' & og' & h' & H); [|done..|by exists tr', og', h'].
    apply Forall_forall. intros e He. rewrite erase_branch in Hfuel.
    assert ((e.1, erase e.2) ∈ emap erase kids) as Hin.
    { apply list_elem_of_fmap. by exists e. }
    apply pheight_child in Hin. cbn [snd] in Hin. lia.
Qed.

Lemma lift_Ok {X} (f : store N T → res X) h x :
  f h = Ok x → lift f h = Ok (x, h).
Proof. unfold lift. by intros ->. Qed.

Lemma lnodes_elem g (gs : list (gtree N T)) : g ∈ gs → gnodes g ⊆+ lnodes gs.
Proof.
  induction gs as [|g' gs IH]; [by intros ?%elem_of_nil|].
  rewrite lnodes_cons. intros [->|Hin]%elem_of_cons.
  - by apply submseteq_inserts_r.
  - by apply submseteq_inserts_l, IH.
Qed.

Lemma reinsert_all_refine c hs ns0 : ∀ gnew (m : M N T RTreeG2) h0 tr og h pt',
  m h0 = Ok (tr, h) → tcow tr = c → tree_repr h tr og →
  Forall (repr h) gnew →
  post c hs ns0 h (onodes og ++ lnodes gnew) →
  foldl (λ acc n, match acc with
                  | Some tr => preinsert n tr
                  | None => None
                  end) (Some (abstract tr og)) (erase <$> gnew) = Some pt' →
  ∃ tr' og' h',
    foldl (λ acc p,
             let* tr := acc in bounded (λ fuel, nodeReinsert fuel p tr))
      m (gaddr <$> gnew) h0 = Ok (tr', h') ∧
    tcow tr' = c ∧ tree_repr h' tr' og' ∧ abstract tr' og' = pt' ∧
    post c hs ns0 h' (onodes og').
Proof.
  induction gnew as [|q gnew IH]; intros m h0 tr og h pt' Hm Hc Htr Hall Hp.
  - simpl. intros [= <-]. exists tr, og, h. split_and!; try done.
    by rewrite lnodes_nil, (right_id_L [] (++)) in Hp.
  - csimpl.
    destruct (preinsert (erase q) (abstract tr og)) as [pt1|] eqn:Hpi;
      [|by rewrite foldl_option_None].
    intros Hfold. apply Forall_cons in Hall as [Hq Hall].
    pose proof (post_nodup _ _ _ _ _ Hp) as Hn.
    rewrite lnodes_cons in Hn, Hp.
    assert (apart q (onodes og) ∧ NoDup (addrs q)) as [Hap Hnq].
    { rewrite !fmap_app in Hn. apply NoDup_app in Hn as (_ & Hd & Hn).
      apply NoDup_app in Hn as (Hnq & _ & _). split; [|done].
      intros a Ha Hin. apply (Hd a Hin). apply elem_of_app. by left. }
    destruct (nodeReinsert_refine (depth h) q h tr og pt1 Htr Hq Hap)
      as (tr1 & og1 & h1 & Hre & Hc1 & Htr1 & Hab1 & Hp1);
      [by apply height_depth|done|].
    rewrite Hc in Hp1.
    pose proof (post_call _ _ _ _ _ _ _ _ Hp Hp1) as Hp2.
    assert (post c hs ns0 h1 (onodes og1 ++ lnodes gnew)) as Hp3.
    { eapply post_sub; [exact Hp2|].
      apply submseteq_skips_l, submseteq_inserts_l. done. }
    rewrite <- Hab1 in Hfold.
    eapply (IH _ h0 tr1 og1 h1 pt'); [|congruence|done| |done|done].
    + by rewrite (bind_Ok _ _ _ _ _ Hm).
    + eapply post_list_repr; [exact Hp1|done|].
      intros a Ha Hin. rewrite !fmap_app in Hn.
      apply NoDup_app in Hn as (_ & Hd & _). apply (Hd a Hin).
      apply elem_of_app. by right.
Qed.

End Reinsert.

Section TreeDelete.
Context {N : Type} {num : number N} {ord : number_order N} {T : Type}.
Context (compare : T → T → option bool).
Implicit Types h : store N T.
Implicit Types g q : gtree N T.
Implicit Types og : option (gtree N T).
Implicit Types tr : @RTreeG2 N.

(** A panic of the comparison ends [delete]. *)
Lemma treeDelete_panic h tr g min max data :
  tree_repr h tr (Some g) →
  contains (trect tr) (Rect min max) = true →
  pdelete compare (erase g) (trect tr) (Rect min max) data [] = None →
  treeDelete compare tr min max data h = Panic.
Proof.
  intros [Hroot [Hr Hn]] Hc Hpd. unfold treeDelete.
  simpl in Hroot. rewrite Hroot, Hc. cbn [negb].
  pose proof (nodeDelete_refine compare (depth h) g h (tcow tr) (trect tr)
                (Rect min max) data [] [] Hr Hn (height_depth h g Hr Hn)) as Hd.
  unfold delete_refines in Hd. rewrite Hpd in Hd.
  by rewrite (bind_Panic (bounded _) _ h Hd).
Qed.

(** [delete] computes [PDelete]. *)
Lemma treeDelete_refine h tr og min max data pt' removed :
  tree_repr h tr og →
  PDelete compare (abstract tr og) min max data = Some (pt', removed) →
  ∃ tr' og' h',
    treeDelete compare tr min max data h = Ok ((tr', removed), h') ∧
    tcow tr' = tcow tr ∧ tree_repr h' tr' og' ∧ abstract tr' og' = pt' ∧
    post (tcow tr) h (onodes og) h' (onodes og').
Proof.
  intros Htr. pose proof Htr as [Hroot Hog].
  unfold treeDelete, PDelete. rewrite Hroot.
  set (c := tcow tr). set (ir := Rect min max).
  destruct og as [g|]; cbn [fmap option_fmap option_map abstract ptroot ptrect ptcount].
  2: { intros [= <- <-]. exists tr, None, h. split_and!; try done.
       by eapply tree_repr_post. }
  destruct Hog as [Hr Hn].
  destruct (contains (trect tr) ir) eqn:Ec; cbn [negb].
  2: { intros [= <- <-]. exists tr, (Some g), h. split_and!; try done.
       by eapply tree_repr_post. }
  pose proof (nodeDelete_refine compare (depth h) g h c (trect tr)
                ir data [] [] Hr Hn (height_depth h g Hr Hn)) as Hd.
  unfold delete_refines in Hd.
  destruct (pdelete compare (erase g) (trect tr) ir data [])
    as [[[[[t' rect'] removed_n] shrunk] rein_p']|]; [|done].
  destruct Hd as (g' & h1 & gnew & Hnd & -> & <- & Hr1 & Hnew & Hp1 & _).
  cbn [app] in *.
  rewrite (bind_Ok (bounded _) _ h _ _ Hnd). cbv beta iota.
  pose proof (post_nodup _ _ _ _ _ Hp1) as Hn1.
  assert (NoDup (addrs g')) as Hng'.
  { rewrite fmap_app in Hn1. by apply NoDup_app in Hn1 as (? & _ & _). }
  destruct removed_n; cbn [negb].
  2: { (* nothing removed *)
    intros [= <- <-].
    exists (Tree c (tcount tr) rect' (Some (gaddr g'))), (Some g'), h1.
    split_and!; try done.
    eapply post_sub; [exact Hp1|]. by apply submseteq_inserts_r. }
  (* the counts of the subtrees to reinsert *)
  assert (Forall (λ q, pheight (erase q) < depth h1) gnew) as Hh.
  { apply Forall_forall. intros q Hq. apply height_depth.
    - by apply (proj1 (Forall_forall _ _) Hnew).
    - eapply NoDup_submseteq_inv; [|exact Hn1].
      apply fmap_submseteq, submseteq_inserts_l. by apply lnodes_elem. }
  rewrite (bind_Ok _ _ _ _ _
             (lift_Ok _ _ _ (subtractCounts_spec (depth h1) h1 gnew
                               (tcount tr - 1) Hnew Hh))).
  set (count := foldl _ (tcount tr - 1)%Z (erase <$> gnew)).
  (* the tree before reinsertion *)
  assert (∃ tr1 og1,
    (if (count =? 0)%Z
     then ret (Tree c count zero_rect None)
     else let* root := lift (λ h, collapseRoot (depth h) h (gaddr g')) in
          ret (Tree c count rect' (Some root))) h1 = Ok (tr1, h1) ∧
    (if (count =? 0)%Z then PT count zero_rect None
     else PT count rect' (Some (pcollapse (erase g')))) = abstract tr1 og1 ∧
    tcow tr1 = c ∧ tree_repr h1 tr1 og1 ∧
    post c h (gnodes g) h1 (onodes og1 ++ lnodes gnew))
    as (tr1 & og1 & Hmid & -> & Hc1 & Htr1 & Hp2).
  { destruct (count =? 0)%Z.
    - exists (Tree c count zero_rect None), None. split_and!; try done.
      eapply post_sub; [exact Hp1|]. by apply submseteq_inserts_l.
    - destruct (collapseRoot_spec (depth h1) g' h1 Hr1
                  (height_depth h1 g' Hr1 Hng')) as (Hcol & Hec & Hrc & Hsub).
      rewrite (bind_Ok _ _ _ _ _ (lift_Ok _ _ _ Hcol)).
      exists (Tree c count rect' (Some (gaddr (gcollapse g')))),
        (Some (gcollapse g')).
      split_and!; try done.
      + unfold abstract. simpl. by rewrite Hec.
      + split; [done|]. split; [done|].
        eapply NoDup_submseteq_inv; [|exact Hng']. by apply fmap_submseteq.
      + eapply post_sub; [exact Hp1|]. by apply submseteq_skips_r. }
  rewrite (bind_Ok _ _ _ _ _ Hmid).
  destruct (foldl _ (Some (abstract tr1 og1)) (erase <$> gnew))
    as [pt2|] eqn:Hfold; [|done].
  intros [= <- <-].
  destruct (reinsert_all_refine c h (gnodes g) gnew (ret tr1) h1 tr1 og1 h1 pt2)
    as (tr' & og' & h' & Hre & Hc' & Htr' & Hab' & Hp'); try done.
  rewrite (bind_Ok _ _ _ _ _ Hre).
  exists tr', og', h'. split_and!; done.
Qed.

End TreeDelete.

(** * The queries visit the entries of the tree value *)

Section Queries.
Context {N : Type} {num : number N} {ord : number_order N} {T : Type}.
Context {St : Type} (iter : St → N * N → N * N → T → St * bool).
Implicit Types h : store N T.
Implicit Types g : gtree N T.
Implicit Types s : St.

Lemma visitItems_app (l1 l2 : list (rect N * T)) s :
  visitItems iter (l1 ++ l2) s =
  let '(s1, go) := visitItems iter l1 s in
  if go then visitItems iter l2 s1 else (s1, false).
Proof.
  revert s. induction l1 as [|[r item] l1 IH]; intros s; simpl.
  - by destruct (visitItems iter l2 s).
  - destruct (iter s (rmin r) (rmax r) item) as [s1 []]; [apply IH|done].
Qed.

Lemma child_heights fuel (es : list (rect N * gtree N T)) a c :
  pheight (erase (GBranch a c es)) < S fuel →
  Forall (λ e, pheight (erase e.2) < fuel) es.
Proof.
  intros Hfuel. apply Forall_forall. intros e He. rewrite erase_branch in Hfuel.
  assert ((e.1, erase e.2) ∈ emap erase es) as Hin.
  { apply list_elem_of_fmap. by exists e. }
  apply pheight_child in Hin. cbn [snd] in Hin. lia.
Qed.

(** [scan] visits the entries in order, up to the first one the visitor
    stops at. *)
Lemma nodeScan_spec fuel : ∀ g h s,
  repr h g → pheight (erase g) < fuel →
  nodeScan iter fuel h (gaddr g) s = Ok (visitItems iter (entries (erase g)) s).
Proof.
  induction fuel as [|fuel IH]; intros g h s Hr Hfuel; [lia|].
  simpl. rewrite (repr_lookup _ _ Hr).
  destruct g as [a c l|a c es]; [done|].
  cbn [gnode]. rewrite erase_branch, entries_branch.
  apply repr_branch in Hr as [_ Hk].
  apply child_heights in Hfuel. revert s.
  induction es as [|[r k] es IHes]; intros s; [done|].
  apply Forall_cons in Hk as [Hk1 Hk]. apply Forall_cons in Hfuel as [Hh1 Hh].
  simpl in Hk1, Hh1. rewrite !emap_cons. cbn [scanChildren map concat snd].
  rewrite (IH k h s Hk1 Hh1), visitItems_app.
  destruct (visitItems iter (entries (erase k)) s) as [s1 []]; [|done].
  by apply IHes.
Qed.

Lemma searchItems_filter target (l : list (rect N * T)) s :
  searchItems iter target l s =
  visitItems iter (filter (λ e, intersects e.1 target = true) l) s.
Proof.
  revert s. induction l as [|[r item] l IH]; intros s; [done|].
  rewrite filter_cons. cbn [searchItems fst].
  destruct (intersects r target) eqn:Ei.
  - rewrite decide_True by done. cbn [visitItems].
    destruct (iter s (rmin r) (rmax r) item) as [s1 []]; [apply IH|done].
  - rewrite decide_False by (simpl; congruence). apply IH.
Qed.

(** Every entry below a node lies within the node's rectangle. *)
Lemma entries_covered (t : ptree N T) e :
  wf t → e ∈ entries t → contains (prect t) e.1 = true.
Proof.
  revert e. induction t as [l|es IH] using ptree_ind'; intros e Hwf.
  - rewrite entries_leaf. simpl. apply nodeRect_contains.
  - rewrite entries_branch. intros (k & Hk & He)%elem_of_concat_map.
    apply wf_branch in Hwf as [_ Hch].
    pose proof (proj1 (Forall_forall _ _) Hch k Hk) as (Hrect & _ & Hwk).
    pose proof (proj1 (Forall_forall _ _) IH k Hk e Hwk He) as Hc.
    eapply contains_trans; [|exact Hc]. rewrite <- Hrect. simpl.
    by apply nodeRect_contains.
Qed.

Lemma filter_concat_map {X Y} (P : Y → Prop) `{∀ y, Decision (P y)}
    (f : X → list Y) (l : list X) :
  filter P (concat (map f l)) = concat (map (λ x, filter P (f x)) l).
Proof.
  induction l as [|x l IH]; [done|]. simpl. by rewrite filter_app, IH.
Qed.

Lemma filter_none {X} (P : X → Prop) `{∀ x, Decision (P x)} (l : list X) :
  (∀ x, x ∈ l → ¬ P x) → filter P l = [].
Proof.
  induction l as [|x l IH]; intros Hn; [done|].
  rewrite filter_cons, decide_False by (apply Hn; by left).
  apply IH. intros y Hy. apply Hn. by right.
Qed.

(** [search] visits, in the order of [scan], the entries whose rectangle
    intersects the target. *)
Lemma nodeSearch_spec fuel : ∀ g h target s,
  repr h g → wf (erase g) → pheight (erase g) < fuel →
  nodeSearch iter fuel h (gaddr g) target s
  = Ok (visitItems iter
          (filter (λ e, intersects e.1 target = true) (entries (erase g))) s).
Proof.
  induction fuel as [|fuel IH]; intros g h target s Hr Hwf Hfuel; [lia|].
  simpl. rewrite (repr_lookup _ _ Hr).
  destruct g as [a c l|a c es].
  - cbn [gnode erase]. by rewrite entries_leaf, searchItems_filter.
  - cbn [gnode]. rewrite erase_branch in *. rewrite entries_branch.
    apply repr_branch in Hr as [_ Hk].
    apply wf_branch in Hwf as [_ Hch].
    assert (Forall (λ e, pheight (erase e.2) < fuel) es) as Hh.
    { by eapply (child_heights fuel es a c). }
    clear Hfuel. rewrite filter_concat_map. revert s.
    induction es as [|[r k] es IHes]; intros s; [done|].
    apply Forall_cons in Hk as [Hk1 Hk]. apply Forall_cons in Hh as [Hh1 Hh].
    rewrite emap_cons in Hch. apply Forall_cons in Hch as [Hc1 Hch].
    destruct Hc1 as (Hrect & _ & Hwk). simpl in Hk1, Hh1, Hrect, Hwk.
    rewrite !emap_cons. cbn [searchChildren map concat snd].
    rewrite visitItems_app.
    destruct (intersects target r) eqn:Ei.
    + rewrite (IH k h target s Hk1 Hwk Hh1).
      destruct (visitItems iter _ s) as [s1 []]; [|done]. by apply IHes.
    + assert (filter (λ e, intersects e.1 target = true) (entries (erase k)) = [])
        as ->.
      { apply filter_none. intros e He Hi.
        pose proof (entries_covered _ e Hwk He) as Hc. rewrite <- Hrect in Hc.
        pose proof (intersects_mono _ _ _ Hc Hi) as Hri.
        rewrite intersects_sym in Hri. congruence. }
      simpl. by apply IHes.
Qed.

End Queries.

(** * The operations of a tree, on a represented tree *)

Section TreeOps.
Context {N : Type} {num : number N} {ord : number_order N} {T : Type}.
Context (compare : T → T → option bool).
Implicit Types h : store N T.
Implicit Types g : gtree N T.
Implicit Types og : option (gtree N T).
Implicit Types tr : @RTreeG2 N.

Lemma decode_spec fuel : ∀ g h,
  repr h g → pheight (erase g) < fuel → decode fuel h (gaddr g) = Ok (erase g).
Proof.
  induction fuel as [|fuel IH]; intros g h Hr Hfuel; [lia|].
  simpl. rewrite (repr_lookup _ _ Hr).
  destruct g as [a c l|a c es]; [done|].
  cbn [gnode]. rewrite erase_branch.
  apply repr_branch in Hr as [_ Hk]. apply child_heights in Hfuel.
  enough (decodeChildren (decode fuel h) (emap gaddr es) = Ok (emap erase es))
    as -> by done.
  induction es as [|[r k] es IHes]; [done|].
  apply Forall_cons in Hk as [Hk1 Hk]. apply Forall_cons in Hfuel as [Hh1 Hh].
  simpl in Hk1, Hh1. rewrite !emap_cons. cbn [decodeChildren].
  by rewrite (IH k h Hk1 Hh1), (IHes Hk Hh).
Qed.

Lemma tree_value_spec h tr og :
  tree_repr h tr og → tree_value h tr = Ok (abstract tr og).
Proof.
  intros [Hroot Hog]. unfold tree_value. rewrite Hroot.
  destruct og as [g|]; [|done]. destruct Hog as [Hr Hn].
  cbn [fmap option_fmap option_map abstract ptroot].
  by rewrite (decode_spec _ g h Hr (height_depth h g Hr Hn)).
Qed.

Lemma visit_collect (l s : list (rect N * T)) :
  visitItems collect l s = (s ++ l, true).
Proof.
  revert s. induction l as [|[[mn mx] item] l IH]; intros s; simpl.
  - by rewrite (right_id_L [] (++)).
  - by rewrite IH, <- (assoc_L (++)).
Qed.

Lemma Scan_spec {St} (iter : St → N * N → N * N → T → St * bool) h tr og s :
  tree_repr h tr og →
  Scan iter h tr s
  = Ok (visitItems iter (tree_entries (abstract tr og)) s).1.
Proof.
  intros [Hroot Hog]. unfold Scan, tree_entries. rewrite Hroot.
  destruct og as [g|]; [|done]. destruct Hog as [Hr Hn].
  cbn [fmap option_fmap option_map abstract ptroot].
  rewrite (nodeScan_spec iter _ g h s Hr (height_depth h g Hr Hn)).
  by destruct (visitItems _ _ _).
Qed.

Lemma scan_all_spec h tr og :
  tree_repr h tr og → scan_all h tr = Ok (tree_entries (abstract tr og)).
Proof.
  intros Htr. unfold scan_all. rewrite (Scan_spec collect h tr og [] Htr).
  by rewrite visit_collect.
Qed.

Lemma Search_spec {St} (iter : St → N * N → N * N → T → St * bool)
    h tr og min max s :
  tree_repr h tr og → wf_tree (abstract tr og) →
  Search iter h tr min max s
  = Ok (visitItems iter
          (filter (λ e, intersects e.1 (Rect min max) = true)
             (tree_entries (abstract tr og))) s).1.
Proof.
  intros [Hroot Hog] Hwf. unfold Search, tree_entries. rewrite Hroot.
  destruct og as [g|]; [|done]. destruct Hog as [Hr Hn].
  cbn [fmap option_fmap option_map abstract ptroot].
  destruct Hwf as ((Hw & _) & Hrect & _). simpl in Hw, Hrect.
  destruct (intersects (Rect min max) (trect tr)) eqn:Ei.
  - rewrite (nodeSearch_spec iter _ g h _ s Hr Hw (height_depth h g Hr Hn)).
    by destruct (visitItems _ _ _).
  - rewrite filter_none; [done|]. intros e He Hi.
    pose proof (entries_covered _ e Hw He) as Hc. rewrite <- Hrect in Hc.
    pose proof (intersects_mono _ _ _ Hc Hi) as Hri.
    rewrite intersects_sym in Hri. congruence.
Qed.

(** The facts every mutation of a represented tree ends with. *)
Definition mutated h tr og h' tr' og' : Prop :=
  tcow tr' = tcow tr ∧ tree_repr h' tr' og' ∧
  post (tcow tr) h (onodes og) h' (onodes og').

Lemma Insert_spec h tr og min max data :
  tree_repr h tr og → wf_tree (abstract tr og) →
  ∃ tr' og' h',
    Insert tr min max data h = Ok (tr', h') ∧
    wf_tree (abstract tr' og') ∧
    tree_entries (abstract tr' og')
      ≡ₚ (Rect min max, data) :: tree_entries (abstract tr og) ∧
    mutated h tr og h' tr' og'.
Proof.
  intros Htr Hwf.
  destruct (PInsert_ok (abstract tr og) min max data Hwf) as (pt' & Hpi & Hwf' & He).
  destruct (Insert_refine h tr og min max data pt' Htr Hpi)
    as (tr' & g' & h' & Hins & Hc & Htr' & Hab & Hp).
  exists tr', (Some g'), h'. rewrite Hab. by split_and!.
Qed.

Lemma treeDelete_spec h tr og min max data :
  tree_repr h tr og → wf_tree (abstract tr og) →
  match findEntry compare (tree_candidates (abstract tr og) (Rect min max))
          (Rect min max) data with
  | None => treeDelete compare tr min max data h = Panic
  | Some None =>
      ∃ tr' og' h',
        treeDelete compare tr min max data h = Ok ((tr', false), h') ∧
        abstract tr' og' = abstract tr og ∧
        mutated h tr og h' tr' og'
  | Some (Some e) =>
      ∃ tr' og' h',
        treeDelete compare tr min max data h = Ok ((tr', true), h') ∧
        wf_tree (abstract tr' og') ∧
        tree_entries (abstract tr og) ≡ₚ e :: tree_entries (abstract tr' og') ∧
        contains (Rect min max) e.1 = true ∧
        mutated h tr og h' tr' og'
  end.
Proof.
  intros Htr Hwf.
  pose proof (PDelete_ok compare (abstract tr og) min max data Hwf) as Hd.
  destruct (findEntry _ _ _ _) as [[e|]|] eqn:Hf.
  - destruct Hd as (pt' & Hpd & Hwf' & He & Hc).
    destruct (treeDelete_refine compare h tr og min max data pt' true Htr Hpd)
      as (tr' & og' & h' & Htd & Hcow & Htr' & Hab & Hp).
    exists tr', og', h'. rewrite Hab. by split_and!.
  - destruct (treeDelete_refine compare h tr og min max data _ false Htr Hd)
      as (tr' & og' & h' & Htd & Hcow & Htr' & Hab & Hp).
    exists tr', og', h'. by split_and!.
  - unfold tree_candidates in Hf. destruct og as [g|]; simpl in Hf; [|done].
    destruct (contains (trect tr) (Rect min max)) eqn:Ec; [|done].
    destruct Hwf as ((Hw & _) & Hrect & _). simpl in Hw, Hrect.
    pose proof (pdelete_ok compare (erase g) (trect tr) (Rect min max) data []
                  Hw (λ _, Hrect)) as Hpd.
    unfold delete_result in Hpd. rewrite Hf in Hpd.
    by eapply treeDelete_panic.
Qed.

Lemma mutated_trans h tr og h1 tr1 og1 h2 tr2 og2 :
  mutated h tr og h1 tr1 og1 → mutated h1 tr1 og1 h2 tr2 og2 →
  mutated h tr og h2 tr2 og2.
Proof.
  intros (Hc1 & Htr1 & Hp1) (Hc2 & Htr2 & Hp2). split_and!; [congruence|done|].
  rewrite Hc1 in Hp2. by eapply post_trans.
Qed.

Lemma Delete_spec h tr og min max data :
  tree_repr h tr og → wf_tree (abstract tr og) →
  match findEntry compare (tree_candidates (abstract tr og) (Rect min max))
          (Rect min max) data with
  | None => Delete compare tr min max data h = Panic
  | Some None =>
      ∃ tr' og' h',
        Delete compare tr min max data h = Ok (tr', h') ∧
        abstract tr' og' = abstract tr og ∧
        mutated h tr og h' tr' og'
  | Some (Some e) =>
      ∃ tr' og' h',
        Delete compare tr min max data h = Ok (tr', h') ∧
        wf_tree (abstract tr' og') ∧
        tree_entries (abstract tr og) ≡ₚ e :: tree_entries (abstract tr' og') ∧
        contains (Rect min max) e.1 = true ∧
        mutated h tr og h' tr' og'
  end.
Proof.
  intros Htr Hwf. unfold Delete.
  pose proof (treeDelete_spec h tr og min max data Htr Hwf) as Hd.
  destruct (findEntry _ _ _ _) as [[e|]|].
  - destruct Hd as (tr' & og' & h' & Htd & H). exists tr', og', h'.
    by rewrite (bind_Ok _ _ _ _ _ Htd).
  - destruct Hd as (tr' & og' & h' & Htd & H). exists tr', og', h'.
    by rewrite (bind_Ok _ _ _ _ _ Htd).
  - by rewrite (bind_Panic _ _ _ Hd).
Qed.

Lemma Replace_spec h tr og oldMin oldMax oldData newMin newMax newData :
  tree_repr h tr og → wf_tree (abstract tr og) →
  match findEntry compare (tree_candidates (abstract tr og) (Rect oldMin oldMax))
          (Rect oldMin oldMax) oldData with
  | None =>
      Replace compare tr oldMin oldMax oldData newMin newMax newData h = Panic
  | Some None =>
      ∃ tr' og' h',
        Replace compare tr oldMin oldMax oldData newMin newMax newData h
        = Ok (tr', h') ∧
        abstract tr' og' = abstract tr og ∧
        mutated h tr og h' tr' og'
  | Some (Some e) =>
      ∃ tr' og' h',
        Replace compare tr oldMin oldMax oldData newMin newMax newData h
        = Ok (tr', h') ∧
        wf_tree (abstract tr' og') ∧
        (Rect newMin newMax, newData) :: tree_entries (abstract tr og)
          ≡ₚ e :: tree_entries (abstract tr' og') ∧
        contains (Rect oldMin oldMax) e.1 = true ∧
        mutated h tr og h' tr' og'
  end.
Proof.
  intros Htr Hwf. unfold Replace.
  pose proof (treeDelete_spec h tr og oldMin oldMax oldData Htr Hwf) as Hd.
  destruct (findEntry _ _ _ _) as [[e|]|].
  - destruct Hd as (tr1 & og1 & h1 & Htd & Hwf1 & He1 & Hc & Hm1).
    rewrite (bind_Ok _ _ _ _ _ Htd). cbv beta iota.
    pose proof Hm1 as (_ & Htr1 & _).
    destruct (Insert_spec h1 tr1 og1 newMin newMax newData Htr1 Hwf1)
      as (tr' & og' & h' & Hins & Hwf' & He' & Hm').
    exists tr', og', h'. split_and!; [done|done| |done|by eapply mutated_trans].
    rewrite He1, He'. solve_Permutation.
  - destruct Hd as (tr' & og' & h' & Htd & H). exists tr', og', h'.
    by rewrite (bind_Ok _ _ _ _ _ Htd).
  - by rewrite (bind_Panic _ _ _ Hd).
Qed.

End TreeOps.

(** * The invariant of the worlds a program reaches

    Every tree variable is laid out in the store as a tree of nodes (no
    node twice) and its value is well formed; no version is ahead of the
    counter; and the nodes a tree may write in place (the nodes of its own
    version) belong to no other tree. *)

Section Invariant.
Context {N : Type} {num : number N} {ord : number_order N} {T : Type}.
Context (compare : T → T → option bool).
Implicit Types w : world N T.
Implicit Types gs : list (option (gtree N T)).
Implicit Types og : option (gtree N T).
Implicit Types tr : @RTreeG2 N.

Record inv w gs : Prop := Inv {
  inv_len : length gs = length (wtrees w);
  inv_cow : (0 ≤ wcow w)%Z;
  inv_tree : ∀ i tr og,
    wtrees w !! i = Some tr → gs !! i = Some og →
    tree_repr (wheap w) tr og ∧ wf_tree (abstract tr og) ∧
    (tcow tr ≤ wcow w)%Z ∧ (∀ a x, (a, x) ∈ onodes og → (x ≤ wcow w)%Z);
  inv_share : ∀ i j tr ogi ogj,
    i ≠ j → wtrees w !! i = Some tr → gs !! i = Some ogi → gs !! j = Some ogj →
    ∀ a, (a, tcow tr) ∈ onodes ogi → a ∉ (onodes ogj).*1 }.

Lemma onodes_below (h : store N T) tr og :
  tree_repr h tr og → below h (onodes og).
Proof.
  intros [_ Hog]. destruct og as [g|]; [apply below_addrs; by destruct Hog|].
  by intros ? ? ?%elem_of_nil.
Qed.

Lemma tree_repr_frame (h h' : store N T) tr og c ns ns' :
  tree_repr h tr og → post c h ns h' ns' →
  (∀ a, a ∈ (onodes og).*1 → (a, c) ∉ ns) → tree_repr h' tr og.
Proof.
  intros [Hroot Hog] Hp Hd. split; [done|]. destruct og as [g|]; [|done].
  destruct Hog as [Hr Hn]. split; [|done]. by eapply post_repr.
Qed.

Lemma inv_init : inv init [].
Proof. split; try done; intros; by simplify_list_eq. Qed.

(** A mutation of the tree [i]. *)
Lemma inv_mutate w gs i tr og h' tr' og' :
  inv w gs → wtrees w !! i = Some tr → gs !! i = Some og →
  mutated (wheap w) tr og h' tr' og' → wf_tree (abstract tr' og') →
  inv (World h' (wcow w) (<[i := tr']> (wtrees w))) (<[i := og']> gs).
Proof.
  intros [Hlen Hcow Htree Hshare] Hi Hgi (Hc & Htr' & Hp) Hwf'.
  destruct (Htree i tr og Hi Hgi) as (Htr & _ & Hct & Hcn).
  pose proof (onodes_below _ _ _ Htr) as Hbi.
  split; simpl.
  - by rewrite !length_insert.
  - done.
  - intros k trk ogk Hk Hgk.
    apply list_lookup_insert_Some in Hk as [(<- & <- & Hlt)|(Hne & Hk)].
    + apply list_lookup_insert_Some in Hgk as [(_ & <- & _)|(Hne & _)]; [|done].
      split_and!; [done|done|by rewrite Hc|].
      intros a x Hin.
      destruct (post_evolves _ _ _ _ _ Hp _ _ Hin) as [Hold|[_ [->|Hx]]].
      * by eapply Hcn.
      * done.
      * apply list_elem_of_fmap in Hx as ([a' y] & -> & Hx). by eapply Hcn.
    + apply list_lookup_insert_Some in Hgk as [(-> & _)|(_ & Hgk)]; [done|].
      destruct (Htree k trk ogk Hk Hgk) as (Htrk & Hwfk & Hctk & Hcnk).
      split_and!; try done.
      eapply tree_repr_frame; [done..|].
      intros a Ha Hin. by eapply (Hshare i k tr og ogk).
  - intros k l trk ogk ogl Hne Hk Hgk Hgl a Ha.
    apply list_lookup_insert_Some in Hk as [(<- & <- & Hlt)|(Hnk & Hk)].
    + apply list_lookup_insert_Some in Hgk as [(_ & <- & _)|(? & _)]; [|done].
      apply list_lookup_insert_Some in Hgl as [(-> & _)|(_ & Hgl)]; [done|].
      rewrite Hc in Ha.
      destruct (post_evolves _ _ _ _ _ Hp _ _ Ha) as [Hold|[Hfresh _]].
      * by eapply (Hshare i l tr og ogl).
      * intros ([a' y] & -> & Hin)%list_elem_of_fmap. simpl in *.
        assert (is_Some (wtrees w !! l)) as [trl Hl].
        { apply lookup_lt_is_Some. rewrite <- Hlen. by eapply lookup_lt_Some. }
        destruct (Htree l trl ogl Hl Hgl) as (Htrl & _).
        pose proof (onodes_below _ _ _ Htrl _ _ Hin).
        pose proof (post_len _ _ _ _ _ Hp). lia.
    + apply list_lookup_insert_Some in Hgk as [(-> & _)|(_ & Hgk)]; [done|].
      destruct (Htree k trk ogk Hk Hgk) as (Htrk & _).
      apply list_lookup_insert_Some in Hgl as [(<- & <- & _)|(Hnl & Hgl)].
      * intros ([a' y] & -> & Hin)%list_elem_of_fmap. simpl in *.
        destruct (post_evolves _ _ _ _ _ Hp _ _ Hin) as [Hold|[Hfresh _]].
        -- apply (Hshare k i trk ogk og Hne Hk Hgk Hgi a' Ha).
           apply list_elem_of_fmap. by exists (a', y).
        -- pose proof (onodes_below _ _ _ Htrk _ _ Ha). lia.
      * by eapply (Hshare k l trk ogk ogl).
Qed.

Lemma lookup_snoc_Some {X} (l : list X) (y : X) i x :
  (l ++ [y]) !! i = Some x ↔ l !! i = Some x ∨ (i = length l ∧ x = y).
Proof.
  rewrite lookup_app_Some. split; intros [?|[Hi Hx]]; try by left.
  - right. apply list_lookup_singleton_Some in Hx as [? ->]. split; [lia|done].
  - right. subst. split; [lia|]. by rewrite Nat.sub_diag.
Qed.

(** A new tree variable. *)
Lemma inv_new w gs :
  inv w gs →
  inv (World (wheap w) (wcow w) (wtrees w ++ [Tree 0 0 zero_rect None]))
    (gs ++ [None]).
Proof.
  intros [Hlen Hcow Htree Hshare]. split; simpl.
  - rewrite !length_app. simpl. lia.
  - done.
  - intros k trk ogk [Hk|[-> ->]]%lookup_snoc_Some [Hgk|[Hgk ->]]%lookup_snoc_Some.
    + by eapply Htree.
    + apply lookup_lt_Some in Hk. lia.
    + apply lookup_lt_Some in Hgk. lia.
    + split_and!; try done. by intros ? ? ?%elem_of_nil.
  - intros k l trk ogk ogl Hne Hk Hgk Hgl a Ha.
    apply lookup_snoc_Some in Hgk as [Hgk|[_ ->]];
      [|by apply elem_of_nil in Ha].
    apply lookup_snoc_Some in Hgl as [Hgl|[_ ->]];
      [|by intros ?%elem_of_nil].
    apply lookup_snoc_Some in Hk as [Hk|[-> _]]; [by eapply Hshare|].
    apply lookup_lt_Some in Hgk. lia.
Qed.

Lemma addUint64_small (z : Z) : (0 ≤ z)%Z → (z + 1 < 2 ^ 64)%Z → addUint64 z = (z + 1)%Z.
Proof. intros. unfold addUint64. apply Z.mod_small. lia. Qed.

(** [Copy] of the tree [i]. *)
Lemma inv_copy w gs i tr og :
  inv w gs → wtrees w !! i = Some tr → gs !! i = Some og →
  (wcow w + 2 < 2 ^ 64)%Z →
  inv (World (wheap w) (wcow w + 2)
         (<[i := Tree (wcow w + 1) (tcount tr) (trect tr) (troot tr)]> (wtrees w)
          ++ [Tree (wcow w + 2) (tcount tr) (trect tr) (troot tr)]))
    (gs ++ [og]).
Proof.
  intros [Hlen Hcow Htree Hshare] Hi Hgi Hw.
  set (G := wcow w) in *.
  (* every tree of the new world is a tree of the old one, but for its
     version *)
  assert (∀ k t o,
    (<[i := Tree (G + 1) (tcount tr) (trect tr) (troot tr)]> (wtrees w)
     ++ [Tree (G + 2) (tcount tr) (trect tr) (troot tr)]) !! k = Some t →
    (gs ++ [og]) !! k = Some o →
    ∃ k0 t0, wtrees w !! k0 = Some t0 ∧ gs !! k0 = Some o ∧
      troot t = troot t0 ∧ tcount t = tcount t0 ∧ trect t = trect t0 ∧
      (k0 = k ∨ k0 = i) ∧
      ((tcow t = tcow t0 ∧ k0 = k ∧ k ≠ i) ∨ (G < tcow t ≤ G + 2)%Z)) as Hview.
  { intros k t o [Hk|[-> ->]]%lookup_snoc_Some [Hgk|[Hgk ->]]%lookup_snoc_Some.
    - apply list_lookup_insert_Some in Hk as [(<- & <- & Hlt)|(Hne & Hk)].
      + exists i, tr. simpl. split_and!; try done; [by left|right; lia].
      + exists k, t. split_and!; try done; [by left|by left].
    - apply lookup_lt_Some in Hk. rewrite length_insert in Hk. lia.
    - apply lookup_lt_Some in Hgk. rewrite length_insert in Hgk. lia.
    - exists i, tr. simpl. split_and!; try done; [by right|right; lia]. }
  split; simpl.
  - rewrite !length_app, length_insert. simpl. lia.
  - lia.
  - intros k t o Hk Hgk.
    destruct (Hview k t o Hk Hgk)
      as (k0 & t0 & Hk0 & Hgk0 & Hroot & Hcount & Hrect & _ & Hcw).
    destruct (Htree k0 t0 o Hk0 Hgk0) as ((Hr0 & Hog) & Hwf & Hct & Hcn).
    split_and!.
    + split; [congruence|done].
    + unfold abstract in *. by rewrite Hcount, Hrect.
    + destruct Hcw as [(-> & _)|?]; lia.
    + intros a x Hin. specialize (Hcn a x Hin). lia.
  - intros k l t ok ol Hne Hk Hgk Hgl a Ha.
    destruct (Hview k t ok Hk Hgk)
      as (k0 & t0 & Hk0 & Hgk0 & _ & _ & _ & _ & Hcw).
    destruct (Htree k0 t0 ok Hk0 Hgk0) as (_ & _ & _ & Hcn).
    destruct Hcw as [(Hcw & -> & Hki)|Hcw]; [|specialize (Hcn _ _ Ha); lia].
    rewrite Hcw in Ha.
    apply lookup_snoc_Some in Hgl as [Hgl|[-> ->]].
    + by eapply (Hshare k l t0 ok ol).
    + by eapply (Hshare k i t0 ok og).
Qed.

(** Every call that returns maintains the invariant, leaves the trees
    it is not a method call on as they are laid out, and lays out a copy as
    its original. *)
Lemma exec_inv w gs o w' :
  inv w gs → no_wrap w o → exec compare w o = Ok w' →
  ∃ gs', inv w' gs' ∧
    (∀ j, ¬ mutates o j → j < length gs → gs' !! j = gs !! j) ∧
    (∀ i, o = OpCopy i → gs' !! length gs = gs !! i).
Proof.
  intros Hinv Hnw. pose proof Hinv as [Hlen Hcow Htree _].
  assert (∀ i tr, wtrees w !! i = Some tr → ∃ og, gs !! i = Some og) as Hgs.
  { intros i tr Hi. apply lookup_lt_is_Some. rewrite Hlen.
    by eapply lookup_lt_Some. }
  assert (∀ i tr og h' tr' og',
    wtrees w !! i = Some tr → gs !! i = Some og →
    mutated (wheap w) tr og h' tr' og' → wf_tree (abstract tr' og') →
    ∃ gs', inv (World h' (wcow w) (<[i := tr']> (wtrees w))) gs' ∧
      ∀ j, i ≠ j → j < length gs → gs' !! j = gs !! j) as Hmut.
  { intros i tr og h' tr' og' Hi Hgi Hm Hwf'. exists (<[i := og']> gs).
    split; [by eapply inv_mutate|].
    intros j Hne _. by apply list_lookup_insert_ne. }
  destruct o as [|i min max data|i min max data
                 |i oldMin oldMax oldData newMin newMax newData|i]; simpl.
  - intros [= <-]. exists (gs ++ [None]). split_and!; [by apply inv_new| |done].
    intros j _ Hj. by apply lookup_app_l.
  - destruct (wtrees w !! i) as [tr|] eqn:Hi; [|done].
    destruct (Hgs i tr Hi) as [og Hgi].
    destruct (Htree i tr og Hi Hgi) as (Htr & Hwf & _).
    destruct (Insert_spec (wheap w) tr og min max data Htr Hwf)
      as (tr' & og' & h' & Hins & Hwf' & _ & Hm).
    unfold update. rewrite Hins. intros [= <-].
    destruct (Hmut i tr og h' tr' og' Hi Hgi Hm Hwf') as (gs' & ? & ?).
    exists gs'. split_and!; [done| |done]. intros j Hj. auto.
  - destruct (wtrees w !! i) as [tr|] eqn:Hi; [|done].
    destruct (Hgs i tr Hi) as [og Hgi].
    destruct (Htree i tr og Hi Hgi) as (Htr & Hwf & _).
    pose proof (Delete_spec compare (wheap w) tr og min max data Htr Hwf) as Hd.
    unfold update.
    destruct (findEntry _ _ _ _) as [[e|]|].
    + destruct Hd as (tr' & og' & h' & -> & Hwf' & _ & _ & Hm). intros [= <-].
      destruct (Hmut i tr og h' tr' og' Hi Hgi Hm Hwf') as (gs' & ? & ?).
      exists gs'. split_and!; [done| |done]. intros j Hj. auto.
    + destruct Hd as (tr' & og' & h' & -> & Hab & Hm). intros [= <-].
      rewrite <- Hab in Hwf.
      destruct (Hmut i tr og h' tr' og' Hi Hgi Hm Hwf) as (gs' & ? & ?).
      exists gs'. split_and!; [done| |done]. intros j Hj. auto.
    + by rewrite Hd.
  - destruct (wtrees w !! i) as [tr|] eqn:Hi; [|done].
    destruct (Hgs i tr Hi) as [og Hgi].
    destruct (Htree i tr og Hi Hgi) as (Htr & Hwf & _).
    pose proof (Replace_spec compare (wheap w) tr og oldMin oldMax oldData
                  newMin newMax newData Htr Hwf) as Hd.
    unfold update.
    destruct (findEntry _ _ _ _) as [[e|]|].
    + destruct Hd as (tr' & og' & h' & -> & Hwf' & _ & _ & Hm). intros [= <-].
      destruct (Hmut i tr og h' tr' og' Hi Hgi Hm Hwf') as (gs' & ? & ?).
      exists gs'. split_and!; [done| |done]. intros j Hj. auto.
    + destruct Hd as (tr' & og' & h' & -> & Hab & Hm). intros [= <-].
      rewrite <- Hab in Hwf.
      destruct (Hmut i tr og h' tr' og' Hi Hgi Hm Hwf) as (gs' & ? & ?).
      exists gs'. split_and!; [done| |done]. intros j Hj. auto.
    + by rewrite Hd.
  - destruct (wtrees w !! i) as [tr|] eqn:Hi; [|done].
    destruct (Hgs i tr Hi) as [og Hgi]. simpl in Hnw.
    unfold Copy. rewrite !addUint64_small by (rewrite ?addUint64_small; lia).
    intros [= <-]. exists (gs ++ [og]).
    replace (wcow w + 1 + 1)%Z with (wcow w + 2)%Z by lia.
    split_and!; [by apply inv_copy| |].
    + intros j _ Hj. by apply lookup_app_l.
    + intros i' [= <-]. rewrite Hgi. by apply list_lookup_middle.
Qed.

Lemma steps_inv w gs ops w' :
  inv w gs → steps compare w ops w' → ∃ gs', inv w' gs'.
Proof.
  intros Hinv Hs. revert gs Hinv.
  induction Hs as [w|w o w1 ops w' Hnw He Hs IH]; intros gs Hinv; [by exists gs|].
  destruct (exec_inv w gs o w1 Hinv Hnw He) as (gs1 & Hinv1 & _). by eapply IH.
Qed.

(** Calls that are no method calls on the tree [j] leave it as it is laid
    out. *)
Lemma steps_keep w gs ops w' j :
  inv w gs → steps compare w ops w' →
  Forall (λ o, ¬ mutates o j) ops → j < length gs →
  ∃ gs', inv w' gs' ∧ gs' !! j = gs !! j.
Proof.
  intros Hinv Hs. revert gs Hinv.
  induction Hs as [w|w o w1 ops w' Hnw He Hs IH]; intros gs Hinv Hall Hj;
    [by exists gs|].
  apply Forall_cons in Hall as [Ho Hall].
  destruct (exec_inv w gs o w1 Hinv Hnw He) as (gs1 & Hinv1 & Hkeep & _).
  specialize (Hkeep j Ho Hj).
  destruct (IH gs1 Hinv1 Hall) as (gs' & Hinv' & Hj').
  - apply lookup_lt_is_Some. rewrite Hkeep. by apply lookup_lt_is_Some.
  - exists gs'. split; [done|congruence].
Qed.

Lemma reachable_inv w : reachable compare w → ∃ gs, inv w gs.
Proof. intros [ops Hs]. eapply steps_inv; [apply inv_init|done]. Qed.

(** What the invariant says of one tree variable. *)
Lemma reachable_tree w i tr :
  reachable compare w → wtrees w !! i = Some tr →
  ∃ og, tree_repr (wheap w) tr og ∧ wf_tree (abstract tr og).
Proof.
  intros [gs [Hlen _ Htree _]]%reachable_inv Hi.
  assert (is_Some (gs !! i)) as [og Hgi].
  { apply lookup_lt_is_Some. rewrite Hlen. by eapply lookup_lt_Some. }
  exists og. by destruct (Htree i tr og Hi Hgi) as (? & ? & _).
Qed.

End Invariant.

(** * Facts about the observations of a tree *)

Section Observations.
Context {N : Type} {num : number N} {ord : number_order N} {T : Type}.
Context (compare : T → T → option bool).
Implicit Types t : ptree N T.
Implicit Types l : list (rect N * T).
Implicit Types w : world N T.
Implicit Types tr : @RTreeG2 N.

(** ** Runs *)

Lemma run_steps ops : ∀ w w',
  run compare w ops = Ok w' → steps compare w ops w'.
Proof.
  induction ops as [|o ops IH]; intros w w'; simpl.
  - intros [= <-]. constructor.
  - destruct (no_wrapb w o) eqn:Hnw; [|done].
    destruct (exec compare w o) as [w1| |] eqn:He; [|done..].
    intros Hr. econstructor; [|exact He|by apply IH].
    destruct o; simpl in *; try done. by apply Z.ltb_lt.
Qed.

Lemma run_reachable ops w :
  run compare init ops = Ok w → reachable compare w.
Proof. intros Hr. exists ops. by apply run_steps. Qed.

Lemma mutatesb_spec (ops : list (op N T)) j :
  forallb (λ o, negb (mutatesb o j)) ops = true →
  Forall (λ o, ¬ mutates o j) ops.
Proof.
  rewrite forallb_forall. intros Hall. apply Forall_forall. intros o Ho.
  apply list_elem_of_In, Hall in Ho.
  destruct o; simpl in *; intros Hm; try done; subst;
    by rewrite Nat.eqb_refl in Ho.
Qed.

Lemma steps_app w ops1 w1 ops2 w2 :
  steps compare w ops1 w1 → steps compare w1 ops2 w2 →
  steps compare w (ops1 ++ ops2) w2.
Proof.
  induction 1 as [|w o w' ops w1 Hnw He Hs IH]; [done|].
  intros H2. simpl. econstructor; [done..|]. by apply IH.
Qed.

(** ** The entry a deletion finds *)

Lemma findEntry_none l ir data :
  (∀ e, e ∈ l → contains ir e.1 = true → compare e.2 data = Some false) →
  findEntry compare l ir data = Some None.
Proof.
  induction l as [|[r item] l IH]; intros Hall; simpl; [done|].
  destruct (contains ir r) eqn:Ec.
  - pose proof (Hall (r, item) ltac:(by left) Ec) as Hi. simpl in Hi.
    rewrite Hi. apply IH. intros e He. apply Hall. by right.
  - apply IH. intros e He. apply Hall. by right.
Qed.

Lemma findEntry_first l1 e l2 ir data :
  (∀ e', e' ∈ l1 → contains ir e'.1 = true → compare e'.2 data = Some false) →
  contains ir e.1 = true → compare e.2 data = Some true →
  findEntry compare (l1 ++ e :: l2) ir data = Some (Some e).
Proof.
  intros Hall Hc He. rewrite findEntry_app, (findEntry_none l1 ir data Hall).
  destruct e as [r item]. simpl in *. by rewrite Hc, He.
Qed.


(** What [findEntry] returns, read backwards. *)
Lemma findEntry_Some l ir data e :
  findEntry compare l ir data = Some (Some e) →
  ∃ l1 l2, l = l1 ++ e :: l2 ∧
    (∀ e', e' ∈ l1 → contains ir e'.1 = true → compare e'.2 data = Some false) ∧
    contains ir e.1 = true ∧ compare e.2 data = Some true.
Proof.
  induction l as [|[r item] l IH]; simpl; [done|].
  assert (findEntry compare l ir data = Some (Some e) →
          (contains ir r = true → compare item data = Some false) →
          ∃ l1 l2, (r, item) :: l = l1 ++ e :: l2 ∧
            (∀ e', e' ∈ l1 → contains ir e'.1 = true →
               compare e'.2 data = Some false) ∧
            contains ir e.1 = true ∧ compare e.2 data = Some true) as Hrec.
  { intros (l1 & l2 & -> & Hall & Hc & He)%IH Hhd.
    exists ((r, item) :: l1), l2. split_and!; [done| |done..].
    intros e' [->|Hin]%elem_of_cons; [done|by apply Hall]. }
  destruct (contains ir r) eqn:Ec; [|intros; by apply Hrec].
  destruct (compare item data) as [[]|] eqn:Ei; [|intros; by apply Hrec|done].
  intros [= <-]. exists [], l. split_and!; [done| |done..].
  by intros e' ?%elem_of_nil.
Qed.

Lemma all_differ_spec l ir data :
  all_differ compare l ir data = true →
  ∀ e, e ∈ l → contains ir e.1 = true → compare e.2 data = Some false.
Proof.
  unfold all_differ. rewrite forallb_forall. intros Hall e He Hc.
  apply list_elem_of_In, Hall in He. rewrite Hc in He. simpl in He.
  by destruct (compare e.2 data) as [[]|].
Qed.

(** ** The entries a deletion looks at *)

Lemma sublist_concat_map {X Y} (f g : X → list Y) (k : list X) :
  (∀ x, x ∈ k → f x `sublist_of` g x) →
  concat (map f k) `sublist_of` concat (map g k).
Proof.
  induction k as [|x k IH]; intros Hall; simpl; [done|].
  apply sublist_app; [apply Hall; by left|].
  apply IH. intros y Hy. apply Hall. by right.
Qed.

Lemma candidates_sublist t ir : candidates t ir `sublist_of` entries t.
Proof.
  induction t as [l|es IH] using ptree_ind'; [done|].
  rewrite entries_branch. cbn [candidates].
  apply sublist_concat_map. intros e He.
  destruct (contains e.1 ir); [|apply sublist_nil_l].
  by apply (proj1 (Forall_forall _ _) IH).
Qed.

Lemma tree_candidates_sublist (pt : PTree N T) ir :
  tree_candidates pt ir `sublist_of` tree_entries pt.
Proof.
  unfold tree_candidates, tree_entries. destruct (ptroot pt) as [t|]; [|done].
  destruct (contains _ _); [apply candidates_sublist|apply sublist_nil_l].
Qed.

(** An entry of the tree is among the entries a deletion of its own
    rectangle looks at. *)
Lemma entry_candidate t e : wf t → e ∈ entries t → e ∈ candidates t e.1.
Proof.
  induction t as [l|es IH] using ptree_ind'; intros Hwf; [done|].
  rewrite entries_branch. cbn [candidates].
  intros (k & Hk & He)%elem_of_concat_map.
  apply wf_branch in Hwf as [_ Hch].
  pose proof (proj1 (Forall_forall _ _) Hch k Hk) as (Hrect & _ & Hwk).
  apply elem_of_concat_map. exists k. split; [done|].
  rewrite Hrect, (entries_covered _ e Hwk He).
  by apply (proj1 (Forall_forall _ _) IH k Hk).
Qed.

Lemma tree_entry_candidate (pt : PTree N T) e :
  wf_tree pt → e ∈ tree_entries pt → e ∈ tree_candidates pt e.1.
Proof.
  unfold wf_tree, tree_candidates, tree_entries.
  destruct (ptroot pt) as [t|]; [|done].
  intros ((Hwf & _) & -> & _) He.
  rewrite (entries_covered _ e Hwf He). by apply entry_candidate.
Qed.

(** ** Sibling order in every node *)

Lemma sorted0_nondecreasing {A} (es : list (rect N * A)) :
  sorted0 es → nondecreasing es.*1.
Proof.
  intros Hs i j a b Hij Ha Hb.
  rewrite list_lookup_fmap in Ha, Hb.
  destruct (es !! i) as [ea|] eqn:Hea; [|done].
  destruct (es !! j) as [eb|] eqn:Heb; [|done].
  simpl in Ha, Hb. injection Ha as <-. injection Hb as <-.
  destruct (decide (i = j)) as [->|Hne].
  - assert (ea = eb) as -> by congruence. apply nlt_irrefl.
  - assert (le0 ea eb) as Hle; [|exact Hle].
    unfold sorted0 in Hs. revert i j Hij Hne Hea Heb.
    induction Hs as [|x l Hs IH HF]; intros i j Hij Hne Hea Heb; [done|].
    destruct i as [|i], j as [|j]; try lia; simplify_eq/=.
    + eapply Forall_forall in HF; [done|]. by eapply list_elem_of_lookup_2.
    + apply (IH i j); [lia|lia|done..].
Qed.

Lemma wf_sorted t : wf t → Forall nondecreasing (node_rects t).
Proof.
  induction t as [l|es IH] using ptree_ind'; intros Hwf.
  - apply wf_leaf in Hwf. simpl. constructor; [|done].
    by apply sorted0_nondecreasing.
  - apply wf_branch in Hwf as [Hs Hch]. cbn [node_rects]. constructor.
    + by apply sorted0_nondecreasing.
    + apply Forall_forall. intros rs (k & Hk & Hrs)%elem_of_concat_map.
      pose proof (proj1 (Forall_forall _ _) Hch k Hk) as (_ & _ & Hwk).
      pose proof (proj1 (Forall_forall _ _) IH k Hk Hwk) as Hall.
      by apply (proj1 (Forall_forall _ _) Hall).
Qed.

(** ** The bounding rectangle *)

Lemma entries_nonempty t : wf t → 1 ≤ pcount t → entries t ≠ [].
Proof.
  induction t as [l|es IH] using ptree_ind'; intros Hwf Hc.
  - rewrite entries_leaf. destruct l; [simpl in Hc; lia|done].
  - rewrite entries_branch. apply wf_branch in Hwf as [_ Hch].
    destruct es as [|k es]; [simpl in Hc; lia|].
    apply Forall_cons in Hch as [(_ & Hk & Hwk) _].
    apply Forall_cons in IH as [IHk _]. simpl.
    intros [Hnil _]%app_eq_nil. revert Hnil. apply IHk; [done|cap].
Qed.

Lemma prect_least t x :
  wf t → 1 ≤ pcount t →
  (∀ e, e ∈ entries t → contains x e.1 = true) → contains x (prect t) = true.
Proof.
  revert x. induction t as [l|es IH] using ptree_ind'; intros x Hwf Hc Hall.
  - simpl. apply nodeRect_lub; [|done]. destruct l; [simpl in Hc; lia|done].
  - simpl. apply nodeRect_lub; [destruct es; [simpl in Hc; lia|done]|].
    intros k Hk. apply wf_branch in Hwf as [_ Hch].
    pose proof (proj1 (Forall_forall _ _) Hch k Hk) as (-> & Hck & Hwk).
    apply (proj1 (Forall_forall _ _) IH k Hk x Hwk); [cap|].
    intros e He. apply Hall. rewrite entries_branch.
    apply elem_of_concat_map. by exists k.
Qed.

(** ** Stopping a traversal *)

Lemma visitItems_stop {St} (iter : St → N * N → N * N → T → St * bool)
    l1 e l2 s s1 s2 :
  visitItems iter l1 s = (s1, true) →
  iter s1 (rmin e.1) (rmax e.1) e.2 = (s2, false) →
  visitItems iter (l1 ++ e :: l2) s = (s2, false).
Proof.
  intros H1 H2. rewrite visitItems_app, H1. destruct e as [r item].
  simpl in *. by rewrite H2.
Qed.

(** ** The value and the count of a laid out tree *)

Lemma abstract_count (pt : PTree N T) :
  wf_tree pt → ptcount pt = Z.of_nat (length (tree_entries pt)).
Proof.
  unfold wf_tree, tree_entries. destruct (ptroot pt); [by intros (_ & _ & ?)|].
  by intros [? _].
Qed.

End Observations.

(** * The properties of the trees a program reaches *)

Section Properties.
Context {N : Type} {num : number N} {ord : number_order N} {T : Type}.
Context (compare : T → T → option bool).
Implicit Types w : world N T.
Implicit Types tr : @RTreeG2 N.
Implicit Types og : option (gtree N T).

(** Calls that are no method calls on the tree [j] leave its scan as it
    is. *)
Lemma steps_scan w gs ops w' j og :
  inv w gs → gs !! j = Some og → steps compare w ops w' →
  Forall (λ o, ¬ mutates o j) ops →
  ∃ tr, wtrees w' !! j = Some tr ∧
    scan_all (wheap w') tr = Ok (default [] (entries ∘ erase <$> og)).
Proof.
  intros Hinv Hj Hs Hall.
  destruct (steps_keep compare w gs ops w' j Hinv Hs Hall) as (gs' & Hinv' & Hj').
  { by eapply lookup_lt_Some. }
  rewrite Hj in Hj'. pose proof Hinv' as [Hlen _ Htree _].
  assert (is_Some (wtrees w' !! j)) as [tr Htr].
  { apply lookup_lt_is_Some. rewrite <- Hlen. by eapply lookup_lt_Some. }
  exists tr. split; [done|].
  destruct (Htree j tr og Htr Hj') as (Hrepr & _).
  rewrite (scan_all_spec _ _ _ Hrepr). by destruct og.
Qed.

Lemma scan_all_layout w tr og es :
  tree_repr (wheap w) tr og → scan_all (wheap w) tr = Ok es →
  es = default [] (entries ∘ erase <$> og).
Proof.
  intros Hrepr. rewrite (scan_all_spec _ _ _ Hrepr). intros [= <-].
  by destruct og.
Qed.

(** C1: in every world a program reaches, for every tree and every target
    rectangle, [Search] with the visitor that records every entry and
    always continues delivers exactly the entries of [Scan] whose rectangle
    intersects the target ([intersects] holds when the rectangles only
    touch), in the order of [Scan]; with any visitor, [Search] hands these
    entries to the visitor one after the other, and ends with the state
    left by the first call that returns false. *)
Theorem search_visits_intersecting w i tr min max :
  reachable compare w → wtrees w !! i = Some tr →
  ∃ es, scan_all (wheap w) tr = Ok es ∧
    search_all (wheap w) tr min max
    = Ok (filter (λ e, intersects e.1 (Rect min max) = true) es) ∧
    ∀ St (iter : St → N * N → N * N → T → St * bool) (s : St),
      Search iter (wheap w) tr min max s
      = Ok (visitItems iter
              (filter (λ e, intersects e.1 (Rect min max) = true) es) s).1 ∧
      ∀ l1 e l2 s1 s2,
        filter (λ e, intersects e.1 (Rect min max) = true) es = l1 ++ e :: l2 →
        visitItems iter l1 s = (s1, true) →
        iter s1 (rmin e.1) (rmax e.1) e.2 = (s2, false) →
        Search iter (wheap w) tr min max s = Ok s2.
Proof.
  intros Hw Hi. destruct (reachable_tree compare w i tr Hw Hi) as (og & Hrepr & Hwf).
  exists (tree_entries (abstract tr og)).
  split; [by apply scan_all_spec|]. split.
  - unfold search_all. rewrite (Search_spec collect _ _ og) by done.
    by rewrite visit_collect.
  - intros St iter s. rewrite (Search_spec iter _ _ og) by done.
    split; [done|]. intros l1 e l2 s1 s2 -> H1 H2.
    by rewrite (visitItems_stop iter l1 e l2 s s1 s2 H1 H2).
Qed.

(** C2: in every world a program reaches (by insertions, deletions with or
    without reinsertion of subtrees, replacements and copies), [Len] of a
    tree is the number of entries [Scan] delivers to the visitor that
    always continues. *)
Theorem len_is_scan_count w i tr :
  reachable compare w → wtrees w !! i = Some tr →
  ∃ es, scan_all (wheap w) tr = Ok es ∧ Len tr = Z.of_nat (length es).
Proof.
  intros Hw Hi. destruct (reachable_tree compare w i tr Hw Hi) as (og & Hrepr & Hwf).
  exists (tree_entries (abstract tr og)).
  split; [by apply scan_all_spec|]. by apply abstract_count in Hwf.
Qed.

(** C3: let [a] be a tree of a world a program has reached, with scan
    [es], and let [b] be the new tree variable [a.Copy()] is assigned to.
    After any further calls that are no insertion, deletion or replacement
    on [b] (none at all, or any mutations of [a]), the scan of [b] is
    [es]; and after any further calls that are no insertion, deletion or
    replacement on [a], the scan of [a] is [es]. *)
Theorem copy_isolation w a tra w1 es ops w2 :
  reachable compare w → wtrees w !! a = Some tra →
  no_wrap w (OpCopy a) → exec compare w (OpCopy a) = Ok w1 →
  scan_all (wheap w) tra = Ok es →
  steps compare w1 ops w2 →
  (Forall (λ o, ¬ mutates o (length (wtrees w))) ops →
     ∃ trb, wtrees w2 !! length (wtrees w) = Some trb ∧
       scan_all (wheap w2) trb = Ok es) ∧
  (Forall (λ o, ¬ mutates o a) ops →
     ∃ tra', wtrees w2 !! a = Some tra' ∧ scan_all (wheap w2) tra' = Ok es).
Proof.
  intros [gs Hinv]%reachable_inv Ha Hnw He Hes Hs.
  pose proof Hinv as [Hlen _ Htree _].
  assert (is_Some (gs !! a)) as [og Hga].
  { apply lookup_lt_is_Some. rewrite Hlen. by eapply lookup_lt_Some. }
  destruct (Htree a tra og Ha Hga) as (Hrepr & _).
  apply (scan_all_layout w tra og es Hrepr) in Hes. subst es.
  destruct (exec_inv compare w gs (OpCopy a) w1 Hinv Hnw He)
    as (gs1 & Hinv1 & Hkeep & Hcopy).
  specialize (Hcopy a eq_refl). rewrite Hga, Hlen in Hcopy.
  assert (gs1 !! a = Some og) as Hga1.
  { rewrite (Hkeep a); [done|by intros []|by eapply lookup_lt_Some]. }
  split; intros Hall; by eapply steps_scan.
Qed.


(** C5 (as the code has it): for a tree of a world a program has reached,
    with value [pt], and a call [Replace(old, new)].  If the old entry is
    in the tree, it is among the entries the deletion looks at.  When none
    of these has a rectangle contained by the old rectangle and a payload
    equal to the old payload, the value of the tree and [Len] are
    unchanged.  Otherwise the first of them that has (the old entry or
    another one) is removed and the new entry is added; [Len] is
    unchanged. *)
Theorem replace_first_match w i tr oldMin oldMax oldData newMin newMax newData :
  reachable compare w → wtrees w !! i = Some tr →
  ∃ pt, tree_value (wheap w) tr = Ok pt ∧
    ((Rect oldMin oldMax, oldData) ∈ tree_entries pt →
     (Rect oldMin oldMax, oldData) ∈ tree_candidates pt (Rect oldMin oldMax)) ∧
    ((∀ e, e ∈ tree_candidates pt (Rect oldMin oldMax) →
        contains (Rect oldMin oldMax) e.1 = true →
        compare e.2 oldData = Some false) →
       ∃ tr' h',
         Replace compare tr oldMin oldMax oldData newMin newMax newData (wheap w)
         = Ok (tr', h') ∧
         tree_value h' tr' = Ok pt ∧ Len tr' = Len tr) ∧
    (∀ l1 e l2,
       tree_candidates pt (Rect oldMin oldMax) = l1 ++ e :: l2 →
       (∀ e', e' ∈ l1 →
          contains (Rect oldMin oldMax) e'.1 = true →
          compare e'.2 oldData = Some false) →
       contains (Rect oldMin oldMax) e.1 = true →
       compare e.2 oldData = Some true →
       ∃ tr' h' pt',
         Replace compare tr oldMin oldMax oldData newMin newMax newData (wheap w)
         = Ok (tr', h') ∧
         tree_value h' tr' = Ok pt' ∧
         (Rect newMin newMax, newData) :: tree_entries pt
           ≡ₚ e :: tree_entries pt' ∧
         Len tr' = Len tr).
Proof.
  intros Hw Hi. destruct (reachable_tree compare w i tr Hw Hi) as (og & Hrepr & Hwf).
  exists (abstract tr og). split; [by apply tree_value_spec|].
  pose proof (Replace_spec compare (wheap w) tr og oldMin oldMax oldData
                newMin newMax newData Hrepr Hwf) as Hd.
  split_and!.
  - intros Hin. by apply (tree_entry_candidate _ (Rect oldMin oldMax, oldData)).
  - intros Hnone. rewrite (findEntry_none compare _ _ _ Hnone) in Hd.
    destruct Hd as (tr' & og' & h' & Htd & Hab & _ & Hrepr' & _).
    exists tr', h'. split_and!; [done| |].
    + rewrite <- Hab. by apply tree_value_spec.
    + by injection Hab.
  - intros l1 e l2 Hc Hl1 Hce Heq.
    rewrite Hc, (findEntry_first compare l1 e l2 _ _ Hl1 Hce Heq) in Hd.
    destruct Hd as (tr' & og' & h' & Htd & Hwf' & He & _ & _ & Hrepr' & _).
    exists tr', h', (abstract tr' og'). split_and!; [done| |done|].
    + by apply tree_value_spec.
    + apply abstract_count in Hwf, Hwf'. apply Permutation_length in He.
      simpl in *. unfold Len. lia.
Qed.

(** C6: [maxEntries] is 64 and [minEntries] is 6, and the split of a node
    with [maxEntries] entries, for whatever rectangle, returns two nodes
    that hold between [minEntries] and [maxEntries - 1] entries each and
    together exactly the entries of the node. *)
Theorem split_full_node {A} (r : rect N) (l : list (rect N * A)) :
  length l = maxEntries →
  maxEntries = 64 ∧ minEntries = 6 ∧
  ∃ l' r', splitNode r l = Some (l', r') ∧
    l' ++ r' ≡ₚ l ∧
    minEntries ≤ length l' ≤ maxEntries - 1 ∧
    minEntries ≤ length r' ≤ maxEntries - 1.
Proof.
  intros Hlen. split; [apply maxEntries_eq|]. split; [apply minEntries_eq|].
  destruct (splitNode_full r l Hlen) as (l' & r' & Hs & Hp & Hl & Hr).
  exists l', r'. split_and!; [done|done|cap..].
Qed.

(** C7: on a branch with at least one child, the child chosen for the
    entry [ir] is: when some child's rectangle contains [ir], one of these
    of least area, and the first such; otherwise a child of least
    enlargement [unionedArea - area], among these one of least area, and
    the first such. *)
Theorem choose_subtree_rule (rs : list (rect N)) (ir : rect N) :
  rs ≠ [] →
  ∃ j r, chooseSubtree rs ir = Some j ∧ rs !! j = Some r ∧
    ((contains r ir = true ∧
      ∀ k r', rs !! k = Some r' → contains r' ir = true →
        nlt (area r') (area r) = false ∧
        (k < j → nlt (area r) (area r') = true))
     ∨
     ((∀ k r', rs !! k = Some r' → contains r' ir = false) ∧
      ∀ k r', rs !! k = Some r' →
        nlt (nsub (unionedArea r' ir) (area r'))
            (nsub (unionedArea r ir) (area r)) = false ∧
        (nsub (unionedArea r' ir) (area r') = nsub (unionedArea r ir) (area r) →
           nlt (area r') (area r) = false ∧
           (k < j → nlt (area r) (area r') = true)))).
Proof.
  intros Hne. destruct (chooseSubtree_Some rs ir Hne) as (j & Hj & _).
  destruct (chooseSubtree_spec rs ir j Hj) as (r & Hr & Hrule).
  exists j, r. split_and!; [done..|].
  destruct Hrule as [[Hc Hall]|[Hnone Hall]]; [left|right]; (split; [done|]).
  - intros k r' Hk Hc'. apply (Hall k r' Hk Hc').
  - intros k r' Hk. destruct (Hall k r' Hk) as (Hle & Htie & Hfirst).
    split; [exact Hle|]. intros Heq. split; [by apply Htie|]. intros Hlt.
    by apply Hfirst.
Qed.

(** C8: in every world a program reaches, in every node of every tree,
    the sequence [rects[0..count).min[0]] is non-decreasing. *)
Theorem nodes_sorted w i tr :
  reachable compare w → wtrees w !! i = Some tr →
  ∃ pt, tree_value (wheap w) tr = Ok pt ∧
    ∀ t, ptroot pt = Some t → Forall nondecreasing (node_rects t).
Proof.
  intros Hw Hi. destruct (reachable_tree compare w i tr Hw Hi) as (og & Hrepr & Hwf).
  exists (abstract tr og). split; [by apply tree_value_spec|].
  intros t Ht. unfold wf_tree in Hwf. rewrite Ht in Hwf.
  destruct Hwf as ((Hwft & _) & _). by apply wf_sorted.
Qed.

(** C9: in every world a program reaches, [Bounds] of a tree whose scan is
    empty is the zero rectangle, and [Bounds] of a tree whose scan is not
    empty is the least rectangle that contains the rectangles of all
    entries of the scan. *)
Theorem bounds_is_mbr w i tr :
  reachable compare w → wtrees w !! i = Some tr →
  ∃ es, scan_all (wheap w) tr = Ok es ∧
    (es = [] → Bounds tr = ((nzero, nzero), (nzero, nzero))) ∧
    (es ≠ [] →
       (∀ e, e ∈ es →
          contains (Rect (Bounds tr).1 (Bounds tr).2) e.1 = true) ∧
       ∀ r, (∀ e, e ∈ es → contains r e.1 = true) →
          contains r (Rect (Bounds tr).1 (Bounds tr).2) = true).
Proof.
  intros Hw Hi. destruct (reachable_tree compare w i tr Hw Hi) as (og & Hrepr & Hwf).
  exists (tree_entries (abstract tr og)).
  split; [by apply scan_all_spec|].
  assert (Rect (Bounds tr).1 (Bounds tr).2 = trect tr) as ->
    by (unfold Bounds; destruct (trect tr); reflexivity).
  unfold wf_tree, tree_entries in *. destruct og as [g|]; simpl in *.
  - destruct Hwf as ((Hwft & Hc & _) & Hrect & _). split.
    + intros Hnil. by apply entries_nonempty in Hnil; [|done|lia].
    + intros _. rewrite Hrect. split.
      * intros e He. by apply entries_covered.
      * intros r Hall. apply prect_least; [done|lia|done].
  - destruct Hwf as [_ Hrect]. split; [|done].
    intros _. unfold Bounds. by rewrite Hrect.
Qed.

End Properties.

Section Payloads.
Context {N : Type} {num : number N} {ord : number_order N}.
Implicit Types w : world N dyn.


End Payloads.

(** * Insertion, deletion and scans of the trees a program reaches *)

Section Calls.
Context {N : Type} {num : number N} {ord : number_order N} {T : Type}.
Context (compare : T → T → option bool).
Implicit Types w : world N T.
Implicit Types tr : @RTreeG2 N.
Implicit Types og : option (gtree N T).
Implicit Types pt : PTree N T.

Lemma steps_snoc w ops w1 o w2 :
  steps compare w ops w1 → no_wrap w1 o → exec compare w1 o = Ok w2 →
  steps compare w (ops ++ [o]) w2.
Proof.
  intros Hs Hnw He. eapply steps_app; [done|].
  econstructor; [done..|constructor].
Qed.

Lemma reachable_step w o w' :
  reachable compare w → no_wrap w o → exec compare w o = Ok w' →
  reachable compare w'.
Proof. intros [ops Hs] Hnw He. exists (ops ++ [o]). by eapply steps_snoc. Qed.

Lemma findEntry_total l ir data :
  (∀ a b, compare a b ≠ None) → findEntry compare l ir data ≠ None.
Proof.
  intros Htot. induction l as [|[r item] l IH]; simpl; [done|].
  destruct (contains ir r); [|done].
  destruct (compare item data) as [[]|] eqn:E; [done|done|by apply Htot in E].
Qed.

Lemma findEntry_None_inv l ir data :
  findEntry compare l ir data = Some None →
  ∀ e, e ∈ l → contains ir e.1 = true → compare e.2 data = Some false.
Proof.
  induction l as [|[r item] l IH]; simpl; [by intros _ e ?%elem_of_nil|].
  destruct (contains ir r) eqn:Ec.
  - destruct (compare item data) as [[]|] eqn:E; [done| |done].
    intros Hf e [->|He]%elem_of_cons; [done|by apply IH].
  - intros Hf e [->|He]%elem_of_cons; [simpl; congruence|by apply IH].
Qed.

(** The rectangle of a well-formed tree is determined by its entries. *)
Lemma wf_tree_rect pt pt' :
  wf_tree pt → wf_tree pt' → tree_entries pt ≡ₚ tree_entries pt' →
  ptrect pt = ptrect pt'.
Proof.
  unfold wf_tree, tree_entries.
  destruct (ptroot pt) as [t|], (ptroot pt') as [t'|].
  - intros ((Hw & Hc & _) & -> & _) ((Hw' & Hc' & _) & -> & _) Hp.
    apply contains_antisym.
    + apply prect_least; [done|lia|]. intros e He. apply entries_covered; [done|].
      by rewrite Hp.
    + apply prect_least; [done|lia|]. intros e He. apply entries_covered; [done|].
      by rewrite <- Hp.
  - intros ((Hw & Hc & _) & _) _ Hp%Permutation_nil_r.
    by apply entries_nonempty in Hp; [|done|lia].
  - intros _ ((Hw & Hc & _) & _) Hp. symmetry in Hp.
    apply Permutation_nil_r in Hp. by apply entries_nonempty in Hp; [|done|lia].
  - intros [_ ->] [_ ->] _. done.
Qed.

(** What an insertion into a tree of a reached world does. *)
Lemma exec_insert w i tr min max data :
  reachable compare w → wtrees w !! i = Some tr →
  ∃ og tr' og' h',
    tree_repr (wheap w) tr og ∧ wf_tree (abstract tr og) ∧
    exec compare w (OpInsert i min max data)
    = Ok (World h' (wcow w) (<[i := tr']> (wtrees w))) ∧
    wtrees (World h' (wcow w) (<[i := tr']> (wtrees w))) !! i = Some tr' ∧
    tree_repr h' tr' og' ∧ wf_tree (abstract tr' og') ∧
    tree_entries (abstract tr' og')
      ≡ₚ (Rect min max, data) :: tree_entries (abstract tr og).
Proof.
  intros Hw Hi. destruct (reachable_tree compare w i tr Hw Hi) as (og & Hrepr & Hwf).
  destruct (Insert_spec (wheap w) tr og min max data Hrepr Hwf)
    as (tr' & og' & h' & Hins & Hwf' & He & _ & Hrepr' & _).
  exists og, tr', og', h'. split_and!; try done.
  - simpl. rewrite Hi. unfold update. by rewrite Hins.
  - simpl. apply list_lookup_insert_eq. by eapply lookup_lt_Some.
Qed.

(** What a deletion from a tree of a reached world does, when it
    returns. *)
Lemma exec_delete w i tr min max data :
  reachable compare w → wtrees w !! i = Some tr →
  (∀ a b, compare a b ≠ None) →
  ∃ og tr' og' h',
    tree_repr (wheap w) tr og ∧ wf_tree (abstract tr og) ∧
    exec compare w (OpDelete i min max data)
    = Ok (World h' (wcow w) (<[i := tr']> (wtrees w))) ∧
    wtrees (World h' (wcow w) (<[i := tr']> (wtrees w))) !! i = Some tr' ∧
    tree_repr h' tr' og' ∧ wf_tree (abstract tr' og') ∧
    match findEntry compare (tree_candidates (abstract tr og) (Rect min max))
            (Rect min max) data with
    | Some (Some e) =>
        tree_entries (abstract tr og) ≡ₚ e :: tree_entries (abstract tr' og')
    | _ => abstract tr' og' = abstract tr og
    end.
Proof.
  intros Hw Hi Htot.
  destruct (reachable_tree compare w i tr Hw Hi) as (og & Hrepr & Hwf).
  pose proof (Delete_spec compare (wheap w) tr og min max data Hrepr Hwf) as Hd.
  pose proof (findEntry_total (tree_candidates (abstract tr og) (Rect min max))
                (Rect min max) data Htot) as Hne.
  assert (∀ tr' h', Delete compare tr min max data (wheap w) = Ok (tr', h') →
            exec compare w (OpDelete i min max data)
            = Ok (World h' (wcow w) (<[i := tr']> (wtrees w)))) as Hex.
  { intros tr' h' Hdel. simpl. rewrite Hi. unfold update. by rewrite Hdel. }
  assert (∀ (tr' : @RTreeG2 N) (h' : store N T),
            wtrees (World h' (wcow w) (<[i := tr']> (wtrees w))) !! i
            = Some tr') as Hlk.
  { intros tr' h'. simpl. apply list_lookup_insert_eq. by eapply lookup_lt_Some. }
  destruct (findEntry _ _ _ _) as [[e|]|] eqn:Hf; [| |done].
  - destruct Hd as (tr' & og' & h' & Hdel & Hwf' & He & _ & _ & Hrepr' & _).
    exists og, tr', og', h'. rewrite Hf. split_and!; auto.
  - destruct Hd as (tr' & og' & h' & Hdel & Hab & _ & Hrepr' & _).
    exists og, tr', og', h'. rewrite Hf. split_and!; auto. by rewrite Hab.
Qed.

(** X1: in every world a program reaches, [Insert] on a tree returns (it
    never panics), the scan of the tree afterwards is the scan before with
    the new entry added once, and [Len] is one more. *)
Theorem insert_adds_entry w i tr min max data :
  reachable compare w → wtrees w !! i = Some tr →
  ∃ w' tr' es es',
    exec compare w (OpInsert i min max data) = Ok w' ∧
    wtrees w' !! i = Some tr' ∧
    scan_all (wheap w) tr = Ok es ∧ scan_all (wheap w') tr' = Ok es' ∧
    es' ≡ₚ (Rect min max, data) :: es ∧
    Len tr' = (Len tr + 1)%Z.
Proof.
  intros Hw Hi.
  destruct (exec_insert w i tr min max data Hw Hi)
    as (og & tr' & og' & h' & Hrepr & Hwf & Hex & Hlk & Hrepr' & Hwf' & He).
  eexists _, tr', _, _. split_and!; [exact Hex|exact Hlk| | |exact He|].
  - by apply scan_all_spec.
  - by apply (scan_all_spec h').
  - apply abstract_count in Hwf, Hwf'. apply Permutation_length in He.
    simpl in *. unfold Len. lia.
Qed.

(** X2: after [Insert(min, max, data)], a [Search] of that tree for any
    target that the rectangle (min, max) intersects delivers the new
    entry. *)
Theorem insert_then_search w i tr min max data qmin qmax :
  reachable compare w → wtrees w !! i = Some tr →
  intersects (Rect min max) (Rect qmin qmax) = true →
  ∃ w' tr' found,
    exec compare w (OpInsert i min max data) = Ok w' ∧
    wtrees w' !! i = Some tr' ∧
    search_all (wheap w') tr' qmin qmax = Ok found ∧
    (Rect min max, data) ∈ found.
Proof.
  intros Hw Hi Hq.
  destruct (exec_insert w i tr min max data Hw Hi)
    as (og & tr' & og' & h' & Hrepr & Hwf & Hex & Hlk & Hrepr' & Hwf' & He).
  eexists _, tr', _. split_and!; [exact Hex|exact Hlk| |].
  - cbn [wheap]. unfold search_all.
    rewrite (Search_spec collect h' tr' og' qmin qmax [] Hrepr' Hwf').
    by rewrite visit_collect.
  - simpl. apply list_elem_of_filter. split; [done|]. rewrite He. by left.
Qed.

(** X3: after [Insert(min, max, data)], [Bounds] is (min, max) when the
    tree was empty, and the old [Bounds] expanded by (min, max)
    otherwise. *)
Theorem insert_bounds w i tr min max data :
  reachable compare w → wtrees w !! i = Some tr →
  ∃ w' tr',
    exec compare w (OpInsert i min max data) = Ok w' ∧
    wtrees w' !! i = Some tr' ∧
    Rect (Bounds tr').1 (Bounds tr').2
    = if (Len tr =? 0)%Z then Rect min max
      else expand (Rect (Bounds tr).1 (Bounds tr).2) (Rect min max).
Proof.
  intros Hw Hi.
  destruct (exec_insert w i tr min max data Hw Hi)
    as (og & tr' & og' & h' & Hrepr & Hwf & Hex & Hlk & Hrepr' & Hwf' & He).
  eexists _, tr'. split_and!; [exact Hex|exact Hlk|].
  assert (∀ t : @RTreeG2 N, Rect (Bounds t).1 (Bounds t).2 = trect t) as Hb.
  { intros t. unfold Bounds. by destruct (trect t). }
  rewrite !Hb. unfold wf_tree, tree_entries, Len in *.
  destruct og' as [g'|]; simpl in *; [|by apply Permutation_nil_cons in He].
  destruct Hwf' as ((Hw' & Hc' & _) & -> & _).
  destruct og as [g|]; simpl in *.
  - destruct Hwf as ((Hwt & Hc & _) & Hrect & Hcount).
    assert (entries (erase g) ≠ []) as Hne by (apply entries_nonempty; [done|lia]).
    destruct (Z.eqb_spec (tcount tr) 0) as [H0|_].
    { destruct (entries (erase g)); [done|simpl in Hcount; lia]. }
    rewrite Hrect. apply contains_antisym.
    + apply expand_lub.
      * apply prect_least; [done|lia|]. intros e Hin.
        apply entries_covered; [done|]. rewrite He. by right.
      * apply (entries_covered _ (Rect min max, data)); [done|]. rewrite He. by left.
    + apply prect_least; [done|lia|]. intros e Hin. rewrite He in Hin.
      apply elem_of_cons in Hin as [->|Hin]; [apply expand_contains_r|].
      eapply contains_trans; [apply expand_contains_l|by apply entries_covered].
  - destruct Hwf as [-> _]. simpl. apply contains_antisym.
    + apply (entries_covered _ (Rect min max, data)); [done|]. rewrite He. by left.
    + apply prect_least; [done|lia|]. intros e Hin. rewrite He in Hin.
      apply list_elem_of_singleton in Hin as ->. apply contains_refl.
Qed.

(** X4: when [compare] never panics, in every world a program reaches
    [Delete] on a tree returns; afterwards the scan is as before, or it is
    the scan before less one entry whose rectangle the target contains and
    whose payload compares equal to [data]; [Len] is the length of the
    scan. *)
Theorem delete_returns w i tr min max data :
  (∀ a b, compare a b ≠ None) →
  reachable compare w → wtrees w !! i = Some tr →
  ∃ w' tr' es es',
    exec compare w (OpDelete i min max data) = Ok w' ∧
    wtrees w' !! i = Some tr' ∧
    scan_all (wheap w) tr = Ok es ∧ scan_all (wheap w') tr' = Ok es' ∧
    Len tr' = Z.of_nat (length es') ∧
    (es' = es ∨
     ∃ e, es ≡ₚ e :: es' ∧ contains (Rect min max) e.1 = true ∧
          compare e.2 data = Some true).
Proof.
  intros Htot Hw Hi.
  destruct (exec_delete w i tr min max data Hw Hi Htot)
    as (og & tr' & og' & h' & Hrepr & Hwf & Hex & Hlk & Hrepr' & Hwf' & Hd).
  eexists _, tr', _, _.
  split_and!; [exact Hex|exact Hlk|by apply scan_all_spec
              |by apply (scan_all_spec h')|by apply abstract_count in Hwf'|].
  destruct (findEntry _ _ _ _) as [[e|]|] eqn:Hf;
    [|left; by rewrite Hd..].
  right. exists e. split; [done|].
  by apply findEntry_Some in Hf as (_ & _ & _ & _ & ? & ?).
Qed.

(** X5: when [compare] is equality of payloads and no entry of the tree
    has the payload [data] and a rectangle inside (min, max), then
    [Insert(min, max, data)] followed by [Delete(min, max, data)] returns
    and leaves the entries of the scan, [Len] and [Bounds] as they
    were. *)
Theorem insert_delete_roundtrip w i tr es min max data :
  (∀ a b, compare a b = Some true ↔ a = b) →
  (∀ a b, compare a b ≠ None) →
  reachable compare w → wtrees w !! i = Some tr →
  scan_all (wheap w) tr = Ok es →
  (∀ e, e ∈ es → contains (Rect min max) e.1 = true → e.2 ≠ data) →
  ∃ w1 w2 tr2 es2,
    exec compare w (OpInsert i min max data) = Ok w1 ∧
    exec compare w1 (OpDelete i min max data) = Ok w2 ∧
    wtrees w2 !! i = Some tr2 ∧
    scan_all (wheap w2) tr2 = Ok es2 ∧
    es2 ≡ₚ es ∧ Len tr2 = Len tr ∧ Bounds tr2 = Bounds tr.
Proof.
  intros Heq Htot Hw Hi Hes Hnew.
  destruct (exec_insert w i tr min max data Hw Hi)
    as (og & tr1 & og1 & h1 & Hrepr & Hwf & Hex1 & Hlk1 & Hrepr1 & Hwf1 & He1).
  rewrite (scan_all_spec _ _ _ Hrepr) in Hes. injection Hes as <-.
  set (w1 := World h1 (wcow w) (<[i := tr1]> (wtrees w))) in *.
  assert (reachable compare w1) as Hw1.
  { apply (reachable_step w (OpInsert i min max data)); [done|exact I|done]. }
  destruct (exec_delete w1 i tr1 min max data Hw1 Hlk1 Htot)
    as (og1l & tr2 & og2 & h2 & Hrepr1l & _ & Hex2 & Hlk2 & Hrepr2 & Hwf2 & Hd).
  assert (abstract tr1 og1l = abstract tr1 og1) as Hab1l.
  { pose proof (tree_value_spec _ _ _ Hrepr1) as H1.
    pose proof (tree_value_spec _ _ _ Hrepr1l) as H2. simpl in H2. congruence. }
  rewrite Hab1l in Hd.
  assert ((Rect min max, data) ∈ tree_candidates (abstract tr1 og1) (Rect min max))
    as Hcand.
  { apply (tree_entry_candidate _ (Rect min max, data)); [done|].
    rewrite He1. by left. }
  destruct (findEntry _ _ _ _) as [[e|]|] eqn:Hf.
  - apply findEntry_Some in Hf as (l1 & l2 & Hc & _ & Hce & Hcmp).
    assert (e ∈ tree_entries (abstract tr1 og1)) as Hin.
    { eapply elem_of_sublist; [|apply tree_candidates_sublist].
      rewrite Hc. apply elem_of_app. right. by left. }
    assert (e = (Rect min max, data)) as ->.
    { rewrite He1 in Hin. apply elem_of_cons in Hin as [->|Hin]; [done|].
      apply Heq in Hcmp. by destruct (Hnew e Hin Hce). }
    rewrite He1 in Hd. apply Permutation_cons_inv in Hd.
    exists w1, (World h2 (wcow w1) (<[i := tr2]> (wtrees w1))), tr2,
      (tree_entries (abstract tr2 og2)).
    split_and!; [done|done|done|by apply (scan_all_spec h2)|done| |].
    + apply abstract_count in Hwf, Hwf2. apply Permutation_length in Hd.
      simpl in *. unfold Len. lia.
    + pose proof (wf_tree_rect _ _ Hwf Hwf2 Hd) as Hr. simpl in Hr.
      unfold Bounds. by rewrite Hr.
  - pose proof (findEntry_None_inv _ _ _ Hf _ Hcand (contains_refl _)) as Hc.
    simpl in Hc. assert (compare data data = Some true) as Ht by by apply Heq.
    congruence.
  - by apply findEntry_total in Hf.
Qed.

(** X6: in every world a program reaches, [Scan] hands the entries of the
    tree (those of its leaves, from left to right) to the visitor one after
    the other, and ends with the state left by the first call that returns
    false. *)
Theorem scan_visits_in_order w i tr :
  reachable compare w → wtrees w !! i = Some tr →
  ∃ pt, tree_value (wheap w) tr = Ok pt ∧
    scan_all (wheap w) tr = Ok (tree_entries pt) ∧
    ∀ St (iter : St → N * N → N * N → T → St * bool) (s : St),
      Scan iter (wheap w) tr s = Ok (visitItems iter (tree_entries pt) s).1 ∧
      ∀ l1 e l2 s1 s2,
        tree_entries pt = l1 ++ e :: l2 →
        visitItems iter l1 s = (s1, true) →
        iter s1 (rmin e.1) (rmax e.1) e.2 = (s2, false) →
        Scan iter (wheap w) tr s = Ok s2.
Proof.
  intros Hw Hi. destruct (reachable_tree compare w i tr Hw Hi) as (og & Hrepr & Hwf).
  exists (abstract tr og).
  split_and!; [by apply tree_value_spec|by apply scan_all_spec|].
  intros St iter s. rewrite (Scan_spec iter _ _ og) by done.
  split; [done|]. intros l1 e l2 s1 s2 -> H1 H2.
  by rewrite (visitItems_stop iter l1 e l2 s s1 s2 H1 H2).
Qed.

(** X7: in every world a program reaches, a tree has no root exactly when
    [Len] is 0, exactly when its scan is empty; [Len] is never
    negative. *)
Theorem empty_iff_no_root w i tr :
  reachable compare w → wtrees w !! i = Some tr →
  (troot tr = None ↔ Len tr = 0%Z) ∧
  (Len tr = 0%Z ↔ scan_all (wheap w) tr = Ok []) ∧
  (0 ≤ Len tr)%Z.
Proof.
  intros Hw Hi. destruct (reachable_tree compare w i tr Hw Hi) as (og & Hrepr & Hwf).
  rewrite (scan_all_spec _ _ _ Hrepr). destruct Hrepr as [Hroot _].
  unfold wf_tree, tree_entries, Len in *. rewrite Hroot.
  destruct og as [g|]; simpl in *.
  - destruct Hwf as ((Hwt & Hc & _) & _ & Hcount).
    assert (entries (erase g) ≠ []) as Hne by (apply entries_nonempty; [done|lia]).
    destruct (entries (erase g)) as [|e l]; [done|]. simpl in Hcount.
    split_and!; [split; [done|lia]|split; [lia|done]|lia].
  - destruct Hwf as [-> _]. done.
Qed.

(** X8: in every world a program reaches, in every tree: the root holds
    between 1 and [maxEntries - 1] entries, and at least 2 when it is a
    branch; every other node holds between [minEntries] and
    [maxEntries - 1] entries; the rectangle a branch keeps for a child is
    the child's [rect()], and the rectangle of the tree is the root's. *)
Theorem nodes_filled w i tr :
  reachable compare w → wtrees w !! i = Some tr →
  ∃ pt, tree_value (wheap w) tr = Ok pt ∧
    ∀ t, ptroot pt = Some t →
      1 ≤ pcount t ≤ maxEntries - 1 ∧
      (pleaf t = false → 2 ≤ pcount t) ∧
      trect tr = prect t ∧
      Forall (λ e, e.1 = prect e.2 ∧
                   minEntries ≤ pcount e.2 ≤ maxEntries - 1) (slots t).
Proof.
  intros Hw Hi. destruct (reachable_tree compare w i tr Hw Hi) as (og & Hrepr & Hwf).
  exists (abstract tr og). split; [by apply tree_value_spec|].
  intros t Ht. unfold wf_tree in Hwf. rewrite Ht in Hwf.
  destruct Hwf as ((Hwt & Hc & Hb) & Hrect & _).
  split_and!; [lia|lia|done|done|]. clear Hc Hb Hrect Ht.
  induction t as [l|es IH] using ptree_ind'; [constructor|].
  apply wf_branch in Hwt as [_ Hch]. cbn [slots]. apply Forall_app. split.
  - eapply Forall_impl; [exact Hch|]. intros e (? & ? & _). split; [done|lia].
  - apply Forall_forall. intros s (k & Hk & Hs)%elem_of_concat_map.
    pose proof (proj1 (Forall_forall _ _) Hch k Hk) as (_ & _ & Hwk).
    pose proof (proj1 (Forall_forall _ _) IH k Hk Hwk) as Hall.
    by apply (proj1 (Forall_forall _ _) Hall).
Qed.

(** X9: in every world a program reaches, [deepCount] of the root of a
    tree returns [Len]. *)
Theorem deepCount_root w i tr p :
  reachable compare w → wtrees w !! i = Some tr → troot tr = Some p →
  ∃ n, deepCount (depth (wheap w)) (wheap w) p = Ok n ∧ Len tr = Z.of_nat n.
Proof.
  intros Hw Hi Hp. destruct (reachable_tree compare w i tr Hw Hi) as (og & Hrepr & Hwf).
  destruct Hrepr as [Hroot Hog]. rewrite Hp in Hroot.
  destruct og as [g|]; [|done]. injection Hroot as ->.
  destruct Hog as [Hr Hn]. exists (length (entries (erase g))).
  split; [apply deepCount_spec; [done|by apply height_depth]|].
  by destruct Hwf as (_ & _ & ?).
Qed.

(** X10: calls that are no insertion, deletion or replacement on the tree
    [j] (calls on other trees, copies of any tree, new trees) leave the
    scan of the tree [j] as it is. *)
Theorem others_keep_scan w ops w' j tr es :
  reachable compare w → wtrees w !! j = Some tr →
  scan_all (wheap w) tr = Ok es →
  steps compare w ops w' → Forall (λ o, ¬ mutates o j) ops →
  ∃ tr', wtrees w' !! j = Some tr' ∧ scan_all (wheap w') tr' = Ok es.
Proof.
  intros [gs Hinv]%reachable_inv Hj Hes Hs Hall.
  pose proof Hinv as [Hlen _ Htree _].
  assert (is_Some (gs !! j)) as [og Hgj].
  { apply lookup_lt_is_Some. rewrite Hlen. by eapply lookup_lt_Some. }
  destruct (Htree j tr og Hj Hgj) as (Hrepr & _).
  apply (scan_all_layout w tr og es Hrepr) in Hes. subst es.
  by eapply steps_scan.
Qed.

End Calls.

(** * Copy-on-write: which nodes a call writes *)

Section Sharing.
Context {N : Type} {num : number N} {ord : number_order N} {T : Type}.
Context (compare : T → T → option bool).
Implicit Types w : world N T.
Implicit Types h : store N T.
Implicit Types tr : @RTreeG2 N.
Implicit Types g : gtree N T.
Implicit Types og : option (gtree N T).
Implicit Types gs : list (option (gtree N T)).

Lemma nodes_of_spec fuel : ∀ g h,
  repr h g → pheight (erase g) < fuel → nodes_of fuel h (gaddr g) = Ok (gnodes g).
Proof.
  induction fuel as [|fuel IH]; intros g h Hr Hfuel; [lia|].
  simpl. rewrite (repr_lookup _ _ Hr).
  destruct g as [a c l|a c es]; [done|].
  cbn [gnode gaddr]. rewrite gnodes_branch.
  apply repr_branch in Hr as [_ Hk]. apply child_heights in Hfuel.
  enough (nodesChildren (nodes_of fuel h) (emap gaddr es) = Ok (knodes es))
    as -> by done.
  induction es as [|[r k] es IHes]; [done|].
  apply Forall_cons in Hk as [Hk1 Hk]. apply Forall_cons in Hfuel as [Hh1 Hh].
  simpl in Hk1, Hh1. rewrite emap_cons, knodes_cons. cbn [nodesChildren].
  by rewrite (IH k h Hk1 Hh1), (IHes Hk Hh).
Qed.

Lemma tree_nodes_spec h tr og :
  tree_repr h tr og → tree_nodes h tr = Ok (onodes og).
Proof.
  intros [Hroot Hog]. unfold tree_nodes. rewrite Hroot.
  destruct og as [g|]; [|done]. destruct Hog as [Hr Hn].
  cbn [fmap option_fmap option_map onodes].
  by apply nodes_of_spec; [|apply height_depth].
Qed.

(** A call on the tree [i] that returns. *)
Lemma exec_mutate w gs o i tr og w' :
  inv w gs → mutates o i → wtrees w !! i = Some tr → gs !! i = Some og →
  exec compare w o = Ok w' →
  ∃ tr' og' h',
    w' = World h' (wcow w) (<[i := tr']> (wtrees w)) ∧
    mutated (wheap w) tr og h' tr' og' ∧ wf_tree (abstract tr' og').
Proof.
  intros [_ _ Htree _] Hm Hi Hgi.
  destruct (Htree i tr og Hi Hgi) as (Htr & Hwf & _).
  destruct o as [|k min max data|k min max data
                 |k oldMin oldMax oldData newMin newMax newData|k];
    simpl in Hm; try done; subst k; simpl; rewrite Hi; unfold update.
  - destruct (Insert_spec (wheap w) tr og min max data Htr Hwf)
      as (tr' & og' & h' & -> & Hwf' & _ & Hmut).
    intros [= <-]. by exists tr', og', h'.
  - pose proof (Delete_spec compare (wheap w) tr og min max data Htr Hwf) as Hd.
    destruct (findEntry _ _ _ _) as [[e|]|].
    + destruct Hd as (tr' & og' & h' & -> & Hwf' & _ & _ & Hmut).
      intros [= <-]. by exists tr', og', h'.
    + destruct Hd as (tr' & og' & h' & -> & Hab & Hmut).
      intros [= <-]. exists tr', og', h'. by rewrite Hab.
    + by rewrite Hd.
  - pose proof (Replace_spec compare (wheap w) tr og oldMin oldMax oldData
                  newMin newMax newData Htr Hwf) as Hd.
    destruct (findEntry _ _ _ _) as [[e|]|].
    + destruct Hd as (tr' & og' & h' & -> & Hwf' & _ & _ & Hmut).
      intros [= <-]. by exists tr', og', h'.
    + destruct Hd as (tr' & og' & h' & -> & Hab & Hmut).
      intros [= <-]. exists tr', og', h'. by rewrite Hab.
    + by rewrite Hd.
Qed.

(** X11: an insertion, deletion or replacement on a tree of a world a
    program has reached, when it returns, leaves the version counter, the
    version of the tree and the other tree variables as they are; the store
    only grows; and a node that existed before is written only if it is a
    node of that tree and carries the version of the tree. *)
Theorem mutation_writes_own_nodes w i tr o w' :
  reachable compare w → wtrees w !! i = Some tr →
  mutates o i → exec compare w o = Ok w' →
  ∃ ns, tree_nodes (wheap w) tr = Ok ns ∧
    wcow w' = wcow w ∧
    length (wheap w) ≤ length (wheap w') ∧
    (∃ tr', wtrees w' !! i = Some tr' ∧ tcow tr' = tcow tr) ∧
    (∀ j, j ≠ i → wtrees w' !! j = wtrees w !! j) ∧
    ∀ p, p < length (wheap w) → (p, tcow tr) ∉ ns →
      wheap w' !! p = wheap w !! p.
Proof.
  intros [gs Hinv]%reachable_inv Hi Hm He.
  pose proof Hinv as [Hlen _ Htree _].
  assert (is_Some (gs !! i)) as [og Hgi].
  { apply lookup_lt_is_Some. rewrite Hlen. by eapply lookup_lt_Some. }
  destruct (Htree i tr og Hi Hgi) as (Htr & _).
  destruct (exec_mutate w gs o i tr og w' Hinv Hm Hi Hgi He)
    as (tr' & og' & h' & -> & (Hc & _ & [[Hl Hf] _ _ _]) & _).
  exists (onodes og). simpl. split_and!; [by apply tree_nodes_spec|done|done| | |].
  - exists tr'. split; [|done]. apply list_lookup_insert_eq. by eapply lookup_lt_Some.
  - intros j Hne. by apply list_lookup_insert_ne.
  - intros p Hp Hnot. apply Hf; [done|]. by intros ?%elem_of_owned_of.
Qed.

(** X12: in every world a program reaches, no node is reached twice from
    the root of a tree; no version is ahead of the counter; and a node of a
    tree that carries the version of that tree is a node of no other
    tree. *)
Theorem cow_invariant w i j tri trj :
  reachable compare w → i ≠ j →
  wtrees w !! i = Some tri → wtrees w !! j = Some trj →
  ∃ ni nj, tree_nodes (wheap w) tri = Ok ni ∧ tree_nodes (wheap w) trj = Ok nj ∧
    NoDup ni.*1 ∧
    (tcow tri ≤ wcow w)%Z ∧ (∀ p c, (p, c) ∈ ni → (c ≤ wcow w)%Z) ∧
    ∀ p, (p, tcow tri) ∈ ni → p ∉ nj.*1.
Proof.
  intros [gs Hinv]%reachable_inv Hne Hi Hj.
  pose proof Hinv as [Hlen _ Htree Hshare].
  assert (is_Some (gs !! i)) as [ogi Hgi].
  { apply lookup_lt_is_Some. rewrite Hlen. by eapply lookup_lt_Some. }
  assert (is_Some (gs !! j)) as [ogj Hgj].
  { apply lookup_lt_is_Some. rewrite Hlen. by eapply lookup_lt_Some. }
  destruct (Htree i tri ogi Hi Hgi) as (Hri & _ & Hci & Hni).
  destruct (Htree j trj ogj Hj Hgj) as (Hrj & _).
  exists (onodes ogi), (onodes ogj).
  split_and!; [by apply tree_nodes_spec|by apply tree_nodes_spec| |done|done|].
  - destruct Hri as [_ Hog]. destruct ogi as [g|]; [by destruct Hog|constructor].
  - intros p Hp. by eapply (Hshare i j tri ogi ogj).
Qed.

(** The nodes of the trees [a] and [b] of a world, after a copy of [a] to
    [b] in the world [w0] and calls on [a] and [b]: the store is as in [w0]
    below the size it had, the versions of [a] and [b] are the ones the
    copy gave them, and their nodes are nodes [a] had in [w0] or are
    new. *)
Definition snapshot w0 (a b : nat) og0 w gs : Prop :=
  inv w gs ∧
  (∀ p, p < length (wheap w0) → wheap w !! p = wheap w0 !! p) ∧
  length (wheap w0) ≤ length (wheap w) ∧
  ∀ k, k = a ∨ k = b →
    ∃ tr og, wtrees w !! k = Some tr ∧ gs !! k = Some og ∧
      (wcow w0 < tcow tr)%Z ∧
      ∀ p x, (p, x) ∈ onodes og →
        ((p, x) ∈ onodes og0 ∧ (x ≤ wcow w0)%Z) ∨ length (wheap w0) ≤ p.

Lemma snapshot_step w0 a b og0 w gs o w' :
  snapshot w0 a b og0 w gs → mutates o a ∨ mutates o b →
  exec compare w o = Ok w' → ∃ gs', snapshot w0 a b og0 w' gs'.
Proof.
  intros (Hinv & Hold & Hlen0 & Htrees) Hm He.
  assert (∃ i, (i = a ∨ i = b) ∧ mutates o i) as (i & Hi & Hmi).
  { destruct Hm; [exists a|exists b]; auto. }
  destruct (Htrees i Hi) as (tr & og & Hti & Hgi & Hfresh & Hnodes).
  destruct (exec_mutate w gs o i tr og w' Hinv Hmi Hti Hgi He)
    as (tr' & og' & h' & -> & Hmut & Hwf').
  exists (<[i := og']> gs). split_and!.
  - by eapply inv_mutate.
  - destruct Hmut as (_ & _ & [[Hl Hf] _ _ _]). simpl.
    intros p Hp. rewrite <- Hold by done. apply Hf; [lia|].
    intros Hin%elem_of_owned_of.
    destruct (Hnodes _ _ Hin) as [[_ ?]|?]; lia.
  - destruct Hmut as (_ & _ & [[Hl _] _ _ _]). simpl. lia.
  - intros k Hk. simpl. destruct (decide (k = i)) as [->|Hne].
    + exists tr', og'. destruct Hmut as (Hc & _ & Hp).
      pose proof Hinv as [Hlen _ _ _].
      split_and!.
      * apply list_lookup_insert_eq. by eapply lookup_lt_Some.
      * apply list_lookup_insert_eq. by eapply lookup_lt_Some.
      * by rewrite Hc.
      * intros p x Hin.
        destruct (post_evolves _ _ _ _ _ Hp _ _ Hin) as [Hin0|[Hge _]].
        -- by apply Hnodes.
        -- right. lia.
    + destruct (Htrees k Hk) as (trk & ogk & Htk & Hgk & Hfk & Hnk).
      exists trk, ogk. split_and!; [|  |done..].
      * by rewrite list_lookup_insert_ne.
      * by rewrite list_lookup_insert_ne.
Qed.

Lemma snapshot_steps w0 a b og0 w gs ops w' :
  snapshot w0 a b og0 w gs →
  Forall (λ o, mutates o a ∨ mutates o b) ops →
  steps compare w ops w' → ∃ gs', snapshot w0 a b og0 w' gs'.
Proof.
  intros Hsn Hall Hs. revert gs Hsn Hall.
  induction Hs as [w|w o w1 ops w' Hnw He Hs IH]; intros gs Hsn Hall;
    [by exists gs|].
  apply Forall_cons in Hall as [Ho Hall].
  destruct (snapshot_step w0 a b og0 w gs o w1 Hsn Ho He) as (gs1 & Hsn1).
  by eapply IH.
Qed.

Lemma mutates_either (ops : list (op N T)) a b :
  forallb (λ o, mutatesb o a || mutatesb o b) ops = true →
  Forall (λ o, mutates o a ∨ mutates o b) ops.
Proof.
  rewrite forallb_forall. intros Hall. apply Forall_forall. intros o Ho.
  apply list_elem_of_In, Hall, orb_true_iff in Ho.
  destruct o; simpl in *; try (by destruct Ho);
    destruct Ho as [?%Nat.eqb_eq|?%Nat.eqb_eq]; auto.
Qed.

(** X13: after [b = a.Copy()] in a world a program has reached, any
    insertions, deletions and replacements on [a] and on [b] leave every
    node that existed at the time of the copy as it was: they are never
    written again. *)
Theorem copy_freezes_store w a tra w1 ops w2 :
  reachable compare w → wtrees w !! a = Some tra →
  no_wrap w (OpCopy a) → exec compare w (OpCopy a) = Ok w1 →
  Forall (λ o, mutates o a ∨ mutates o (length (wtrees w))) ops →
  steps compare w1 ops w2 →
  wheap w1 = wheap w ∧
  ∀ p, p < length (wheap w) → wheap w2 !! p = wheap w !! p.
Proof.
  intros [gs Hinv]%reachable_inv Ha Hnw He Hall Hs.
  pose proof Hinv as [Hlen Hcow Htree _].
  assert (is_Some (gs !! a)) as [og Hga].
  { apply lookup_lt_is_Some. rewrite Hlen. by eapply lookup_lt_Some. }
  destruct (Htree a tra og Ha Hga) as (Hrepr & _ & _ & Hver).
  destruct (exec_inv compare w gs (OpCopy a) w1 Hinv Hnw He)
    as (gs1 & Hinv1 & Hkeep & Hcopy).
  specialize (Hcopy a eq_refl). rewrite Hga, Hlen in Hcopy.
  assert (gs1 !! a = Some og) as Hga1.
  { rewrite (Hkeep a); [done|by intros []|by eapply lookup_lt_Some]. }
  assert (a < length (wtrees w)) as Hlt by by eapply lookup_lt_Some.
  simpl in He, Hnw. rewrite Ha in He. unfold Copy in He.
  rewrite !addUint64_small in He by (rewrite ?addUint64_small; lia).
  injection He as <-. simpl in *. split; [done|].
  assert (snapshot w a (length (wtrees w)) og
            (World (wheap w) (wcow w + 1 + 1)
               (<[a := Tree (wcow w + 1) (tcount tra) (trect tra) (troot tra)]>
                  (wtrees w)
                ++ [Tree (wcow w + 1 + 1) (tcount tra) (trect tra) (troot tra)]))
            gs1) as Hsn.
  { split_and!; [done|done|done|]. simpl.
    intros k [->| ->].
    - eexists _, og. split_and!; [|done| |].
      + rewrite lookup_app_l by (rewrite length_insert; lia).
        by apply list_lookup_insert_eq.
      + simpl. lia.
      + intros p x Hin. left. split; [done|by eapply Hver].
    - eexists _, og. split_and!; [|done| |].
      + rewrite lookup_app_r by (rewrite length_insert; lia).
        by rewrite length_insert, Nat.sub_diag.
      + simpl. lia.
      + intros p x Hin. left. split; [done|by eapply Hver]. }
  destruct (snapshot_steps _ _ _ _ _ _ _ _ Hsn Hall Hs) as (gs2 & _ & Hold & _).
  exact Hold.
Qed.

End Sharing.

(** * Rectangles and single nodes *)

Section Rectangles.
Context {N : Type} {num : number N} {ord : number_order N}.
Implicit Types r b c x : rect N.

Lemma fmin_nmin (a b : N) : fmin a b = nmin a b.
Proof.
  unfold fmin, nmin. destruct (nlt a b) eqn:E1, (nlt b a) eqn:E2; try done.
  - apply nlt_asym in E1. congruence.
  - by apply nlt_connex.
Qed.

Lemma fmax_nmax (a b : N) : fmax a b = nmax a b.
Proof.
  unfold fmax, nmax. destruct (nlt a b) eqn:E1, (nlt b a) eqn:E2; try done.
  - apply nlt_asym in E1. congruence.
  - by apply nlt_connex.
Qed.

(** X14: [expand] makes [r] the least rectangle that contains the old [r]
    and [b]; it is commutative and associative, and it leaves [r] as it is
    exactly when [r] contains [b]. *)
Theorem expand_is_join r b c :
  contains (expand r b) r = true ∧ contains (expand r b) b = true ∧
  (∀ x, contains x r = true → contains x b = true →
        contains x (expand r b) = true) ∧
  expand r b = expand b r ∧
  expand (expand r b) c = expand r (expand b c) ∧
  (contains r b = true ↔ expand r b = r).
Proof.
  split_and!.
  - apply expand_contains_l.
  - apply expand_contains_r.
  - intros x. apply expand_lub.
  - apply expand_comm.
  - apply expand_assoc.
  - split; [apply expand_absorb|apply contains_expand_absorb].
Qed.

(** X15: [contains] is a partial order on rectangles; [intersects] is
    symmetric, and a rectangle that contains [b] intersects every rectangle
    [b] intersects. *)
Theorem contains_is_order r b c :
  contains r r = true ∧
  (contains r b = true → contains b c = true → contains r c = true) ∧
  (contains r b = true → contains b r = true → r = b) ∧
  intersects r b = intersects b r ∧
  (contains r b = true → intersects b c = true → intersects r c = true).
Proof.
  split_and!.
  - apply contains_refl.
  - apply contains_trans.
  - apply contains_antisym.
  - apply intersects_sym.
  - apply intersects_mono.
Qed.

(** X16: [equals] holds exactly of equal rectangles. *)
Theorem equals_is_equality r b : equals r b = true ↔ r = b.
Proof. apply equals_spec. Qed.

(** X17: [unionedArea] is the area of the expanded rectangle. *)
Theorem unionedArea_is_area_of_expand r b :
  unionedArea r b = area (expand r b).
Proof.
  unfold unionedArea, area. rewrite expand_eq, !fmin_nmin, !fmax_nmax. done.
Qed.

End Rectangles.

Section Nodes.
Context {N : Type} {num : number N} {ord : number_order N} {A : Type}.
Implicit Types l pre post : list (rect N * A).
Implicit Types e : rect N * A.

(** X18: [rect()] of a node with at least one entry is the least rectangle
    that contains the rectangles of all its entries, whatever their
    order. *)
Theorem node_rect_is_mbr l :
  l ≠ [] →
  (∀ e, e ∈ l → contains (nodeRect l) e.1 = true) ∧
  (∀ x, (∀ e, e ∈ l → contains x e.1 = true) → contains x (nodeRect l) = true) ∧
  (∀ l', l' ≡ₚ l → nodeRect l' = nodeRect l).
Proof.
  intros Hne. split_and!.
  - intros e. apply nodeRect_contains.
  - intros x. by apply nodeRect_lub.
  - intros l'. apply nodeRect_perm.
Qed.

(** X19: the shortcut of [nodeDelete]: when the target [ir] is not on the
    edge of the rectangle of a node, removing an entry that [ir] contains
    leaves entries in the node and leaves [rect()] as it is. *)
Theorem inner_entry_keeps_rect l i e (ir : rect N) :
  l !! i = Some e → contains ir e.1 = true → onedge ir (nodeRect l) = false →
  delete i l ≠ [] ∧ nodeRect (delete i l) = nodeRect l.
Proof. apply nodeRect_remove_inner. Qed.

Lemma nondecreasing_sorted0 l : nondecreasing l.*1 → sorted0 l.
Proof.
  intros Hn. apply sorted0_adjacent. intros i a b Ha Hb.
  apply (Hn i (S i) a.1 b.1); [lia|by rewrite list_lookup_fmap, Ha
                               |by rewrite list_lookup_fmap, Hb].
Qed.

(** X20: [issorted] holds exactly of the nodes whose [min[0]] are
    non-decreasing; [sort] permutes the entries of a node, and leaves a
    node that is sorted. *)
Theorem sort_sorts l :
  (issorted l = true ↔ nondecreasing l.*1) ∧
  sort l ≡ₚ l ∧ issorted (sort l) = true.
Proof.
  split_and!.
  - rewrite issorted_spec. split; [apply sorted0_nondecreasing|].
    apply nondecreasing_sorted0.
  - apply sort_perm.
  - apply issorted_spec, sort_sorted.
Qed.

(** X21: [rsearch] returns the first index whose [min[0]] is not below the
    key ([count] when there is none); inserting a leaf entry there keeps a
    sorted leaf sorted and adds just that entry. *)
Theorem rsearch_lower_bound l (ir : rect N) (data : A) :
  rsearch l (rmin ir).1 ≤ length l ∧
  (∀ j e, j < rsearch l (rmin ir).1 → l !! j = Some e →
          nlt (min0 e) (rmin ir).1 = true) ∧
  (∀ e, l !! rsearch l (rmin ir).1 = Some e → nlt (min0 e) (rmin ir).1 = false) ∧
  leafInsert l ir data !! rsearch l (rmin ir).1 = Some (ir, data) ∧
  leafInsert l ir data ≡ₚ (ir, data) :: l ∧
  (issorted l = true → issorted (leafInsert l ir data) = true).
Proof.
  destruct (rsearch_spec l (rmin ir).1) as (l1 & l2 & -> & Hr & HF & Hl).
  rewrite Hr. split_and!.
  - rewrite length_app. lia.
  - intros j e Hj He. rewrite lookup_app_l in He by done.
    apply (proj1 (Forall_forall _ _) HF). by eapply list_elem_of_lookup_2.
  - intros e He. rewrite lookup_app_r, Nat.sub_diag in He by done.
    destruct l2 as [|b p]; [done|]. injection He as <-. by apply (Hl b p).
  - unfold leafInsert. rewrite Hr, take_app_length, drop_app_length.
    by rewrite lookup_app_r, Nat.sub_diag.
  - apply leafInsert_perm.
  - rewrite !issorted_spec. apply leafInsert_sorted.
Qed.

(** X22: [orderToLeft(idx)] on a node that is sorted but for the entry at
    [idx], which may be too small, moves that entry: the node is sorted
    afterwards, holds the same entries, and the index returned is where the
    entry now is. *)
Theorem orderToLeft_repairs pre e post :
  sorted0 (pre ++ post) → Forall (λ b, nlt (min0 b) (min0 e) = false) post →
  (orderToLeft (pre ++ e :: post) (length pre)).1 ≡ₚ pre ++ e :: post ∧
  issorted (orderToLeft (pre ++ e :: post) (length pre)).1 = true ∧
  (orderToLeft (pre ++ e :: post) (length pre)).1
    !! (orderToLeft (pre ++ e :: post) (length pre)).2 = Some e.
Proof.
  intros Hs Hpost. split_and!.
  - apply orderToLeft_perm.
  - apply issorted_spec. by apply orderToLeft_sorted.
  - destruct (orderToLeft_spec pre e post) as (p1 & p2 & _ & -> & _). simpl.
    by rewrite lookup_app_r, Nat.sub_diag.
Qed.

(** X23: [orderToRight(idx)] on a node that is sorted but for the entry at
    [idx], which may be too large, moves that entry: the node is sorted
    afterwards, holds the same entries, and the index returned is where the
    entry now is; an index past the entries is returned as it is. *)
Theorem orderToRight_repairs pre e post :
  sorted0 (pre ++ post) → Forall (λ b, nlt (min0 e) (min0 b) = false) pre →
  (orderToRight (pre ++ e :: post) (length pre)).1 ≡ₚ pre ++ e :: post ∧
  issorted (orderToRight (pre ++ e :: post) (length pre)).1 = true ∧
  (orderToRight (pre ++ e :: post) (length pre)).1
    !! (orderToRight (pre ++ e :: post) (length pre)).2 = Some e ∧
  ∀ l idx, length l ≤ idx → orderToRight l idx = (l, idx).
Proof.
  intros Hs Hpre. split_and!.
  - apply orderToRight_perm.
  - apply issorted_spec. by apply orderToRight_sorted.
  - destruct (orderToRight_spec pre e post) as (p1 & p2 & _ & -> & _). simpl.
    rewrite (assoc_L (++)), lookup_app_r by (rewrite length_app; lia).
    by rewrite length_app, Nat.sub_diag.
  - apply orderToRight_out.
Qed.

(** X24: whenever the split of a node returns, both nodes are sorted by
    [min[0]] and together hold the entries of the node. *)
Theorem split_sorted (r : rect N) l l' r' :
  splitNode r l = Some (l', r') →
  issorted l' = true ∧ issorted r' = true ∧ l' ++ r' ≡ₚ l.
Proof.
  intros Hs. destruct (splitNode_sorted r l l' r' Hs) as [H1 H2].
  split_and!; [by apply issorted_spec|by apply issorted_spec|].
  by eapply splitNode_perm.
Qed.

(** X25: [moveRectAtIndexInto] returns when the index is in range and
    [into] is not full; then [from] has one entry less, [into] one more,
    and together they hold the entries they held. *)
Theorem move_rect_moves_one (from into : list (rect N * A)) index :
  index < length from → length into < maxEntries →
  ∃ from' into',
    moveRectAtIndexInto from index into = Some (from', into') ∧
    S (length from') = length from ∧ length into' = S (length into) ∧
    last into' = from !! index ∧
    from' ++ into' ≡ₚ from ++ into.
Proof.
  intros H1 H2.
  destruct (moveRectAtIndexInto_Some from index into H1 H2) as (f' & i' & Hm).
  exists f', i'. split; [done|].
  destruct (moveRectAtIndexInto_spec _ _ _ _ _ Hm) as (? & ? & _ & ?).
  split_and!; [done..| |done].
  unfold moveRectAtIndexInto in Hm.
  destruct (maxEntries <=? length into); [done|].
  destruct (from !! index) as [e|]; [|done].
  destruct (last from); [|done]. injection Hm as <- <-. by rewrite last_snoc.
Qed.

(** ** Binary search *)

Lemma bsearch_loop_spec l key fuel : ∀ low high,
  sorted0 l → length l ≤ maxEntries →
  low ≤ high ≤ length l → high - low ≤ fuel →
  (∀ j e, j < low → l !! j = Some e → nlt key (min0 e) = false) →
  (∀ j e, high ≤ j → l !! j = Some e → nlt key (min0 e) = true) →
  ∃ k, bsearch_loop fuel l key (Z.of_nat low) (Z.of_nat high)
       = Some (Z.of_nat k) ∧
    k ≤ length l ∧
    (∀ j e, j < k → l !! j = Some e → nlt key (min0 e) = false) ∧
    (∀ j e, k ≤ j → l !! j = Some e → nlt key (min0 e) = true).
Proof.
  induction fuel as [|fuel IH]; intros low high Hs Hmax Hlh Hfuel Hlo Hhi.
  - assert (low = high) as -> by lia. exists high. simpl.
    rewrite Z.ltb_irrefl. split_and!; [done|lia|done..].
  - simpl. destruct (Z.ltb_spec (Z.of_nat low) (Z.of_nat high)) as [Hlt|Hge].
    + assert (Z.shiftr ((Z.of_nat low + Z.of_nat high) mod 2 ^ 64) 1
              = Z.of_nat ((low + high) / 2)) as ->.
      { rewrite Z.mod_small by (rewrite maxEntries_eq in Hmax; lia).
        rewrite Z.shiftr_div_pow2 by lia. rewrite Nat2Z.inj_div.
        change (2 ^ 1)%Z with 2%Z. f_equal. lia. }
      rewrite Nat2Z.id.
      assert (low ≤ (low + high) / 2 < high) as Hh.
      { split; [apply Nat.div_le_lower_bound; lia|].
        apply Nat.div_lt_upper_bound; lia. }
      destruct (lookup_lt_is_Some_2 l ((low + high) / 2)) as [e He]; [lia|].
      rewrite He.
      pose proof (sorted0_nondecreasing l Hs) as Hn.
      destruct (nlt key (min0 e)) eqn:Ek; cbn [negb].
      * apply (IH low ((low + high) / 2)); [done|done|lia|lia|done|].
        intros j e' Hj He'. eapply nlt_le_trans; [exact Ek|].
        apply (Hn ((low + high) / 2) j e.1 e'.1);
          [done|by rewrite list_lookup_fmap, He|by rewrite list_lookup_fmap, He'].
      * replace (Z.of_nat ((low + high) / 2) + 1)%Z
          with (Z.of_nat (S ((low + high) / 2))) by lia.
        apply (IH (S ((low + high) / 2)) high); [done|done|lia|lia| |done].
        intros j e' Hj He'.
        destruct (nlt key (min0 e')) eqn:Ek'; [|done].
        assert (nlt key (min0 e) = true); [|congruence].
        eapply nlt_le_trans; [exact Ek'|].
        apply (Hn j ((low + high) / 2) e'.1 e.1);
          [lia|by rewrite list_lookup_fmap, He'|by rewrite list_lookup_fmap, He].
    + assert (low = high) as -> by lia. exists high.
      split_and!; [done|lia|done..].
Qed.

(** X26: on a sorted node (of at most [maxEntries] entries, the size of
    the arrays) [bsearch] returns, without reading outside the entries, the
    number of entries whose [min[0]] is not above the key: the key is below
    [min[0]] of exactly the entries from that index on. *)
Theorem bsearch_upper_bound l key :
  issorted l = true → length l ≤ maxEntries →
  ∃ k, bsearch l key = Some (Z.of_nat k) ∧
    k ≤ length l ∧
    (∀ j e, j < k → l !! j = Some e → nlt key (min0 e) = false) ∧
    (∀ j e, k ≤ j → l !! j = Some e → nlt key (min0 e) = true).
Proof.
  intros Hs%issorted_spec Hmax. unfold bsearch.
  apply (bsearch_loop_spec l key (length l) 0 (length l)); [done|done|lia|lia| |].
  - intros j e Hj. lia.
  - intros j e Hj He. apply lookup_lt_Some in He. lia.
Qed.

End Nodes.

(** * Balance: all leaves are at the same depth *)

Section Balance.
Context {N : Type} {num : number N} {ord : number_order N} {T : Type}.
Context (compare : T → T → option bool).
Implicit Types t c : ptree N T.
Implicit Types es : list (rect N * ptree N T).
Implicit Types pt : PTree N T.
Implicit Types w : world N T.
Implicit Types tr : @RTreeG2 N.
Implicit Types og : option (gtree N T).
Implicit Types gs : list (option (gtree N T)).

(** ** The pure operations keep the leaves level *)

Lemma uniform_branch_iff n es :
  uniform (S n) (PBranch es) ↔ Forall (uniform n) es.*2.
Proof.
  rewrite Forall_fmap. split; [|by constructor].
  inversion 1; by subst.
Qed.

Lemma uniform_branch_inv n es :
  uniform n (PBranch es) → ∃ n', n = S n' ∧ Forall (uniform n') es.*2.
Proof.
  inversion 1 as [|n' es' Hall]; subst. exists n'. split; [done|].
  by apply uniform_branch_iff.
Qed.

Lemma uniform_leaf_inv n (l : list (rect N * T)) : uniform n (PLeaf l) → n = 0.
Proof. by inversion 1. Qed.

Lemma psplit_uniform (r : rect N) t lft rgt n :
  psplit r t = Some (lft, rgt) → uniform n t → uniform n lft ∧ uniform n rgt.
Proof.
  destruct t as [l|es]; simpl;
    destruct (splitNode r _) as [[l' r']|] eqn:Hs; try done;
    intros [= <- <-] Hu.
  - apply uniform_leaf_inv in Hu as ->. split; constructor.
  - apply uniform_branch_inv in Hu as (n' & -> & Hall).
    apply splitNode_perm in Hs. rewrite <- Hs, fmap_app in Hall.
    apply Forall_app in Hall as [? ?]. split; by apply uniform_branch_iff.
Qed.

Lemma psort_uniform t n : uniform n t → uniform n (psort t).
Proof.
  destruct t as [l|es]; simpl; intros Hu.
  - apply uniform_leaf_inv in Hu as ->. constructor.
  - apply uniform_branch_inv in Hu as (n' & -> & Hall).
    apply uniform_branch_iff. by rewrite (sort_perm es).
Qed.

Lemma pinsert_branch_uniform es index (r : rect N) child grown nr ir t' g n :
  Forall (uniform n) es.*2 → uniform n child →
  pinsert_branch es index r child grown nr ir = Some (t', g) →
  uniform (S n) t'.
Proof.
  intros Hes Hc. unfold pinsert_branch.
  set (es1 := <[index := (r, child)]> es).
  assert (Forall (uniform n) es1.*2) as Hes1.
  { unfold es1. rewrite list_fmap_insert. by apply Forall_insert. }
  clearbody es1.
  assert (∀ es2 index2 g2,
    Forall (uniform n) es2.*2 →
    (if pcount child =? maxEntries then
       match es2 !! index2 with
       | None => None
       | Some (r, lft) =>
           match psplit r lft with
           | None => None
           | Some (lft, rgt) =>
               match branchSplit (<[index2 := (r, lft)]> es2) index2
                       (prect lft) (prect rgt) rgt with
               | None => None
               | Some es => Some (PBranch es, g2)
               end
           end
       end
     else Some (PBranch es2, g2)) = Some (t', g) → uniform (S n) t') as Htail.
  { intros es2 index2 g2 Hes2.
    destruct (pcount child =? maxEntries);
      [|intros [= <- <-]; by apply uniform_branch_iff].
    destruct (es2 !! index2) as [[r2 lft]|] eqn:Hi; [|done].
    destruct (psplit r2 lft) as [[lft' rgt]|] eqn:Hs; [|done].
    destruct (branchSplit _ _ _ _ _) as [es3|] eqn:Hb; [|done].
    intros [= <- <-]. apply uniform_branch_iff.
    assert (uniform n lft) as Hl.
    { apply (proj1 (Forall_forall _ _) Hes2). apply list_elem_of_fmap.
      exists (r2, lft). split; [done|]. by eapply list_elem_of_lookup_2. }
    destruct (psplit_uniform _ _ _ _ _ Hs Hl) as [Hl' Hr'].
    apply branchSplit_snd in Hb. rewrite Hb. constructor; [done|].
    rewrite list_fmap_insert. by apply Forall_insert. }
  destruct grown.
  - destruct (branchGrown es1 index ir) as [es2 index2] eqn:Hg.
    apply Htail. pose proof (branchGrown_snd es1 index ir) as Hp.
    rewrite Hg in Hp. simpl in Hp. by rewrite Hp.
  - by apply Htail.
Qed.

Lemma pinsert_uniform t : ∀ n nr ir (data : T) t' g,
  uniform n t → pinsert t nr ir data = Some (t', g) → uniform n t'.
Proof.
  induction t as [l|es IH] using ptree_ind'; intros n nr ir data t' g Hu.
  - simpl. destruct (maxEntries <=? length l); [done|]. intros [= <- <-].
    apply uniform_leaf_inv in Hu as ->. constructor.
  - rewrite pinsert_branch_eq.
    apply uniform_branch_inv in Hu as (n' & -> & Hall).
    destruct (chooseSubtree _ _) as [index|]; [|done].
    destruct (es !! index) as [[r c]|] eqn:Hi; [|done].
    destruct (pinsert c r ir data) as [[child grown]|] eqn:Hp; [|done].
    apply pinsert_branch_uniform; [done|].
    apply (Forall_lookup_1 _ _ _ _ IH Hi n' r ir data child grown); [|done].
    apply (proj1 (Forall_forall _ _) Hall). apply list_elem_of_fmap.
    exists (r, c). split; [done|]. by eapply list_elem_of_lookup_2.
Qed.

Lemma PInsert_balanced pt min max (data : T) pt' :
  balanced pt → PInsert pt min max data = Some pt' → balanced pt'.
Proof.
  intros Hb. unfold PInsert.
  assert (∃ n, @uniform N T n (match ptroot pt with
                          | None => (@PLeaf N T [], Rect min max)
                          | Some t => (t, ptrect pt)
                          end).1) as [n Hu].
  { destruct (ptroot pt) as [t|] eqn:Hr; simpl; [by apply Hb|].
    exists 0. constructor. }
  destruct (match ptroot pt with
            | None => (@PLeaf N T [], Rect min max)
            | Some t => (t, ptrect pt)
            end) as [root rect]. simpl in Hu.
  destruct (pinsert root rect (Rect min max) data) as [[root' grown]|] eqn:Hp;
    [|done].
  pose proof (pinsert_uniform _ _ _ _ _ _ _ Hu Hp) as Hu'.
  assert (∀ root2 : ptree N T, (∃ m, uniform m root2) →
    ∃ m, uniform m (if negb (pleaf root2) &&
                       (grown || (pcount root' =? maxEntries))
                    then psort root2 else root2)) as Hsort.
  { intros root2 [m Hm]. exists m. destruct (_ && _); [|done].
    by apply psort_uniform. }
  destruct (pcount root' =? maxEntries) eqn:Hsp.
  - destruct (psplit _ root') as [[lft rgt]|] eqn:Hs; [|done].
    intros [= <-] t [= <-].
    apply (Hsort (PBranch [(prect lft, lft); (prect rgt, rgt)])).
    destruct (psplit_uniform _ _ _ _ _ Hs Hu') as [Hl Hr].
    exists (S n). apply uniform_branch_iff. simpl. by repeat constructor.
  - intros [= <-] t [= <-]. apply (Hsort root'). by exists n.
Qed.

Lemma pdelete_loop_uniform rec (nr ir : rect N) n :
  ∀ rest i es reinsert t' nr' removed shrunk reinsert',
  (∀ c, c ∈ rest.*2 → ∀ r ri c' r' rm sh ri',
     rec c r ri = Some (c', r', rm, sh, ri') → uniform n c') →
  Forall (uniform n) es.*2 →
  pdelete_loop rec nr ir rest i es reinsert
  = Some (t', nr', removed, shrunk, reinsert') →
  uniform (S n) t'.
Proof.
  induction rest as [|[crect child] rest IH];
    intros i es reinsert t' nr' removed shrunk reinsert' Hrec Hes; simpl.
  - intros [= <- _ _ _ _]. by apply uniform_branch_iff.
  - assert (∀ c, c ∈ rest.*2 → ∀ r ri c' r' rm sh ri',
              rec c r ri = Some (c', r', rm, sh, ri') → uniform n c') as Hrec'.
    { intros c Hc. apply Hrec. simpl. by right. }
    destruct (negb (contains crect ir)); [by apply IH|].
    destruct (rec child crect reinsert) as [[[[[c' r'] rm] sh] ri']|] eqn:Hr;
      [|done].
    assert (uniform n c') as Hc'.
    { eapply (Hrec child); [simpl; by left|done]. }
    assert (Forall (uniform n) (<[i := (r', c')]> es).*2) as Hes'.
    { rewrite list_fmap_insert. by apply Forall_insert. }
    destruct rm; cbn [negb]; [|by apply IH].
    destruct (branchDelete _ _ _ _ _ _ _) as [[es2 nr2] sh2] eqn:Hb.
    intros [= <- _ _ _ _]. apply uniform_branch_iff.
    pose proof (branchDelete_snd (<[i := (r', c')]> es) i r' crect
                  (pcount c' <? minEntries) sh nr) as Hp.
    rewrite Hb in Hp. simpl in Hp. rewrite Hp.
    destruct (pcount c' <? minEntries); [|done].
    rewrite list_fmap_delete. by apply Forall_delete.
Qed.

Lemma pdelete_uniform t : ∀ n nr ir data reinsert t' nr' removed shrunk reinsert',
  uniform n t →
  pdelete compare t nr ir data reinsert
  = Some (t', nr', removed, shrunk, reinsert') →
  uniform n t'.
Proof.
  induction t as [l|es IH] using ptree_ind';
    intros n nr ir data reinsert t' nr' removed shrunk reinsert' Hu.
  - rewrite pdelete_leaf_eq. apply uniform_leaf_inv in Hu as ->.
    destruct (leafFind _ _ _ _ _) as [[i|]|]; [| |done].
    + destruct (leafDelete _ _ _ _) as [[es' nr2] sh2].
      intros [= <- _ _ _ _]. constructor.
    + intros [= <- _ _ _ _]. constructor.
  - rewrite pdelete_branch_eq.
    apply uniform_branch_inv in Hu as (n' & -> & Hall).
    apply pdelete_loop_uniform; [|done].
    intros c Hc r ri c' r' rm sh ri' Hd.
    apply list_elem_of_fmap in Hc as ([rc c0] & -> & Hin).
    apply (proj1 (Forall_forall _ _) IH _ Hin n' r ir data ri c' r' rm sh ri');
      [|done].
    apply (proj1 (Forall_forall _ _) Hall). apply list_elem_of_fmap.
    by exists (rc, c0).
Qed.

Lemma pcollapse_uniform t : ∀ n, uniform n t → ∃ m, uniform m (pcollapse t).
Proof.
  induction t as [l|es IH] using ptree_ind'; intros n Hu; [by exists n|].
  destruct es as [|[r c] [|e2 es]]; [by exists n| |by exists n].
  apply uniform_branch_inv in Hu as (n' & -> & Hall).
  apply Forall_cons in Hall as [Hc _]. apply Forall_cons in IH as [IHc _].
  simpl in *. by eapply IHc.
Qed.

Lemma foldl_option_inv {X Y} (P : X → Prop) (f : X → Y → option X)
    (l : list Y) : ∀ x x',
  (∀ a y b, y ∈ l → P a → f a y = Some b → P b) → P x →
  foldl (λ acc y, match acc with Some x => f x y | None => None end)
    (Some x) l = Some x' →
  P x'.
Proof.
  induction l as [|y l IH]; intros x x' Hf Hx; simpl; [by intros [= <-]|].
  destruct (f x y) as [x1|] eqn:E; [|by rewrite foldl_option_None].
  apply IH; [|by eapply Hf; [left|..]].
  intros a y' b Hy'. apply Hf. by right.
Qed.

Lemma preinsert_balanced (n : ptree N T) : ∀ pt pt',
  balanced pt → preinsert n pt = Some pt' → balanced pt'.
Proof.
  induction n as [l|es IH] using ptree_ind'; intros pt pt' Hb; simpl.
  - apply (foldl_option_inv balanced
             (λ a e, PInsert a (rmin e.1) (rmax e.1) e.2)); [|done].
    intros a e b _ Ha. by apply PInsert_balanced.
  - apply (foldl_option_inv balanced (λ a e, preinsert e.2 a)); [|done].
    intros a e b He Ha. by apply (proj1 (Forall_forall _ _) IH e He).
Qed.

Lemma PDelete_balanced pt min max data pt' removed :
  balanced pt → PDelete compare pt min max data = Some (pt', removed) →
  balanced pt'.
Proof.
  intros Hb. unfold PDelete.
  destruct (ptroot pt) as [root|] eqn:Hroot; [|by intros [= <- _]].
  destruct (negb _); [by intros [= <- _]|].
  destruct (Hb root Hroot) as [n Hu].
  destruct (pdelete _ _ _ _ _ _) as [[[[[root' rect'] rm] sh] new]|] eqn:Hd;
    [|done].
  pose proof (pdelete_uniform _ _ _ _ _ _ _ _ _ _ _ Hu Hd) as Hu'.
  destruct rm; cbn [negb].
  - set (pt0 := if (_ =? 0)%Z then _ else _).
    assert (balanced pt0) as Hb0.
    { unfold pt0. destruct (_ =? 0)%Z; intros t; simpl; [done|].
      intros [= <-]. by eapply pcollapse_uniform. }
    clearbody pt0.
    destruct (foldl _ _ _) as [pt1|] eqn:Hf; [|done]. intros [= <- _].
    revert Hf. apply (foldl_option_inv balanced (λ a n, preinsert n a));
      [|done].
    intros a y b _ Ha. by apply preinsert_balanced.
  - intros [= <- _] t [= <-]. by exists n.
Qed.

Lemma pure_step_balanced o pt pt' :
  balanced pt → pure_step compare o pt = Some pt' → balanced pt'.
Proof.
  intros Hb. destruct o as [|k min max data|k min max data
                           |k oldMin oldMax oldData newMin newMax newData|k];
    simpl.
  - by intros [= <-].
  - by apply PInsert_balanced.
  - destruct (PDelete _ _ _ _ _) as [[pt1 rm]|] eqn:Hd; [|done].
    intros [= <-]. by eapply PDelete_balanced.
  - unfold PReplace.
    destruct (PDelete _ _ _ _ _) as [[pt1 rm]|] eqn:Hd; [|done].
    pose proof (PDelete_balanced _ _ _ _ _ _ Hb Hd) as Hb1.
    destruct rm; [by apply PInsert_balanced|by intros [= <-]].
  - by intros [= <-].
Qed.

(** ** The calls compute the pure operations *)

Lemma exec_pure w gs o i tr og w' :
  inv w gs → mutates o i → wtrees w !! i = Some tr → gs !! i = Some og →
  exec compare w o = Ok w' →
  ∃ tr' og' h',
    w' = World h' (wcow w) (<[i := tr']> (wtrees w)) ∧
    tree_repr h' tr' og' ∧
    pure_step compare o (abstract tr og) = Some (abstract tr' og').
Proof.
  intros [_ _ Htree _] Hm Hi Hgi.
  destruct (Htree i tr og Hi Hgi) as (Htr & Hwf & _).
  destruct o as [|k min max data|k min max data
                 |k oldMin oldMax oldData newMin newMax newData|k];
    simpl in Hm; try done; subst k; simpl; rewrite Hi; unfold update.
  - destruct (PInsert_ok (abstract tr og) min max data Hwf) as (pt' & Hpi & _).
    destruct (Insert_refine (wheap w) tr og min max data pt' Htr Hpi)
      as (tr' & g' & h' & -> & _ & Htr' & Hab & _).
    intros [= <-]. exists tr', (Some g'), h'. by rewrite Hab.
  - pose proof (PDelete_ok compare (abstract tr og) min max data Hwf) as Hok.
    pose proof (Delete_spec compare (wheap w) tr og min max data Htr Hwf) as Hd.
    destruct (PDelete compare (abstract tr og) min max data)
      as [[pt' rm]|] eqn:Hpd.
    + destruct (treeDelete_refine compare (wheap w) tr og min max data pt' rm
                  Htr Hpd) as (tr' & og' & h' & Htd & _ & Htr' & Hab & _).
      unfold Delete. rewrite (bind_Ok _ _ _ _ _ Htd). cbv beta iota.
      intros [= <-]. exists tr', og', h'. by rewrite Hab.
    + destruct (findEntry _ _ _ _) as [[e|]|];
        [by destruct Hok as (? & ? & _)|done|by rewrite Hd].
  - pose proof (PDelete_ok compare (abstract tr og) oldMin oldMax oldData Hwf)
      as Hok.
    pose proof (Replace_spec compare (wheap w) tr og oldMin oldMax oldData
                  newMin newMax newData Htr Hwf) as Hd.
    unfold PReplace.
    destruct (PDelete compare (abstract tr og) oldMin oldMax oldData)
      as [[pt1 rm]|] eqn:Hpd.
    + destruct (treeDelete_refine compare (wheap w) tr og oldMin oldMax oldData
                  pt1 rm Htr Hpd) as (tr1 & og1 & h1 & Htd & _ & Htr1 & Hab & _).
      unfold Replace. rewrite (bind_Ok _ _ _ _ _ Htd). cbv beta iota.
      destruct rm.
      * assert (wf_tree pt1) as Hwf1.
        { destruct (findEntry _ _ _ _) as [[e|]|]; [|done..].
          destruct Hok as (pt2 & [= <-] & ? & _). done. }
        rewrite <- Hab in Hwf1 |- *.
        destruct (PInsert_ok (abstract tr1 og1) newMin newMax newData Hwf1)
          as (pt' & Hpi & _).
        destruct (Insert_refine h1 tr1 og1 newMin newMax newData pt' Htr1 Hpi)
          as (tr' & g' & h' & -> & _ & Htr' & Hab' & _).
        intros [= <-]. exists tr', (Some g'), h'. by rewrite Hab'.
      * intros [= <-]. exists tr1, og1, h1. by rewrite Hab.
    + destruct (findEntry _ _ _ _) as [[e|]|];
        [by destruct Hok as (? & ? & _)|done|by rewrite Hd].
Qed.

Lemma exec_length w o w' :
  exec compare w o = Ok w' →
  length (wtrees w') =
  match o with
  | OpNew | OpCopy _ => S (length (wtrees w))
  | _ => length (wtrees w)
  end.
Proof.
  destruct o as [|k min max data|k min max data
                 |k oldMin oldMax oldData newMin newMax newData|k]; simpl;
    [intros [= <-]; simpl; rewrite length_app; simpl; lia|..];
    destruct (wtrees w !! k) as [tr|]; try done; unfold update.
  - destruct (Insert _ _ _ _ _) as [[tr' h']| |]; [|done..].
    intros [= <-]. simpl. by rewrite length_insert.
  - destruct (Delete _ _ _ _ _ _) as [[tr' h']| |]; [|done..].
    intros [= <-]. simpl. by rewrite length_insert.
  - destruct (Replace _ _ _ _ _ _ _ _ _) as [[tr' h']| |]; [|done..].
    intros [= <-]. simpl. by rewrite length_insert.
  - unfold Copy. intros [= <-]. simpl. rewrite length_app, length_insert.
    simpl. lia.
Qed.

(** The tree laid out as [og] has its leaves level. *)
Definition level og : Prop := ∀ g, og = Some g → ∃ n, uniform n (erase g).

Lemma balanced_abstract tr og : balanced (abstract tr og) ↔ level og.
Proof.
  unfold balanced, level, abstract. simpl. split.
  - intros H g ->. by apply H.
  - intros H t Ht. destruct og as [g|]; [|done]. injection Ht as <-.
    by apply H.
Qed.

Lemma tree_repr_agree (h : store N T) tr og og' :
  tree_repr h tr og → tree_repr h tr og' → abstract tr og = abstract tr og'.
Proof.
  intros H1%tree_value_spec H2%tree_value_spec. congruence.
Qed.

Lemma exec_level w gs o w' :
  inv w gs → Forall level gs → no_wrap w o → exec compare w o = Ok w' →
  ∃ gs', inv w' gs' ∧ Forall level gs'.
Proof.
  intros Hinv Hlev Hnw He.
  destruct (exec_inv compare w gs o w' Hinv Hnw He)
    as (gs' & Hinv' & Hkeep & Hcopy).
  exists gs'. split; [done|]. apply Forall_lookup. intros j og' Hj.
  pose proof Hinv as [Hlen _ Htree _]. pose proof Hinv' as [Hlen' _ Htree' _].
  pose proof (exec_length w o w' He) as Hl.
  destruct (decide (j < length gs)) as [Hlt|Hge].
  - assert (mutates o j ∨ ¬ mutates o j) as [Hm|Hm].
    { destruct o as [|k ? ? ?|k ? ? ?|k ? ? ? ? ? ?|k]; simpl;
        try tauto; destruct (decide (k = j)); tauto. }
    + assert (is_Some (wtrees w !! j)) as [tr Hi].
      { apply lookup_lt_is_Some. by rewrite <- Hlen. }
      assert (is_Some (gs !! j)) as [og Hgi] by by apply lookup_lt_is_Some.
      destruct (exec_pure w gs o j tr og w' Hinv Hm Hi Hgi He)
        as (tr' & og'' & h' & -> & Htr' & Hps).
      assert (balanced (abstract tr' og'')) as Hb.
      { eapply pure_step_balanced; [|done]. apply balanced_abstract.
        by eapply Forall_lookup_1. }
      assert (wtrees (World h' (wcow w) (<[j := tr']> (wtrees w))) !! j
              = Some tr') as Hj'.
      { simpl. apply list_lookup_insert_eq. by eapply lookup_lt_Some. }
      destruct (Htree' j tr' og' Hj' Hj) as (Htr2 & _).
      apply (balanced_abstract tr').
      by rewrite (tree_repr_agree _ _ _ _ Htr2 Htr').
    + rewrite (Hkeep j Hm Hlt) in Hj. by eapply Forall_lookup_1.
  - pose proof (lookup_lt_Some _ _ _ Hj) as Hj'. rewrite Hlen', Hl in Hj'.
    destruct o as [|k ? ? ?|k ? ? ?|k ? ? ? ? ? ?|k]; try lia.
    + assert (j = length gs) as -> by lia.
      simpl in He. injection He as <-.
      destruct (Htree' (length gs) (Tree 0 0 zero_rect None) og')
        as ([Hroot _] & _); [|done|].
      { simpl. rewrite Hlen. by apply list_lookup_middle. }
      simpl in Hroot. destruct og'; [done|]. by intros g.
    + assert (j = length gs) as -> by lia.
      rewrite (Hcopy k eq_refl) in Hj. by eapply Forall_lookup_1.
Qed.

Lemma steps_level w gs ops w' :
  inv w gs → Forall level gs → steps compare w ops w' →
  ∃ gs', inv w' gs' ∧ Forall level gs'.
Proof.
  intros Hinv Hlev Hs. revert gs Hinv Hlev.
  induction Hs as [w|w o w1 ops w' Hnw He Hs IH]; intros gs Hinv Hlev;
    [by exists gs|].
  destruct (exec_level w gs o w1 Hinv Hlev Hnw He) as (gs1 & Hinv1 & Hlev1).
  by eapply IH.
Qed.

Lemma reachable_level w i tr :
  reachable compare w → wtrees w !! i = Some tr →
  ∃ og, tree_repr (wheap w) tr og ∧ wf_tree (abstract tr og) ∧
        balanced (abstract tr og).
Proof.
  intros [ops Hs] Hi.
  destruct (steps_level init [] ops w inv_init (Forall_nil_2 _) Hs)
    as (gs & [Hlen _ Htree _] & Hlev).
  assert (is_Some (gs !! i)) as [og Hgi].
  { apply lookup_lt_is_Some. rewrite Hlen. by eapply lookup_lt_Some. }
  exists og. destruct (Htree i tr og Hi Hgi) as (? & ? & _).
  split_and!; [done..|]. apply balanced_abstract. by eapply Forall_lookup_1.
Qed.

(** ** Depth and size of a level tree *)

Lemma uniform_leaf_depths t : ∀ n,
  uniform n t → Forall (λ d, d = n) (leaf_depths t).
Proof.
  induction t as [l|es IH] using ptree_ind'; intros n Hu.
  - apply uniform_leaf_inv in Hu as ->. simpl. by repeat constructor.
  - apply uniform_branch_inv in Hu as (n' & -> & Hall). simpl.
    apply Forall_forall. intros d (k & Hk & Hd)%elem_of_concat_map.
    apply list_elem_of_fmap in Hd as (d' & -> & Hd'). f_equal.
    assert (uniform n' k.2) as Hu.
    { apply (proj1 (Forall_forall _ _) Hall). apply list_elem_of_fmap. eauto. }
    apply (proj1 (Forall_forall _ _)
             (proj1 (Forall_forall _ _) IH k Hk n' Hu) d' Hd').
Qed.

Lemma uniform_height t : ∀ n,
  uniform n t → wf t → (pleaf t = false → 1 ≤ pcount t) → pheight t = n.
Proof.
  induction t as [l|es IH] using ptree_ind'; intros n Hu Hwf Hne.
  - by apply uniform_leaf_inv in Hu as ->.
  - apply uniform_branch_inv in Hu as (n' & -> & Hall).
    apply wf_branch in Hwf as [_ Hch]. specialize (Hne eq_refl).
    simpl in Hne |- *. f_equal.
    assert (Forall (λ e, pheight e.2 = n') es) as Hh.
    { apply Forall_forall. intros e He.
      pose proof (proj1 (Forall_forall _ _) Hch e He) as (_ & Hc & Hw).
      apply (proj1 (Forall_forall _ _) IH e He); [|done|intros; cap].
      apply (proj1 (Forall_forall _ _) Hall). apply list_elem_of_fmap. eauto. }
    clear -Hh Hne. destruct es as [|e es]; [simpl in Hne; lia|].
    clear Hne. apply Forall_cons in Hh as [He Hh]. simpl. rewrite He.
    induction Hh as [|e' es He' Hh IHh]; simpl; [lia|].
    rewrite He'. lia.
Qed.

Lemma concat_map_length_bounds {X Y} (f : X → list Y) (l : list X) a b :
  Forall (λ x, a ≤ length (f x) ≤ b) l →
  length l * a ≤ length (concat (map f l)) ≤ length l * b.
Proof.
  induction 1 as [|x l Hx Hl IH]; simpl; [lia|]. rewrite length_app. lia.
Qed.

Lemma uniform_size t : ∀ n,
  uniform n t → wf t → minEntries ≤ pcount t < maxEntries →
  minEntries ^ S n ≤ length (entries t) ≤ (maxEntries - 1) ^ S n.
Proof.
  induction t as [l|es IH] using ptree_ind'; intros n Hu Hwf Hc.
  - apply uniform_leaf_inv in Hu as ->. rewrite entries_leaf, !Nat.pow_1_r.
    simpl in Hc. lia.
  - apply uniform_branch_inv in Hu as (n' & -> & Hall).
    apply wf_branch in Hwf as [_ Hch]. rewrite entries_branch.
    simpl in Hc.
    assert (Forall (λ e, minEntries ^ S n' ≤ length (entries e.2)
                         ≤ (maxEntries - 1) ^ S n') es) as Hb.
    { apply Forall_forall. intros e He.
      pose proof (proj1 (Forall_forall _ _) Hch e He) as (_ & Hce & Hw).
      apply (proj1 (Forall_forall _ _) IH e He); [|done..].
      apply (proj1 (Forall_forall _ _) Hall). apply list_elem_of_fmap. eauto. }
    apply concat_map_length_bounds in Hb.
    rewrite (Nat.pow_succ_r' minEntries (S n')),
      (Nat.pow_succ_r' (maxEntries - 1) (S n')).
    split.
    + etrans; [|apply Hb]. apply Nat.mul_le_mono_r. lia.
    + etrans; [apply Hb|]. apply Nat.mul_le_mono_r. lia.
Qed.

Lemma root_size t n :
  uniform n t → root_ok t →
  length (entries t) ≤ (maxEntries - 1) ^ S n ∧
  (pleaf t = false → 2 * minEntries ^ n ≤ length (entries t)).
Proof.
  intros Hu (Hwf & Hc & Hbr). destruct t as [l|es].
  - apply uniform_leaf_inv in Hu as ->. rewrite entries_leaf, Nat.pow_1_r.
    simpl in Hc. split; [lia|done].
  - apply uniform_branch_inv in Hu as (n' & -> & Hall).
    apply wf_branch in Hwf as [_ Hch]. rewrite entries_branch.
    specialize (Hbr eq_refl). simpl in Hc, Hbr.
    assert (Forall (λ e, minEntries ^ S n' ≤ length (entries e.2)
                         ≤ (maxEntries - 1) ^ S n') es) as Hb.
    { apply Forall_forall. intros e He.
      pose proof (proj1 (Forall_forall _ _) Hch e He) as (_ & Hce & Hw).
      apply uniform_size; [|done..].
      apply (proj1 (Forall_forall _ _) Hall). apply list_elem_of_fmap. eauto. }
    apply concat_map_length_bounds in Hb.
    rewrite (Nat.pow_succ_r' (maxEntries - 1) (S n')). split.
    + etrans; [apply Hb|]. apply Nat.mul_le_mono_r. lia.
    + intros _. etrans; [|apply Hb]. apply Nat.mul_le_mono_r. lia.
Qed.

(** X27: in every world a program reaches, all leaves of a tree are at the
    same depth, the height of the tree. *)
Theorem leaves_same_depth w i tr :
  reachable compare w → wtrees w !! i = Some tr →
  ∃ pt, tree_value (wheap w) tr = Ok pt ∧
    ∀ t, ptroot pt = Some t →
      leaf_depths t ≠ [] ∧ Forall (λ d, d = pheight t) (leaf_depths t).
Proof.
  intros Hw Hi.
  destruct (reachable_level w i tr Hw Hi) as (og & Htr & Hwf & Hb).
  exists (abstract tr og). split; [by apply tree_value_spec|].
  intros t Ht. destruct (Hb t Ht) as [n Hu].
  unfold wf_tree in Hwf. rewrite Ht in Hwf.
  destruct Hwf as ((Hwt & Hc & Hbr) & _).
  rewrite (uniform_height t n Hu Hwt) by (intros; lia).
  split; [|by apply uniform_leaf_depths].
  clear -Hu Hwt Hc. revert n Hu Hwt Hc.
  induction t as [l|es IH] using ptree_ind'; intros n Hu Hwt Hc; [done|].
  apply uniform_branch_inv in Hu as (n' & -> & Hall).
  apply wf_branch in Hwt as [_ Hch].
  destruct es as [|e es]; [simpl in Hc; lia|].
  apply Forall_cons in IH as [IHe _]. apply Forall_cons in Hch as [Hok _].
  apply Forall_cons in Hall as [Hue _]. destruct Hok as (_ & Hce & Hwe).
  simpl. intros [He _]%app_eq_nil. apply fmap_nil_inv in He.
  apply (IHe n'); [done|done|cap|done].
Qed.

(** X28: in every world a program reaches, a tree of height [h] (a lone
    leaf has height 0) holds at most [(maxEntries - 1) ^ (h + 1)] entries,
    and at least [2 * minEntries ^ h] when its root is a branch. *)
Theorem height_logarithmic w i tr :
  reachable compare w → wtrees w !! i = Some tr →
  ∃ pt, tree_value (wheap w) tr = Ok pt ∧
    ∀ t, ptroot pt = Some t →
      (Len tr ≤ Z.of_nat ((maxEntries - 1) ^ S (pheight t)))%Z ∧
      (pleaf t = false → (Z.of_nat (2 * minEntries ^ pheight t) ≤ Len tr)%Z).
Proof.
  intros Hw Hi.
  destruct (reachable_level w i tr Hw Hi) as (og & Htr & Hwf & Hb).
  exists (abstract tr og). split; [by apply tree_value_spec|].
  intros t Ht. destruct (Hb t Ht) as [n Hu].
  unfold wf_tree in Hwf. rewrite Ht in Hwf.
  destruct Hwf as (Hroot & _ & Hcount). simpl in Hcount.
  pose proof Hroot as (Hwt & Hc & _).
  rewrite (uniform_height t n Hu Hwt) by (intros; lia).
  destruct (root_size t n Hu Hroot) as [Hub Hlb].
  unfold Len. rewrite Hcount. split; [lia|]. intros Hl.
  specialize (Hlb Hl). lia.
Qed.

End Balance.

(** * The properties at the sample programs *)

Local Open Scope Z_scope.

(** Running a sample program. *)
Ltac ran := vm_compute; reflexivity.
Ltac reached p := apply (run_reachable _ p); ran.

(** Four boxes and the target (2,2)-(5,5): the first box overlaps the
    target, the third touches it in a corner. *)
Lemma search_visits_intersecting_witness :
  reachable compare_int (after prog_boxes) ∧
  wtrees (after prog_boxes) !! 0%nat = Some (tree (after prog_boxes) 0) ∧
  ∃ es, scan_all (wheap (after prog_boxes)) (tree (after prog_boxes) 0) = Ok es ∧
    search_all (wheap (after prog_boxes)) (tree (after prog_boxes) 0) (2, 2) (5, 5)
    = Ok (filter (λ e, intersects e.1 (Rect (2, 2) (5, 5)) = true) es) ∧
    filter (λ e, intersects e.1 (Rect (2, 2) (5, 5)) = true) es
    = [(Rect (0, 0) (3, 3), 7); (Rect (5, 5) (6, 6), 8)].
Proof.
  assert (reachable compare_int (after prog_boxes)) as Hw by reached prog_boxes.
  assert (wtrees (after prog_boxes) !! 0%nat = Some (tree (after prog_boxes) 0))
    as Hi by ran.
  split; [exact Hw|]. split; [exact Hi|].
  destruct (search_visits_intersecting compare_int (after prog_boxes) 0
              (tree (after prog_boxes) 0) (2, 2) (5, 5) Hw Hi)
    as (es & Hs & Hq & _).
  exists es. split; [exact Hs|]. split; [exact Hq|].
  assert (es = scanned (scan_all (wheap (after prog_boxes))
                          (tree (after prog_boxes) 0))) as ->
    by (rewrite Hs; reflexivity).
  ran.
Defined.

(** After the deletions that empty a leaf below [minEntries]. *)
Lemma len_is_scan_count_witness :
  reachable compare_int (after prog_shrink) ∧
  wtrees (after prog_shrink) !! 0%nat = Some (tree (after prog_shrink) 0) ∧
  ∃ es, scan_all (wheap (after prog_shrink)) (tree (after prog_shrink) 0) = Ok es ∧
    Len (tree (after prog_shrink) 0) = Z.of_nat (length es).
Proof.
  assert (reachable compare_int (after prog_shrink)) as Hw by reached prog_shrink.
  assert (wtrees (after prog_shrink) !! 0%nat = Some (tree (after prog_shrink) 0))
    as Hi by ran.
  split; [exact Hw|]. split; [exact Hi|].
  exact (len_is_scan_count compare_int (after prog_shrink) 0
           (tree (after prog_shrink) 0) Hw Hi).
Defined.

(** The tree 0 of 65 points is copied, then ten points are inserted into
    and ten deleted from the tree 0: the copy scans as the tree 0 did. *)
Lemma copy_isolation_witness :
  ∃ trb,
    wtrees (final (run compare_int
                     (final (exec compare_int (after prog_grow) (OpCopy 0)))
                     prog_edit))
      !! length (wtrees (after prog_grow)) = Some trb ∧
    scan_all (wheap (final (run compare_int
                              (final (exec compare_int (after prog_grow) (OpCopy 0)))
                              prog_edit))) trb
    = Ok (scanned (scan_all (wheap (after prog_grow)) (tree (after prog_grow) 0))).
Proof.
  refine (proj1 (copy_isolation compare_int (after prog_grow) 0
                   (tree (after prog_grow) 0)
                   (final (exec compare_int (after prog_grow) (OpCopy 0)))
                   (scanned (scan_all (wheap (after prog_grow))
                               (tree (after prog_grow) 0)))
                   prog_edit
                   (final (run compare_int
                             (final (exec compare_int (after prog_grow) (OpCopy 0)))
                             prog_edit))
                   _ _ _ _ _ _) _).
  - reached prog_grow.
  - ran.
  - ran.
  - ran.
  - ran.
  - apply run_steps. ran.
  - apply mutatesb_spec. ran.
Defined.



(** The replacement of the point 40 of the tree of 65 points. *)
Lemma replace_first_match_witness :
  ∃ tr' h' pt',
    Replace compare_int (tree (after prog_grow) 0) (point 40) (point 40) 40
      (100, 100) (101, 101) 99 (wheap (after prog_grow)) = Ok (tr', h') ∧
    tree_value h' tr' = Ok pt' ∧
    (Rect (100, 100) (101, 101), 99)
      :: tree_entries (valued (tree_value (wheap (after prog_grow))
                                 (tree (after prog_grow) 0)))
      ≡ₚ entry 40 :: tree_entries pt' ∧
    Len tr' = Len (tree (after prog_grow) 0).
Proof.
  assert (reachable compare_int (after prog_grow)) as Hw by reached prog_grow.
  assert (wtrees (after prog_grow) !! 0%nat = Some (tree (after prog_grow) 0))
    as Hi by ran.
  destruct (replace_first_match compare_int (after prog_grow) 0
              (tree (after prog_grow) 0) (point 40) (point 40) 40
              (100, 100) (101, 101) 99 Hw Hi)
    as (pt & Hpt & _ & _ & Hfirst).
  assert (pt = valued (tree_value (wheap (after prog_grow))
                         (tree (after prog_grow) 0))) as ->
    by (rewrite Hpt; reflexivity).
  apply (Hfirst (map entry (seq 32 8)) (entry 40) (map entry (seq 41 24))).
  - ran.
  - apply all_differ_spec. ran.
  - ran.
  - ran.
Defined.

(** C5 as written fails.  The tree holds the box (0,1)-(1,2) and the box
    (0,0)-(3,3), both with payload 7 (or the second with payload 9).
    Replacing the entry ((0,0),(3,3),7) removes the box (0,1)-(1,2), which
    lies inside the old rectangle and comes first in the leaf: when the old
    entry is present it is still there afterwards, and when it is absent
    the tree has changed all the same. *)
Lemma replace_first_match_counterexample :
  (reachable compare_int (after prog_nested) ∧
   scan_all (wheap (after prog_nested)) (tree (after prog_nested) 0)
   = Ok [(Rect (0, 1) (1, 2), 7); (Rect (0, 0) (3, 3), 7)] ∧
   ∃ w', exec compare_int (after prog_nested)
           (OpReplace 0 (0, 0) (3, 3) 7 (5, 5) (6, 6) 8) = Ok w' ∧
     scan_all (wheap w') (tree w' 0)
     = Ok [(Rect (0, 0) (3, 3), 7); (Rect (5, 5) (6, 6), 8)]) ∧
  (reachable compare_int (after prog_nested') ∧
   scan_all (wheap (after prog_nested')) (tree (after prog_nested') 0)
   = Ok [(Rect (0, 1) (1, 2), 7); (Rect (0, 0) (3, 3), 9)] ∧
   ∃ w', exec compare_int (after prog_nested')
           (OpReplace 0 (0, 0) (3, 3) 7 (5, 5) (6, 6) 8) = Ok w' ∧
     scan_all (wheap w') (tree w' 0)
     = Ok [(Rect (0, 0) (3, 3), 9); (Rect (5, 5) (6, 6), 8)]).
Proof.
  split; (split; [|split]).
  - reached prog_nested.
  - ran.
  - exists (final (exec compare_int (after prog_nested)
                     (OpReplace 0 (0, 0) (3, 3) 7 (5, 5) (6, 6) 8))).
    split; ran.
  - reached prog_nested'.
  - ran.
  - exists (final (exec compare_int (after prog_nested')
                     (OpReplace 0 (0, 0) (3, 3) 7 (5, 5) (6, 6) 8))).
    split; ran.
Qed.

(** A node of 64 points. *)
Lemma split_full_node_witness :
  length full_node = maxEntries ∧
  ∃ l' r', splitNode (Rect (0, 0) (63, 10)) full_node = Some (l', r') ∧
    l' ++ r' ≡ₚ full_node ∧
    (6 ≤ length l' ≤ 63)%nat ∧ (6 ≤ length r' ≤ 63)%nat.
Proof.
  assert (length full_node = maxEntries) as Hlen by ran.
  split; [exact Hlen|].
  destruct (split_full_node (Rect (0, 0) (63, 10)) full_node Hlen)
    as (Hmax & Hmin & l' & r' & Hs & Hp & Hl & Hr).
  exists l', r'. rewrite Hmax, Hmin in Hl, Hr.
  exact (conj Hs (conj Hp (conj Hl Hr))).
Defined.

(** Two of three children contain the entry. *)
Lemma choose_subtree_rule_witness :
  three_rects ≠ [] ∧
  ∃ j r, chooseSubtree three_rects (Rect (1, 1) (2, 2)) = Some j ∧
    three_rects !! j = Some r.
Proof.
  assert (three_rects ≠ []) as Hne by discriminate.
  split; [exact Hne|].
  destruct (choose_subtree_rule three_rects (Rect (1, 1) (2, 2)) Hne)
    as (j & r & Hj & Hr & _).
  exists j, r. exact (conj Hj Hr).
Defined.

Lemma nodes_sorted_witness :
  reachable compare_int (after prog_shrink) ∧
  wtrees (after prog_shrink) !! 0%nat = Some (tree (after prog_shrink) 0) ∧
  ∃ pt, tree_value (wheap (after prog_shrink)) (tree (after prog_shrink) 0) = Ok pt ∧
    ∀ t, ptroot pt = Some t → Forall nondecreasing (node_rects t).
Proof.
  assert (reachable compare_int (after prog_shrink)) as Hw by reached prog_shrink.
  assert (wtrees (after prog_shrink) !! 0%nat = Some (tree (after prog_shrink) 0))
    as Hi by ran.
  split; [exact Hw|]. split; [exact Hi|].
  exact (nodes_sorted compare_int (after prog_shrink) 0
           (tree (after prog_shrink) 0) Hw Hi).
Defined.

Lemma bounds_is_mbr_witness :
  reachable compare_int (after prog_shrink) ∧
  wtrees (after prog_shrink) !! 0%nat = Some (tree (after prog_shrink) 0) ∧
  ∃ es, scan_all (wheap (after prog_shrink)) (tree (after prog_shrink) 0) = Ok es ∧
    (es = [] →
       Bounds (tree (after prog_shrink) 0) = ((nzero, nzero), (nzero, nzero))) ∧
    (es ≠ [] →
       (∀ e, e ∈ es →
          contains (Rect (Bounds (tree (after prog_shrink) 0)).1
                         (Bounds (tree (after prog_shrink) 0)).2) e.1 = true) ∧
       ∀ r, (∀ e, e ∈ es → contains r e.1 = true) →
          contains r (Rect (Bounds (tree (after prog_shrink) 0)).1
                           (Bounds (tree (after prog_shrink) 0)).2) = true).
Proof.
  assert (reachable compare_int (after prog_shrink)) as Hw by reached prog_shrink.
  assert (wtrees (after prog_shrink) !! 0%nat = Some (tree (after prog_shrink) 0))
    as Hi by ran.
  split; [exact Hw|]. split; [exact Hi|].
  exact (bounds_is_mbr compare_int (after prog_shrink) 0
           (tree (after prog_shrink) 0) Hw Hi).
Defined.



(** * More properties at the sample programs *)

Local Open Scope Z_scope.

Lemma compare_int_total (a b : Z) : compare_int a b ≠ None.
Proof. discriminate. Qed.

Lemma compare_int_eq (a b : Z) : compare_int a b = Some true ↔ a = b.
Proof.
  unfold compare_int. split.
  - intros [= H]. by apply Z.eqb_eq.
  - intros ->. by rewrite Z.eqb_refl.
Qed.

Lemma boxes_reached : reachable compare_int (after prog_boxes).
Proof. reached prog_boxes. Qed.

Lemma boxes_tree :
  wtrees (after prog_boxes) !! 0%nat = Some (tree (after prog_boxes) 0).
Proof. ran. Qed.

Lemma shrink_reached : reachable compare_int (after prog_shrink).
Proof. reached prog_shrink. Qed.

Lemma shrink_tree :
  wtrees (after prog_shrink) !! 0%nat = Some (tree (after prog_shrink) 0).
Proof. ran. Qed.

Lemma grow_reached : reachable compare_int (after prog_grow).
Proof. reached prog_grow. Qed.

Lemma grow_tree :
  wtrees (after prog_grow) !! 0%nat = Some (tree (after prog_grow) 0).
Proof. ran. Qed.

Lemma insert_adds_entry_witness :
  ∃ w' tr' es es',
    exec compare_int (after prog_boxes) (OpInsert 0 (1, 1) (2, 2) 5) = Ok w' ∧
    wtrees w' !! 0%nat = Some tr' ∧
    scan_all (wheap (after prog_boxes)) (tree (after prog_boxes) 0) = Ok es ∧
    scan_all (wheap w') tr' = Ok es' ∧
    es' ≡ₚ (Rect (1, 1) (2, 2), 5) :: es ∧
    Len tr' = Len (tree (after prog_boxes) 0) + 1.
Proof.
  exact (insert_adds_entry compare_int (after prog_boxes) 0
           (tree (after prog_boxes) 0) (1, 1) (2, 2) 5 boxes_reached boxes_tree).
Defined.

Lemma insert_then_search_witness :
  ∃ w' tr' found,
    exec compare_int (after prog_boxes) (OpInsert 0 (1, 1) (2, 2) 5) = Ok w' ∧
    wtrees w' !! 0%nat = Some tr' ∧
    search_all (wheap w') tr' (2, 2) (5, 5) = Ok found ∧
    (Rect (1, 1) (2, 2), 5) ∈ found.
Proof.
  apply (insert_then_search compare_int (after prog_boxes) 0
           (tree (after prog_boxes) 0) (1, 1) (2, 2) 5 (2, 2) (5, 5)
           boxes_reached boxes_tree).
  ran.
Defined.

Lemma insert_bounds_witness :
  ∃ w' tr',
    exec compare_int (after prog_boxes) (OpInsert 0 (1, 1) (12, 2) 5) = Ok w' ∧
    wtrees w' !! 0%nat = Some tr' ∧
    Rect (Bounds tr').1 (Bounds tr').2
    = if Len (tree (after prog_boxes) 0) =? 0 then Rect (1, 1) (12, 2)
      else expand (Rect (Bounds (tree (after prog_boxes) 0)).1
                        (Bounds (tree (after prog_boxes) 0)).2)
                  (Rect (1, 1) (12, 2)).
Proof.
  exact (insert_bounds compare_int (after prog_boxes) 0
           (tree (after prog_boxes) 0) (1, 1) (12, 2) 5 boxes_reached boxes_tree).
Defined.

Lemma delete_returns_witness :
  ∃ w' tr' es es',
    exec compare_int (after prog_shrink) (delete_point 0 40) = Ok w' ∧
    wtrees w' !! 0%nat = Some tr' ∧
    scan_all (wheap (after prog_shrink)) (tree (after prog_shrink) 0) = Ok es ∧
    scan_all (wheap w') tr' = Ok es' ∧
    Len tr' = Z.of_nat (length es') ∧
    (es' = es ∨
     ∃ e, es ≡ₚ e :: es' ∧ contains (Rect (point 40) (point 40)) e.1 = true ∧
          compare_int e.2 (Z.of_nat 40) = Some true).
Proof.
  exact (delete_returns compare_int (after prog_shrink) 0
           (tree (after prog_shrink) 0) (point 40) (point 40) (Z.of_nat 40)
           compare_int_total shrink_reached shrink_tree).
Defined.

Lemma insert_delete_roundtrip_witness :
  ∃ w1 w2 tr2 es2,
    exec compare_int (after prog_boxes) (OpInsert 0 (0, 0) (9, 9) 5) = Ok w1 ∧
    exec compare_int w1 (OpDelete 0 (0, 0) (9, 9) 5) = Ok w2 ∧
    wtrees w2 !! 0%nat = Some tr2 ∧
    scan_all (wheap w2) tr2 = Ok es2 ∧
    es2 ≡ₚ [(Rect (0, 1) (1, 2), 7); (Rect (0, 0) (3, 3), 7);
            (Rect (5, 5) (6, 6), 8); (Rect (7, 7) (8, 8), 9)] ∧
    Len tr2 = Len (tree (after prog_boxes) 0) ∧
    Bounds tr2 = Bounds (tree (after prog_boxes) 0).
Proof.
  apply (insert_delete_roundtrip compare_int (after prog_boxes) 0
           (tree (after prog_boxes) 0) _ (0, 0) (9, 9) 5
           compare_int_eq compare_int_total boxes_reached boxes_tree).
  - ran.
  - intros e He _.
    repeat (apply elem_of_cons in He as [->|He]; [discriminate|]).
    by apply elem_of_nil in He.
Defined.

Lemma scan_visits_in_order_witness :
  ∃ pt, tree_value (wheap (after prog_shrink)) (tree (after prog_shrink) 0) = Ok pt ∧
    scan_all (wheap (after prog_shrink)) (tree (after prog_shrink) 0)
    = Ok (tree_entries pt) ∧
    ∀ St (iter : St → Z * Z → Z * Z → Z → St * bool) (s : St),
      Scan iter (wheap (after prog_shrink)) (tree (after prog_shrink) 0) s
      = Ok (visitItems iter (tree_entries pt) s).1 ∧
      ∀ l1 e l2 s1 s2,
        tree_entries pt = l1 ++ e :: l2 →
        visitItems iter l1 s = (s1, true) →
        iter s1 (rmin e.1) (rmax e.1) e.2 = (s2, false) →
        Scan iter (wheap (after prog_shrink)) (tree (after prog_shrink) 0) s
        = Ok s2.
Proof.
  exact (scan_visits_in_order compare_int (after prog_shrink) 0
           (tree (after prog_shrink) 0) shrink_reached shrink_tree).
Defined.

Lemma empty_iff_no_root_witness :
  (troot (tree (after prog_shrink) 0) = None
   ↔ Len (tree (after prog_shrink) 0) = 0) ∧
  (Len (tree (after prog_shrink) 0) = 0
   ↔ scan_all (wheap (after prog_shrink)) (tree (after prog_shrink) 0) = Ok []) ∧
  0 ≤ Len (tree (after prog_shrink) 0).
Proof.
  exact (empty_iff_no_root compare_int (after prog_shrink) 0
           (tree (after prog_shrink) 0) shrink_reached shrink_tree).
Defined.

Lemma nodes_filled_witness :
  ∃ pt, tree_value (wheap (after prog_grow)) (tree (after prog_grow) 0) = Ok pt ∧
    ∀ t, ptroot pt = Some t →
      (1 ≤ pcount t ≤ maxEntries - 1)%nat ∧
      (pleaf t = false → (2 ≤ pcount t)%nat) ∧
      trect (tree (after prog_grow) 0) = prect t ∧
      Forall (λ e, e.1 = prect e.2 ∧
                   (minEntries ≤ pcount e.2 ≤ maxEntries - 1)%nat) (slots t).
Proof.
  exact (nodes_filled compare_int (after prog_grow) 0
           (tree (after prog_grow) 0) grow_reached grow_tree).
Defined.

Lemma deepCount_root_witness :
  ∃ n, deepCount (depth (wheap (after prog_grow))) (wheap (after prog_grow)) 2
       = Ok n ∧
    Len (tree (after prog_grow) 0) = Z.of_nat n.
Proof.
  apply (deepCount_root compare_int (after prog_grow) 0
           (tree (after prog_grow) 0) 2 grow_reached grow_tree).
  ran.
Defined.

(** A new tree, insertions into it and a copy of the tree 0 next to the
    tree 0. *)
Lemma others_keep_scan_witness :
  ∃ tr',
    wtrees (final (run compare_int (after prog_grow)
                     [OpNew; insert_point 1 3; OpCopy 0; insert_point 2 70]))
      !! 0%nat = Some tr' ∧
    scan_all (wheap (final (run compare_int (after prog_grow)
                              [OpNew; insert_point 1 3; OpCopy 0;
                               insert_point 2 70]))) tr'
    = Ok (scanned (scan_all (wheap (after prog_grow)) (tree (after prog_grow) 0))).
Proof.
  apply (others_keep_scan compare_int (after prog_grow)
           [OpNew; insert_point 1 3; OpCopy 0; insert_point 2 70]
           _ 0 (tree (after prog_grow) 0) _ grow_reached grow_tree).
  - ran.
  - apply run_steps. ran.
  - apply mutatesb_spec. ran.
Defined.

(** An insertion into the tree 0 after it has been copied. *)
Lemma mutation_writes_own_nodes_witness :
  ∃ ns,
    tree_nodes (wheap (after (prog_grow ++ [OpCopy 0])))
      (tree (after (prog_grow ++ [OpCopy 0])) 0) = Ok ns ∧
    wcow (final (exec compare_int (after (prog_grow ++ [OpCopy 0]))
                   (insert_point 0 70)))
    = wcow (after (prog_grow ++ [OpCopy 0])) ∧
    (length (wheap (after (prog_grow ++ [OpCopy 0])))
     ≤ length (wheap (final (exec compare_int (after (prog_grow ++ [OpCopy 0]))
                               (insert_point 0 70)))))%nat ∧
    (∃ tr', wtrees (final (exec compare_int (after (prog_grow ++ [OpCopy 0]))
                             (insert_point 0 70))) !! 0%nat = Some tr' ∧
            tcow tr' = tcow (tree (after (prog_grow ++ [OpCopy 0])) 0)) ∧
    (∀ j, j ≠ 0%nat →
       wtrees (final (exec compare_int (after (prog_grow ++ [OpCopy 0]))
                        (insert_point 0 70))) !! j
       = wtrees (after (prog_grow ++ [OpCopy 0])) !! j) ∧
    ∀ p, (p < length (wheap (after (prog_grow ++ [OpCopy 0]))))%nat →
      (p, tcow (tree (after (prog_grow ++ [OpCopy 0])) 0)) ∉ ns →
      wheap (final (exec compare_int (after (prog_grow ++ [OpCopy 0]))
                      (insert_point 0 70))) !! p
      = wheap (after (prog_grow ++ [OpCopy 0])) !! p.
Proof.
  apply (mutation_writes_own_nodes compare_int (after (prog_grow ++ [OpCopy 0]))
           0 (tree (after (prog_grow ++ [OpCopy 0])) 0) (insert_point 0 70)).
  - reached (prog_grow ++ [OpCopy 0]).
  - ran.
  - reflexivity.
  - ran.
Defined.

Lemma cow_invariant_witness :
  ∃ ni nj,
    tree_nodes (wheap (after (prog_grow ++ [OpCopy 0; insert_point 0 70])))
      (tree (after (prog_grow ++ [OpCopy 0; insert_point 0 70])) 0) = Ok ni ∧
    tree_nodes (wheap (after (prog_grow ++ [OpCopy 0; insert_point 0 70])))
      (tree (after (prog_grow ++ [OpCopy 0; insert_point 0 70])) 1) = Ok nj ∧
    NoDup ni.*1 ∧
    tcow (tree (after (prog_grow ++ [OpCopy 0; insert_point 0 70])) 0)
    ≤ wcow (after (prog_grow ++ [OpCopy 0; insert_point 0 70])) ∧
    (∀ p c, (p, c) ∈ ni →
       c ≤ wcow (after (prog_grow ++ [OpCopy 0; insert_point 0 70]))) ∧
    ∀ p, (p, tcow (tree (after (prog_grow ++ [OpCopy 0; insert_point 0 70])) 0))
         ∈ ni → p ∉ nj.*1.
Proof.
  apply (cow_invariant compare_int
           (after (prog_grow ++ [OpCopy 0; insert_point 0 70])) 0 1).
  - reached (prog_grow ++ [OpCopy 0; insert_point 0 70]).
  - discriminate.
  - ran.
  - ran.
Defined.

Lemma copy_freezes_store_witness :
  wheap (final (exec compare_int (after prog_grow) (OpCopy 0)))
  = wheap (after prog_grow) ∧
  ∀ p, (p < length (wheap (after prog_grow)))%nat →
    wheap (final (run compare_int
                    (final (exec compare_int (after prog_grow) (OpCopy 0)))
                    (prog_edit ++ [insert_point 1 80; delete_point 1 3])))
      !! p
    = wheap (after prog_grow) !! p.
Proof.
  apply (copy_freezes_store compare_int (after prog_grow) 0
           (tree (after prog_grow) 0)
           (final (exec compare_int (after prog_grow) (OpCopy 0)))
           (prog_edit ++ [insert_point 1 80; delete_point 1 3])).
  - exact grow_reached.
  - exact grow_tree.
  - ran.
  - ran.
  - apply mutates_either. ran.
  - apply run_steps. ran.
Defined.

Lemma expand_is_join_witness :
  expand (expand (Rect (0, 0) (1, 1)) (Rect (2, 2) (3, 3))) (Rect (-1, 5) (0, 6))
  = expand (Rect (0, 0) (1, 1)) (expand (Rect (2, 2) (3, 3)) (Rect (-1, 5) (0, 6))).
Proof.
  exact (proj1 (proj2 (proj2 (proj2 (proj2
           (expand_is_join (Rect (0, 0) (1, 1)) (Rect (2, 2) (3, 3))
              (Rect (-1, 5) (0, 6)))))))).
Defined.

Lemma contains_is_order_witness :
  intersects (Rect (0, 0) (1, 1)) (Rect (1, 1) (3, 3))
  = intersects (Rect (1, 1) (3, 3)) (Rect (0, 0) (1, 1)).
Proof.
  exact (proj1 (proj2 (proj2 (proj2
           (contains_is_order (Rect (0, 0) (1, 1)) (Rect (1, 1) (3, 3))
              (Rect (0, 0) (0, 0))))))).
Defined.

Lemma equals_is_equality_witness :
  equals (Rect (0, 0) (1, 1)) (Rect (0, 0) (1, 1)) = true.
Proof.
  exact (proj2 (equals_is_equality (Rect (0, 0) (1, 1)) (Rect (0, 0) (1, 1)))
           eq_refl).
Defined.

Lemma unionedArea_is_area_of_expand_witness :
  unionedArea (Rect (0, 0) (1, 1)) (Rect (2, 2) (3, 5))
  = area (expand (Rect (0, 0) (1, 1)) (Rect (2, 2) (3, 5))).
Proof.
  exact (unionedArea_is_area_of_expand (Rect (0, 0) (1, 1)) (Rect (2, 2) (3, 5))).
Defined.

Lemma full_node_nonempty : full_node ≠ [].
Proof. discriminate. Qed.

Lemma node_rect_is_mbr_witness :
  (∀ e, e ∈ full_node → contains (nodeRect full_node) e.1 = true) ∧
  (∀ x, (∀ e, e ∈ full_node → contains x e.1 = true) →
        contains x (nodeRect full_node) = true) ∧
  (∀ l', l' ≡ₚ full_node → nodeRect l' = nodeRect full_node).
Proof. exact (node_rect_is_mbr full_node full_node_nonempty). Defined.

Lemma inner_entry_keeps_rect_witness :
  delete 1%nat [(Rect (0, 0) (10, 10), 1); (Rect (4, 4) (5, 5), 2)] ≠ [] ∧
  nodeRect (delete 1%nat [(Rect (0, 0) (10, 10), 1); (Rect (4, 4) (5, 5), 2)])
  = nodeRect [(Rect (0, 0) (10, 10), 1); (Rect (4, 4) (5, 5), 2)].
Proof.
  apply (inner_entry_keeps_rect
           [(Rect (0, 0) (10, 10), 1); (Rect (4, 4) (5, 5), 2)] 1%nat
           (Rect (4, 4) (5, 5), 2) (Rect (3, 3) (6, 6))); reflexivity.
Defined.

Lemma sort_sorts_witness :
  (issorted three_boxes = true ↔ nondecreasing three_boxes.*1) ∧
  sort three_boxes ≡ₚ three_boxes ∧ issorted (sort three_boxes) = true.
Proof. exact (sort_sorts three_boxes). Defined.

Lemma rsearch_lower_bound_witness :
  leafInsert full_node (Rect (10, 4) (10, 4)) 100
    !! rsearch full_node (rmin (Rect (10, 4) (10, 4))).1
  = Some (Rect (10, 4) (10, 4), 100).
Proof.
  exact (proj1 (proj2 (proj2 (proj2
           (rsearch_lower_bound full_node (Rect (10, 4) (10, 4)) 100))))).
Defined.

Lemma orderToLeft_repairs_witness :
  (orderToLeft ([entry 1; entry 5] ++ entry 3 :: [entry 7])
     (length [entry 1; entry 5])).1
  ≡ₚ [entry 1; entry 5] ++ entry 3 :: [entry 7] ∧
  issorted (orderToLeft ([entry 1; entry 5] ++ entry 3 :: [entry 7])
              (length [entry 1; entry 5])).1 = true ∧
  (orderToLeft ([entry 1; entry 5] ++ entry 3 :: [entry 7])
     (length [entry 1; entry 5])).1
    !! (orderToLeft ([entry 1; entry 5] ++ entry 3 :: [entry 7])
          (length [entry 1; entry 5])).2 = Some (entry 3).
Proof.
  apply (orderToLeft_repairs [entry 1; entry 5] (entry 3) [entry 7]).
  - apply issorted_spec. reflexivity.
  - repeat constructor.
Defined.

Lemma orderToRight_repairs_witness :
  (orderToRight ([entry 1] ++ entry 6 :: [entry 5; entry 7])
     (length [entry 1])).1
  ≡ₚ [entry 1] ++ entry 6 :: [entry 5; entry 7] ∧
  issorted (orderToRight ([entry 1] ++ entry 6 :: [entry 5; entry 7])
              (length [entry 1])).1 = true.
Proof.
  destruct (orderToRight_repairs [entry 1] (entry 6) [entry 5; entry 7])
    as (H1 & H2 & _).
  - apply issorted_spec. reflexivity.
  - repeat constructor.
  - exact (conj H1 H2).
Defined.

Lemma split_sorted_witness :
  ∃ l' r', splitNode (Rect (0, 0) (63, 10)) full_node = Some (l', r') ∧
    issorted l' = true ∧ issorted r' = true ∧ l' ++ r' ≡ₚ full_node.
Proof.
  destruct (splitNode_full (Rect (0, 0) (63, 10)) full_node)
    as (l' & r' & Hs & _); [ran|].
  exists l', r'. split; [exact Hs|].
  exact (split_sorted (Rect (0, 0) (63, 10)) full_node l' r' Hs).
Defined.

Lemma move_rect_moves_one_witness :
  ∃ from' into',
    moveRectAtIndexInto [entry 1; entry 2; entry 3] 1%nat [entry 9]
    = Some (from', into') ∧
    S (length from') = length [entry 1; entry 2; entry 3] ∧
    length into' = S (length [entry 9]) ∧
    last into' = [entry 1; entry 2; entry 3] !! 1%nat ∧
    from' ++ into' ≡ₚ [entry 1; entry 2; entry 3] ++ [entry 9].
Proof.
  apply (move_rect_moves_one [entry 1; entry 2; entry 3] [entry 9] 1%nat).
  - simpl. lia.
  - rewrite maxEntries_eq. simpl. lia.
Defined.

Lemma bsearch_upper_bound_witness :
  ∃ k, bsearch full_node 10 = Some (Z.of_nat k) ∧
    (k ≤ length full_node)%nat ∧
    (∀ j e, (j < k)%nat → full_node !! j = Some e → nlt 10 (min0 e) = false) ∧
    (∀ j e, (k ≤ j)%nat → full_node !! j = Some e → nlt 10 (min0 e) = true).
Proof.
  apply (bsearch_upper_bound full_node 10).
  - ran.
  - rewrite maxEntries_eq. ran.
Defined.

Lemma leaves_same_depth_witness :
  ∃ pt, tree_value (wheap (after prog_shrink)) (tree (after prog_shrink) 0)
        = Ok pt ∧
    ∀ t, ptroot pt = Some t →
      leaf_depths t ≠ [] ∧ Forall (λ d, d = pheight t) (leaf_depths t).
Proof.
  exact (leaves_same_depth compare_int (after prog_shrink) 0
           (tree (after prog_shrink) 0) shrink_reached shrink_tree).
Defined.

Lemma height_logarithmic_witness :
  ∃ pt, tree_value (wheap (after prog_grow)) (tree (after prog_grow) 0) = Ok pt ∧
    ∀ t, ptroot pt = Some t →
      Len (tree (after prog_grow) 0)
        ≤ Z.of_nat ((maxEntries - 1) ^ S (pheight t)) ∧
      (pleaf t = false →
       Z.of_nat (2 * minEntries ^ pheight t) ≤ Len (tree (after prog_grow) 0)).
Proof.
  exact (height_logarithmic compare_int (after prog_grow) 0
           (tree (after prog_grow) 0) grow_reached grow_tree).
Defined.
